(** * Photo enhancer: the pixel filter engine

    A shallow embedding of the filter engine of the photo enhancer
    (colour conversion, per-pixel operators, convolution, the catalogue of
    named filters and the strength blend of [applyFilterToImage]) together
    with the properties its specification states about it.

    Numbers.  A JavaScript [number] is an IEEE 754 binary64 value; it is
    modelled by Rocq's primitive [float], whose operations are the same
    binary64 operations with round-to-nearest-even.  Decimal literals are
    read as the nearest binary64 value, as in JavaScript.

    Buffers.  [ImageData.data] is a [Uint8ClampedArray] holding four bytes
    per pixel.  It is modelled as a list of pixels, each pixel a record of
    four integer channels.  Reading a channel yields its integer value as a
    number ([JS.Z2F]); storing a number converts it with the typed array's
    conversion ([JS.ToUint8Clamp]). *)

From Stdlib Require Import String Ascii.
From Stdlib Require Import ZArith List Bool Lia.
From Stdlib Require Import QArith Lqa.
From Stdlib Require Import Floats.
Import ListNotations.
Close Scope Q_scope.
Set Warnings "-inexact-float,-notation-for-abbreviation".

(* ================================================================== *)
(** ** The JavaScript primitives the engine relies on *)

Module JS.
Local Open Scope float_scope.

(** An integer read as a number (exact for |z| < 2^53). *)
Definition Z2F (z : Z) : float :=
  match z with
  | Z0 => 0
  | Zpos _ => of_uint63 (Uint63.of_Z z)
  | Zneg p => - of_uint63 (Uint63.of_Z (Zpos p))
  end.

(** The integer nearest to [m * 2^e], ties going to the even one. *)
Definition round_half_even (m : positive) (e : Z) : Z :=
  if (0 <=? e)%Z then (Zpos m * 2 ^ e)%Z
  else
    let den := (2 ^ (- e))%Z in
    let q := (Zpos m / den)%Z in
    let r := (Zpos m mod den)%Z in
    match (2 * r ?= den)%Z with
    | Lt => q
    | Gt => (q + 1)%Z
    | Eq => if Z.even q then q else (q + 1)%Z
    end.

(** The conversion applied by a store into a [Uint8ClampedArray]
    (ECMAScript ToUint8Clamp): NaN becomes 0, the value is clamped to
    [0,255] and rounded to the nearest integer, ties to even.  Rounding is
    monotone and fixes 0 and 255, so clamping after rounding is the same
    function. *)
Definition ToUint8Clamp (x : float) : Z :=
  match Prim2SF x with
  | S754_nan => 0
  | S754_zero _ => 0
  | S754_infinity s => if s then 0 else 255
  | S754_finite s m e => if s then 0 else Z.min 255 (round_half_even m e)
  end%Z.

(** [Math.max] and [Math.min] of two arguments: NaN is contagious and
    [+0] counts as larger than [-0]. *)
Definition max (a b : float) : float :=
  if is_nan a || is_nan b then nan
  else if a <? b then b
  else if b <? a then a
  else if get_sign a then b else a.

Definition min (a b : float) : float :=
  if is_nan a || is_nan b then nan
  else if a <? b then a
  else if b <? a then b
  else if get_sign a then a else b.

Definition max3 (a b c : float) : float := max (max a b) c.
Definition min3 (a b c : float) : float := min (min a b) c.

(** [Math.floor]. *)
Definition floor (x : float) : float :=
  match Prim2SF x with
  | S754_finite s m e =>
      if (0 <=? e)%Z then x
      else
        let den := (2 ^ (- e))%Z in
        if s then Z2F (- ((Zpos m + den - 1) / den))%Z
        else Z2F (Zpos m / den)%Z
  | _ => x
  end.

(** [Math.round]: the nearest integer, ties going towards +infinity. *)
Definition round (x : float) : float :=
  match Prim2SF x with
  | S754_finite s m e =>
      if (0 <=? e)%Z then x
      else
        let den := (2 ^ (- e))%Z in
        if s then
          let n := ((2 * Zpos m - den + 2 * den - 1) / (2 * den))%Z in
          if (n =? 0)%Z then neg_zero else Z2F (- n)%Z
        else Z2F ((2 * Zpos m + den) / (2 * den))%Z
  | _ => x
  end.

(** The integer a number denotes, when it is a finite integer. *)
Definition toInteger (x : float) : option Z :=
  match Prim2SF x with
  | S754_zero _ => Some 0%Z
  | S754_finite s m e =>
      if (0 <=? e)%Z
      then Some (if s then - (Zpos m * 2 ^ e) else Zpos m * 2 ^ e)%Z
      else
        let den := (2 ^ (- e))%Z in
        if (Zpos m mod den =? 0)%Z
        then Some (if s then - (Zpos m / den) else Zpos m / den)%Z
        else None
  | _ => None
  end.

(** [Math.round(Math.sqrt(n))] for an array length [n]: the integer
    nearest to the square root of [n].  [sqrt n] is never half way between
    two integers, and for lengths below 2^49 the binary64 square root is on
    the same side of the half-way point as the exact one. *)
Definition round_sqrt (n : nat) : nat :=
  let z := Z.of_nat n in
  let s := Z.sqrt z in
  Z.to_nat (if (s * s + s <? z)%Z then s + 1 else s)%Z.

End JS.

(* ================================================================== *)
(** ** Pixel buffers *)

Record Pixel := mkPixel { R : Z; G : Z; B : Z; A : Z }.

Record ImageData := mkImageData {
  width : nat;
  height : nat;
  data : list Pixel
}.

(** The same image with another pixel array. *)
Definition with_data (pixels : ImageData) (d : list Pixel) : ImageData :=
  mkImageData (width pixels) (height pixels) d.

(** A channel is a byte. *)
Definition channel_ok (c : Z) : Prop := (0 <= c <= 255)%Z.

Definition channel_okb (c : Z) : bool := ((0 <=? c) && (c <=? 255))%Z.

Definition pixel_ok (p : Pixel) : Prop :=
  channel_ok (R p) /\ channel_ok (G p) /\ channel_ok (B p) /\ channel_ok (A p).

Definition rgb_ok (p : Pixel) : Prop :=
  channel_ok (R p) /\ channel_ok (G p) /\ channel_ok (B p).

(** What the platform guarantees of an [ImageData]: [width * height]
    pixels, each channel a byte. *)
Definition wf_image (pixels : ImageData) : Prop :=
  length (data pixels) = (width pixels * height pixels)%nat /\
  Forall pixel_ok (data pixels).

(** [d[i] = f(d[i])] on a typed array: nothing happens out of range. *)
Fixpoint upd (i : nat) (f : Pixel -> Pixel) (d : list Pixel) : list Pixel :=
  match d, i with
  | [], _ => []
  | p :: d', O => f p :: d'
  | p :: d', S i' => p :: upd i' f d'
  end.

(** Apply [f] to every pixel, telling it the pixel's index. *)
Fixpoint mapi_from {X Y : Type} (k : nat) (f : nat -> X -> Y) (l : list X)
  : list Y :=
  match l with
  | [] => []
  | x :: l' => f k x :: mapi_from (S k) f l'
  end.

(* ================================================================== *)
(** ** colorUtils *)

Module ColorUtils.
Local Open Scope float_scope.

Definition RGBtoHSV (r g b : float) : float * float * float :=
  let r := r / 255 in
  let g := g / 255 in
  let b := b / 255 in
  let max := JS.max3 r g b in
  let min := JS.min3 r g b in
  let v := max in
  let d := max - min in
  let s := if max =? 0 then 0 else d / max in
  if max =? min then (0, s, v) (* achromatic *)
  else
    let h :=
      if max =? r then (g - b) / d + (if g <? b then 6 else 0)
      else if max =? g then (b - r) / d + 2
      else if max =? b then (r - g) / d + 4
      else 0 in
    (h / 6, s, v).

Definition HSVtoRGB (h s v : float) : float * float * float :=
  let i := JS.floor (h * 6) in
  let f := h * 6 - i in
  let p := v * (1 - s) in
  let q := v * (1 - f * s) in
  let t := v * (1 - (1 - f) * s) in
  let '(r, g, b) :=
    match option_map (fun n => Z.rem n 6) (JS.toInteger i) with
    | Some 0%Z => (v, t, p)
    | Some 1%Z => (q, v, p)
    | Some 2%Z => (p, v, t)
    | Some 3%Z => (p, q, v)
    | Some 4%Z => (t, p, v)
    | Some 5%Z => (v, p, q)
    | _ => (0, 0, 0)
    end in
  (r * 255, g * 255, b * 255).

Definition clamp (value min max : float) : float :=
  JS.min (JS.max value min) max.

Definition clampRGB (r g b : float) : float * float * float :=
  (clamp (JS.round r) 0 255, clamp (JS.round g) 0 255,
   clamp (JS.round b) 0 255).

End ColorUtils.

(* ================================================================== *)
(** ** filters: the operators *)

Module Filters.
Local Open Scope float_scope.
Import ColorUtils.

(** Reading a byte of the array ([d[i]]) and storing a number into it. *)
Notation F := JS.Z2F.
Notation store := JS.ToUint8Clamp.

(** Every per-pixel loop [for (i = 0; i < d.length; i += 4)] rewrites the
    three colour bytes of each pixel and leaves [d[i + 3]] alone. *)
Definition each_pixel (f : Pixel -> Pixel) (pixels : ImageData) : ImageData :=
  with_data pixels (map f (data pixels)).

Definition grayscale_px (p : Pixel) : Pixel :=
  let r := F (R p) in
  let g := F (G p) in
  let b := F (B p) in
  let avg := 0.2126 * r + 0.7152 * g + 0.0722 * b in
  mkPixel (store avg) (store avg) (store avg) (A p).

Definition grayscale (pixels : ImageData) : ImageData :=
  each_pixel grayscale_px pixels.

Definition sepia_px (adj : float) (p : Pixel) : Pixel :=
  let r := F (R p) in
  let g := F (G p) in
  let b := F (B p) in
  mkPixel
    (store ((r * (1 - (0.607 * adj))) + (g * 0.769 * adj) + (b * 0.189 * adj)))
    (store ((r * 0.349 * adj) + (g * (1 - (0.314 * adj))) + (b * 0.168 * adj)))
    (store ((r * 0.272 * adj) + (g * 0.534 * adj) + (b * (1 - (0.869 * adj)))))
    (A p).

Definition sepia (pixels : ImageData) (adj : float) : ImageData :=
  each_pixel (sepia_px adj) pixels.

Definition invert_px (p : Pixel) : Pixel :=
  mkPixel (store (255 - F (R p))) (store (255 - F (G p)))
          (store (255 - F (B p))) (A p).

Definition invert (pixels : ImageData) : ImageData :=
  each_pixel invert_px pixels.

Definition brightness_px (adjValue : float) (p : Pixel) : Pixel :=
  mkPixel
    (store (JS.max 0 (JS.min 255 (F (R p) + adjValue))))
    (store (JS.max 0 (JS.min 255 (F (G p) + adjValue))))
    (store (JS.max 0 (JS.min 255 (F (B p) + adjValue))))
    (A p).

Definition brightness (pixels : ImageData) (adj : float) : ImageData :=
  let adj := JS.max (-1) (JS.min 1 adj) in
  let adjValue := JS.round (255 * adj) in
  each_pixel (brightness_px adjValue) pixels.

Definition hueSaturation_px (adj : float) (p : Pixel) : Pixel :=
  let '(h, s, v) := RGBtoHSV (F (R p)) (F (G p)) (F (B p)) in
  let s := s * adj in
  let s := JS.max 0 (JS.min 1 s) in
  let '(r, g, b) := HSVtoRGB h s v in
  mkPixel (store r) (store g) (store b) (A p).

Definition hueSaturation (pixels : ImageData) (adj : float) : ImageData :=
  each_pixel (hueSaturation_px adj) pixels.

Definition saturation_px (adj : float) (p : Pixel) : Pixel :=
  let r := F (R p) in
  let g := F (G p) in
  let b := F (B p) in
  let gray := 0.2989 * r + 0.5870 * g + 0.1140 * b in
  mkPixel
    (store (JS.max 0 (JS.min 255 (- gray * adj + F (R p) * (1 + adj)))))
    (store (JS.max 0 (JS.min 255 (- gray * adj + F (G p) * (1 + adj)))))
    (store (JS.max 0 (JS.min 255 (- gray * adj + F (B p) * (1 + adj)))))
    (A p).

Definition saturation (pixels : ImageData) (adj : float) : ImageData :=
  let adj := JS.max (-1) adj in
  each_pixel (saturation_px adj) pixels.

Definition contrast_denominator (adj : float) : float :=
  let adjValue := adj * 255 in
  255 * (259 - adjValue).

Definition contrast_factor (adj : float) : float :=
  let adjValue := adj * 255 in
  (259 * (adjValue + 255)) / (255 * (259 - adjValue)).

Definition contrast_px (factor : float) (p : Pixel) : Pixel :=
  mkPixel
    (store (JS.max 0 (JS.min 255 (factor * (F (R p) - 128) + 128))))
    (store (JS.max 0 (JS.min 255 (factor * (F (G p) - 128) + 128))))
    (store (JS.max 0 (JS.min 255 (factor * (F (B p) - 128) + 128))))
    (A p).

Definition contrast (pixels : ImageData) (adj : float) : ImageData :=
  let factor := contrast_factor adj in
  each_pixel (contrast_px factor) pixels.

(** [rgbColor = [r, g, b, adj]]. *)
Definition colorFilter_px (rgbColor : float * float * float * float)
    (p : Pixel) : Pixel :=
  let '(cr, cg, cb, adj) := rgbColor in
  mkPixel
    (store (F (R p) - (F (R p) - cr) * adj))
    (store (F (G p) - (F (G p) - cg) * adj))
    (store (F (B p) - (F (B p) - cb) * adj))
    (A p).

Definition colorFilter (pixels : ImageData)
    (rgbColor : float * float * float * float) : ImageData :=
  each_pixel (colorFilter_px rgbColor) pixels.

(** [rgbAdj = [rMult, gMult, bMult]]. *)
Definition rgbAdjust_px (rgbAdj : float * float * float) (p : Pixel) : Pixel :=
  let '(rm, gm, bm) := rgbAdj in
  mkPixel
    (store (JS.max 0 (JS.min 255 (F (R p) * rm))))
    (store (JS.max 0 (JS.min 255 (F (G p) * gm))))
    (store (JS.max 0 (JS.min 255 (F (B p) * bm))))
    (A p).

Definition rgbAdjust (pixels : ImageData) (rgbAdj : float * float * float)
  : ImageData :=
  each_pixel (rgbAdjust_px rgbAdj) pixels.

(** *** Convolution *)

(** [d[srcOff + c]] as a number; [undefined] (a NaN in arithmetic) when the
    offset is past the end of the array. *)
Definition chan (sel : Pixel -> Z) (d : list Pixel) (off : nat) : float :=
  match nth_error d off with
  | Some p => F (sel p)
  | None => nan
  end.

(** [weights[k]]; [undefined] past the end. *)
Definition weight (weights : list float) (k : nat) : float :=
  nth k weights nan.

(** One turn of the innermost loop: the kernel cell [(cy, cx)] seen from
    the output position [(x, y)]. *)
Definition conv_cell (d : list Pixel) (sw sh : nat) (weights : list float)
    (side halfSide : nat) (x y cy : nat) (acc : float * float * float)
    (cx : nat) : float * float * float :=
  let '(r, g, b) := acc in
  let scy := (Z.of_nat y + Z.of_nat cy - Z.of_nat halfSide)%Z in
  let scx := (Z.of_nat x + Z.of_nat cx - Z.of_nat halfSide)%Z in
  if ((0 <=? scy) && (scy <? Z.of_nat sh) &&
      (0 <=? scx) && (scx <? Z.of_nat sw))%Z
  then
    let srcOff := Z.to_nat (scy * Z.of_nat sw + scx) in
    let wt := weight weights (cy * side + cx) in
    (r + chan R d srcOff * wt, g + chan G d srcOff * wt,
     b + chan B d srcOff * wt)
  else acc.

(** The two kernel loops at one output position. *)
Definition conv_sum (d : list Pixel) (sw sh : nat) (weights : list float)
    (side halfSide : nat) (x y : nat) : float * float * float :=
  fold_left
    (fun acc cy =>
       fold_left (conv_cell d sw sh weights side halfSide x y cy)
                 (seq 0 side) acc)
    (seq 0 side) (0, 0, 0).

(** The body of the [x] loop: the four stores into [output]. *)
Definition conv_write (d : list Pixel) (sw sh : nat) (weights : list float)
    (side halfSide : nat) (y : nat) (output : list Pixel) (x : nat)
  : list Pixel :=
  let dstOff := (y * sw + x)%nat in
  let '(r, g, b) := conv_sum d sw sh weights side halfSide x y in
  match nth_error d dstOff with
  | Some src =>
      upd dstOff
        (fun _ => mkPixel (store (JS.max 0 (JS.min 255 r)))
                          (store (JS.max 0 (JS.min 255 g)))
                          (store (JS.max 0 (JS.min 255 b)))
                          (A src))
        output
  | None => output
  end.

Definition convolute (pixels : ImageData) (weights : list float) : ImageData :=
  let side := JS.round_sqrt (length weights) in
  let halfSide := (side / 2)%nat in
  let d := data pixels in
  let sw := width pixels in
  let sh := height pixels in
  (* new Uint8ClampedArray(d.length) *)
  let output := repeat (mkPixel 0 0 0 0) (length d) in
  let output :=
    fold_left
      (fun output y =>
         fold_left (conv_write d sw sh weights side halfSide y)
                   (seq 0 sw) output)
      (seq 0 sh) output in
  (* copy output back to original *)
  with_data pixels output.

Definition sharpen (pixels : ImageData) (amount : float) : ImageData :=
  convolute pixels
    [ 0; -1 * amount; 0;
      -1 * amount; 1 + 4 * amount; -1 * amount;
      0; -1 * amount; 0 ].

(** *** Vignette and noise *)

Definition vignette_px (vignetteFactor : float) (p : Pixel) : Pixel :=
  mkPixel (store (JS.max 0 (F (R p) * vignetteFactor)))
          (store (JS.max 0 (F (G p) * vignetteFactor)))
          (store (JS.max 0 (F (B p) * vignetteFactor)))
          (A p).

Definition vignette_factor (w h : nat) (amount : float) (x y : nat) : float :=
  let cx := F (Z.of_nat w) / 2 in
  let cy := F (Z.of_nat h) / 2 in
  let maxDist := sqrt (cx * cx + cy * cy) in
  let dx := F (Z.of_nat x) - cx in
  let dy := F (Z.of_nat y) - cy in
  let dist := sqrt (dx * dx + dy * dy) in
  1 - (dist / maxDist) * amount.

Definition vignette (pixels : ImageData) (amount : float) : ImageData :=
  let w := width pixels in
  let h := height pixels in
  with_data pixels
    (fold_left
       (fun d y =>
          fold_left
            (fun d x =>
               upd (y * w + x) (vignette_px (vignette_factor w h amount x y)) d)
            (seq 0 w) d)
       (seq 0 h) (data pixels)).

Definition noise_px (noiseVal : float) (p : Pixel) : Pixel :=
  mkPixel (store (JS.max 0 (JS.min 255 (F (R p) + noiseVal))))
          (store (JS.max 0 (JS.min 255 (F (G p) + noiseVal))))
          (store (JS.max 0 (JS.min 255 (F (B p) + noiseVal))))
          (A p).

(** [Math.random()] is the engine's only ambient input: [random k] is the
    value of the [k]-th call, one call per pixel in array order. *)
Definition noise (random : nat -> float) (pixels : ImageData) (amount : float)
  : ImageData :=
  with_data pixels
    (mapi_from 0
       (fun k p => noise_px ((random k - 0.5) * amount) p)
       (data pixels)).

End Filters.

(* ================================================================== *)
(** ** instaFilters: the catalogue of named filters *)

Module InstaFilters.
Local Open Scope float_scope.
Import Filters.

Definition FilterFunction := ImageData -> ImageData.

Inductive Category :=
  google | vintage | bw | warm | cool | vivid | soft | artistic.

(** A preset of the catalogue (the translated name and the description,
    which only the user interface reads, are left out). *)
Record FilterPreset := mkPreset {
  id : string;
  name : string;
  category : Category;
  apply : FilterFunction
}.

Definition normal : FilterFunction := fun pixels => pixels.

Definition clarendon : FilterFunction := fun pixels =>
  let pixels := brightness pixels 0.1 in
  let pixels := contrast pixels 0.1 in
  saturation pixels 0.15.

Definition gingham : FilterFunction := fun pixels =>
  let pixels := sepia pixels 0.04 in
  contrast pixels (-0.15).

Definition reyes : FilterFunction := fun pixels =>
  let pixels := sepia pixels 0.4 in
  let pixels := brightness pixels 0.13 in
  contrast pixels (-0.05).

Definition stinson : FilterFunction := fun pixels =>
  let pixels := brightness pixels 0.1 in
  sepia pixels 0.3.

Definition earlybird : FilterFunction := fun pixels =>
  colorFilter pixels (255, 165, 40, 0.2).

Definition toaster : FilterFunction := fun pixels =>
  let pixels := sepia pixels 0.1 in
  colorFilter pixels (255, 145, 0, 0.2).

Definition walden : FilterFunction := fun pixels =>
  let pixels := brightness pixels 0.1 in
  colorFilter pixels (255, 255, 0, 0.2).

Definition f1977 : FilterFunction := fun pixels =>
  let pixels := colorFilter pixels (255, 25, 0, 0.15) in
  brightness pixels 0.1.

Definition brooklyn : FilterFunction := fun pixels =>
  let pixels := colorFilter pixels (25, 240, 252, 0.05) in
  sepia pixels 0.3.

Definition moon : FilterFunction := fun pixels =>
  let pixels := grayscale pixels in
  let pixels := contrast pixels (-0.04) in
  brightness pixels 0.1.

Definition willow : FilterFunction := fun pixels =>
  let pixels := grayscale pixels in
  let pixels := colorFilter pixels (100, 28, 210, 0.03) in
  brightness pixels 0.1.

Definition inkwell : FilterFunction := fun pixels =>
  grayscale pixels.

Definition lark : FilterFunction := fun pixels =>
  let pixels := brightness pixels 0.08 in
  let pixels := rgbAdjust pixels (1, 1.03, 1.05) in
  saturation pixels 0.12.

Definition juno : FilterFunction := fun pixels =>
  let pixels := rgbAdjust pixels (1.01, 1.04, 1) in
  saturation pixels 0.3.

Definition amaro : FilterFunction := fun pixels =>
  let pixels := saturation pixels 0.3 in
  brightness pixels 0.15.

Definition mayfair : FilterFunction := fun pixels =>
  let pixels := colorFilter pixels (230, 115, 108, 0.05) in
  saturation pixels 0.15.

Definition rise : FilterFunction := fun pixels =>
  let pixels := colorFilter pixels (255, 170, 0, 0.1) in
  let pixels := brightness pixels 0.09 in
  saturation pixels 0.1.

Definition valencia : FilterFunction := fun pixels =>
  let pixels := colorFilter pixels (255, 225, 80, 0.08) in
  let pixels := saturation pixels 0.1 in
  contrast pixels 0.05.

Definition kelvin : FilterFunction := fun pixels =>
  let pixels := colorFilter pixels (255, 140, 0, 0.1) in
  let pixels := rgbAdjust pixels (1.15, 1.05, 1) in
  saturation pixels 0.35.

Definition nashville : FilterFunction := fun pixels =>
  let pixels := colorFilter pixels (220, 115, 188, 0.12) in
  contrast pixels (-0.05).

Definition vesper : FilterFunction := fun pixels =>
  let pixels := colorFilter pixels (255, 225, 0, 0.05) in
  let pixels := brightness pixels 0.06 in
  contrast pixels 0.06.

Definition ashby : FilterFunction := fun pixels =>
  let pixels := colorFilter pixels (255, 160, 25, 0.1) in
  brightness pixels 0.1.

Definition charmes : FilterFunction := fun pixels =>
  let pixels := colorFilter pixels (255, 50, 80, 0.12) in
  contrast pixels 0.05.

Definition ginza : FilterFunction := fun pixels =>
  let pixels := sepia pixels 0.06 in
  brightness pixels 0.1.

Definition hudson : FilterFunction := fun pixels =>
  let pixels := rgbAdjust pixels (1, 1, 1.25) in
  let pixels := contrast pixels 0.1 in
  brightness pixels 0.15.

Definition slumber : FilterFunction := fun pixels =>
  let pixels := brightness pixels 0.1 in
  saturation pixels (-0.5).

Definition aden : FilterFunction := fun pixels =>
  let pixels := colorFilter pixels (228, 130, 225, 0.13) in
  saturation pixels (-0.2).

Definition perpetua : FilterFunction := fun pixels =>
  rgbAdjust pixels (1.05, 1.1, 1).

Definition crema : FilterFunction := fun pixels =>
  let pixels := rgbAdjust pixels (1.04, 1, 1.02) in
  saturation pixels (-0.05).

Definition ludwig : FilterFunction := fun pixels =>
  let pixels := brightness pixels 0.05 in
  saturation pixels (-0.03).

Definition xpro2 : FilterFunction := fun pixels =>
  let pixels := colorFilter pixels (255, 255, 0, 0.07) in
  let pixels := saturation pixels 0.2 in
  contrast pixels 0.15.

Definition lofi : FilterFunction := fun pixels =>
  let pixels := contrast pixels 0.15 in
  saturation pixels 0.2.

Definition hefe : FilterFunction := fun pixels =>
  let pixels := contrast pixels 0.1 in
  saturation pixels 0.15.

Definition brannan : FilterFunction := fun pixels =>
  let pixels := contrast pixels 0.2 in
  colorFilter pixels (140, 10, 185, 0.1).

Definition sutro : FilterFunction := fun pixels =>
  let pixels := brightness pixels (-0.1) in
  saturation pixels (-0.1).

Definition skyline : FilterFunction := fun pixels =>
  let pixels := saturation pixels 0.35 in
  brightness pixels 0.1.

Definition dogpatch : FilterFunction := fun pixels =>
  let pixels := contrast pixels 0.15 in
  brightness pixels 0.1.

Definition maven : FilterFunction := fun pixels =>
  let pixels := colorFilter pixels (225, 240, 0, 0.1) in
  let pixels := saturation pixels 0.25 in
  contrast pixels 0.05.

Definition helena : FilterFunction := fun pixels =>
  let pixels := colorFilter pixels (208, 208, 86, 0.2) in
  contrast pixels 0.15.

Definition sierra : FilterFunction := fun pixels =>
  let pixels := contrast pixels (-0.15) in
  saturation pixels 0.1.

Definition googleStyle : FilterFunction := fun pixels =>
  let pixels := saturation pixels 0.35 in
  let pixels := contrast pixels 0.12 in
  let pixels := rgbAdjust pixels (0.98, 1.0, 1.12) in
  let pixels := brightness pixels 0.05 in
  sharpen pixels 0.3.

Definition googlePop : FilterFunction := fun pixels =>
  let pixels := saturation pixels 0.5 in
  let pixels := contrast pixels 0.18 in
  let pixels := rgbAdjust pixels (1.02, 1.05, 1.15) in
  sharpen pixels 0.4.

Definition googleVivid : FilterFunction := fun pixels =>
  let pixels := saturation pixels 0.6 in
  let pixels := contrast pixels 0.2 in
  let pixels := rgbAdjust pixels (1.0, 1.02, 1.18) in
  let pixels := brightness pixels 0.03 in
  sharpen pixels 0.5.

Definition googleNatural : FilterFunction := fun pixels =>
  let pixels := saturation pixels 0.2 in
  let pixels := contrast pixels 0.08 in
  let pixels := rgbAdjust pixels (1.0, 1.02, 1.08) in
  sharpen pixels 0.2.

Definition googleHDR : FilterFunction := fun pixels =>
  let pixels := saturation pixels 0.4 in
  let pixels := contrast pixels 0.22 in
  let pixels := rgbAdjust pixels (1.02, 1.04, 1.12) in
  let pixels := brightness pixels (-0.02) in
  sharpen pixels 0.35.

Definition filterPresets : list FilterPreset :=
  [ mkPreset "normal" "Normal" soft normal;
    mkPreset "google-style" "Google Style" google googleStyle;
    mkPreset "google-pop" "Google Pop" google googlePop;
    mkPreset "google-vivid" "Google Vivid" google googleVivid;
    mkPreset "google-natural" "Google Natural" google googleNatural;
    mkPreset "google-hdr" "Google HDR" google googleHDR;
    mkPreset "clarendon" "Clarendon" vintage clarendon;
    mkPreset "gingham" "Gingham" vintage gingham;
    mkPreset "reyes" "Reyes" vintage reyes;
    mkPreset "stinson" "Stinson" vintage stinson;
    mkPreset "earlybird" "Earlybird" vintage earlybird;
    mkPreset "toaster" "Toaster" vintage toaster;
    mkPreset "walden" "Walden" vintage walden;
    mkPreset "1977" "1977" vintage f1977;
    mkPreset "brooklyn" "Brooklyn" vintage brooklyn;
    mkPreset "moon" "Moon" bw moon;
    mkPreset "willow" "Willow" bw willow;
    mkPreset "inkwell" "Inkwell" bw inkwell;
    mkPreset "lark" "Lark" warm lark;
    mkPreset "juno" "Juno" warm juno;
    mkPreset "amaro" "Amaro" warm amaro;
    mkPreset "mayfair" "Mayfair" warm mayfair;
    mkPreset "rise" "Rise" warm rise;
    mkPreset "valencia" "Valencia" warm valencia;
    mkPreset "kelvin" "Kelvin" warm kelvin;
    mkPreset "nashville" "Nashville" warm nashville;
    mkPreset "vesper" "Vesper" warm vesper;
    mkPreset "ashby" "Ashby" warm ashby;
    mkPreset "charmes" "Charmes" warm charmes;
    mkPreset "ginza" "Ginza" warm ginza;
    mkPreset "hudson" "Hudson" cool hudson;
    mkPreset "slumber" "Slumber" cool slumber;
    mkPreset "aden" "Aden" cool aden;
    mkPreset "perpetua" "Perpetua" cool perpetua;
    mkPreset "crema" "Crema" cool crema;
    mkPreset "ludwig" "Ludwig" cool ludwig;
    mkPreset "xpro2" "X-Pro II" vivid xpro2;
    mkPreset "lofi" "Lo-Fi" vivid lofi;
    mkPreset "hefe" "Hefe" vivid hefe;
    mkPreset "brannan" "Brannan" vivid brannan;
    mkPreset "sutro" "Sutro" vivid sutro;
    mkPreset "skyline" "Skyline" vivid skyline;
    mkPreset "dogpatch" "Dogpatch" vivid dogpatch;
    mkPreset "maven" "Maven" vivid maven;
    mkPreset "helena" "Helena" vivid helena;
    mkPreset "sierra" "Sierra" soft sierra ].

Definition getFilterById (id' : string) : option FilterPreset :=
  find (fun f => String.eqb (id f) id') filterPresets.

Definition category_eqb (a b : Category) : bool :=
  match a, b with
  | google, google | vintage, vintage | bw, bw | warm, warm
  | cool, cool | vivid, vivid | soft, soft | artistic, artistic => true
  | _, _ => false
  end.

Definition getFiltersByCategory (c : Category) : list FilterPreset :=
  filter (fun f => category_eqb (category f) c) filterPresets.

End InstaFilters.

(* ================================================================== *)
(** ** imageProcessing: applying a named filter with a strength *)

Module ImageProcessing.
Local Open Scope float_scope.
Import Filters InstaFilters.

(** The ways the promise of [applyFilterToImage] is rejected. *)
Inductive Error :=
  | CanvasContextNotAvailable
  | FailedToCreateBlob
  | FailedToLoadImage.

Inductive Outcome :=
  | Resolved (imageData : ImageData)
  | Rejected (e : Error).

(** What the browser does with the image around the engine: whether the
    image loads, whether a 2D context is handed out and whether the canvas
    can be turned into a blob. *)
Record Browser := mkBrowser {
  image_loads : bool;
  context_available : bool;
  blob_created : bool
}.

(** [originalData[i + c]] as a number. *)
Definition original_chan (sel : Pixel -> Z) (o : option Pixel) : float :=
  match o with
  | Some p => F (sel p)
  | None => nan
  end.

(** The body of the blend loop, at one pixel: [o] is the pixel of the
    snapshot, [p] the filtered pixel it is blended into. *)
Definition blend_px (strength : float) (o : option Pixel) (p : Pixel) : Pixel :=
  mkPixel
    (store (original_chan R o * (1 - strength) + F (R p) * strength))
    (store (original_chan G o * (1 - strength) + F (G p) * strength))
    (store (original_chan B o * (1 - strength) + F (B p) * strength))
    (A p).

(** The blend loop over [imageData.data], pixel by pixel. *)
Fixpoint blend_data (originalData d : list Pixel) (strength : float)
  : list Pixel :=
  match d with
  | [] => []
  | p :: d' =>
      blend_px strength (hd_error originalData) p
        :: blend_data (tl originalData) d' strength
  end.

(** The blend of the snapshot [originalData] into the filtered
    [imageData]. *)
Definition blend (originalData : list Pixel) (imageData : ImageData)
    (strength : float) : ImageData :=
  with_data imageData (blend_data originalData (data imageData) strength).

(** The filter step of [applyFilterToImage] on the pixels read from the
    canvas. *)
Definition applyFilter (imageData : ImageData) (filterId : string)
    (strength : float) : ImageData :=
  if String.eqb filterId "normal" then imageData
  else
    match getFilterById filterId with
    | Some filter =>
        if strength <? 1 then
          let originalData := data imageData in
          let imageData := apply filter imageData in
          blend originalData imageData strength
        else apply filter imageData
    | None => imageData
    end.

(** [applyFilterToImage]: [image] is what [getImageData] returns once the
    image is drawn; the result is what [putImageData] puts back before the
    canvas is encoded. *)
Definition applyFilterToImage (browser : Browser) (image : ImageData)
    (filterId : string) (strength : float) : Outcome :=
  if negb (image_loads browser) then Rejected FailedToLoadImage
  else if negb (context_available browser) then
    Rejected CanvasContextNotAvailable
  else
    let imageData := applyFilter image filterId strength in
    if blob_created browser then Resolved imageData
    else Rejected FailedToCreateBlob.

(** [strength] defaults to 1. *)
Definition applyStyleToImage (browser : Browser) (image : ImageData)
    (style : FilterPreset) : Outcome :=
  applyFilterToImage browser image (id style) 1.

End ImageProcessing.

(* ================================================================== *)
(** ** The operators as a type *)

(** The thirteen operators of the engine with their parameters, so that a
    statement can range over all of them.  A pipeline is a list of
    operators applied first to last. *)
Module Engine.
Import Filters.

Inductive Operator :=
  | Grayscale
  | Sepia (adj : float)
  | Invert
  | Brightness (adj : float)
  | HueSaturation (adj : float)
  | Saturation (adj : float)
  | Contrast (adj : float)
  | ColorFilter (rgbColor : float * float * float * float)
  | RgbAdjust (rgbAdj : float * float * float)
  | Convolute (weights : list float)
  | Sharpen (amount : float)
  | Vignette (amount : float)
  | Noise (random : nat -> float) (amount : float).

Definition run (op : Operator) (pixels : ImageData) : ImageData :=
  match op with
  | Grayscale => grayscale pixels
  | Sepia adj => sepia pixels adj
  | Invert => invert pixels
  | Brightness adj => brightness pixels adj
  | HueSaturation adj => hueSaturation pixels adj
  | Saturation adj => saturation pixels adj
  | Contrast adj => contrast pixels adj
  | ColorFilter rgbColor => colorFilter pixels rgbColor
  | RgbAdjust rgbAdj => rgbAdjust pixels rgbAdj
  | Convolute weights => convolute pixels weights
  | Sharpen amount => sharpen pixels amount
  | Vignette amount => vignette pixels amount
  | Noise random amount => noise random pixels amount
  end.

End Engine.

(* ================================================================== *)
(** ** Convolution as the specification words it *)

(** The window sum of the specification: for the output pixel [(x, y)] and
    a kernel of side [k], the sum of [weight[ky][kx]] times the source
    channel at [(y + ky - halfSide, x + kx - halfSide)], taken over the
    window positions that fall inside the image, rows first. *)
Module ConvSpec.
Local Open Scope float_scope.

(** The kernel positions [(ky, kx)], row by row. *)
Definition window (k : nat) : list (nat * nat) :=
  flat_map (fun ky => map (fun kx => (ky, kx)) (seq 0 k)) (seq 0 k).

Definition source_row (k y ky : nat) : Z :=
  (Z.of_nat y + Z.of_nat ky - Z.of_nat (k / 2))%Z.

Definition source_col (k x kx : nat) : Z :=
  (Z.of_nat x + Z.of_nat kx - Z.of_nat (k / 2))%Z.

Definition in_bounds (sw sh k x y : nat) (pos : nat * nat) : bool :=
  let sy := source_row k y (fst pos) in
  let sx := source_col k x (snd pos) in
  ((0 <=? sy) && (sy <? Z.of_nat sh) && (0 <=? sx) && (sx <? Z.of_nat sw))%Z.

(** The channel [sel] of the source pixel in row [sy], column [sx]. *)
Definition source (sel : Pixel -> Z) (pixels : ImageData) (sy sx : Z) : float :=
  Filters.chan sel (data pixels)
               (Z.to_nat (sy * Z.of_nat (width pixels) + sx)).

Definition kernel_weight (weights : list float) (k : nat) (pos : nat * nat)
  : float :=
  Filters.weight weights (fst pos * k + snd pos).

Definition window_sum (sel : Pixel -> Z) (pixels : ImageData)
    (weights : list float) (k x y : nat) : float :=
  fold_left
    (fun acc pos =>
       acc + kernel_weight weights k pos *
             source sel pixels (source_row k y (fst pos))
                               (source_col k x (snd pos)))
    (filter (in_bounds (width pixels) (height pixels) k x y) (window k))
    0.

Definition clamp_byte (v : float) : float := JS.max 0 (JS.min 255 v).

(** The output pixel at [(x, y)]. *)
Definition output_pixel (pixels : ImageData) (weights : list float)
    (k x y : nat) : Pixel :=
  mkPixel
    (JS.ToUint8Clamp (clamp_byte (window_sum R pixels weights k x y)))
    (JS.ToUint8Clamp (clamp_byte (window_sum G pixels weights k x y)))
    (JS.ToUint8Clamp (clamp_byte (window_sum B pixels weights k x y)))
    (A (nth (y * width pixels + x) (data pixels) (mkPixel 0 0 0 0))).

End ConvSpec.

(* ================================================================== *)
(** ** Vocabulary of the statements *)

(** The pixel the [x] loop of [convolute] stores at [(x, y)]. *)
Definition conv_pixel (d : list Pixel) (sw sh : nat) (weights : list float)
    (side halfSide : nat) (x y : nat) : Pixel :=
  let '(r, g, b) := Filters.conv_sum d sw sh weights side halfSide x y in
  mkPixel (JS.ToUint8Clamp (JS.max 0 (JS.min 255 r)))
          (JS.ToUint8Clamp (JS.max 0 (JS.min 255 g)))
          (JS.ToUint8Clamp (JS.max 0 (JS.min 255 b)))
          (A (nth (y * sw + x) d (mkPixel 0 0 0 0))).

(** A decidable form of [wf_image], to check concrete images. *)
Definition pixel_okb (p : Pixel) : bool :=
  channel_okb (R p) && channel_okb (G p) && channel_okb (B p) &&
  channel_okb (A p).

Definition wf_imageb (pixels : ImageData) : bool :=
  Nat.eqb (length (data pixels)) (width pixels * height pixels) &&
  forallb pixel_okb (data pixels).

(** A small image used to try the statements on. *)
Definition sample_image : ImageData :=
  mkImageData 2 2
    [ mkPixel 10 20 30 255; mkPixel 200 100 50 128;
      mkPixel 0 0 0 0; mkPixel 255 0 128 7 ].

(** The 256 bytes, to check a property of a byte on all of them. *)
Definition bytes : list Z := map Z.of_nat (seq 0 256).

(** Two numbers are the same binary64 value. *)
Definition same (x y : float) : bool := PrimFloat.Leibniz.eqb x y.

Definition white : Pixel := mkPixel 255 255 255 255.

Definition all_pixels (q : Pixel) (pixels : ImageData) : Prop :=
  Forall (eq q) (data pixels).

Definition white_image : ImageData := mkImageData 2 2 [white; white; white; white].

(** [Math.max(-1, Math.min(1, adj))]. *)
Definition clamp_unit (adj : float) : float := JS.max (-1) (JS.min 1 adj).

(** A filter function is well behaved when it hands on a well-formed
    image of the same size with the same alpha channel. *)
Definition keeps_frame (f : ImageData -> ImageData) : Prop :=
  forall pixels, wf_image pixels ->
    wf_image (f pixels) /\
    width (f pixels) = width pixels /\
    height (f pixels) = height pixels /\
    map A (data (f pixels)) = map A (data pixels).

Definition working_browser : ImageProcessing.Browser :=
  ImageProcessing.mkBrowser true true true.

(** *** Enclosures of binary64 values

    [within hi x]: [x] is a zero or a finite number of magnitude at most
    [hi], an integer below 2^52.  [between lo hi x]: [x] is a positive
    finite number with [lo <= x <= hi].  A finite value is [m * 2^e]; for
    [e <= 0] the bound [m * 2^e <= hi] reads [m <= hi * 2^(-e)]. *)

Definition within (hi : Z) (x : spec_float) : Prop :=
  match x with
  | S754_zero _ => True
  | S754_finite _ m e => (e <= 0 /\ Zpos m <= hi * 2 ^ (- e))%Z
  | _ => False
  end.

Definition between (lo hi : Z) (x : spec_float) : Prop :=
  match x with
  | S754_finite false m e =>
      (e <= 0 /\ lo * 2 ^ (- e) <= Zpos m <= hi * 2 ^ (- e))%Z
  | _ => False
  end.

Definition withinb (hi : Z) (x : spec_float) : bool :=
  match x with
  | S754_zero _ => true
  | S754_finite _ m e => ((e <=? 0) && (Zpos m <=? hi * 2 ^ (- e)))%Z
  | _ => false
  end.

Definition betweenb (lo hi : Z) (x : spec_float) : bool :=
  match x with
  | S754_finite false m e =>
      ((e <=? 0) && (lo * 2 ^ (- e) <=? Zpos m) &&
       (Zpos m <=? hi * 2 ^ (- e)))%Z
  | _ => false
  end.

Definition fwithin (h : Z) (x : float) : Prop := within h (Prim2SF x).

Definition fbetween (lo hi : Z) (x : float) : Prop :=
  between lo hi (Prim2SF x).

(** A zero of either sign. *)
Definition is_zero_float (z : float) : Prop := z = 0%float \/ z = (-0)%float.

(** What [k] right shifts of the mantissa [M] leave in a shift record:
    the quotient, and no round or sticky bit when nothing was lost. *)
Definition shr_inv (M k : Z) (mrs : shr_record) : Prop :=
  shr_m mrs = (M / 2 ^ k)%Z /\
  ((M mod 2 ^ k)%Z = 0%Z -> shr_r mrs = false /\ shr_s mrs = false).

(** *** The colour conversions on bytes

    The conversions are followed with exact rational values.  A finite
    binary64 number has a rational value ([val]); every operation of the
    two conversions returns its exact result moved by at most one step
    of a grid ([rounds_to]), and the steps add up to far less than the
    half unit that rounding to a byte forgives. *)

Section RoundTripTerms.
Local Open Scope Q_scope.
Local Open Scope Z_scope.

(** [2^n] as a denominator. *)
Definition pow2 (n : Z) : positive := Z.to_pos (2 ^ n).

(** The step of the grid [2^-g]. *)
Definition eps (g : Z) : Q := 1 # pow2 g.

(** The absolute value and the value of a finite binary64 number
    [m * 2^e] with [e <= 0], as rationals. *)
Definition mag (x : spec_float) : Q :=
  match x with
  | S754_finite _ m e => Zpos m # pow2 (- e)
  | _ => 0
  end.

Definition val (x : spec_float) : Q :=
  match x with
  | S754_finite true _ _ => (- mag x)%Q
  | _ => mag x
  end.

Definition fval (x : float) : Q := val (Prim2SF x).

(** Finite with exponent at most [-g], or zero: a multiple of a power
    of two no coarser than [2^-g]. *)
Definition expo_le (g : Z) (x : spec_float) : Prop :=
  match x with
  | S754_zero _ => True
  | S754_finite _ _ e => e <= - g
  | _ => False
  end.

(** [z] is the rounding of the exact value [X] on the grid [2^-g]. *)
Definition rounds_to (g : Z) (z : spec_float) (X : Q) : Prop :=
  expo_le g z /\
  (X - eps g <= val z <= X + eps g)%Q /\
  (0 <= X -> 0 <= val z)%Q /\ (X <= 0 -> val z <= 0)%Q.

(** A number on the grid used for the round trip: finite, with exponent
    at most -40. *)
Definition fin (z : float) : Prop := expo_le 40 (Prim2SF z).

Definition finb (z : float) : bool :=
  match Prim2SF z with
  | S754_zero _ => true
  | S754_finite _ _ e => e <=? - 40
  | _ => false
  end.

(** The error unit of the analysis, 2^-40. *)
Definition e40 : Q := eps 40.

(** A small integer read as a number: its value, and the integer it
    denotes. *)
Definition small_intb (k : Z) : bool :=
  finb (JS.Z2F k) && Qeq_bool (fval (JS.Z2F k)) (inject_Z k) &&
  match JS.toInteger (JS.Z2F k) with Some n => n =? k | None => false end.

(** [x] is on the grid and within a quarter of the byte [c]. *)
Definition lands (x : float) (c : Z) : Prop :=
  fin x /\ (inject_Z c - (1 # 4) <= fval x <= inject_Z c + (1 # 4))%Q.

(** What is checked of each byte read as a number: [clamp] keeps it. *)
Definition clamp_byteb (c : Z) : bool :=
  same (ColorUtils.clamp (JS.Z2F c) 0 255) (JS.Z2F c).

(** A byte scaled to the unit interval, as [RGBtoHSV] does first. *)
Definition unit_of (c : Z) : float := (JS.Z2F c / 255)%float.

(** What is checked of each scaled byte, and of each pair of them. *)
Definition unit_okb (c : Z) : bool :=
  finb (unit_of c) &&
  Qle_bool ((c # 255) - e40) (fval (unit_of c)) &&
  Qle_bool (fval (unit_of c)) ((c # 255) + e40) &&
  negb (is_nan (unit_of c)) && negb (get_sign (unit_of c)) &&
  Bool.eqb (unit_of c =? 0)%float (c =? 0).

Definition unit_orderb (a b : Z) : bool :=
  Bool.eqb (unit_of a <? unit_of b)%float (a <? b) &&
  Bool.eqb (unit_of a =? unit_of b)%float (a =? b).

(** The hue on the scale [0,6), as [RGBtoHSV] computes it for bytes that
    are not all equal. *)
Definition hue6 (r g b : Z) : float :=
  let M := Z.max (Z.max r g) b in
  let m := Z.min (Z.min r g) b in
  let d := (unit_of M - unit_of m)%float in
  if M =? r then
    ((unit_of g - unit_of b) / d + (if (g <? b)%Z then 6 else 0))%float
  else if M =? g then ((unit_of b - unit_of r) / d + 2)%float
  else ((unit_of r - unit_of g) / d + 4)%float.

(** [z] is the rounding of the exact value [X]: on the grid, within the
    error unit of [X], and of the sign of [X]. *)
Definition rnd (z : float) (X : Q) : Prop :=
  fin z /\ (X - e40 <= fval z <= X + e40)%Q /\
  (0 <= X -> 0 <= fval z)%Q /\ (X <= 0 -> fval z <= 0)%Q.

(** [z] is on the grid and within [d] of the exact value [X]. *)
Definition apx (z : float) (X d : Q) : Prop :=
  fin z /\ (X - d <= fval z <= X + d)%Q.

(** The weight of each channel as a function of the hue on [0,6]:
    a channel is [v * (1 - s * (1 - w))]. *)
Definition weight_R (H : Q) : Q :=
  if Qlt_le_dec H 1 then 1
  else if Qlt_le_dec H 2 then 2 - H
  else if Qlt_le_dec H 4 then 0
  else if Qlt_le_dec H 5 then H - 4
  else 1.

Definition weight_G (H : Q) : Q :=
  if Qlt_le_dec H 1 then H
  else if Qlt_le_dec H 3 then 1
  else if Qlt_le_dec H 4 then 4 - H
  else 0.

Definition weight_B (H : Q) : Q :=
  if Qlt_le_dec H 2 then 0
  else if Qlt_le_dec H 3 then H - 2
  else if Qlt_le_dec H 5 then 1
  else 6 - H.

(** A weight moves no faster than the hue. *)
Definition slow (W : Q -> Q) : Prop :=
  forall a b d : Q,
    (b - d <= a <= b + d)%Q -> (W b - d <= W a <= W b + d)%Q.

(** A channel of [HSVtoRGB] as a function of its weight [w]: the value
    scaled by one minus the saturation times one minus the weight. *)
Definition shape (V0 S0 w : Q) : Q := (V0 * (1 - S0 * (1 - w)))%Q.

(** A channel after [Math.round]. *)
Definition rounded (x : float) : option Z := JS.toInteger (JS.round x).

(** The three channels after both conversions and [Math.round]. *)
Definition round_trip (r g b : Z) : option Z * option Z * option Z :=
  let '(h, s, v) := ColorUtils.RGBtoHSV (JS.Z2F r) (JS.Z2F g) (JS.Z2F b) in
  let '(r', g', b') := ColorUtils.HSVtoRGB h s v in
  (rounded r', rounded g', rounded b').

(** The saturation of a byte triple with largest byte [M] and smallest
    byte [m < M], as [RGBtoHSV] computes it. *)
Definition sat_of (M m : Z) : float :=
  ((unit_of M - unit_of m) / unit_of M)%float.

(** What is checked of the saturation of each pair of bytes [m < M]: it
    is in [0,1], and [hueSaturation]'s clamp keeps it when the factor is 1
    and gives 0 when the factor is 0. *)
Definition sat_okb (M m : Z) : bool :=
  (M <=? m) ||
  ((0 <=? sat_of M m)%float && (sat_of M m <=? 1)%float &&
   same (JS.max 0 (JS.min 1 (sat_of M m * 1))) (sat_of M m) &&
   same (JS.max 0 (JS.min 1 (sat_of M m * 0))) 0).

Definition landsb (x : float) (c : Z) : bool :=
  finb x && Qle_bool (inject_Z c - (1 # 4)) (fval x) &&
  Qle_bool (fval x) (inject_Z c + (1 # 4)).

(** What is checked of each gray triple [(c, c, c)]: where the channels
    land after [HSVtoRGB], the saturation going through [clampS] in
    between; and the ranges of its hue, saturation and value. *)
Definition gray_backb (clampS : float -> float) (c : Z) : bool :=
  let '(h, s, v) :=
    ColorUtils.RGBtoHSV (JS.Z2F c) (JS.Z2F c) (JS.Z2F c) in
  let '(r', g', b') := ColorUtils.HSVtoRGB h (clampS s) v in
  landsb r' c && landsb g' c && landsb b' c.

Definition gray_rangeb (c : Z) : bool :=
  let '(h, s, v) :=
    ColorUtils.RGBtoHSV (JS.Z2F c) (JS.Z2F c) (JS.Z2F c) in
  (0 <=? h)%float && (h <? 1)%float && (0 <=? s)%float && (s <=? 1)%float &&
  (0 <=? v)%float && (v <=? 1)%float.

Definition unit_rangeb (c : Z) : bool :=
  (0 <=? unit_of c)%float && (unit_of c <=? 1)%float.

(** The pixel [hueSaturation] leaves for the factor 0: the gray of the
    largest colour byte. *)
Definition value_gray_px (p : Pixel) : Pixel :=
  let M := Z.max (Z.max (R p) (G p)) (B p) in
  mkPixel M M M (A p).

End RoundTripTerms.

(** *** The operators at the ends of their parameters

    What the statements about single operators, about the catalogue and
    about the entry points are written with. *)

Section FilterTerms.
Local Open Scope Z_scope.

(** The integers [lo, lo + 1, ..., lo + n - 1], to check a property of an
    integer on a whole range. *)
Definition zrange (lo : Z) (n : nat) : list Z :=
  map (fun i => lo + Z.of_nat i) (seq 0 n).

(** The negative of a pixel. *)
Definition negative_px (p : Pixel) : Pixel :=
  mkPixel (255 - R p) (255 - G p) (255 - B p) (A p).

(** A pixel painted with the colour [(r, g, b)]. *)
Definition paint_px (r g b : Z) (p : Pixel) : Pixel :=
  mkPixel r g b (A p).

(** A pixel turned black. *)
Definition black_px (p : Pixel) : Pixel := mkPixel 0 0 0 (A p).

(** The three colour channels are equal. *)
Definition is_gray (p : Pixel) : Prop := R p = G p /\ G p = B p.

(** An integer saturated to a byte. *)
Definition clampZ (n : Z) : Z := Z.max 0 (Z.min 255 n).

(** A pixel with the integer [k] added to every colour channel,
    saturating. *)
Definition shift_px (k : Z) (p : Pixel) : Pixel :=
  mkPixel (clampZ (R p + k)) (clampZ (G p + k)) (clampZ (B p + k)) (A p).

(** What is checked of a byte and an integer offset, and of their sum. *)
Definition shift_sumb (k c : Z) : bool :=
  same (JS.Z2F c + JS.Z2F k) (JS.Z2F (c + k)).

Definition shift_clampb (n : Z) : bool :=
  same (JS.max 0 (JS.min 255 (JS.Z2F n))) (JS.Z2F (clampZ n)).

Definition offset_intb (k : Z) : bool :=
  match JS.toInteger (JS.Z2F k) with Some n => n =? k | None => false end.

(** What is checked of a byte and an integer offset, for the overlay of
    [colorFilter]. *)
Definition overlay_diffb (k c : Z) : bool :=
  same (JS.Z2F c - JS.Z2F k) (JS.Z2F (c - k)).

Definition overlay_fullb (n : Z) : bool := same (JS.Z2F n * 1) (JS.Z2F n).

(** What is checked of two bytes: a term of weight zero leaves a sum that
    is a byte as it is. *)
Definition zero_termb (a c : Z) : bool :=
  same (JS.Z2F a + JS.Z2F c * 0) (JS.Z2F a) &&
  same (JS.Z2F a + JS.Z2F c * (-0)) (JS.Z2F a).

(** A weight that is a zero of either sign. *)
Definition zero_weight (weights : list float) (k : nat) : Prop :=
  is_zero_float (Filters.weight weights k).

(** A 3 x 3 kernel that is 1 at its centre and zero elsewhere. *)
Definition identity_kernel (weights : list float) : Prop :=
  length weights = 9%nat /\
  Filters.weight weights 4 = 1%float /\
  forall k, (k < 9)%nat -> k <> 4%nat -> zero_weight weights k.

(** Strings that are pairwise different. *)
Fixpoint distinctb (l : list string) : bool :=
  match l with
  | [] => true
  | s :: l' => negb (existsb (String.eqb s) l') && distinctb l'
  end.

(** [imageStyles]: the presets copied field by field. *)
Definition imageStyles : list InstaFilters.FilterPreset :=
  map (fun preset =>
         InstaFilters.mkPreset (InstaFilters.id preset)
           (InstaFilters.name preset) (InstaFilters.category preset)
           (InstaFilters.apply preset))
      InstaFilters.filterPresets.

(** The categories in the order of [filterCategories]. *)
Definition categories : list InstaFilters.Category :=
  [ InstaFilters.google; InstaFilters.vintage; InstaFilters.bw;
    InstaFilters.warm; InstaFilters.cool; InstaFilters.vivid;
    InstaFilters.soft; InstaFilters.artistic ].

(** What [moon] and [willow] do to a pixel once [grayscale] has made it
    gray. *)
Definition moon_px (p : Pixel) : Pixel :=
  Filters.brightness_px (JS.round (255 * clamp_unit 0.1))
    (Filters.contrast_px (Filters.contrast_factor (-0.04)) p).

Definition willow_px (p : Pixel) : Pixel :=
  Filters.brightness_px (JS.round (255 * clamp_unit 0.1))
    (Filters.colorFilter_px (100, 28, 210, 0.03)%float p).

(** What is checked of the gray of each byte: the tone [willow] gives
    it. *)
Definition willow_toneb (c : Z) : bool :=
  let q := willow_px (mkPixel c c c 0) in
  (G q <=? R q) && (R q <=? B q) && Bool.eqb (G q =? B q) (235 <=? c).

End FilterTerms.

(** *** imageProcessing: the additional effects *)

Module ImageEffects.
Local Open Scope float_scope.
Import ImageProcessing.

(** The [effects] argument of [applyEffects]: each field is a number or
    is left out. *)
Record Effects := mkEffects {
  vignette : option float;
  noise : option float;
  sharpen : option float
}.

(** A number used as a condition: the zeros and NaN count as false. *)
Definition truthy (x : float) : bool := negb (is_zero x || is_nan x).

(** [effects.f && effects.f > 0] once the field is there. *)
Definition effect_applies (amount : float) : bool :=
  truthy amount && (0 <? amount).

(** One of the three steps: [if (effects.f && effects.f > 0)
    imageData = f(imageData, effects.f)]. *)
Definition step (field : option float) (f : ImageData -> float -> ImageData)
    (imageData : ImageData) : ImageData :=
  match field with
  | Some amount =>
      if effect_applies amount then f imageData amount else imageData
  | None => imageData
  end.

(** [applyEffects]: [image] is what [getImageData] returns once the image
    is drawn, [random] the values of [Math.random]; the result is what
    [putImageData] puts back before the canvas is encoded. *)
Definition applyEffects (browser : Browser) (random : nat -> float)
    (image : ImageData) (effects : Effects) : Outcome :=
  if negb (image_loads browser) then Rejected FailedToLoadImage
  else if negb (context_available browser) then
    Rejected CanvasContextNotAvailable
  else
    let imageData := image in
    let imageData := step (sharpen effects) Filters.sharpen imageData in
    let imageData := step (noise effects) (Filters.noise random) imageData in
    let imageData := step (vignette effects) Filters.vignette imageData in
    if blob_created browser then Resolved imageData
    else Rejected FailedToCreateBlob.

End ImageEffects.


(** *** Bounds on what the operators store

    The factor of [vignette], the blends and the scalings are followed
    with exact rational values like the colour conversions; [vignette]
    and [contrast] on a coarser grid that has room for the squares of
    the distances in an image of 16384 by 16384 pixels. *)

Section BoundTerms.
Local Open Scope Z_scope.

(** A number on the grid used for [vignette]: finite, with exponent at
    most -22, so of magnitude below 2^31. *)
Definition coarse (z : float) : Prop := expo_le 22 (Prim2SF z).

(** The error unit of the analysis of [vignette], 2^-22. *)
Definition e22 : Q := eps 22.

(** [z] is the rounding of the exact value [X] on that grid. *)
Definition near (z : float) (X : Q) : Prop :=
  coarse z /\ (X - e22 <= fval z <= X + e22)%Q /\
  (0 <= X -> 0 <= fval z)%Q /\ (X <= 0 -> fval z <= 0)%Q.

(** What is checked of a byte: scaled by 1 and stored, it is kept. *)
Definition vignette_keepb (c : Z) : bool :=
  JS.ToUint8Clamp (JS.max 0 (JS.Z2F c * 1)) =? c.

(** [q] is the pixel [p] with no colour channel raised and the same
    alpha. *)
Definition darker (p q : Pixel) : Prop :=
  A q = A p /\ 0 <= R q <= R p /\ 0 <= G q <= G p /\ 0 <= B q <= B p.

(** The colour channels of [r] lie between those of [o] and [f], and
    [r] has the alpha of [f]. *)
Definition between_px (o f r : Pixel) : Prop :=
  A r = A f /\
  Z.min (R o) (R f) <= R r <= Z.max (R o) (R f) /\
  Z.min (G o) (G f) <= G r <= Z.max (G o) (G f) /\
  Z.min (B o) (B f) <= B r <= Z.max (B o) (B f).

(** [q] is the pixel [p] with every colour channel moved by at most [k]
    and the same alpha. *)
Definition close_px (k : Z) (p q : Pixel) : Prop :=
  A q = A p /\
  Z.abs (R q - R p) <= k /\ Z.abs (G q - G p) <= k /\
  Z.abs (B q - B p) <= k.

(** The direction in which the multiplier [m] takes the byte [c]: not up
    when [m] is between 0 and 1, not down when it is between 1 and
    1000. *)
Definition scaled (m : float) (c c' : Z) : Prop :=
  ((0 <=? m)%float = true -> (m <=? 1)%float = true -> 0 <= c' <= c) /\
  ((1 <=? m)%float = true -> (m <=? 1000)%float = true -> c <= c' <= 255).

(** The byte [c'] is [c] moved away from [mid], or not moved. *)
Definition away_from (mid c c' : Z) : Prop :=
  (mid <= c -> c <= c' <= 255) /\ (c <= mid -> 0 <= c' <= c).

(** The byte [c'] is [c] moved towards [mid] and not past it, or not
    moved. *)
Definition towards (mid c c' : Z) : Prop :=
  (mid <= c -> mid <= c' <= c) /\ (c <= mid -> c <= c' <= mid).

(** The luma of a pixel with the weights of [saturation], times 10000:
    [0.2989 r + 0.5870 g + 0.1140 b] in integers. *)
Definition luma (p : Pixel) : Z := 2989 * R p + 5870 * G p + 1140 * B p.

(** The byte [c'] is the channel [c] of [p] moved away from the luma of
    [p], or not moved. *)
Definition away_luma (p : Pixel) (c c' : Z) : Prop :=
  (luma p <= 10000 * c -> c <= c' <= 255) /\
  (10000 * c <= luma p -> 0 <= c' <= c).

(** The byte [c'] is the channel [c] of [p] moved towards the luma of
    [p] and not past it, or not moved. *)
Definition towards_luma (p : Pixel) (c c' : Z) : Prop :=
  (luma p <= 10000 * c -> luma p / 10000 <= c' <= c) /\
  (10000 * c <= luma p -> c <= c' <= (luma p + 9999) / 10000).

End BoundTerms.

(* ================================================================== *)
(** * Properties *)

(** ** Lists, loops and in-place updates *)

Lemma length_upd (i : nat) (f : Pixel -> Pixel) (d : list Pixel) :
  length (upd i f d) = length d.
Proof.
  revert i; induction d as [|p d IH]; intros [|i]; simpl; auto.
Qed.

Lemma nth_error_upd (i j : nat) (f : Pixel -> Pixel) (d : list Pixel) :
  nth_error (upd i f d) j =
  if Nat.eqb j i then option_map f (nth_error d j) else nth_error d j.
Proof.
  revert i j; induction d as [|p d IH]; intros [|i] [|j]; simpl; auto.
  - destruct (Nat.eqb j i); reflexivity.
Qed.

Lemma Forall_upd (P : Pixel -> Prop) (i : nat) (f : Pixel -> Pixel)
    (d : list Pixel) :
  (forall p, P p -> P (f p)) -> Forall P d -> Forall P (upd i f d).
Proof.
  intros Hf; revert i; induction d as [|p d IH]; intros [|i] H; simpl; auto;
    inversion H; subst; constructor; auto.
Qed.

Lemma map_A_upd (i : nat) (f : Pixel -> Pixel) (d : list Pixel) :
  (forall p, A (f p) = A p) -> map A (upd i f d) = map A d.
Proof.
  intros Hf; revert i; induction d as [|p d IH]; intros [|i]; simpl; auto;
    f_equal; auto.
Qed.

Lemma Forall_mapi_from {X Y : Type} (P : Y -> Prop) (f : nat -> X -> Y)
    (l : list X) (k : nat) :
  (forall n x, P (f n x)) -> Forall P (mapi_from k f l).
Proof.
  intros Hf; revert k; induction l as [|x l IH]; intros k; simpl;
    constructor; auto.
Qed.

Lemma map_A_mapi_from (f : nat -> Pixel -> Pixel) (l : list Pixel) (k : nat) :
  (forall n p, A (f n p) = A p) ->
  map A (mapi_from k f l) = map A l.
Proof.
  intros Hf; revert k; induction l as [|x l IH]; intros k; simpl;
    f_equal; auto.
Qed.

(** A loop keeps what every turn keeps. *)
Lemma fold_left_keeps {S X : Type} (P : S -> Prop) (f : S -> X -> S)
    (l : list X) (s : S) :
  (forall s x, P s -> P (f s x)) -> P s -> P (fold_left f l s).
Proof.
  intros Hf; revert s; induction l as [|x l IH]; intros s Hs; simpl; auto.
Qed.

Lemma fold_left_flat_map {S X Y : Type} (f : S -> Y -> S) (g : X -> list Y)
    (l : list X) (s : S) :
  fold_left f (flat_map g l) s = fold_left (fun s x => fold_left f (g x) s) l s.
Proof.
  revert s; induction l as [|x l IH]; intros s; simpl; auto.
  rewrite fold_left_app. apply IH.
Qed.

Lemma fold_left_map_arg {S X Y : Type} (f : S -> Y -> S) (h : X -> Y)
    (l : list X) (s : S) :
  fold_left f (map h l) s = fold_left (fun s x => f s (h x)) l s.
Proof.
  revert s; induction l as [|x l IH]; intros s; simpl; auto.
Qed.

Lemma fold_left_guard {S X : Type} (c : X -> bool) (f : S -> X -> S)
    (l : list X) (s : S) :
  fold_left (fun s x => if c x then f s x else s) l s =
  fold_left f (filter c l) s.
Proof.
  revert s; induction l as [|x l IH]; intros s; simpl; auto.
  destruct (c x); simpl; auto.
Qed.

Lemma fold_left_ext_in {S X : Type} (f g : S -> X -> S) (l : list X) (s : S) :
  (forall s x, In x l -> f s x = g s x) ->
  fold_left f l s = fold_left g l s.
Proof.
  revert s; induction l as [|x l IH]; intros s H; simpl; auto.
  rewrite H by (left; reflexivity). apply IH.
  intros; apply H; right; assumption.
Qed.

(** Three running sums kept in one loop are three loops. *)
Lemma fold_left_triple {X : Type} (tr tg tb : X -> float) (l : list X)
    (r g b : float) :
  fold_left (fun acc x => let '(r, g, b) := acc in
                          (r + tr x, g + tg x, b + tb x)%float) l (r, g, b) =
  (fold_left (fun a x => a + tr x)%float l r,
   fold_left (fun a x => a + tg x)%float l g,
   fold_left (fun a x => a + tb x)%float l b).
Proof.
  revert r g b; induction l as [|x l IH]; intros r g b; simpl; auto.
Qed.

(** ** The typed array's store *)

Lemma round_half_even_nonneg (m : positive) (e : Z) :
  (0 <= JS.round_half_even m e)%Z.
Proof.
  unfold JS.round_half_even.
  destruct (0 <=? e)%Z eqn:He.
  - apply Z.leb_le in He.
    apply Z.mul_nonneg_nonneg; [lia | apply Z.pow_nonneg; lia].
  - apply Z.leb_gt in He.
    assert (Hden : (0 < 2 ^ (- e))%Z) by (apply Z.pow_pos_nonneg; lia).
    assert (Hq : (0 <= Zpos m / 2 ^ (- e))%Z) by (apply Z.div_pos; lia).
    destruct (2 * (Zpos m mod 2 ^ (- e)) ?= 2 ^ (- e))%Z; try lia.
    destruct (Z.even (Zpos m / 2 ^ (- e))); lia.
Qed.

(** Whatever number is stored, the byte read back lies in [0,255]. *)
Lemma store_range (x : float) : channel_ok (JS.ToUint8Clamp x).
Proof.
  unfold JS.ToUint8Clamp, channel_ok.
  destruct (Prim2SF x) as [s|s| |s m e]; try destruct s; try lia.
  pose proof (round_half_even_nonneg m e). lia.
Qed.

(** ** Convolution: what the loops leave in the output array *)

Section ConvoluteLoops.
Import Filters.
Variables (d : list Pixel) (sw sh : nat) (weights : list float).
Variables (side halfSide : nat).


Lemma conv_write_length (y x : nat) (out : list Pixel) :
  length (conv_write d sw sh weights side halfSide y out x) = length out.
Proof.
  unfold conv_write.
  destruct (conv_sum d sw sh weights side halfSide x y) as [[r g] b].
  destruct (nth_error d (y * sw + x)); auto using length_upd.
Qed.

Lemma conv_write_nth (y x j : nat) (out : list Pixel) :
  y * sw + x < length d -> length out = length d ->
  nth_error (conv_write d sw sh weights side halfSide y out x) j =
  if Nat.eqb j (y * sw + x) then Some (conv_pixel d sw sh weights side halfSide x y) else nth_error out j.
Proof.
  intros Hlt Hlen. unfold conv_write, conv_pixel.
  destruct (conv_sum d sw sh weights side halfSide x y) as [[r g] b].
  destruct (nth_error d (y * sw + x)) as [src|] eqn:Hsrc.
  - rewrite nth_error_upd.
    destruct (Nat.eqb_spec j (y * sw + x)) as [->|Hne]; auto.
    rewrite (nth_error_nth _ _ _ Hsrc).
    destruct (nth_error out (y * sw + x)) eqn:Hout; simpl; auto.
    apply nth_error_None in Hout. lia.
  - apply nth_error_None in Hsrc. lia.
Qed.

(** After the first [n] turns of the [x] loop in row [y]. *)
Lemma conv_row (y n : nat) (out : list Pixel) :
  n <= sw -> y * sw + sw <= length d -> length out = length d ->
  let out' := fold_left (conv_write d sw sh weights side halfSide y)
                        (seq 0 n) out in
  length out' = length d /\
  forall j, nth_error out' j =
            if (y * sw <=? j) && (j <? y * sw + n)
            then Some (conv_pixel d sw sh weights side halfSide (j - y * sw) y)
            else nth_error out j.
Proof.
  intros Hn Hrow Hlen. cbv zeta. induction n as [|n IH].
  - simpl. split; auto. intros j.
    destruct (Nat.leb_spec (y * sw) j), (Nat.ltb_spec j (y * sw + 0));
      simpl; auto; lia.
  - destruct IH as [IHlen IHnth]; [lia|].
    rewrite seq_S, fold_left_app; simpl. split.
    + rewrite conv_write_length. exact IHlen.
    + intros j. rewrite conv_write_nth by (auto; lia). rewrite IHnth.
      destruct (Nat.eqb_spec j (y * sw + n)) as [->|Hne].
      * replace (y * sw + n - y * sw) with n by lia.
        destruct (Nat.leb_spec (y * sw) (y * sw + n)),
                 (Nat.ltb_spec (y * sw + n) (y * sw + S n));
          simpl; auto; lia.
      * destruct (Nat.leb_spec (y * sw) j), (Nat.ltb_spec j (y * sw + n)),
                 (Nat.ltb_spec j (y * sw + S n)); simpl; auto; lia.
Qed.

(** After the first [m] turns of the [y] loop. *)
Lemma conv_rows (m : nat) (out : list Pixel) :
  m <= sh -> length d = sw * sh -> length out = length d ->
  let out' :=
    fold_left
      (fun output y =>
         fold_left (conv_write d sw sh weights side halfSide y)
                   (seq 0 sw) output)
      (seq 0 m) out in
  length out' = length d /\
  forall j, nth_error out' j =
            if j <? m * sw
            then Some (conv_pixel d sw sh weights side halfSide (j mod sw) (j / sw))
            else nth_error out j.
Proof.
  intros Hm Hd Hlen. cbv zeta. induction m as [|m IH].
  - simpl. split; auto.
  - destruct IH as [IHlen IHnth]; [lia|].
    rewrite seq_S, fold_left_app; simpl.
    assert (Hrow : m * sw + sw <= length d) by nia.
    destruct (conv_row m sw _ (Nat.le_refl sw) Hrow IHlen) as [Rlen Rnth].
    split; [exact Rlen|].
    intros j. rewrite Rnth, IHnth.
    destruct (Nat.leb_spec (m * sw) j), (Nat.ltb_spec j (m * sw + sw)),
             (Nat.ltb_spec j (m * sw)), (Nat.ltb_spec j (sw + m * sw));
      simpl; auto; try lia.
    assert (Hsw : sw <> 0) by lia.
    assert (Hq : m = j / sw).
    { apply (Nat.div_unique j sw m (j - m * sw)); lia. }
    assert (Hr : j - m * sw = j mod sw).
    { apply (Nat.mod_unique j sw m (j - m * sw)); lia. }
    rewrite <- Hq, <- Hr. reflexivity.
Qed.

End ConvoluteLoops.

(** On every length up to 1024 the integer formula is what binary64
    computes for [Math.round(Math.sqrt(n))]. *)
Lemma round_sqrt_is_binary64 :
  forallb
    (fun n =>
       match JS.toInteger (JS.round (sqrt (JS.Z2F (Z.of_nat n)))) with
       | Some z => (z =? Z.of_nat (JS.round_sqrt n))%Z
       | None => false
       end)
    (seq 0 1025) = true.
Proof. vm_compute. reflexivity. Qed.

Lemma round_sqrt_square (k : nat) : JS.round_sqrt (k * k) = k.
Proof.
  unfold JS.round_sqrt. rewrite Nat2Z.inj_mul.
  rewrite Z.sqrt_square by lia.
  destruct (Z.ltb_spec (Z.of_nat k * Z.of_nat k + Z.of_nat k)
                       (Z.of_nat k * Z.of_nat k)); [lia|].
  apply Nat2Z.id.
Qed.

(** The output array of [convolute], position by position. *)
Lemma convolute_nth (pixels : ImageData) (weights : list float) (x y : nat) :
  wf_image pixels -> x < width pixels -> y < height pixels ->
  nth_error (data (Filters.convolute pixels weights)) (y * width pixels + x) =
  Some (conv_pixel (data pixels) (width pixels) (height pixels) weights
                   (JS.round_sqrt (length weights))
                   (JS.round_sqrt (length weights) / 2) x y).
Proof.
  intros [Hlen _] Hx Hy. unfold Filters.convolute. simpl.
  destruct (conv_rows (data pixels) (width pixels) (height pixels) weights
              (JS.round_sqrt (length weights))
              (JS.round_sqrt (length weights) / 2) (height pixels)
              (repeat (mkPixel 0 0 0 0) (length (data pixels))))
    as [_ Hnth]; auto using repeat_length.
  rewrite Hnth.
  destruct (Nat.ltb_spec (y * width pixels + x)
                         (height pixels * width pixels)); [|nia].
  assert (Hq : y = (y * width pixels + x) / width pixels).
  { apply (Nat.div_unique _ (width pixels) y x); lia. }
  assert (Hr : x = (y * width pixels + x) mod width pixels).
  { apply (Nat.mod_unique _ (width pixels) y x); lia. }
  rewrite <- Hq, <- Hr. reflexivity.
Qed.

Lemma convolute_length (pixels : ImageData) (weights : list float) :
  length (data (Filters.convolute pixels weights)) = length (data pixels).
Proof.
  unfold Filters.convolute. simpl.
  apply fold_left_keeps.
  - intros out y Hout. apply fold_left_keeps; auto.
    intros out' x Hout'. rewrite conv_write_length. exact Hout'.
  - apply repeat_length.
Qed.

(** ** Binary64 multiplication commutes *)

Lemma float_mul_comm (x y : float) : (x * y = y * x)%float.
Proof.
  apply Prim2SF_inj. rewrite !mul_spec. unfold SF64mul, SFmul.
  destruct (Prim2SF x) as [sx|sx| |sx mx ex],
           (Prim2SF y) as [sy|sy| |sy my ey];
    rewrite ?(xorb_comm sx sy), ?(Pos.mul_comm mx my), ?(Z.add_comm ex ey);
    reflexivity.
Qed.

(** ** The kernel loops compute the window sums of the specification *)

Lemma conv_sum_window (pixels : ImageData) (weights : list float)
    (k x y : nat) :
  Filters.conv_sum (data pixels) (width pixels) (height pixels) weights
                   k (k / 2) x y =
  (ConvSpec.window_sum R pixels weights k x y,
   ConvSpec.window_sum G pixels weights k x y,
   ConvSpec.window_sum B pixels weights k x y).
Proof.
  unfold Filters.conv_sum, ConvSpec.window_sum, ConvSpec.window.
  set (d := data pixels). set (sw := width pixels). set (sh := height pixels).
  set (term := fun (sel : Pixel -> Z) (pos : nat * nat) =>
         (ConvSpec.kernel_weight weights k pos *
          ConvSpec.source sel pixels (ConvSpec.source_row k y (fst pos))
                                     (ConvSpec.source_col k x (snd pos)))%float).
  set (cell := fun (acc : float * float * float) (pos : nat * nat) =>
         Filters.conv_cell d sw sh weights k (k / 2) x y (fst pos) acc (snd pos)).
  transitivity
    (fold_left cell
       (flat_map (fun ky => map (fun kx => (ky, kx)) (seq 0 k)) (seq 0 k))
       (0, 0, 0)%float).
  { rewrite fold_left_flat_map. apply fold_left_ext_in. intros acc ky _.
    rewrite fold_left_map_arg. reflexivity. }
  transitivity
    (fold_left
       (fun acc pos => if ConvSpec.in_bounds sw sh k x y pos
                       then (let '(r, g, b) := acc in
                             (r + term R pos, g + term G pos, b + term B pos)%float)
                       else acc)
       (flat_map (fun ky => map (fun kx => (ky, kx)) (seq 0 k)) (seq 0 k))
       (0, 0, 0)%float).
  { apply fold_left_ext_in. intros [[r g] b] [ky kx] _.
    unfold cell, Filters.conv_cell, ConvSpec.in_bounds, term,
      ConvSpec.kernel_weight, ConvSpec.source, ConvSpec.source_row,
      ConvSpec.source_col. cbn [fst snd].
    fold d sw sh.
    match goal with |- (if ?c then _ else _) = _ => destruct c end; auto.
    rewrite !(float_mul_comm (Filters.weight weights (ky * k + kx))).
    reflexivity. }
  rewrite (fold_left_guard (ConvSpec.in_bounds sw sh k x y)
             (fun acc pos => let '(r, g, b) := acc in
                (r + term R pos, g + term G pos, b + term B pos)%float)).
  apply fold_left_triple.
Qed.

(** ** Every operator: colour bytes in range, alpha and size untouched *)

Lemma pixel_ok_rgb_ok (p : Pixel) : pixel_ok p -> rgb_ok p.
Proof. unfold pixel_ok, rgb_ok; tauto. Qed.

Lemma stored_rgb_ok (r g b : float) (a : Z) :
  rgb_ok (mkPixel (JS.ToUint8Clamp r) (JS.ToUint8Clamp g)
                  (JS.ToUint8Clamp b) a).
Proof. unfold rgb_ok; simpl; auto using store_range. Qed.

(** Unfold a per-pixel body down to its four stores. *)
Ltac open_px :=
  unfold Filters.grayscale_px, Filters.sepia_px, Filters.invert_px,
    Filters.brightness_px, Filters.hueSaturation_px, Filters.saturation_px,
    Filters.contrast_px, Filters.colorFilter_px, Filters.rgbAdjust_px,
    Filters.vignette_px, Filters.noise_px;
  repeat match goal with
         | |- context [let '(_, _) := ?e in _] => destruct e
         end;
  cbn [R G B A].

Lemma each_pixel_rgb_ok (f : Pixel -> Pixel) (pixels : ImageData) :
  (forall p, rgb_ok (f p)) -> Forall rgb_ok (data (Filters.each_pixel f pixels)).
Proof.
  intros Hf. unfold Filters.each_pixel. simpl.
  apply Forall_forall. intros q Hq. apply in_map_iff in Hq.
  destruct Hq as [p [<- _]]. apply Hf.
Qed.

Lemma each_pixel_alpha (f : Pixel -> Pixel) (pixels : ImageData) :
  (forall p, A (f p) = A p) ->
  map A (data (Filters.each_pixel f pixels)) = map A (data pixels).
Proof.
  intros Hf. unfold Filters.each_pixel. simpl.
  rewrite map_map. apply map_ext. exact Hf.
Qed.

Lemma convolute_rgb_ok (pixels : ImageData) (weights : list float) :
  Forall rgb_ok (data (Filters.convolute pixels weights)).
Proof.
  unfold Filters.convolute. simpl.
  apply fold_left_keeps.
  - intros out y Hout. apply fold_left_keeps; auto.
    intros out' x Hout'. unfold Filters.conv_write.
    destruct (Filters.conv_sum _ _ _ _ _ _ _ _) as [[r g] b].
    destruct (nth_error _ _); auto.
    apply Forall_upd; auto. intros _ _. apply stored_rgb_ok.
  - apply Forall_forall. intros p Hp. apply repeat_spec in Hp. subst p.
    unfold rgb_ok, channel_ok; simpl; lia.
Qed.

Lemma convolute_alpha (pixels : ImageData) (weights : list float) :
  wf_image pixels ->
  map A (data (Filters.convolute pixels weights)) = map A (data pixels).
Proof.
  intros [Hlen _]. unfold Filters.convolute. simpl.
  destruct (conv_rows (data pixels) (width pixels) (height pixels) weights
              (JS.round_sqrt (length weights))
              (JS.round_sqrt (length weights) / 2) (height pixels)
              (repeat (mkPixel 0 0 0 0) (length (data pixels))))
    as [Hout Hnth]; auto using repeat_length.
  apply nth_error_ext. intros j. rewrite !nth_error_map, Hnth.
  destruct (Nat.ltb_spec j (height pixels * width pixels)) as [Hj|Hj].
  - unfold conv_pixel.
    destruct (Filters.conv_sum _ _ _ _ _ _ _ _) as [[r g] b]. simpl.
    assert (Hsw : width pixels <> 0) by nia.
    assert (Hjd : j / width pixels * width pixels + j mod width pixels = j).
    { pose proof (Nat.div_mod_eq j (width pixels)). lia. }
    rewrite Hjd.
    destruct (nth_error (data pixels) j) as [p|] eqn:Hp.
    + rewrite (nth_error_nth _ _ _ Hp). reflexivity.
    + apply nth_error_None in Hp. nia.
  - assert (H1 : nth_error (repeat (mkPixel 0 0 0 0) (length (data pixels))) j
                 = None).
    { apply nth_error_None. rewrite repeat_length. nia. }
    assert (H2 : nth_error (data pixels) j = None).
    { apply nth_error_None. nia. }
    rewrite H1, H2. reflexivity.
Qed.

Lemma run_rgb_ok (op : Engine.Operator) (pixels : ImageData) :
  wf_image pixels -> Forall rgb_ok (data (Engine.run op pixels)).
Proof.
  intros [_ Hok].
  destruct op; simpl;
    try (apply each_pixel_rgb_ok; intros p; open_px; apply stored_rgb_ok).
  - apply convolute_rgb_ok.
  - apply convolute_rgb_ok.
  - unfold Filters.vignette. simpl.
    apply fold_left_keeps.
    + intros d y Hd. apply fold_left_keeps; auto.
      intros d' x Hd'. apply Forall_upd; auto.
      intros p _. open_px. apply stored_rgb_ok.
    + eapply Forall_impl; [|exact Hok]. apply pixel_ok_rgb_ok.
  - unfold Filters.noise. simpl.
    apply Forall_mapi_from. intros n p. open_px. apply stored_rgb_ok.
Qed.

Lemma run_alpha (op : Engine.Operator) (pixels : ImageData) :
  wf_image pixels ->
  map A (data (Engine.run op pixels)) = map A (data pixels).
Proof.
  intros Hwf.
  destruct op; simpl;
    try (apply each_pixel_alpha; intros p; open_px; reflexivity).
  - apply convolute_alpha; assumption.
  - apply convolute_alpha; assumption.
  - unfold Filters.vignette. simpl.
    apply (fold_left_keeps (fun d => map A d = map A (data pixels))); auto.
    intros d y Hd.
    apply (fold_left_keeps (fun d => map A d = map A (data pixels))); auto.
    intros d' x Hd'. rewrite map_A_upd; auto.
  - unfold Filters.noise. simpl.
    apply map_A_mapi_from. intros n p. reflexivity.
Qed.

Lemma run_dims (op : Engine.Operator) (pixels : ImageData) :
  width (Engine.run op pixels) = width pixels /\
  height (Engine.run op pixels) = height pixels.
Proof. destruct op; simpl; auto. Qed.

Lemma same_alpha_pixel_ok (out d : list Pixel) :
  Forall rgb_ok out -> map A out = map A d -> Forall pixel_ok d ->
  Forall pixel_ok out.
Proof.
  revert d; induction out as [|q out IH]; intros [|p d] Hrgb HA Hd;
    simpl in HA; try discriminate; constructor.
  - inversion Hrgb; inversion Hd; subst. injection HA as HA1 HA2.
    unfold pixel_ok, rgb_ok in *. rewrite HA1. tauto.
  - inversion Hrgb; inversion Hd; subst. injection HA as HA1 HA2.
    eapply IH; eauto.
Qed.

(** An operator hands on a well-formed image. *)
Lemma run_wf (op : Engine.Operator) (pixels : ImageData) :
  wf_image pixels -> wf_image (Engine.run op pixels).
Proof.
  intros Hwf. pose proof (run_alpha op pixels Hwf) as HA.
  destruct (run_dims op pixels) as [Hw Hh].
  destruct Hwf as [Hlen Hok] eqn:E. clear E. split.
  - rewrite Hw, Hh, <- Hlen.
    rewrite <- (length_map A), HA. apply length_map.
  - eapply same_alpha_pixel_ok; eauto. apply run_rgb_ok. split; auto.
Qed.


Lemma wf_imageb_ok (pixels : ImageData) :
  wf_imageb pixels = true -> wf_image pixels.
Proof.
  unfold wf_imageb, wf_image. intros H.
  apply andb_true_iff in H. destruct H as [H1 H2].
  apply Nat.eqb_eq in H1. split; auto.
  apply Forall_forall. intros p Hp.
  rewrite forallb_forall in H2. specialize (H2 p Hp).
  unfold pixel_okb, channel_okb in H2. unfold pixel_ok, channel_ok.
  repeat (apply andb_true_iff in H2; destruct H2 as [H2 ?]). lia.
Qed.


(** C1.  For every well-formed input buffer and every operator of the
    engine, with any parameters, each R, G and B channel of the output is
    an integer of [0,255] - also for [grayscale] and [sepia], whose writes
    are clamped by the store into the typed array alone. *)
Theorem operator_output_in_range (op : Engine.Operator) (pixels : ImageData) :
  wf_image pixels -> Forall rgb_ok (data (Engine.run op pixels)).
Proof. apply run_rgb_ok. Qed.

Lemma operator_output_in_range_witness :
  wf_image sample_image /\
  Forall rgb_ok (data (Engine.run (Engine.Sepia 1) sample_image)).
Proof.
  split.
  - apply wf_imageb_ok. reflexivity.
  - apply (operator_output_in_range (Engine.Sepia 1) sample_image).
    apply wf_imageb_ok. reflexivity.
Defined.

(** C7.  For every well-formed input buffer and every operator of the
    engine, with any parameters, the alpha channel of every pixel of the
    output is the alpha channel of the same pixel of the input. *)
Theorem operator_preserves_alpha (op : Engine.Operator) (pixels : ImageData) :
  wf_image pixels ->
  map A (data (Engine.run op pixels)) = map A (data pixels).
Proof. apply run_alpha. Qed.

Lemma operator_preserves_alpha_witness :
  wf_image sample_image /\
  map A (data (Engine.run (Engine.Sharpen 0.3) sample_image)) =
  map A (data sample_image).
Proof.
  split.
  - apply wf_imageb_ok. reflexivity.
  - apply (operator_preserves_alpha (Engine.Sharpen 0.3) sample_image).
    apply wf_imageb_ok. reflexivity.
Defined.

(** C6.  For every well-formed buffer and every kernel of [k * k] weights
    (odd [k] included), the pixel [convolute] leaves at [(x, y)] has, in
    each of R, G and B, the stored clamp of the sum of [weight[ky][kx]]
    times the source channel at [(y + ky - halfSide, x + kx - halfSide)]
    over exactly the in-bounds window positions, and the alpha of the
    source pixel at [(x, y)]; the right-hand side reads the input image
    only. *)
Theorem convolute_window_sum (pixels : ImageData) (weights : list float)
    (k x y : nat) :
  wf_image pixels -> length weights = k * k ->
  x < width pixels -> y < height pixels ->
  nth_error (data (Filters.convolute pixels weights)) (y * width pixels + x) =
  Some (ConvSpec.output_pixel pixels weights k x y).
Proof.
  intros Hwf Hk Hx Hy.
  rewrite convolute_nth by assumption.
  rewrite Hk, round_sqrt_square.
  unfold conv_pixel, ConvSpec.output_pixel, ConvSpec.clamp_byte.
  rewrite conv_sum_window. reflexivity.
Qed.

Lemma convolute_window_sum_witness :
  wf_image sample_image /\
  nth_error
    (data (Filters.convolute sample_image
             [0; -1; 0; -1; 5; -1; 0; -1; 0]%float)) (0 * 2 + 1) =
  Some (ConvSpec.output_pixel sample_image
          [0; -1; 0; -1; 5; -1; 0; -1; 0]%float 3 1 0).
Proof.
  split.
  - apply wf_imageb_ok. reflexivity.
  - apply (convolute_window_sum sample_image
             [0; -1; 0; -1; 5; -1; 0; -1; 0]%float 3 1 0).
    + apply wf_imageb_ok. reflexivity.
    + reflexivity.
    + simpl. lia.
    + simpl. lia.
Defined.

(** ** Checking a property of a byte on all 256 bytes *)


Lemma bytes_complete (c : Z) : channel_ok c -> In c bytes.
Proof.
  unfold channel_ok, bytes. intros Hc.
  replace c with (Z.of_nat (Z.to_nat c)) by lia.
  apply in_map, in_seq. lia.
Qed.

Lemma on_all_bytes (P : Z -> bool) (c : Z) :
  forallb P bytes = true -> channel_ok c -> P c = true.
Proof.
  intros H Hc. rewrite forallb_forall in H. auto using bytes_complete.
Qed.

Lemma on_all_byte_pairs (P : Z -> Z -> bool) (c t : Z) :
  forallb (fun c => forallb (P c) bytes) bytes = true ->
  channel_ok c -> channel_ok t -> P c t = true.
Proof.
  intros H Hc Ht.
  apply (on_all_bytes (P c)); auto.
  apply (on_all_bytes (fun c => forallb (P c) bytes)); auto.
Qed.


Lemma same_eq (x y : float) : same x y = true -> x = y.
Proof. apply FloatAxioms.Leibniz.eqb_spec. Qed.

Lemma with_data_same (pixels : ImageData) :
  with_data pixels (data pixels) = pixels.
Proof. destruct pixels; reflexivity. Qed.

Lemma map_fixes (f : Pixel -> Pixel) (d : list Pixel) :
  Forall pixel_ok d -> (forall p, pixel_ok p -> f p = p) -> map f d = d.
Proof.
  intros Hd Hf. induction Hd as [|p d Hp Hd IH]; simpl; auto.
  rewrite Hf, IH; auto.
Qed.

Lemma each_pixel_fixes (f : Pixel -> Pixel) (pixels : ImageData) :
  wf_image pixels -> (forall p, pixel_ok p -> f p = p) ->
  Filters.each_pixel f pixels = pixels.
Proof.
  intros [_ Hok] Hf. unfold Filters.each_pixel.
  rewrite map_fixes by assumption. apply with_data_same.
Qed.

(** ** Sepia on white *)


(** C3, as stated, fails on the 2 x 2 white image: full sepia leaves blue
    at 239, the blue row of the matrix summing to 0.937. *)
Lemma sepia_white_counterexample :
  all_pixels white white_image /\
  ~ all_pixels white (Filters.sepia white_image 1) /\
  data (Filters.sepia white_image 1) =
    [ mkPixel 255 255 239 255; mkPixel 255 255 239 255;
      mkPixel 255 255 239 255; mkPixel 255 255 239 255 ].
Proof.
  split; [|split].
  - unfold all_pixels, white_image; simpl. repeat constructor.
  - intros H. unfold all_pixels in H. inversion H as [|q d Hq Hd]. subst.
    vm_compute in Hq. discriminate Hq.
  - vm_compute. reflexivity.
Qed.

(** C3, amended.  On a buffer whose every pixel is opaque white,
    [sepia] with [adj = 1] leaves every pixel at R = 255, G = 255 (both
    clamped), B = 239 and alpha 255. *)
Theorem sepia_white (pixels : ImageData) :
  all_pixels white pixels ->
  all_pixels (mkPixel 255 255 239 255) (Filters.sepia pixels 1).
Proof.
  unfold all_pixels, Filters.sepia, Filters.each_pixel. simpl.
  intros H. induction H as [|p d Hp Hd IH]; simpl; constructor; auto.
  subst p. vm_compute. reflexivity.
Qed.

Lemma sepia_white_witness :
  all_pixels white white_image /\
  all_pixels (mkPixel 255 255 239 255) (Filters.sepia white_image 1).
Proof.
  split.
  - unfold all_pixels, white_image; simpl. repeat constructor.
  - apply (sepia_white white_image).
    unfold all_pixels, white_image; simpl. repeat constructor.
Defined.

(** ** Out-of-range parameters of brightness and saturation *)


Lemma js_min_1_cases (x : float) :
  JS.min 1 x = nan \/ JS.min 1 x = 1%float \/ JS.min 1 x = x.
Proof.
  unfold JS.min.
  change (is_nan 1) with false. change (get_sign 1) with false. simpl.
  destruct (is_nan x); auto.
  destruct (1 <? x)%float; auto.
  destruct (x <? 1)%float; auto.
Qed.

Lemma js_max_m1_cases (x : float) :
  JS.max (-1) x = nan \/ JS.max (-1) x = (-1)%float \/ JS.max (-1) x = x.
Proof.
  unfold JS.max.
  change (is_nan (-1)) with false. change (get_sign (-1)) with true. simpl.
  destruct (is_nan x); auto.
  destruct (-1 <? x)%float; auto.
  destruct (x <? -1)%float; auto.
Qed.

Lemma js_max_m1_idempotent (x : float) :
  JS.max (-1) (JS.max (-1) x) = JS.max (-1) x.
Proof.
  destruct (js_max_m1_cases x) as [H|[H|H]]; rewrite H; try reflexivity.
  exact H.
Qed.

Lemma clamp_unit_idempotent (x : float) :
  clamp_unit (clamp_unit x) = clamp_unit x.
Proof.
  unfold clamp_unit.
  destruct (js_min_1_cases x) as [H|[H|H]]; rewrite H.
  - reflexivity.
  - reflexivity.
  - destruct (js_max_m1_cases x) as [H'|[H'|H']]; rewrite H';
      try reflexivity.
    rewrite H. exact H'.
Qed.

(** C10.  For every buffer and every number [adj] (NaN and the infinities
    included), [brightness] does with [adj] what it does with [adj]
    clamped into [-1,1] - so [brightness(buffer, 5)] is
    [brightness(buffer, 1)] - and [saturation] does with [adj] what it
    does with [adj] clamped from below at -1: neither rejects a parameter
    outside its documented domain. *)
Theorem brightness_saturation_coerce_parameter (pixels : ImageData)
    (adj : float) :
  Filters.brightness pixels adj = Filters.brightness pixels (clamp_unit adj) /\
  Filters.brightness pixels 5 = Filters.brightness pixels 1 /\
  Filters.saturation pixels adj = Filters.saturation pixels (JS.max (-1) adj).
Proof.
  split; [|split].
  - unfold Filters.brightness. fold (clamp_unit adj).
    fold (clamp_unit (clamp_unit adj)).
    rewrite clamp_unit_idempotent. reflexivity.
  - reflexivity.
  - unfold Filters.saturation. rewrite js_max_m1_idempotent. reflexivity.
Qed.

(** ** The filters of the catalogue keep the frame of the image *)


Lemma keeps_frame_id : keeps_frame (fun pixels => pixels).
Proof. intros pixels H. auto. Qed.

Lemma keeps_frame_then (f : ImageData -> ImageData) (op : Engine.Operator) :
  keeps_frame f -> keeps_frame (fun pixels => Engine.run op (f pixels)).
Proof.
  intros Hf pixels Hwf. destruct (Hf pixels Hwf) as (Hwf' & Hw & Hh & HA).
  destruct (run_dims op (f pixels)) as [Hw' Hh'].
  repeat split.
  - apply run_wf, Hwf'.
  - apply run_wf, Hwf'.
  - congruence.
  - congruence.
  - rewrite run_alpha by assumption. exact HA.
Qed.

Section KeepsFrame.
Variable f : ImageData -> ImageData.
Hypothesis Hf : keeps_frame f.

Lemma keeps_frame_grayscale :
  keeps_frame (fun pixels => Filters.grayscale (f pixels)).
Proof. exact (keeps_frame_then f Engine.Grayscale Hf). Qed.

Lemma keeps_frame_sepia adj :
  keeps_frame (fun pixels => Filters.sepia (f pixels) adj).
Proof. exact (keeps_frame_then f (Engine.Sepia adj) Hf). Qed.

Lemma keeps_frame_brightness adj :
  keeps_frame (fun pixels => Filters.brightness (f pixels) adj).
Proof. exact (keeps_frame_then f (Engine.Brightness adj) Hf). Qed.

Lemma keeps_frame_saturation adj :
  keeps_frame (fun pixels => Filters.saturation (f pixels) adj).
Proof. exact (keeps_frame_then f (Engine.Saturation adj) Hf). Qed.

Lemma keeps_frame_contrast adj :
  keeps_frame (fun pixels => Filters.contrast (f pixels) adj).
Proof. exact (keeps_frame_then f (Engine.Contrast adj) Hf). Qed.

Lemma keeps_frame_colorFilter rgbColor :
  keeps_frame (fun pixels => Filters.colorFilter (f pixels) rgbColor).
Proof. exact (keeps_frame_then f (Engine.ColorFilter rgbColor) Hf). Qed.

Lemma keeps_frame_rgbAdjust rgbAdj :
  keeps_frame (fun pixels => Filters.rgbAdjust (f pixels) rgbAdj).
Proof. exact (keeps_frame_then f (Engine.RgbAdjust rgbAdj) Hf). Qed.

Lemma keeps_frame_sharpen amount :
  keeps_frame (fun pixels => Filters.sharpen (f pixels) amount).
Proof. exact (keeps_frame_then f (Engine.Sharpen amount) Hf). Qed.

End KeepsFrame.

Ltac frame_of_pipeline :=
  repeat match goal with
    | |- keeps_frame (fun pixels => pixels) => apply keeps_frame_id
    | |- keeps_frame Filters.grayscale =>
        apply (keeps_frame_grayscale (fun pixels => pixels))
    | |- keeps_frame (fun pixels => Filters.grayscale _) =>
        apply keeps_frame_grayscale
    | |- keeps_frame (fun pixels => Filters.sepia _ _) =>
        apply keeps_frame_sepia
    | |- keeps_frame (fun pixels => Filters.brightness _ _) =>
        apply keeps_frame_brightness
    | |- keeps_frame (fun pixels => Filters.saturation _ _) =>
        apply keeps_frame_saturation
    | |- keeps_frame (fun pixels => Filters.contrast _ _) =>
        apply keeps_frame_contrast
    | |- keeps_frame (fun pixels => Filters.colorFilter _ _) =>
        apply keeps_frame_colorFilter
    | |- keeps_frame (fun pixels => Filters.rgbAdjust _ _) =>
        apply keeps_frame_rgbAdjust
    | |- keeps_frame (fun pixels => Filters.sharpen _ _) =>
        apply keeps_frame_sharpen
    end.

Lemma catalogue_keeps_frame :
  Forall (fun preset => keeps_frame (InstaFilters.apply preset))
         InstaFilters.filterPresets.
Proof.
  unfold InstaFilters.filterPresets.
  repeat (apply Forall_cons;
          [ cbn [InstaFilters.apply];
            match goal with |- keeps_frame ?g => unfold g end;
            cbv zeta; solve [frame_of_pipeline] | ]).
  apply Forall_nil.
Qed.

Lemma found_keeps_frame (filterId : string) (filter : InstaFilters.FilterPreset) :
  InstaFilters.getFilterById filterId = Some filter ->
  keeps_frame (InstaFilters.apply filter).
Proof.
  unfold InstaFilters.getFilterById. intros H.
  apply find_some in H. destruct H as [Hin _].
  pose proof catalogue_keeps_frame as Hall.
  rewrite Forall_forall in Hall. auto.
Qed.

(** ** The strength blend at its endpoints *)

Lemma byte_times_zero (c : Z) : channel_ok c -> (JS.Z2F c * 0 = 0)%float.
Proof.
  intros Hc. apply same_eq.
  apply (on_all_bytes (fun c => same (JS.Z2F c * 0) 0));
    [vm_compute; reflexivity | assumption].
Qed.

Lemma blend_keeps_original_byte (c : Z) :
  channel_ok c -> JS.ToUint8Clamp (JS.Z2F c * (1 - 0) + 0) = c.
Proof.
  intros Hc. apply Z.eqb_eq.
  apply (on_all_bytes
           (fun c => JS.ToUint8Clamp (JS.Z2F c * (1 - 0) + 0) =? c)%Z);
    [vm_compute; reflexivity | assumption].
Qed.

Lemma blend_px_zero (o p : Pixel) :
  pixel_ok o -> pixel_ok p -> A p = A o ->
  ImageProcessing.blend_px 0 (Some o) p = o.
Proof.
  intros (HR & HG & HB & _) (HR' & HG' & HB' & _) HA.
  unfold ImageProcessing.blend_px, ImageProcessing.original_chan.
  rewrite !byte_times_zero, !blend_keeps_original_byte, HA by assumption.
  destruct o; reflexivity.
Qed.

Lemma blend_data_zero (originalData d : list Pixel) :
  Forall pixel_ok originalData -> Forall pixel_ok d ->
  map A d = map A originalData ->
  ImageProcessing.blend_data originalData d 0 = originalData.
Proof.
  intros Ho; revert d.
  induction Ho as [|o od Hok Ho IH]; intros [|p d] Hd HA; simpl in *;
    try discriminate; auto.
  inversion Hd; subst. injection HA as HA1 HA2.
  rewrite blend_px_zero, IH; auto.
Qed.

(** C4.  For every well-formed image and every filter id, applying the
    filter with strength 0 gives back the original image, byte for byte,
    and applying it with strength 1 gives the filtered image itself (the
    image untouched when the id is not in the catalogue): the blend has
    no rounding drift at either endpoint.  The blend loop leaves alpha as
    the filter left it, which is the original alpha for every filter of
    the catalogue. *)
Theorem strength_endpoints (image : ImageData) (filterId : string) :
  wf_image image ->
  ImageProcessing.applyFilter image filterId 0 = image /\
  ImageProcessing.applyFilter image filterId 1 =
    match InstaFilters.getFilterById filterId with
    | Some filter => InstaFilters.apply filter image
    | None => image
    end.
Proof.
  intros Hwf. unfold ImageProcessing.applyFilter.
  destruct (String.eqb_spec filterId "normal") as [->|Hne].
  - split; reflexivity.
  - destruct (InstaFilters.getFilterById filterId) as [filter|] eqn:Hfind;
      [|split; reflexivity].
    change (0 <? 1)%float with true. change (1 <? 1)%float with false.
    split; [|reflexivity].
    destruct (found_keeps_frame _ _ Hfind image Hwf)
      as ((Hlen' & Hok') & Hw & Hh & HA).
    destruct Hwf as [Hlen Hok].
    unfold ImageProcessing.blend, with_data.
    rewrite blend_data_zero, Hw, Hh by assumption.
    destruct image; reflexivity.
Qed.

Lemma strength_endpoints_witness :
  wf_image sample_image /\
  ImageProcessing.applyFilter sample_image "clarendon" 0 = sample_image /\
  ImageProcessing.applyFilter sample_image "clarendon" 1 =
    InstaFilters.clarendon sample_image.
Proof.
  split.
  - apply wf_imageb_ok. reflexivity.
  - apply (strength_endpoints sample_image "clarendon").
    apply wf_imageb_ok. reflexivity.
Defined.

(** ** Parameters the entry point does not reject *)


(** C2, as stated, fails: with an id that is not in the catalogue the
    call resolves with the image unchanged, and with a strength of 5 or
    of -0.5 it resolves too, with the fully filtered image and with the
    blend extrapolated at -0.5. *)
Lemma invalid_parameter_counterexample :
  InstaFilters.getFilterById "no-such-filter" = None /\
  ImageProcessing.applyFilterToImage working_browser sample_image
    "no-such-filter" 0.5 = ImageProcessing.Resolved sample_image /\
  ImageProcessing.applyFilterToImage working_browser sample_image
    "clarendon" 5 =
    ImageProcessing.Resolved (InstaFilters.clarendon sample_image) /\
  ImageProcessing.applyFilterToImage working_browser sample_image
    "clarendon" (-0.5) =
    ImageProcessing.Resolved
      (ImageProcessing.blend (data sample_image)
         (InstaFilters.clarendon sample_image) (-0.5)).
Proof. repeat split; vm_compute; reflexivity. Qed.

(** C2, amended.  When the browser loads the image, hands out a context
    and creates the blob, the call resolves whatever the filter id and
    the strength are: an id that is not in the catalogue leaves the image
    unchanged; with an id of the catalogue other than "normal", a
    strength that is not below 1 (above 1 or NaN included) gives the
    fully filtered image and a strength below 1 (negative included) is
    used as it is in the blend. *)
Theorem parameters_never_rejected (browser : ImageProcessing.Browser)
    (image : ImageData) (filterId : string) (strength : float) :
  ImageProcessing.image_loads browser = true ->
  ImageProcessing.context_available browser = true ->
  ImageProcessing.blob_created browser = true ->
  (exists result,
     ImageProcessing.applyFilterToImage browser image filterId strength =
     ImageProcessing.Resolved result) /\
  (InstaFilters.getFilterById filterId = None ->
   ImageProcessing.applyFilterToImage browser image filterId strength =
   ImageProcessing.Resolved image) /\
  (forall filter,
     filterId <> "normal"%string ->
     InstaFilters.getFilterById filterId = Some filter ->
     ImageProcessing.applyFilterToImage browser image filterId strength =
     ImageProcessing.Resolved
       (if (strength <? 1)%float
        then ImageProcessing.blend (data image)
               (InstaFilters.apply filter image) strength
        else InstaFilters.apply filter image)).
Proof.
  intros Hload Hctx Hblob. unfold ImageProcessing.applyFilterToImage.
  rewrite Hload, Hctx, Hblob. simpl. split; [eauto|]. split.
  - intros Hnone. unfold ImageProcessing.applyFilter. rewrite Hnone.
    destruct (String.eqb filterId "normal"); reflexivity.
  - intros filter Hne Hsome. unfold ImageProcessing.applyFilter.
    rewrite Hsome. apply String.eqb_neq in Hne. rewrite Hne.
    destruct (strength <? 1)%float; reflexivity.
Qed.

Lemma parameters_never_rejected_witness :
  ImageProcessing.applyFilterToImage working_browser sample_image
    "no-such-filter" 7 = ImageProcessing.Resolved sample_image.
Proof.
  apply (parameters_never_rejected working_browser sample_image
           "no-such-filter" 7); reflexivity.
Defined.

(** ** Rounding to binary64, enclosed

    The specification of the binary64 operations ([SpecFloat]) rounds an
    exact mantissa and exponent with [binary_round_aux].  When the exact
    value lies between two integers below 2^52, so does the rounded one:
    rounding is monotone and those integers are representable. *)

Section Rounding.
Local Open Scope Z_scope.

Lemma digits2_pos_bounds (p : positive) :
  2 ^ (Zpos (digits2_pos p) - 1) <= Zpos p < 2 ^ Zpos (digits2_pos p).
Proof.
  induction p as [p IH|p IH|]; simpl digits2_pos.
  - rewrite Pos2Z.inj_succ.
    replace (Z.succ (Z.pos (digits2_pos p)) - 1) with (Z.succ (Z.pos (digits2_pos p) - 1)) by lia.
    rewrite !Z.pow_succ_r by lia. lia.
  - rewrite Pos2Z.inj_succ.
    replace (Z.succ (Z.pos (digits2_pos p)) - 1) with (Z.succ (Z.pos (digits2_pos p) - 1)) by lia.
    rewrite !Z.pow_succ_r by lia. lia.
  - simpl. lia.
Qed.

Lemma shr_1_inv (M k : Z) (mrs : shr_record) :
  0 <= M -> 0 <= k -> shr_inv M k mrs -> shr_inv M (k + 1) (shr_1 mrs).
Proof.
  intros HM Hk [Hm Hex].
  assert (Hpow : 0 < 2 ^ k) by (apply Z.pow_pos_nonneg; lia).
  assert (Hdiv : M / 2 ^ (k + 1) = M / 2 ^ k / 2).
  { rewrite Z.pow_add_r, Z.pow_1_r by lia. rewrite Z.div_div by lia. reflexivity. }
  assert (Hm0 : 0 <= M / 2 ^ k) by (apply Z.div_pos; lia).
  assert (Hmod : M mod 2 ^ (k + 1) = 0 -> M mod 2 ^ k = 0 /\ (M / 2 ^ k) mod 2 = 0).
  { rewrite Z.pow_add_r, Z.pow_1_r by lia. intros H.
    rewrite Z.rem_mul_r in H by lia.
    pose proof (Z.mod_pos_bound M (2 ^ k) Hpow).
    pose proof (Z.mod_pos_bound (M / 2 ^ k) 2 ltac:(lia)).
    nia. }
  destruct mrs as [m r s]. simpl in *. subst m.
  unfold shr_inv. rewrite Hdiv.
  destruct (M / 2 ^ k) as [|p|p] eqn:E; try lia.
  - simpl. split; [reflexivity|]. intros H. apply Hmod in H. destruct H as [H _].
    destruct (Hex H) as [-> ->]. auto.
  - destruct p as [p|p|]; simpl.
    + split. { rewrite Pos2Z.inj_xI. apply Z.div_unique with 1; lia. }
      intros H. apply Hmod in H. destruct H as [_ H].
      rewrite Pos2Z.inj_xI in H.
      replace (2 * Z.pos p + 1) with (1 + Z.pos p * 2) in H by lia.
      rewrite Z.mod_add in H by lia. discriminate H.
    + split. { rewrite Pos2Z.inj_xO. apply Z.div_unique with 0; lia. }
      intros H. apply Hmod in H. destruct H as [H _].
      destruct (Hex H) as [-> ->]. auto.
    + split; [reflexivity|]. intros H. apply Hmod in H. destruct H as [_ H].
      discriminate H.
Qed.

Lemma iter_pos_shr_inv (M : Z) (p : positive) :
  0 <= M -> forall k mrs, 0 <= k -> shr_inv M k mrs ->
  shr_inv M (k + Zpos p) (iter_pos shr_1 p mrs).
Proof.
  intros HM. induction p as [p IH|p IH|]; intros k mrs Hk H; simpl.
  - replace (k + Z.pos p~1) with (k + 1 + Zpos p + Zpos p) by lia.
    apply IH; [lia|]. apply IH; [lia|]. apply shr_1_inv; auto.
  - replace (k + Z.pos p~0) with (k + Zpos p + Zpos p) by lia.
    apply IH; [lia|]. apply IH; [lia|]. exact H.
  - apply shr_1_inv; auto.
Qed.

(** Shifting a record that starts exact. *)
Lemma shr_exact (M e n : Z) :
  0 <= M ->
  let '(mrs, e') := shr (Build_shr_record M false false) e n in
  e' = e + Z.max 0 n /\
  shr_m mrs = M / 2 ^ Z.max 0 n /\
  (M mod 2 ^ Z.max 0 n = 0 -> loc_of_shr_record mrs = loc_Exact).
Proof.
  intros HM. unfold shr. destruct n as [|p|p].
  - simpl. rewrite Z.div_1_r. repeat split; auto; lia.
  - rewrite Z.max_r by lia.
    destruct (iter_pos_shr_inv M p HM 0 (Build_shr_record M false false)) as [H1 H2].
    { lia. }
    { unfold shr_inv. simpl. rewrite Z.div_1_r. auto. }
    simpl in H1, H2. repeat split; auto.
    intros H. destruct (H2 H) as [Hr Hs].
    destruct (iter_pos shr_1 p _) as [m r s]. simpl in *. subst. reflexivity.
  - simpl. rewrite Z.div_1_r. repeat split; auto; lia.
Qed.

Lemma round_nearest_even_bounds (m : Z) (l : location) :
  m <= round_nearest_even m l <= m + 1 /\
  (l = loc_Exact -> round_nearest_even m l = m).
Proof.
  unfold round_nearest_even. destruct l as [|[| |]]; try destruct (Z.even m);
    split; try lia; auto; discriminate.
Qed.

Lemma fexp_small (k : Z) : k <= 52 -> fexp prec emax k <= -1.
Proof. unfold fexp, SpecFloat.emin, prec, emax. lia. Qed.

Lemma stage_bounds (M E lo hi n : Z) :
  0 <= n -> E + n <= 0 ->
  lo * 2 ^ (- E) <= M <= hi * 2 ^ (- E) ->
  lo * 2 ^ (- (E + n)) <= M / 2 ^ n <= hi * 2 ^ (- (E + n)) /\
  (M / 2 ^ n = hi * 2 ^ (- (E + n)) -> M mod 2 ^ n = 0).
Proof.
  intros Hn HE [Hlo Hhi].
  assert (Hp : 0 < 2 ^ n) by (apply Z.pow_pos_nonneg; lia).
  assert (Hsplit : 2 ^ (- E) = 2 ^ (- (E + n)) * 2 ^ n).
  { rewrite <- Z.pow_add_r by lia. f_equal. lia. }
  rewrite Hsplit in Hlo, Hhi.
  repeat split.
  - apply Z.div_le_lower_bound; lia.
  - apply Z.div_le_upper_bound; lia.
  - intros Heq. pose proof (Z.div_mod M (2 ^ n) ltac:(lia)) as Hdm.
    pose proof (Z.mod_pos_bound M (2 ^ n) Hp). nia.
Qed.

Lemma digits_exp_bound (M E hi : Z) :
  0 <= M -> E <= 0 -> hi < 2 ^ 52 -> M <= hi * 2 ^ (- E) ->
  Zdigits2 M + E <= 52.
Proof.
  intros HM HE Hhi Hle. destruct M as [|p|p]; unfold Zdigits2; try lia.
  pose proof (digits2_pos_bounds p) as [Hd _].
  assert (Hp : 0 < 2 ^ (- E)) by (apply Z.pow_pos_nonneg; lia).
  assert (Hlt : 2 ^ (Z.pos (digits2_pos p) - 1) < 2 ^ (52 - E)).
  { replace (52 - E) with (52 + - E) by lia. rewrite Z.pow_add_r by lia. nia. }
  apply Z.pow_lt_mono_r_iff in Hlt; lia.
Qed.

Lemma round_aux_bounds (s : bool) (M : positive) (E lo hi : Z) :
  E <= 0 -> 0 <= lo -> hi < 2 ^ 52 ->
  lo * 2 ^ (- E) <= Zpos M <= hi * 2 ^ (- E) ->
  match binary_round_aux prec emax s (Zpos M) E loc_Exact with
  | S754_zero s' => s' = s /\ lo = 0
  | S754_finite s' m e =>
      s' = s /\ e <= 0 /\ lo * 2 ^ (- e) <= Zpos m <= hi * 2 ^ (- e)
  | _ => False
  end.
Proof.
  intros HE Hlo Hhi HM.
  unfold binary_round_aux, shr_fexp.
  change (shr_record_of_loc (Z.pos M) loc_Exact)
    with (Build_shr_record (Zpos M) false false).
  set (n1 := fexp prec emax (Zdigits2 (Z.pos M) + E) - E).
  pose proof (shr_exact (Zpos M) E n1 ltac:(lia)) as H1.
  destruct (shr (Build_shr_record (Zpos M) false false) E n1) as [mrs1 e1].
  destruct H1 as (He1 & Hm1 & Hx1).
  assert (Hd1 : Zdigits2 (Zpos M) + E <= 52).
  { apply (digits_exp_bound _ _ hi); lia. }
  pose proof (fexp_small _ Hd1) as Hf1.
  assert (He1' : e1 <= 0) by (subst e1 n1; lia).
  destruct (stage_bounds (Zpos M) E lo hi (Z.max 0 n1) ltac:(lia) ltac:(lia) HM)
    as [Hb1 Hex1].
  rewrite <- He1, <- Hm1 in Hb1, Hex1.
  set (m2 := round_nearest_even (shr_m mrs1) (loc_of_shr_record mrs1)).
  destruct (round_nearest_even_bounds (shr_m mrs1) (loc_of_shr_record mrs1))
    as [Hr Hrx]. fold m2 in Hr, Hrx.
  assert (Hb2 : lo * 2 ^ (- e1) <= m2 <= hi * 2 ^ (- e1)).
  { split; [lia|].
    destruct (Z.eq_dec (shr_m mrs1) (hi * 2 ^ (- e1))) as [Heq|Hne]; [|lia].
    rewrite Hrx; [lia|]. apply Hx1. apply Hex1. exact Heq. }
  assert (Hm2 : 0 <= m2).
  { assert (0 <= lo * 2 ^ (- e1)); [|lia].
    apply Z.mul_nonneg_nonneg; [lia|apply Z.pow_nonneg; lia]. }
  change (shr_record_of_loc m2 loc_Exact)
    with (Build_shr_record m2 false false).
  set (n2 := fexp prec emax (Zdigits2 m2 + e1) - e1).
  pose proof (shr_exact m2 e1 n2 Hm2) as H2.
  destruct (shr (Build_shr_record m2 false false) e1 n2) as [mrs2 e2].
  destruct H2 as (He2 & Hm2' & _).
  assert (Hd2 : Zdigits2 m2 + e1 <= 52).
  { apply (digits_exp_bound _ _ hi); lia. }
  pose proof (fexp_small _ Hd2) as Hf2.
  assert (He2' : e2 <= 0) by (subst e2 n2; lia).
  destruct (stage_bounds m2 e1 lo hi (Z.max 0 n2) ltac:(lia) ltac:(lia) Hb2)
    as [Hb3 _].
  rewrite <- He2, <- Hm2' in Hb3.
  assert (Hp2 : 0 < 2 ^ (- e2)) by (apply Z.pow_pos_nonneg; lia).
  destruct (shr_m mrs2) as [|m3|m3] eqn:E3.
  - split; [reflexivity|]. nia.
  - assert (Hle : (e2 <=? emax - prec) = true).
    { apply Z.leb_le. unfold emax, prec. lia. }
    rewrite Hle. auto.
  - exfalso. nia.
Qed.

Lemma shl_align_spec (mx : positive) (ex ex' : Z) :
  let '(mz, ez) := shl_align mx ex ex' in
  ez <= ex /\ (ex' <= ex -> ez = ex') /\ Zpos mz = Zpos mx * 2 ^ (ex - ez).
Proof.
  unfold shl_align. destruct (ex' - ex) as [|d|d] eqn:Hd.
  - rewrite Z.sub_diag. simpl. lia.
  - rewrite Z.sub_diag. simpl. lia.
  - replace (ex - ex') with (Zpos d) by lia.
    change (Pos.iter xO mx d) with (shift_pos d mx).
    rewrite shift_pos_correct. change (Z.pow_pos 2 d) with (2 ^ Zpos d).
    lia.
Qed.

Lemma binary_round_bounds (s : bool) (M : positive) (E lo hi : Z) :
  E <= 0 -> 0 <= lo -> hi < 2 ^ 52 ->
  lo * 2 ^ (- E) <= Zpos M <= hi * 2 ^ (- E) ->
  match binary_round prec emax s M E with
  | S754_zero s' => s' = s /\ lo = 0
  | S754_finite s' m e =>
      s' = s /\ e <= 0 /\ lo * 2 ^ (- e) <= Zpos m <= hi * 2 ^ (- e)
  | _ => False
  end.
Proof.
  intros HE Hlo Hhi HM. unfold binary_round.
  pose proof (shl_align_spec M E (fexp prec emax (Z.pos (digits2_pos M) + E)))
    as Hs.
  destruct (shl_align M E _) as [mz ez]. destruct Hs as (Hez & _ & Hmz).
  apply round_aux_bounds; try lia.
  rewrite Hmz.
  assert (Hsplit : 2 ^ (- ez) = 2 ^ (- E) * 2 ^ (E - ez)).
  { rewrite <- Z.pow_add_r by lia. f_equal. lia. }
  assert (Hp : 0 < 2 ^ (E - ez)) by (apply Z.pow_pos_nonneg; lia).
  rewrite Hsplit. nia.
Qed.

Lemma bounds_within (s : bool) (hi : Z) (r : spec_float) :
  match r with
  | S754_zero s' => s' = s /\ 0 = 0
  | S754_finite s' m e =>
      s' = s /\ e <= 0 /\ 0 * 2 ^ (- e) <= Zpos m <= hi * 2 ^ (- e)
  | _ => False
  end -> within hi r.
Proof. destruct r; simpl; tauto. Qed.

Lemma bounds_between (lo hi : Z) (r : spec_float) :
  1 <= lo ->
  match r with
  | S754_zero s' => s' = false /\ lo = 0
  | S754_finite s' m e =>
      s' = false /\ e <= 0 /\ lo * 2 ^ (- e) <= Zpos m <= hi * 2 ^ (- e)
  | _ => False
  end -> between lo hi r.
Proof.
  intros Hlo. destruct r as [s|s| |s m e]; simpl; try tauto; try lia.
  intros (-> & H). exact H.
Qed.

Lemma within_mono (h h' : Z) (x : spec_float) :
  h <= h' -> within h x -> within h' x.
Proof.
  intros Hh. destruct x as [s|s| |s m e]; simpl; auto.
  intros [He Hm]. split; auto.
  assert (0 < 2 ^ (- e)) by (apply Z.pow_pos_nonneg; lia). nia.
Qed.

Lemma between_within (lo hi : Z) (x : spec_float) :
  between lo hi x -> within hi x.
Proof. destruct x as [s|s| |[|] m e]; simpl; tauto. Qed.

Lemma within_opp (h : Z) (x : spec_float) : within h x -> within h (SFopp x).
Proof. destruct x; simpl; auto. Qed.

Lemma SFmul_within (h1 h2 : Z) (x y : spec_float) :
  0 <= h1 -> 0 <= h2 -> h1 * h2 < 2 ^ 52 ->
  within h1 x -> within h2 y -> within (h1 * h2) (SF64mul x y).
Proof.
  intros H1 H2 Hh Hx Hy. unfold SF64mul, SFmul.
  destruct x as [sx|sx| |sx mx ex], y as [sy|sy| |sy my ey];
    simpl in Hx, Hy; try tauto; simpl; auto.
  destruct Hx as [Hex Hmx], Hy as [Hey Hmy].
  apply (bounds_within (xorb sx sy)).
  apply round_aux_bounds; try lia.
  rewrite Pos2Z.inj_mul.
  replace (- (ex + ey)) with (- ex + - ey) by lia.
  rewrite Z.pow_add_r by lia.
  assert (0 < 2 ^ (- ex)) by (apply Z.pow_pos_nonneg; lia).
  assert (0 < 2 ^ (- ey)) by (apply Z.pow_pos_nonneg; lia).
  nia.
Qed.

Lemma SFmul_between (l1 h1 l2 h2 : Z) (x y : spec_float) :
  1 <= l1 -> 1 <= l2 -> h1 * h2 < 2 ^ 52 ->
  between l1 h1 x -> between l2 h2 y ->
  between (l1 * l2) (h1 * h2) (SF64mul x y).
Proof.
  intros H1 H2 Hh Hx Hy. unfold SF64mul, SFmul.
  destruct x as [sx|sx| |[|] mx ex], y as [sy|sy| |[|] my ey];
    simpl in Hx, Hy; try tauto.
  destruct Hx as [Hex Hmx], Hy as [Hey Hmy].
  apply bounds_between; [nia|].
  change (xorb false false) with false.
  apply round_aux_bounds; try lia; try nia.
  rewrite Pos2Z.inj_mul.
  replace (- (ex + ey)) with (- ex + - ey) by lia.
  rewrite Z.pow_add_r by lia.
  assert (0 < 2 ^ (- ex)) by (apply Z.pow_pos_nonneg; lia).
  assert (0 < 2 ^ (- ey)) by (apply Z.pow_pos_nonneg; lia).
  split; nia.
Qed.

Lemma aligned_value (mx : positive) (ex ez : Z) :
  ez <= ex -> Zpos (fst (shl_align mx ex ez)) = Zpos mx * 2 ^ (ex - ez).
Proof.
  intros H. pose proof (shl_align_spec mx ex ez) as Hs.
  destruct (shl_align mx ex ez) as [mz e']. simpl.
  destruct Hs as (_ & He & Hm). rewrite Hm, (He H). reflexivity.
Qed.

Lemma binary_normalize_within (S E hi : Z) :
  E <= 0 -> hi < 2 ^ 52 -> Z.abs S <= hi * 2 ^ (- E) ->
  within hi (binary_normalize prec emax S E false).
Proof.
  intros HE Hhi HS. unfold binary_normalize. destruct S as [|p|p].
  - exact I.
  - apply (bounds_within false). apply binary_round_bounds; lia.
  - apply (bounds_within true). apply binary_round_bounds; lia.
Qed.

Lemma binary_normalize_between (S E lo hi : Z) :
  E <= 0 -> 1 <= lo -> hi < 2 ^ 52 ->
  lo * 2 ^ (- E) <= S <= hi * 2 ^ (- E) ->
  between lo hi (binary_normalize prec emax S E false).
Proof.
  intros HE Hlo Hhi HS.
  assert (0 < 2 ^ (- E)) by (apply Z.pow_pos_nonneg; lia).
  unfold binary_normalize. destruct S as [|p|p]; try nia.
  apply bounds_between; auto. apply binary_round_bounds; lia.
Qed.

Lemma scaled_bound (m ex ez h : Z) :
  ez <= ex -> ex <= 0 -> 0 <= m <= h * 2 ^ (- ex) ->
  0 <= m * 2 ^ (ex - ez) <= h * 2 ^ (- ez).
Proof.
  intros H1 H2 [H3 H4].
  assert (Hsplit : 2 ^ (- ez) = 2 ^ (- ex) * 2 ^ (ex - ez)).
  { rewrite <- Z.pow_add_r by lia. f_equal. lia. }
  assert (0 < 2 ^ (ex - ez)) by (apply Z.pow_pos_nonneg; lia).
  rewrite Hsplit. nia.
Qed.

Lemma scaled_lower (m ex ez l : Z) :
  ez <= ex -> ex <= 0 -> l * 2 ^ (- ex) <= m ->
  l * 2 ^ (- ez) <= m * 2 ^ (ex - ez).
Proof.
  intros H1 H2 H3.
  assert (Hsplit : 2 ^ (- ez) = 2 ^ (- ex) * 2 ^ (ex - ez)).
  { rewrite <- Z.pow_add_r by lia. f_equal. lia. }
  assert (0 < 2 ^ (ex - ez)) by (apply Z.pow_pos_nonneg; lia).
  rewrite Hsplit. nia.
Qed.

Lemma SFadd_within (h1 h2 : Z) (x y : spec_float) :
  0 <= h1 -> 0 <= h2 -> h1 + h2 < 2 ^ 52 ->
  within h1 x -> within h2 y -> within (h1 + h2) (SF64add x y).
Proof.
  intros H1 H2 Hh Hx Hy. unfold SF64add, SFadd.
  destruct x as [sx|sx| |sx mx ex], y as [sy|sy| |sy my ey];
    simpl in Hx, Hy; try tauto.
  - destruct sx, sy; exact I.
  - apply (within_mono h2); [lia|exact Hy].
  - apply (within_mono h1); [lia|exact Hx].
  - destruct Hx as [Hex Hmx], Hy as [Hey Hmy].
    apply binary_normalize_within; try lia.
    rewrite !aligned_value by lia.
    pose proof (scaled_bound (Zpos mx) ex (Z.min ex ey) h1
                  ltac:(lia) Hex ltac:(lia)).
    pose proof (scaled_bound (Zpos my) ey (Z.min ex ey) h2
                  ltac:(lia) Hey ltac:(lia)).
    change (IntDef.Z.min ex ey) with (Z.min ex ey).
    destruct sx, sy; unfold cond_Zopp;
      change IntDef.Z.add with Z.add; change IntDef.Z.opp with Z.opp; lia.
Qed.

Lemma SFadd_between (l1 h1 h2 : Z) (x y : spec_float) :
  0 <= h2 -> 1 <= l1 - h2 -> h1 + h2 < 2 ^ 52 ->
  between l1 h1 x -> within h2 y ->
  between (l1 - h2) (h1 + h2) (SF64add x y).
Proof.
  intros H2 Hl Hh Hx Hy. unfold SF64add, SFadd.
  destruct x as [sx|sx| |[|] mx ex], y as [sy|sy| |sy my ey];
    simpl in Hx, Hy; try tauto.
  - destruct Hx as [Hex Hmx]. simpl. split; auto.
    assert (0 < 2 ^ (- ex)) by (apply Z.pow_pos_nonneg; lia). nia.
  - destruct Hx as [Hex Hmx], Hy as [Hey Hmy].
    apply binary_normalize_between; try lia.
    rewrite !aligned_value by lia.
    pose proof (scaled_bound (Zpos mx) ex (Z.min ex ey) h1
                  ltac:(lia) Hex ltac:(lia)).
    pose proof (scaled_lower (Zpos mx) ex (Z.min ex ey) l1
                  ltac:(lia) Hex ltac:(lia)).
    pose proof (scaled_bound (Zpos my) ey (Z.min ex ey) h2
                  ltac:(lia) Hey ltac:(lia)).
    change (IntDef.Z.min ex ey) with (Z.min ex ey).
    destruct sy; unfold cond_Zopp;
      change IntDef.Z.add with Z.add; change IntDef.Z.opp with Z.opp; lia.
Qed.

Lemma SFsub_add_opp (x y : spec_float) : SF64sub x y = SF64add x (SFopp y).
Proof.
  unfold SF64sub, SF64add, SFsub, SFadd.
  destruct x as [sx|sx| |sx mx ex], y as [sy|sy| |sy my ey]; simpl;
    try reflexivity; destruct sx, sy; reflexivity.
Qed.

End Rounding.

(** ** Enclosures of the primitive operations *)

Section Enclosures.
Local Open Scope Z_scope.
Local Notation F := JS.Z2F.
Local Notation store := JS.ToUint8Clamp.

Lemma withinb_ok (hi : Z) (x : float) :
  withinb hi (Prim2SF x) = true -> fwithin hi x.
Proof.
  unfold fwithin. destruct (Prim2SF x) as [s|s| |s m e]; simpl; auto;
    try discriminate.
  intros H. apply andb_true_iff in H. destruct H as [H1 H2].
  apply Z.leb_le in H1, H2. auto.
Qed.

Lemma betweenb_ok (lo hi : Z) (x : float) :
  betweenb lo hi (Prim2SF x) = true -> fbetween lo hi x.
Proof.
  unfold fbetween. destruct (Prim2SF x) as [s|s| |[|] m e]; simpl;
    try discriminate.
  intros H. apply andb_true_iff in H. destruct H as [H H3].
  apply andb_true_iff in H. destruct H as [H1 H2].
  apply Z.leb_le in H1, H2, H3. auto.
Qed.

Lemma mul_within (h1 h2 : Z) (x y : float) :
  0 <= h1 -> 0 <= h2 -> h1 * h2 < 2 ^ 52 ->
  fwithin h1 x -> fwithin h2 y -> fwithin (h1 * h2) (x * y)%float.
Proof. unfold fwithin. rewrite mul_spec. apply SFmul_within. Qed.

Lemma mul_between (l1 h1 l2 h2 : Z) (x y : float) :
  1 <= l1 -> 1 <= l2 -> h1 * h2 < 2 ^ 52 ->
  fbetween l1 h1 x -> fbetween l2 h2 y ->
  fbetween (l1 * l2) (h1 * h2) (x * y)%float.
Proof. unfold fbetween. rewrite mul_spec. apply SFmul_between. Qed.

Lemma add_within (h1 h2 : Z) (x y : float) :
  0 <= h1 -> 0 <= h2 -> h1 + h2 < 2 ^ 52 ->
  fwithin h1 x -> fwithin h2 y -> fwithin (h1 + h2) (x + y)%float.
Proof. unfold fwithin. rewrite add_spec. apply SFadd_within. Qed.

Lemma sub_within (h1 h2 : Z) (x y : float) :
  0 <= h1 -> 0 <= h2 -> h1 + h2 < 2 ^ 52 ->
  fwithin h1 x -> fwithin h2 y -> fwithin (h1 + h2) (x - y)%float.
Proof.
  unfold fwithin. rewrite sub_spec, SFsub_add_opp. intros.
  apply SFadd_within; auto using within_opp.
Qed.

Lemma sub_between (l1 h1 h2 : Z) (x y : float) :
  0 <= h2 -> 1 <= l1 - h2 -> h1 + h2 < 2 ^ 52 ->
  fbetween l1 h1 x -> fwithin h2 y ->
  fbetween (l1 - h2) (h1 + h2) (x - y)%float.
Proof.
  unfold fbetween, fwithin. rewrite sub_spec, SFsub_add_opp. intros.
  apply SFadd_between; auto using within_opp.
Qed.

Lemma canonical_mantissa_small (m : positive) (e : Z) :
  valid_binary (S754_finite false m e) = true -> e <= -53 ->
  Zpos m <= 2 ^ (- e).
Proof.
  unfold SpecFloat.valid_binary, bounded, canonical_mantissa, fexp,
    SpecFloat.emin, prec, emax.
  intros H He. apply andb_true_iff in H. destruct H as [H _].
  apply Z.eqb_eq in H.
  pose proof (digits2_pos_bounds m) as [_ Hd].
  assert (Hle : 2 ^ Z.pos (digits2_pos m) <= 2 ^ (- e)).
  { apply Z.pow_le_mono_r; lia. }
  lia.
Qed.

Lemma compare_cont_not_Gt (p q : positive) :
  PosDef.Pos.compare_cont Eq p q <> Gt -> Zpos p <= Zpos q.
Proof.
  intros H. apply Pos2Z.pos_le_pos. apply Pos.compare_le_iff. exact H.
Qed.

Lemma compare_cont_not_Lt (p q : positive) :
  PosDef.Pos.compare_cont Eq p q <> Lt -> Zpos q <= Zpos p.
Proof.
  intros H. apply Pos2Z.pos_le_pos. intros Hgt. apply H.
  rewrite Pos.compare_antisym in Hgt.
  destruct (Pos.compare p q) eqn:E; simpl in Hgt; try discriminate.
  exact E.
Qed.

Lemma unit_finite_within (s : bool) (m : positive) (e : Z) :
  valid_binary (S754_finite s m e) = true ->
  forall one : positive, Zpos one = 2 ^ 52 ->
  SFleb (S754_finite true one (-52)) (S754_finite s m e) = true ->
  SFleb (S754_finite s m e) (S754_finite false one (-52)) = true ->
  within 1 (S754_finite s m e).
Proof.
  intros Hv one Hone. unfold SFleb, SFcompare, within. intros Hlo Hhi.
  assert (Hv' : valid_binary (S754_finite false m e) = true) by exact Hv.
  pose proof (canonical_mantissa_small m e Hv') as Hsmall.
  rewrite Z.mul_1_l.
  destruct s.
  - clear Hhi.
    destruct (Z.compare_spec (-52) e) as [He|He|He]; try discriminate.
    + subst e. split; [lia|].
      destruct (PosDef.Pos.compare_cont Eq one m) eqn:Hc; try discriminate;
        change (- -52) with 52; rewrite <- Hone;
        apply compare_cont_not_Lt; rewrite Hc; discriminate.
    + split; [lia|]. apply Hsmall. lia.
  - clear Hlo.
    destruct (Z.compare_spec e (-52)) as [He|He|He]; try discriminate.
    + subst e. split; [lia|].
      destruct (PosDef.Pos.compare_cont Eq m one) eqn:Hc; try discriminate;
        change (- -52) with 52; rewrite <- Hone;
        apply compare_cont_not_Gt; rewrite Hc; discriminate.
    + split; [lia|]. apply Hsmall. lia.
Qed.

Lemma unit_within (adj : float) :
  (-1 <=? adj)%float = true -> (adj <=? 1)%float = true -> fwithin 1 adj.
Proof.
  rewrite !leb_spec. unfold fwithin.
  pose proof (Prim2SF_valid adj) as Hv.
  set (one := Prim2SF 1). vm_compute in one. subst one.
  set (mone := Prim2SF (-1)). vm_compute in mone. subst mone.
  destruct (Prim2SF adj) as [s|s| |s m e].
  - intros _ _. exact I.
  - intros Hlo Hhi. destruct s; [cbv in Hlo|cbv in Hhi]; discriminate.
  - intros Hlo _. cbv in Hlo. discriminate.
  - apply unit_finite_within; auto.
Qed.

Lemma between_positive (lo hi : Z) (x : float) :
  fbetween lo hi x ->
  (0 <? x)%float = true /\ (x <? infinity)%float = true.
Proof.
  unfold fbetween. rewrite !ltb_spec.
  destruct (Prim2SF x) as [s|s| |[|] m e]; simpl; try tauto.
  all: intros _; split; reflexivity.
Qed.


(** C9.  For every number [adj] with [-1 <= adj <= 1], the denominator
    [255 * (259 - adj * 255)] of the contrast factor, as binary64
    arithmetic computes it, is a finite number above zero (it lies
    between 255 * 4 and 255 * 514), so the factor divides by no zero; at
    [adj = 1] the denominator is exactly [255 * 4]. *)
Theorem contrast_denominator_nonzero (adj : float) :
  (-1 <=? adj)%float = true -> (adj <=? 1)%float = true ->
  (0 <? Filters.contrast_denominator adj)%float = true /\
  (Filters.contrast_denominator adj <? infinity)%float = true /\
  Filters.contrast_denominator 1 = (255 * 4)%float.
Proof.
  intros Hlo Hhi.
  assert (Hden : fbetween (255 * (259 - 255)) (255 * (259 + 255))
                   (Filters.contrast_denominator adj)).
  { unfold Filters.contrast_denominator.
    apply mul_between; try lia.
    - apply betweenb_ok. vm_compute. reflexivity.
    - apply sub_between; try lia.
      + apply betweenb_ok. vm_compute. reflexivity.
      + replace 255 with (1 * 255) by lia.
        apply mul_within; try lia.
        * apply unit_within; assumption.
        * apply withinb_ok. vm_compute. reflexivity. }
  destruct (between_positive _ _ _ Hden) as [H1 H2].
  repeat split; auto.
Qed.

Lemma contrast_denominator_nonzero_witness :
  (0 <? Filters.contrast_denominator 0.5)%float = true /\
  (Filters.contrast_denominator 0.5 <? infinity)%float = true /\
  Filters.contrast_denominator 1 = (255 * 4)%float.
Proof.
  apply (contrast_denominator_nonzero 0.5); reflexivity.
Defined.

(** ** The operators at their neutral parameter *)

Lemma byte_within (c : Z) : channel_ok c -> fwithin 255 (F c).
Proof.
  intros Hc. apply withinb_ok.
  apply (on_all_bytes (fun c => withinb 255 (Prim2SF (F c))));
    [vm_compute; reflexivity | assumption].
Qed.

Lemma times_zero_is_zero (h : Z) (x : float) :
  fwithin h x -> exists s, Prim2SF (x * 0)%float = S754_zero s.
Proof.
  unfold fwithin. rewrite mul_spec.
  change (Prim2SF 0) with (S754_zero false).
  destruct (Prim2SF x) as [s|s| |s m e]; simpl; try tauto; eauto.
Qed.

Lemma opp_within (h : Z) (x : float) : fwithin h x -> fwithin h (- x)%float.
Proof. unfold fwithin. rewrite opp_spec. apply within_opp. Qed.

Lemma zero_float (z : float) (s : bool) :
  Prim2SF z = S754_zero s -> z = 0%float \/ z = (-0)%float.
Proof.
  intros H. rewrite <- (SF2Prim_Prim2SF z), H. destruct s; auto.
Qed.

Lemma times_zero_cases (h : Z) (x : float) :
  fwithin h x -> (x * 0 = 0 \/ x * 0 = -0)%float.
Proof.
  intros H. destruct (times_zero_is_zero h x H) as [s Hs].
  exact (zero_float _ _ Hs).
Qed.

(** *** brightness *)
Lemma brightness_channel_zero (c : Z) :
  channel_ok c -> store (JS.max 0 (JS.min 255 (F c + 0))) = c.
Proof.
  intros Hc. apply Z.eqb_eq.
  apply (on_all_bytes
           (fun c => store (JS.max 0 (JS.min 255 (F c + 0))) =? c));
    [vm_compute; reflexivity | assumption].
Qed.

Lemma brightness_zero (pixels : ImageData) :
  wf_image pixels -> Filters.brightness pixels 0 = pixels.
Proof.
  intros Hwf. unfold Filters.brightness.
  set (adjValue := JS.round (255 * JS.max (-1) (JS.min 1 0))).
  vm_compute in adjValue. subst adjValue.
  apply each_pixel_fixes; auto. intros p (HR & HG & HB & _).
  unfold Filters.brightness_px.
  rewrite !brightness_channel_zero by assumption. destruct p; reflexivity.
Qed.

(** *** contrast *)
Lemma contrast_channel_zero (c : Z) :
  channel_ok c -> store (JS.max 0 (JS.min 255 (1 * (F c - 128) + 128))) = c.
Proof.
  intros Hc. apply Z.eqb_eq.
  apply (on_all_bytes
           (fun c => store (JS.max 0 (JS.min 255 (1 * (F c - 128) + 128))) =? c));
    [vm_compute; reflexivity | assumption].
Qed.

Lemma contrast_zero (pixels : ImageData) :
  wf_image pixels -> Filters.contrast pixels 0 = pixels.
Proof.
  intros Hwf. unfold Filters.contrast.
  set (factor := Filters.contrast_factor 0).
  vm_compute in factor. subst factor.
  apply each_pixel_fixes; auto. intros p (HR & HG & HB & _).
  unfold Filters.contrast_px.
  rewrite !contrast_channel_zero by assumption. destruct p; reflexivity.
Qed.

(** *** saturation *)
Lemma gray_within (r g b : Z) :
  channel_ok r -> channel_ok g -> channel_ok b ->
  fwithin 765 (0.2989 * F r + 0.5870 * F g + 0.1140 * F b)%float.
Proof.
  intros Hr Hg Hb.
  assert (Hterm : forall (k : float) (c : Z),
             withinb 1 (Prim2SF k) = true -> channel_ok c ->
             fwithin 255 (k * F c)%float).
  { intros k c Hk Hc. replace 255 with (1 * 255) by lia.
    apply mul_within; try lia; auto using withinb_ok, byte_within. }
  replace 765 with (255 + 255 + 255) by lia.
  apply add_within; try lia; [apply add_within; try lia|];
    apply Hterm; auto; vm_compute; reflexivity.
Qed.

Lemma saturation_channel_zero (z : float) (c : Z) :
  z = 0%float \/ z = (-0)%float -> channel_ok c ->
  store (JS.max 0 (JS.min 255 (z + F c * (1 + 0)))) = c.
Proof.
  intros [-> | ->] Hc; apply Z.eqb_eq.
  - apply (on_all_bytes
             (fun c => store (JS.max 0 (JS.min 255 (0 + F c * (1 + 0)))) =? c));
      [vm_compute; reflexivity | assumption].
  - apply (on_all_bytes
             (fun c => store (JS.max 0 (JS.min 255 (-0 + F c * (1 + 0)))) =? c));
      [vm_compute; reflexivity | assumption].
Qed.

Lemma saturation_zero (pixels : ImageData) :
  wf_image pixels -> Filters.saturation pixels 0 = pixels.
Proof.
  intros Hwf. unfold Filters.saturation.
  change (JS.max (-1) 0) with 0%float.
  apply each_pixel_fixes; auto. intros p (HR & HG & HB & _).
  unfold Filters.saturation_px.
  pose proof (times_zero_cases 765 _
                (opp_within _ _ (gray_within _ _ _ HR HG HB))) as Hz.
  rewrite !(saturation_channel_zero _ _ Hz) by assumption.
  destruct p; reflexivity.
Qed.

(** *** sepia *)
Lemma sepia_term_zero (k : float) (c : Z) :
  withinb 1 (Prim2SF k) = true -> channel_ok c ->
  (F c * k * 0 = 0 \/ F c * k * 0 = -0)%float.
Proof.
  intros Hk Hc. apply (times_zero_cases (255 * 1)).
  apply mul_within; try lia; auto using withinb_ok, byte_within.
Qed.

Lemma sepia_keep_first (k z1 z2 : float) (c : Z) :
  same k 1 = true -> is_zero_float z1 -> is_zero_float z2 -> channel_ok c ->
  store (F c * k + z1 + z2) = c.
Proof.
  intros Hk H1 H2 Hc. apply same_eq in Hk. subst k.
  destruct H1 as [-> | ->], H2 as [-> | ->]; apply Z.eqb_eq.
  - apply (on_all_bytes (fun c => store (F c * 1 + 0 + 0) =? c));
      [vm_compute; reflexivity | assumption].
  - apply (on_all_bytes (fun c => store (F c * 1 + 0 + -0) =? c));
      [vm_compute; reflexivity | assumption].
  - apply (on_all_bytes (fun c => store (F c * 1 + -0 + 0) =? c));
      [vm_compute; reflexivity | assumption].
  - apply (on_all_bytes (fun c => store (F c * 1 + -0 + -0) =? c));
      [vm_compute; reflexivity | assumption].
Qed.

Lemma sepia_keep_second (k z1 z2 : float) (c : Z) :
  same k 1 = true -> is_zero_float z1 -> is_zero_float z2 -> channel_ok c ->
  store (z1 + F c * k + z2) = c.
Proof.
  intros Hk H1 H2 Hc. apply same_eq in Hk. subst k.
  destruct H1 as [-> | ->], H2 as [-> | ->]; apply Z.eqb_eq.
  - apply (on_all_bytes (fun c => store (0 + F c * 1 + 0) =? c));
      [vm_compute; reflexivity | assumption].
  - apply (on_all_bytes (fun c => store (0 + F c * 1 + -0) =? c));
      [vm_compute; reflexivity | assumption].
  - apply (on_all_bytes (fun c => store (-0 + F c * 1 + 0) =? c));
      [vm_compute; reflexivity | assumption].
  - apply (on_all_bytes (fun c => store (-0 + F c * 1 + -0) =? c));
      [vm_compute; reflexivity | assumption].
Qed.

Lemma sepia_keep_third (k z1 z2 : float) (c : Z) :
  same k 1 = true -> is_zero_float z1 -> is_zero_float z2 -> channel_ok c ->
  store (z1 + z2 + F c * k) = c.
Proof.
  intros Hk H1 H2 Hc. apply same_eq in Hk. subst k.
  destruct H1 as [-> | ->], H2 as [-> | ->]; apply Z.eqb_eq.
  - apply (on_all_bytes (fun c => store (0 + 0 + F c * 1) =? c));
      [vm_compute; reflexivity | assumption].
  - apply (on_all_bytes (fun c => store (0 + -0 + F c * 1) =? c));
      [vm_compute; reflexivity | assumption].
  - apply (on_all_bytes (fun c => store (-0 + 0 + F c * 1) =? c));
      [vm_compute; reflexivity | assumption].
  - apply (on_all_bytes (fun c => store (-0 + -0 + F c * 1) =? c));
      [vm_compute; reflexivity | assumption].
Qed.

Lemma sepia_zero (pixels : ImageData) :
  wf_image pixels -> Filters.sepia pixels 0 = pixels.
Proof.
  intros Hwf. unfold Filters.sepia.
  apply each_pixel_fixes; auto. intros p (HR & HG & HB & _).
  unfold Filters.sepia_px.
  rewrite sepia_keep_first, sepia_keep_second, sepia_keep_third;
    try assumption; try (vm_compute; reflexivity);
    try (apply sepia_term_zero; [vm_compute; reflexivity | assumption]).
  destruct p; reflexivity.
Qed.

(** *** colorFilter *)
Lemma colorFilter_channel_zero (z : float) (c : Z) :
  is_zero_float z -> channel_ok c -> store (F c - z) = c.
Proof.
  intros [-> | ->] Hc; apply Z.eqb_eq.
  - apply (on_all_bytes (fun c => store (F c - 0) =? c));
      [vm_compute; reflexivity | assumption].
  - apply (on_all_bytes (fun c => store (F c - -0) =? c));
      [vm_compute; reflexivity | assumption].
Qed.

Lemma colorFilter_zero (pixels : ImageData) (r g b : Z) :
  wf_image pixels -> channel_ok r -> channel_ok g -> channel_ok b ->
  Filters.colorFilter pixels (F r, F g, F b, 0%float) = pixels.
Proof.
  intros Hwf Hr Hg Hb. unfold Filters.colorFilter.
  apply each_pixel_fixes; auto. intros p (HR & HG & HB & _).
  unfold Filters.colorFilter_px.
  assert (Hz : forall c t, channel_ok c -> channel_ok t ->
                 is_zero_float ((F c - F t) * 0)%float).
  { intros c t Hc Ht. apply (times_zero_cases (255 + 255)).
    apply sub_within; try lia; auto using byte_within. }
  rewrite !colorFilter_channel_zero by auto.
  destruct p; reflexivity.
Qed.

(** C5.  For every well-formed buffer, [brightness], [contrast],
    [saturation] and [sepia] with [adj = 0], and [colorFilter] with any
    overlay colour of bytes and blend amount 0, return the buffer they
    were given, every channel of every pixel unchanged. *)
Theorem neutral_parameter_is_identity (pixels : ImageData) :
  wf_image pixels ->
  Filters.brightness pixels 0 = pixels /\
  Filters.contrast pixels 0 = pixels /\
  Filters.saturation pixels 0 = pixels /\
  Filters.sepia pixels 0 = pixels /\
  (forall r g b : Z,
     channel_ok r -> channel_ok g -> channel_ok b ->
     Filters.colorFilter pixels (F r, F g, F b, 0%float) = pixels).
Proof.
  intros Hwf.
  auto 10 using brightness_zero, contrast_zero, saturation_zero, sepia_zero,
    colorFilter_zero.
Qed.

Lemma neutral_parameter_is_identity_witness :
  Filters.brightness sample_image 0 = sample_image /\
  Filters.contrast sample_image 0 = sample_image /\
  Filters.saturation sample_image 0 = sample_image /\
  Filters.sepia sample_image 0 = sample_image /\
  (forall r g b : Z,
     channel_ok r -> channel_ok g -> channel_ok b ->
     Filters.colorFilter sample_image (F r, F g, F b, 0%float) = sample_image).
Proof.
  apply (neutral_parameter_is_identity sample_image).
  apply wf_imageb_ok. reflexivity.
Defined.

End Enclosures.

(* ================================================================== *)
(** ** The colour conversions RGB -> HSV -> RGB on bytes *)

Section RoundTrip.
Local Open Scope Q_scope.
Local Open Scope Z_scope.

(** *** Rounding on a grid

    [binary_round_aux] again, now with bounds on a grid of step [2^-g]
    and with any location: the result stays between the two grid points
    that enclose the exact value. *)

Lemma shr_1_m (mrs : shr_record) :
  0 <= shr_m mrs -> shr_m (shr_1 mrs) = shr_m mrs / 2.
Proof.
  destruct mrs as [m r s]. simpl. intros Hm.
  destruct m as [|p|p]; try lia.
  - reflexivity.
  - destruct p as [p|p|]; simpl.
    + rewrite Pos2Z.inj_xI. apply Z.div_unique with 1; lia.
    + rewrite Pos2Z.inj_xO. apply Z.div_unique with 0; lia.
    + reflexivity.
Qed.

Lemma iter_pos_shr_m (M : Z) (p : positive) :
  0 <= M -> forall k mrs, 0 <= k -> shr_m mrs = M / 2 ^ k ->
  shr_m (iter_pos shr_1 p mrs) = M / 2 ^ (k + Zpos p).
Proof.
  intros HM.
  assert (Hstep : forall k mrs, 0 <= k -> shr_m mrs = M / 2 ^ k ->
                    shr_m (shr_1 mrs) = M / 2 ^ (k + 1)).
  { intros k mrs Hk Hm.
    assert (Hpow : 0 < 2 ^ k) by (apply Z.pow_pos_nonneg; lia).
    rewrite shr_1_m by (rewrite Hm; apply Z.div_pos; lia).
    rewrite Hm, Z.pow_add_r, Z.pow_1_r by lia.
    rewrite Z.div_div by lia. reflexivity. }
  induction p as [p IH|p IH|]; intros k mrs Hk H; simpl.
  - replace (k + Z.pos p~1) with (k + 1 + Zpos p + Zpos p) by lia.
    apply IH; [lia|]. apply IH; [lia|]. apply Hstep; auto.
  - replace (k + Z.pos p~0) with (k + Zpos p + Zpos p) by lia.
    apply IH; [lia|]. apply IH; [lia|]. exact H.
  - apply Hstep; auto.
Qed.

Lemma shr_m_spec (mrs : shr_record) (e n : Z) :
  0 <= shr_m mrs ->
  let '(mrs', e') := shr mrs e n in
  e' = e + Z.max 0 n /\ shr_m mrs' = shr_m mrs / 2 ^ Z.max 0 n.
Proof.
  intros HM. unfold shr. destruct n as [|p|p].
  - simpl. rewrite Z.div_1_r. split; lia.
  - rewrite Z.max_r by lia. split; [reflexivity|].
    apply (iter_pos_shr_m (shr_m mrs) p HM 0); [lia|].
    simpl. rewrite Z.div_1_r. reflexivity.
  - simpl. rewrite Z.div_1_r. split; lia.
Qed.

Lemma shr_m_of_loc (q : Z) (l : location) : shr_m (shr_record_of_loc q l) = q.
Proof. destruct l as [|[| |]]; reflexivity. Qed.

Lemma fexp_grid (k g : Z) : 0 <= g <= 1000 -> k <= 52 - g ->
  fexp prec emax k <= - g - 1.
Proof. unfold fexp, SpecFloat.emin, prec, emax. lia. Qed.

(** One stage: dividing the mantissa by [2^n] keeps strict grid bounds. *)
Lemma stage_strict (q E lo hi n : Z) :
  0 <= n -> E + n <= 0 ->
  lo * 2 ^ (- E) <= q -> q + 1 <= hi * 2 ^ (- E) ->
  lo * 2 ^ (- (E + n)) <= q / 2 ^ n /\ q / 2 ^ n + 1 <= hi * 2 ^ (- (E + n)).
Proof.
  intros Hn HE Hlo Hhi.
  assert (Hp : 0 < 2 ^ n) by (apply Z.pow_pos_nonneg; lia).
  assert (Hsplit : 2 ^ (- E) = 2 ^ (- (E + n)) * 2 ^ n).
  { rewrite <- Z.pow_add_r by lia. f_equal. lia. }
  rewrite Hsplit in Hlo, Hhi. split.
  - apply Z.div_le_lower_bound; lia.
  - assert (q / 2 ^ n < hi * 2 ^ (- (E + n))); [|lia].
    apply Z.div_lt_upper_bound; lia.
Qed.

Lemma round_aux_grid (s : bool) (q E : Z) (l : location) (lo hi g : Z) :
  0 <= g <= 1000 -> E <= - g -> 0 <= lo -> hi < 2 ^ 52 -> 0 <= q ->
  lo * 2 ^ (- E - g) <= q -> q + 1 <= hi * 2 ^ (- E - g) ->
  match binary_round_aux prec emax s q E l with
  | S754_zero s' => s' = s /\ lo = 0
  | S754_finite s' m e =>
      s' = s /\ e <= - g /\
      lo * 2 ^ (- e - g) <= Zpos m <= hi * 2 ^ (- e - g)
  | _ => False
  end.
Proof.
  intros Hg HE Hlo Hhi Hq Hql Hqh.
  unfold binary_round_aux, shr_fexp.
  set (n1 := fexp prec emax (Zdigits2 q + E) - E).
  pose proof (shr_m_spec (shr_record_of_loc q l) E n1) as H1.
  rewrite shr_m_of_loc in H1. specialize (H1 Hq).
  destruct (shr (shr_record_of_loc q l) E n1) as [mrs1 e1].
  destruct H1 as (He1 & Hm1).
  replace (- E - g) with (- (E + g)) in Hql, Hqh by lia.
  assert (Hd1 : Zdigits2 q + (E + g) <= 52).
  { apply (digits_exp_bound _ _ hi); lia. }
  pose proof (fexp_grid (Zdigits2 q + E) g Hg ltac:(lia)) as Hf1.
  assert (He1' : e1 <= - g) by (subst e1 n1; lia).
  destruct (stage_strict q (E + g) lo hi (Z.max 0 n1)
              ltac:(lia) ltac:(lia) Hql Hqh) as [Hb1l Hb1h].
  replace (E + g + Z.max 0 n1) with (e1 + g) in Hb1l, Hb1h by lia.
  rewrite <- Hm1 in Hb1l, Hb1h.
  set (m2 := round_nearest_even (shr_m mrs1) (loc_of_shr_record mrs1)).
  destruct (round_nearest_even_bounds (shr_m mrs1) (loc_of_shr_record mrs1))
    as [Hr _]. fold m2 in Hr.
  assert (Hp1 : 0 < 2 ^ (- (e1 + g))) by (apply Z.pow_pos_nonneg; lia).
  assert (Hb2 : lo * 2 ^ (- (e1 + g)) <= m2 <= hi * 2 ^ (- (e1 + g))) by lia.
  assert (Hm2 : 0 <= m2) by nia.
  change (shr_record_of_loc m2 loc_Exact)
    with (Build_shr_record m2 false false).
  set (n2 := fexp prec emax (Zdigits2 m2 + e1) - e1).
  pose proof (shr_m_spec (Build_shr_record m2 false false) e1 n2 Hm2) as H2.
  destruct (shr (Build_shr_record m2 false false) e1 n2) as [mrs2 e2].
  destruct H2 as (He2 & Hm2'). simpl in Hm2'.
  assert (Hd2 : Zdigits2 m2 + (e1 + g) <= 52).
  { apply (digits_exp_bound _ _ hi); lia. }
  pose proof (fexp_grid (Zdigits2 m2 + e1) g Hg ltac:(lia)) as Hf2.
  assert (He2' : e2 <= - g) by (subst e2 n2; lia).
  destruct (stage_bounds m2 (e1 + g) lo hi (Z.max 0 n2)
              ltac:(lia) ltac:(lia) Hb2) as [Hb3 _].
  replace (e1 + g + Z.max 0 n2) with (e2 + g) in Hb3 by lia.
  rewrite <- Hm2' in Hb3.
  replace (- (e2 + g)) with (- e2 - g) in Hb3 by lia.
  assert (Hp2 : 0 < 2 ^ (- e2 - g)) by (apply Z.pow_pos_nonneg; lia).
  destruct (shr_m mrs2) as [|m3|m3] eqn:E3.
  - split; [reflexivity|]. nia.
  - assert (Hle : (e2 <=? emax - prec) = true).
    { apply Z.leb_le. unfold emax, prec. lia. }
    rewrite Hle. auto.
  - exfalso. nia.
Qed.

(** *** Exact values

    The rational value of a finite binary64 number, and the rounding of
    a product. *)

Lemma pow2_pos (n : Z) : 0 <= n -> Zpos (pow2 n) = 2 ^ n.
Proof.
  intros Hn. unfold pow2. apply Z2Pos.id. apply Z.pow_pos_nonneg; lia.
Qed.

Lemma Qmake_le (a b : Z) (k n : Z) :
  0 <= k <= n -> a * 2 ^ (n - k) <= b -> (a # pow2 k <= b # pow2 n)%Q.
Proof.
  intros Hk H. unfold Qle. simpl. rewrite !pow2_pos by lia.
  assert (Hs : 2 ^ n = 2 ^ (n - k) * 2 ^ k).
  { rewrite <- Z.pow_add_r by lia. f_equal. lia. }
  assert (0 < 2 ^ k) by (apply Z.pow_pos_nonneg; lia).
  rewrite Hs. nia.
Qed.

Lemma Qmake_ge (a b : Z) (k n : Z) :
  0 <= k <= n -> b <= a * 2 ^ (n - k) -> (b # pow2 n <= a # pow2 k)%Q.
Proof.
  intros Hk H. unfold Qle. simpl. rewrite !pow2_pos by lia.
  assert (Hs : 2 ^ n = 2 ^ (n - k) * 2 ^ k).
  { rewrite <- Z.pow_add_r by lia. f_equal. lia. }
  assert (0 < 2 ^ k) by (apply Z.pow_pos_nonneg; lia).
  rewrite Hs. nia.
Qed.

Lemma Qmake_succ (a : Z) (p : positive) : (a + 1 # p == (a # p) + (1 # p))%Q.
Proof. unfold Qeq, Qplus. simpl. nia. Qed.

Lemma mag_pos (s : bool) (m : positive) (e : Z) :
  (0 < mag (S754_finite s m e))%Q.
Proof. unfold Qlt. simpl. lia. Qed.

Lemma mag_nonneg (x : spec_float) : (0 <= mag x)%Q.
Proof. destruct x; simpl; try lra. unfold Qle; simpl; lia. Qed.

(** The rounded magnitude is within one grid step of the exact one. *)
Lemma round_aux_val (s : bool) (q E : Z) (l : location) (g : Z) (X : Q) :
  0 <= g <= 1000 -> E <= - g -> 0 <= q ->
  q / 2 ^ (- E - g) + 1 < 2 ^ 52 ->
  (q # pow2 (- E) <= X)%Q -> (X <= q + 1 # pow2 (- E))%Q ->
  let r := binary_round_aux prec emax s q E l in
  expo_le g r /\
  match r with S754_finite s' _ _ => s' = s | _ => True end /\
  (X - eps g <= mag r <= X + eps g)%Q.
Proof.
  intros Hg HE Hq Hov HXl HXh r.
  set (G := 2 ^ (- E - g)).
  assert (HG : 0 < G) by (apply Z.pow_pos_nonneg; lia).
  set (K := q / G).
  assert (HK : 0 <= K) by (apply Z.div_pos; lia).
  assert (Hlo : K * G <= q).
  { pose proof (Z.mul_div_le q G HG). lia. }
  assert (Hhi : q + 1 <= (K + 1) * G).
  { pose proof (Z.mul_succ_div_gt q G HG). unfold K. lia. }
  pose proof (round_aux_grid s q E l K (K + 1) g Hg HE HK Hov Hq Hlo Hhi)
    as Hr. fold r in Hr.
  assert (HXl' : (K # pow2 g <= X)%Q).
  { eapply Qle_trans; [|exact HXl].
    apply Qmake_le; [lia|]. replace (- E - g) with (- E - g) by lia. exact Hlo. }
  assert (HXh' : (X <= (K # pow2 g) + eps g)%Q).
  { eapply Qle_trans; [exact HXh|]. unfold eps. rewrite <- Qmake_succ.
    apply Qmake_ge; [lia|]. exact Hhi. }
  destruct r as [s'|s'| |s' m e]; try contradiction.
  - destruct Hr as [_ HK0]. simpl. split; [exact I|]. split; [exact I|].
    rewrite HK0 in HXl', HXh'.
    assert (Hz : (0 # pow2 g == 0)%Q) by (unfold Qeq; simpl; lia).
    rewrite Hz in HXl', HXh'. lra.
  - destruct Hr as (Hs & He & Hml & Hmh). simpl. split; [exact He|].
    split; [exact Hs|].
    assert (H1 : (K # pow2 g <= Zpos m # pow2 (- e))%Q).
    { apply Qmake_le; [lia|]. exact Hml. }
    assert (H2 : (Zpos m # pow2 (- e) <= (K # pow2 g) + eps g)%Q).
    { unfold eps. rewrite <- Qmake_succ. apply Qmake_ge; [lia|]. exact Hmh. }
    lra.
Qed.

Lemma eps_pos (g : Z) : (0 < eps g)%Q.
Proof. unfold eps, Qlt. simpl. lia. Qed.

Lemma rounds_to_ext (g : Z) (z : spec_float) (X Y : Q) :
  (X == Y)%Q -> rounds_to g z X -> rounds_to g z Y.
Proof.
  unfold rounds_to. intros HXY (He & Hv & Hp & Hn).
  split; [exact He|].
  split; [lra|]. split; intros H.
  - apply Hp. lra.
  - apply Hn. lra.
Qed.

Lemma rounds_to_signed (g : Z) (s : bool) (r : spec_float) (X : Q) :
  expo_le g r ->
  match r with S754_finite s' _ _ => s' = s | _ => True end ->
  (X - eps g <= mag r <= X + eps g)%Q -> (0 < X)%Q ->
  rounds_to g r (if s then - X else X)%Q.
Proof.
  intros He Hs Hm HX. pose proof (eps_pos g) as Hp.
  pose proof (mag_nonneg r) as Hr.
  unfold rounds_to. split; [exact He|].
  destruct r as [s'|s'| |s' m e]; try contradiction.
  - simpl in *. destruct s; repeat split; lra.
  - subst s'. unfold val. destruct s; repeat split; lra.
Qed.

Lemma overflow_ok (q E g c : Z) :
  0 <= g -> E <= - g -> 0 <= q -> q <= c * 2 ^ (- E) ->
  c * 2 ^ g + 1 < 2 ^ 52 -> q / 2 ^ (- E - g) + 1 < 2 ^ 52.
Proof.
  intros Hg HE Hq Hc Hov.
  assert (HG : 0 < 2 ^ (- E - g)) by (apply Z.pow_pos_nonneg; lia).
  assert (Hs : 2 ^ (- E) = 2 ^ g * 2 ^ (- E - g)).
  { rewrite <- Z.pow_add_r by lia. f_equal. lia. }
  assert (q / 2 ^ (- E - g) <= c * 2 ^ g); [|lia].
  apply Z.div_le_upper_bound; [lia|]. rewrite Hs in Hc. lia.
Qed.

Lemma Qmake_bound (q c : Z) (n : Z) :
  0 <= n -> (q # pow2 n <= inject_Z c)%Q -> q <= c * 2 ^ n.
Proof.
  intros Hn. unfold Qle. simpl. rewrite pow2_pos by lia. lia.
Qed.

Lemma pow2_mul (a b : Z) : 0 <= a -> 0 <= b ->
  (pow2 a * pow2 b)%positive = pow2 (a + b).
Proof.
  intros Ha Hb. apply Pos2Z.inj. rewrite Pos2Z.inj_mul, !pow2_pos by lia.
  rewrite Z.pow_add_r by lia. reflexivity.
Qed.

Lemma mag_mul (sx sy : bool) (mx my : positive) (ex ey : Z) :
  ex <= 0 -> ey <= 0 ->
  (mag (S754_finite sx mx ex) * mag (S754_finite sy my ey) ==
   Zpos (mx * my) # pow2 (- (ex + ey)))%Q.
Proof.
  intros Hx Hy. simpl. unfold Qmult, Qeq. simpl.
  rewrite pow2_mul by lia. replace (- ex + - ey) with (- (ex + ey)) by lia.
  reflexivity.
Qed.

Lemma val_sign (s : bool) (m : positive) (e : Z) :
  (val (S754_finite s m e) ==
   if s then - mag (S754_finite s m e) else mag (S754_finite s m e))%Q.
Proof. destruct s; reflexivity. Qed.

Lemma SFmul_rounds (g gx gy c : Z) (x y : spec_float) :
  0 <= g <= 1000 -> 0 <= gx -> 0 <= gy -> g <= gx + gy ->
  expo_le gx x -> expo_le gy y ->
  (- inject_Z c <= val x * val y <= inject_Z c)%Q ->
  c * 2 ^ g + 1 < 2 ^ 52 ->
  rounds_to g (SF64mul x y) (val x * val y).
Proof.
  intros Hg Hgx Hgy Hsum Hx Hy Hc Hov. pose proof (eps_pos g) as Hp.
  unfold SF64mul, SFmul.
  destruct x as [sx|sx| |sx mx ex], y as [sy|sy| |sy my ey];
    simpl in Hx, Hy; try contradiction.
  1-3: unfold rounds_to; simpl; repeat split; try lra; try exact I.
  set (X := (mag (S754_finite sx mx ex) * mag (S754_finite sy my ey))%Q).
  assert (HX : (X == Zpos (mx * my) # pow2 (- (ex + ey)))%Q).
  { apply mag_mul; lia. }
  assert (HX0 : (0 < X)%Q).
  { rewrite HX. unfold Qlt. simpl. lia. }
  assert (Hval : (val (S754_finite sx mx ex) * val (S754_finite sy my ey) ==
                  if xorb sx sy then - X else X)%Q).
  { rewrite !val_sign. unfold X. destruct sx, sy; simpl xorb; cbv iota; ring. }
  assert (HXc : (X <= inject_Z c)%Q).
  { rewrite Hval in Hc. destruct (xorb sx sy); lra. }
  apply (rounds_to_ext _ _ _ _ (Qeq_sym _ _ Hval)).
  assert (Hq : Zpos (mx * my) <= c * 2 ^ (- (ex + ey))).
  { apply Qmake_bound; [lia|]. rewrite <- HX. exact HXc. }
  destruct (round_aux_val (xorb sx sy) (Zpos (mx * my)) (ex + ey) loc_Exact
              g X Hg ltac:(lia) ltac:(lia)) as (He & Hs & Hm).
  - apply (overflow_ok _ _ _ c); try lia.
  - rewrite HX. apply Qle_refl.
  - rewrite HX, Qmake_succ.
    pose proof (eps_pos (- (ex + ey))) as Hp'. unfold eps in Hp'. lra.
  - apply rounds_to_signed; auto.
Qed.

(** *** Sums and differences *)

Lemma binary_round_val (s : bool) (M : positive) (E g c : Z) :
  0 <= g <= 1000 -> E <= - g ->
  (Zpos M # pow2 (- E) <= inject_Z c)%Q -> c * 2 ^ g + 1 < 2 ^ 52 ->
  let r := binary_round prec emax s M E in
  expo_le g r /\
  match r with S754_finite s' _ _ => s' = s | _ => True end /\
  ((Zpos M # pow2 (- E)) - eps g <= mag r <= (Zpos M # pow2 (- E)) + eps g)%Q.
Proof.
  intros Hg HE Hc Hov. unfold binary_round.
  pose proof (shl_align_spec M E (fexp prec emax (Z.pos (digits2_pos M) + E)))
    as Hs.

  destruct (shl_align M E _) as [mz ez]. destruct Hs as (Hez & _ & Hmz).
  assert (Hp : 0 < 2 ^ (E - ez)) by (apply Z.pow_pos_nonneg; lia).
  assert (Hsplit : 2 ^ (- ez) = 2 ^ (- E) * 2 ^ (E - ez)).
  { rewrite <- Z.pow_add_r by lia. f_equal. lia. }
  assert (HM : Zpos M <= c * 2 ^ (- E)) by (apply Qmake_bound; [lia|exact Hc]).
  apply round_aux_val; try lia.
  - apply (overflow_ok _ _ _ c); try lia. rewrite Hmz, Hsplit. nia.
  - apply Qmake_ge; [lia|]. replace (- ez - - E) with (E - ez) by lia. lia.
  - rewrite Qmake_succ. 
    assert (H1 : (Zpos M # pow2 (- E) <= Zpos mz # pow2 (- ez))%Q).
    { apply Qmake_le; [lia|]. replace (- ez - - E) with (E - ez) by lia. lia. }
    pose proof (eps_pos (- ez)) as Hp'. unfold eps in Hp'. lra.
Qed.

Lemma Qmake_opp (a : Z) (p : positive) : (- a # p == - (a # p))%Q.
Proof. reflexivity. Qed.

Lemma Qmake_plus (a b : Z) (p : positive) : (a + b # p == (a # p) + (b # p))%Q.
Proof. unfold Qeq, Qplus. simpl. nia. Qed.

Lemma mag_aligned (m : positive) (e ez : Z) :
  ez <= e -> e <= 0 ->
  (Zpos m # pow2 (- e) == Zpos m * 2 ^ (e - ez) # pow2 (- ez))%Q.
Proof.
  intros Hz He. apply Qle_antisym.
  - apply Qmake_le; [lia|]. replace (- ez - - e) with (e - ez) by lia. lia.
  - apply Qmake_ge; [lia|]. replace (- ez - - e) with (e - ez) by lia. lia.
Qed.

Lemma val_aligned (s : bool) (m : positive) (e ez : Z) :
  ez <= e -> e <= 0 ->
  (val (S754_finite s m e) ==
   cond_Zopp s (Zpos (fst (shl_align m e ez))) # pow2 (- ez))%Q.
Proof.
  intros Hz He. rewrite aligned_value by lia.
  pose proof (mag_aligned m e ez Hz He) as H.
  destruct s; unfold val, mag, cond_Zopp.
  - change (IntDef.Z.opp (Zpos m * 2 ^ (e - ez)))
      with (- (Zpos m * 2 ^ (e - ez))).
    rewrite Qmake_opp, H. reflexivity.
  - exact H.
Qed.

Lemma rounds_to_exact (g : Z) (z : spec_float) :
  expo_le g z -> rounds_to g z (val z).
Proof.
  intros H. pose proof (eps_pos g). unfold rounds_to.
  repeat split; auto; lra.
Qed.

Lemma binary_normalize_rounds (S E g c : Z) :
  0 <= g <= 1000 -> E <= - g ->
  (- inject_Z c <= S # pow2 (- E) <= inject_Z c)%Q ->
  c * 2 ^ g + 1 < 2 ^ 52 ->
  rounds_to g (binary_normalize prec emax S E false) (S # pow2 (- E)).
Proof.
  intros Hg HE Hc Hov. pose proof (eps_pos g) as Hp.
  unfold binary_normalize. destruct S as [|p|p].
  - unfold rounds_to. simpl.
    assert (Hz : (0 # pow2 (- E) == 0)%Q) by (unfold Qeq; simpl; lia).
    rewrite Hz. repeat split; lra.
  - destruct (binary_round_val false p E g c Hg HE ltac:(lra) Hov)
      as (He & Hs & Hm).
    apply (rounds_to_signed g false); auto; unfold Qlt; simpl; lia.
  - assert (Hn : (Zneg p # pow2 (- E) == - (Zpos p # pow2 (- E)))%Q)
      by reflexivity.
    rewrite Hn in Hc.
    destruct (binary_round_val true p E g c Hg HE ltac:(lra) Hov)
      as (He & Hs & Hm).
    apply (rounds_to_ext g _ (- (Zpos p # pow2 (- E)))%Q); [symmetry; exact Hn|].
    apply (rounds_to_signed g true); auto; unfold Qlt; simpl; lia.
Qed.

Lemma SFadd_rounds (g c : Z) (x y : spec_float) :
  0 <= g <= 1000 -> expo_le g x -> expo_le g y ->
  (- inject_Z c <= val x + val y <= inject_Z c)%Q ->
  c * 2 ^ g + 1 < 2 ^ 52 ->
  rounds_to g (SF64add x y) (val x + val y).
Proof.
  intros Hg Hx Hy Hc Hov. pose proof (eps_pos g) as Hp.
  unfold SF64add, SFadd.
  destruct x as [sx|sx| |sx mx ex], y as [sy|sy| |sy my ey];
    simpl in Hx, Hy; try contradiction.
  - unfold rounds_to. destruct sx, sy; simpl; repeat split; lra.
  - apply (rounds_to_ext g _ (val (S754_finite sy my ey))).
    + simpl val at 2. ring.
    + apply rounds_to_exact. exact Hy.
  - apply (rounds_to_ext g _ (val (S754_finite sx mx ex))).
    + simpl val at 3. ring.
    + apply rounds_to_exact. exact Hx.
  - change (IntDef.Z.min ex ey) with (Z.min ex ey).
    set (ez := Z.min ex ey).
    assert (Hsum : (val (S754_finite sx mx ex) + val (S754_finite sy my ey) ==
                    (cond_Zopp sx (Zpos (fst (shl_align mx ex ez))) +
                     cond_Zopp sy (Zpos (fst (shl_align my ey ez))))
                    # pow2 (- ez))%Q).
    { rewrite Qmake_plus.
      rewrite <- (val_aligned sx mx ex ez) by (unfold ez; lia).
      rewrite <- (val_aligned sy my ey ez) by (unfold ez; lia).
      reflexivity. }
    apply (rounds_to_ext g _ _ _ (Qeq_sym _ _ Hsum)).
    change IntDef.Z.add with Z.add.
    apply (binary_normalize_rounds _ _ g c); try lia; try (unfold ez; lia).
    rewrite <- Hsum. exact Hc.
Qed.

Lemma val_opp (y : spec_float) : (val (SFopp y) == - val y)%Q.
Proof.
  destruct y as [s|s| |[|] m e]; simpl; try reflexivity; ring.
Qed.

Lemma expo_le_opp (g : Z) (y : spec_float) : expo_le g y -> expo_le g (SFopp y).
Proof. destruct y; simpl; auto. Qed.

Lemma SFsub_rounds (g c : Z) (x y : spec_float) :
  0 <= g <= 1000 -> expo_le g x -> expo_le g y ->
  (- inject_Z c <= val x - val y <= inject_Z c)%Q ->
  c * 2 ^ g + 1 < 2 ^ 52 ->
  rounds_to g (SF64sub x y) (val x - val y).
Proof.
  intros Hg Hx Hy Hc Hov. rewrite SFsub_add_opp.
  apply (rounds_to_ext g _ (val x + val (SFopp y))).
  - rewrite val_opp. ring.
  - apply (SFadd_rounds g c); auto.
    + apply expo_le_opp; exact Hy.
    + rewrite val_opp. lra.
Qed.

(** *** Quotients *)

(** The exponent chosen by the division keeps the quotient on the grid. *)
Lemma div_exponent (mx my : positive) (ex ey g c : Z) :
  0 <= g <= 1000 -> ex <= 0 -> ey <= 0 ->
  Zpos mx * 2 ^ (- ey) <= c * Zpos my * 2 ^ (- ex) ->
  c * 2 ^ g + 1 < 2 ^ 52 ->
  fexp prec emax (Zdigits2 (Zpos mx) + ex - (Zdigits2 (Zpos my) + ey))
    <= - g - 1.
Proof.
  intros Hg Hex Hey Hc Hov. apply fexp_grid; [exact Hg|].
  unfold Zdigits2.
  pose proof (digits2_pos_bounds mx) as [Hdx _].
  pose proof (digits2_pos_bounds my) as [_ Hdy].
  set (dx := Zpos (digits2_pos mx)) in *.
  set (dy := Zpos (digits2_pos my)) in *.
  assert (Hdx0 : 1 <= dx) by (unfold dx; lia).
  assert (Hdy0 : 1 <= dy) by (unfold dy; lia).
  assert (Hpx : 0 < 2 ^ (- ex)) by (apply Z.pow_pos_nonneg; lia).
  assert (Hpy : 0 < 2 ^ (- ey)) by (apply Z.pow_pos_nonneg; lia).
  assert (Hpg : 0 < 2 ^ g) by (apply Z.pow_pos_nonneg; lia).
  assert (Hc0 : 0 < c).
  { assert (0 < Zpos mx * 2 ^ (- ey)) by (apply Z.mul_pos_pos; lia).
    destruct (Z.lt_ge_cases 0 c) as [H0|H0]; [exact H0|exfalso].
    assert (c * Zpos my * 2 ^ (- ex) <= 0); [|lia].
    apply Z.mul_nonpos_nonneg; [|lia]. apply Z.mul_nonpos_nonneg; lia. }
  assert (Hg52 : g <= 52).
  { destruct (Z.le_gt_cases g 52) as [H0|H0]; [exact H0|exfalso].
    assert (2 ^ 52 <= 2 ^ g) by (apply Z.pow_le_mono_r; lia). nia. }
  assert (Hcg : c < 2 ^ (52 - g)).
  { assert (Hs : 2 ^ 52 = 2 ^ (52 - g) * 2 ^ g).
    { rewrite <- Z.pow_add_r by lia. f_equal. lia. }
    rewrite Hs in Hov. apply (Z.mul_lt_mono_pos_r (2 ^ g)); lia. }
  assert (Hlt : 2 ^ (dx - 1 + - ey) < 2 ^ (52 - g + dy + - ex)).
  { rewrite !Z.pow_add_r by lia.
    assert (0 < 2 ^ (52 - g)) by (apply Z.pow_pos_nonneg; lia).
    assert (0 < 2 ^ dy) by (apply Z.pow_pos_nonneg; lia).
    assert (H1 : 2 ^ (dx - 1) * 2 ^ (- ey) <= Zpos mx * 2 ^ (- ey)) by nia.
    assert (H2 : c * Zpos my * 2 ^ (- ex) < 2 ^ (52 - g) * 2 ^ dy * 2 ^ (- ex)).
    { apply Z.mul_lt_mono_pos_r; [exact Hpx|].
      apply Z.le_lt_trans with (c * 2 ^ dy); [nia|].
      apply Z.mul_lt_mono_pos_r; lia. }
    lia. }
  apply Z.pow_lt_mono_r_iff in Hlt; lia.
Qed.

Lemma quot_bounds (mx my : positive) (q N N' P s : Z) :
  0 <= N -> 0 <= N' -> 0 <= s -> P = s + N - N' -> 0 <= P ->
  q * Zpos my <= Zpos mx * 2 ^ s < (q + 1) * Zpos my ->
  ((q # pow2 P) * (Zpos my # pow2 N') <= Zpos mx # pow2 N)%Q /\
  (Zpos mx # pow2 N <= (q + 1 # pow2 P) * (Zpos my # pow2 N'))%Q.
Proof.
  intros HN HN' Hs HP HP0 [Hlo Hhi].
  assert (Hsplit : 2 ^ P * 2 ^ N' = 2 ^ s * 2 ^ N).
  { rewrite <- !Z.pow_add_r by lia. f_equal. lia. }
  assert (HpN : 0 < 2 ^ N) by (apply Z.pow_pos_nonneg; lia).
  unfold Qle, Qmult; simpl Qnum; simpl Qden.
  rewrite !Pos2Z.inj_mul, !pow2_pos by lia.
  rewrite Hsplit. split; nia.
Qed.

Lemma SFdiv_rounds (g c : Z) (x y : spec_float) (X : Q) :
  0 <= g <= 1000 -> expo_le 0 x -> expo_le 0 y ->
  ~ (val y == 0)%Q -> (X * val y == val x)%Q ->
  (- inject_Z c <= X <= inject_Z c)%Q -> c * 2 ^ g + 1 < 2 ^ 52 ->
  rounds_to g (SF64div x y) X.
Proof.
  intros Hg Hx Hy Hy0 HX Hc Hov. pose proof (eps_pos g) as Hp.
  unfold SF64div, SFdiv.
  destruct x as [sx|sx| |sx mx ex], y as [sy|sy| |sy my ey];
    simpl in Hx, Hy; try contradiction;
    try (exfalso; apply Hy0; reflexivity).
  - (* zero divided by a finite number *)
    assert (HX0 : (X == 0)%Q).
    { simpl val at 2 in HX. apply Qmult_integral in HX.
      destruct HX as [HX|HX]; [exact HX|contradiction]. }
    apply (rounds_to_ext g _ 0%Q); [symmetry; exact HX0|].
    unfold rounds_to. simpl. repeat split; lra.
  - set (Mx := mag (S754_finite sx mx ex)) in *.
    set (My := mag (S754_finite sy my ey)) in *.
    assert (HMx : (0 < Mx)%Q) by apply mag_pos.
    assert (HMy : (0 < My)%Q) by apply mag_pos.
    set (Xa := (Mx / My)%Q).
    assert (HXa : (Xa * My == Mx)%Q).
    { unfold Xa. field. lra. }
    assert (HXa0 : (0 < Xa)%Q).
    { unfold Xa. apply Qlt_shift_div_l; lra. }
    assert (HXs : (X == if xorb sx sy then - Xa else Xa)%Q).
    { assert (HXq : (X == val (S754_finite sx mx ex) /
                          val (S754_finite sy my ey))%Q).
      { rewrite <- HX. field. exact Hy0. }
      rewrite HXq, !val_sign. fold Mx My. unfold Xa.
      destruct sx, sy; simpl xorb; cbv iota; field; lra. }
    assert (HXc : (Xa <= inject_Z c)%Q).
    { rewrite HXs in Hc. destruct (xorb sx sy); lra. }
    apply (rounds_to_ext g _ _ _ (Qeq_sym _ _ HXs)).
    (* the integer bound behind [Xa <= c] *)
    assert (Hcz : Zpos mx * 2 ^ (- ey) <= c * Zpos my * 2 ^ (- ex)).
    { assert (H1 : (Mx <= inject_Z c * My)%Q).
      { rewrite <- HXa. apply Qmult_le_compat_r; lra. }
      unfold Mx, My, mag, Qle, Qmult, inject_Z in H1.
      simpl Qnum in H1; simpl Qden in H1.
      rewrite !pow2_pos in H1 by lia. lia. }
    pose proof (div_exponent mx my ex ey g c Hg Hx Hy Hcz Hov) as Hf.
    unfold SFdiv_core_binary.
    change (IntDef.Z.sub ?a ?b) with (Z.sub a b).
    change (IntDef.Z.add ?a ?b) with (Z.add a b).
    change (IntDef.Z.min ?a ?b) with (Z.min a b).
    set (e' := Z.min (fexp prec emax
                        (Zdigits2 (Zpos mx) + ex - (Zdigits2 (Zpos my) + ey)))
                     (ex - ey)).
    assert (He' : e' <= - g - 1) by (unfold e'; lia).
    assert (Hs0 : 0 <= ex - ey - e') by (unfold e'; lia).
    set (s := ex - ey - e') in *.
    set (m' := match s with Z.pos _ => Z.shiftl (Zpos mx) s
               | 0 => Zpos mx | Z.neg _ => 0 end).
    assert (Hm' : m' = Zpos mx * 2 ^ s).
    { unfold m'. destruct s as [|p|p] eqn:Es; try lia.
      rewrite Z.shiftl_mul_pow2 by lia. reflexivity. }
    pose proof (Z_div_mod m' (Zpos my) ltac:(lia)) as Hdm.
    change IntDef.Z.div_eucl with Z.div_eucl.
    destruct (Z.div_eucl m' (Zpos my)) as [q r]. destruct Hdm as [Hdm Hr].
    assert (Hps : 0 < 2 ^ s) by (apply Z.pow_pos_nonneg; lia).
    assert (Hq0 : 0 <= q) by nia.
    destruct (quot_bounds mx my q (- ex) (- ey) (- e') s
                ltac:(lia) ltac:(lia) Hs0 ltac:(unfold s; lia) ltac:(lia)
                ltac:(rewrite <- Hm'; nia)) as [Hql Hqh].
    fold Mx My in Hql, Hqh.
    assert (Hql' : (q # pow2 (- e') <= Xa)%Q).
    { apply (Qmult_le_r _ _ My HMy). rewrite HXa. exact Hql. }
    assert (Hqh' : (Xa <= q + 1 # pow2 (- e'))%Q).
    { apply (Qmult_le_r _ _ My HMy). rewrite HXa. exact Hqh. }
    destruct (round_aux_val (xorb sx sy) q e' (new_location (Zpos my) r)
                g Xa Hg ltac:(lia) Hq0) as (He & Hsg & Hm); auto.
    + apply (overflow_ok _ _ _ c); try lia.
      apply Qmake_bound; [lia|]. lra.
    + apply rounds_to_signed; auto.
Qed.

(** *** [Math.floor], [Math.round] and the store into the array *)

Lemma finb_ok (z : float) : finb z = true -> fin z.
Proof.
  unfold finb, fin. destruct (Prim2SF z); simpl; try discriminate; auto.
  intros H. apply Z.leb_le in H. exact H.
Qed.

Lemma e40_small : (0 < e40 /\ e40 <= 1 # 1000000000000)%Q.
Proof. split; [apply eps_pos|]. unfold e40, eps, Qle. vm_compute. discriminate. Qed.

Lemma small_int_float (k : Z) :
  0 <= k <= 255 ->
  fin (JS.Z2F k) /\ (fval (JS.Z2F k) == inject_Z k)%Q /\
  JS.toInteger (JS.Z2F k) = Some k.
Proof.
  intros Hk.
  assert (H : small_intb k = true).
  { apply (on_all_bytes small_intb); [vm_compute; reflexivity|exact Hk]. }
  unfold small_intb in H. apply andb_prop in H. destruct H as [H H3].
  apply andb_prop in H. destruct H as [H1 H2].
  split; [apply finb_ok; exact H1|]. split; [apply Qeq_bool_iff; exact H2|].
  destruct (JS.toInteger (JS.Z2F k)) as [n|]; [|discriminate].
  apply Z.eqb_eq in H3. congruence.
Qed.

Lemma Qmake_lower (q c d : Z) (n : Z) :
  0 <= n -> 0 < d -> (c # Z.to_pos d <= q # pow2 n)%Q -> c * 2 ^ n <= q * d.
Proof.
  intros Hn Hd. unfold Qle. simpl. rewrite pow2_pos, Z2Pos.id by lia. lia.
Qed.

Lemma Qmake_upper (q c d : Z) (n : Z) :
  0 <= n -> 0 < d -> (q # pow2 n <= c # Z.to_pos d)%Q -> q * d <= c * 2 ^ n.
Proof.
  intros Hn Hd. unfold Qle. simpl. rewrite pow2_pos, Z2Pos.id by lia. lia.
Qed.

Lemma Qmake_upper_lt (q c : Z) (n : Z) :
  0 <= n -> (q # pow2 n < inject_Z c)%Q -> q < c * 2 ^ n.
Proof.
  intros Hn. unfold Qlt. simpl. rewrite pow2_pos by lia. lia.
Qed.

(** [Math.floor] of a number in [0,6). *)
Lemma floor_spec (z : float) :
  fin z -> (0 <= fval z)%Q -> (fval z < 6)%Q ->
  exists k, 0 <= k <= 5 /\
    JS.toInteger (JS.floor z) = Some k /\ fin (JS.floor z) /\
    (fval (JS.floor z) == inject_Z k)%Q /\
    (inject_Z k <= fval z)%Q /\ (fval z < inject_Z k + 1)%Q.
Proof.
  unfold fin, fval, JS.floor. intros Hf H0 H6.
  destruct (Prim2SF z) as [s|s| |s m e] eqn:E; simpl in Hf; try contradiction.
  - exists 0. split; [lia|]. unfold JS.toInteger. rewrite E. simpl.
    repeat split; auto; lra.
  - destruct s.
    { exfalso. pose proof (mag_pos true m e). unfold val in H0. lra. }
    assert (He : (0 <=? e) = false) by (apply Z.leb_gt; lia).
    rewrite He. unfold val, mag in H0, H6.
    set (den := 2 ^ (- e)).
    assert (Hden : 0 < den) by (apply Z.pow_pos_nonneg; lia).
    apply (Qmake_upper_lt _ 6) in H6; [|lia]. fold den in H6.
    set (k := Zpos m / den).
    assert (Hk0 : 0 <= k) by (apply Z.div_pos; lia).
    assert (Hk5 : k <= 5).
    { assert (k < 6); [|lia]. apply Z.div_lt_upper_bound; lia. }
    assert (Hlo : k * den <= Zpos m).
    { pose proof (Z.mul_div_le (Zpos m) den Hden). unfold k. lia. }
    assert (Hhi : Zpos m < (k + 1) * den).
    { pose proof (Z.mul_succ_div_gt (Zpos m) den Hden). unfold k. lia. }
    exists k. split; [lia|].
    destruct (small_int_float k ltac:(lia)) as (Hfin & Hval & Hint).
    split; [exact Hint|]. split; [exact Hfin|]. split; [exact Hval|].
    unfold val, mag. split.
    + unfold Qle, inject_Z. simpl. rewrite pow2_pos by lia. fold den. lia.
    + unfold Qlt, Qplus, inject_Z. simpl. rewrite pow2_pos by lia. fold den. lia.
Qed.

Lemma lands_zero (z : float) (s : bool) (c : Z) :
  Prim2SF z = S754_zero s -> lands z c -> c = 0.
Proof.
  unfold lands, fval. intros E [_ [Hlo Hhi]]. rewrite E in Hlo, Hhi.
  simpl in Hlo, Hhi. unfold Qle, Qminus, Qplus, Qopp, inject_Z in Hlo, Hhi.
  simpl in Hlo, Hhi. lia.
Qed.

Lemma lands_finite (z : float) (s : bool) (m : positive) (e : Z) (c : Z) :
  Prim2SF z = S754_finite s m e -> lands z c -> 0 <= c ->
  e <= - 40 /\
  if s then c = 0 /\ 4 * Zpos m <= 2 ^ (- e)
  else (4 * c - 1) * 2 ^ (- e) <= 4 * Zpos m <= (4 * c + 1) * 2 ^ (- e).
Proof.
  unfold lands, fin, fval. intros E [Hf [Hlo Hhi]] Hc.
  rewrite E in Hf, Hlo, Hhi. simpl in Hf. split; [exact Hf|].
  assert (Hden : 0 < 2 ^ (- e)) by (apply Z.pow_pos_nonneg; lia).
  destruct s; unfold val, mag in Hlo, Hhi;
    unfold Qle, Qminus, Qplus, Qopp, inject_Z in Hlo, Hhi;
    simpl in Hlo, Hhi; rewrite pow2_pos in Hlo, Hhi by lia.
  - assert (c = 0) by nia. subst c. split; [reflexivity|lia].
  - lia.
Qed.

(** [Math.round] of a number within a quarter of a byte. *)
Lemma round_lands (z : float) (c : Z) :
  lands z c -> 0 <= c <= 255 ->
  JS.round z = JS.Z2F c \/ (c = 0 /\ is_zero_float (JS.round z)).
Proof.
  intros Hl Hc. unfold JS.round.
  destruct (Prim2SF z) as [s|s| |s m e] eqn:E;
    try (destruct Hl as [Hf _]; unfold fin in Hf; rewrite E in Hf;
         contradiction).
  - right. split; [exact (lands_zero z s c E Hl)|exact (zero_float z s E)].
  - destruct (lands_finite z s m e c E Hl ltac:(lia)) as [He Hm].
    assert (He' : (0 <=? e) = false) by (apply Z.leb_gt; lia).
    rewrite He'. set (den := 2 ^ (- e)) in *.
    assert (Hden : 0 < den) by (apply Z.pow_pos_nonneg; lia).
    destruct s.
    + destruct Hm as [Hc0 Hm]. right. split; [exact Hc0|].
      assert (Hn : (2 * Zpos m - den + 2 * den - 1) / (2 * den) = 0).
      { apply Z.div_small. lia. }
      rewrite Hn. right. reflexivity.
    + left.
      assert (Hn : (2 * Zpos m + den) / (2 * den) = c).
      { symmetry. apply (Z.div_unique _ _ _ (2 * Zpos m + den - 2 * den * c));
          nia. }
      rewrite Hn. reflexivity.
Qed.

(** The integer [Math.round] yields. *)
Lemma round_spec (z : float) (c : Z) :
  lands z c -> 0 <= c <= 255 -> JS.toInteger (JS.round z) = Some c.
Proof.
  intros Hl Hc. destruct (round_lands z c Hl Hc) as [H|[H0 [H|H]]].
  - rewrite H. apply small_int_float. exact Hc.
  - rewrite H, H0. reflexivity.
  - rewrite H, H0. reflexivity.
Qed.

(** [clamp(Math.round(z), 0, 255)], the channel [clampRGB] returns. *)
Lemma clamp_round_lands (z : float) (c : Z) :
  lands z c -> 0 <= c <= 255 ->
  ColorUtils.clamp (JS.round z) 0 255 = JS.Z2F c.
Proof.
  intros Hl Hc. destruct (round_lands z c Hl Hc) as [H|[H0 [H|H]]].
  - rewrite H. apply same_eq.
    apply (on_all_bytes clamp_byteb); [vm_compute; reflexivity|exact Hc].
  - rewrite H, H0. reflexivity.
  - rewrite H, H0. reflexivity.
Qed.

(** The byte a store into the typed array leaves. *)
Lemma store_lands (z : float) (c : Z) :
  lands z c -> 0 <= c <= 255 -> JS.ToUint8Clamp z = c.
Proof.
  intros Hl Hc. unfold JS.ToUint8Clamp.
  destruct (Prim2SF z) as [s|s| |s m e] eqn:E;
    try (destruct Hl as [Hf _]; unfold fin in Hf; rewrite E in Hf;
         contradiction).
  - symmetry. exact (lands_zero z s c E Hl).
  - destruct (lands_finite z s m e c E Hl ltac:(lia)) as [He Hm].
    destruct s; [symmetry; tauto|].
    unfold JS.round_half_even.
    assert (He' : (0 <=? e) = false) by (apply Z.leb_gt; lia).
    rewrite He'. cbv zeta. set (den := 2 ^ (- e)) in *.
    assert (Hden : 0 < den) by (apply Z.pow_pos_nonneg; lia).
    pose proof (Z.div_mod (Zpos m) den ltac:(lia)) as Hdm.
    pose proof (Z.mod_pos_bound (Zpos m) den Hden) as Hr.
    set (q := Zpos m / den) in *. set (r := Zpos m mod den) in *.
    assert (Hq : q = c \/ q = c - 1) by nia.
    destruct Hq as [Hq|Hq].
    + assert (Hlt : 2 * r < den) by nia.
      apply Z.compare_lt_iff in Hlt. rewrite Hlt. lia.
    + assert (Hgt : den < 2 * r) by nia.
      apply Z.compare_gt_iff in Hgt. rewrite Hgt. lia.
Qed.

(** *** The primitive operations on the grid, and the scaled bytes *)

Lemma expo_le_mono (g g' : Z) (x : spec_float) :
  g' <= g -> expo_le g x -> expo_le g' x.
Proof. intros H. destruct x; simpl; auto. lia. Qed.

Lemma fmul_rounds (x y : float) :
  fin x -> fin y -> (- (2048) <= fval x * fval y <= 2048)%Q ->
  rnd (x * y) (fval x * fval y).
Proof.
  intros Hx Hy Hc.
  change (rounds_to 40 (Prim2SF (x * y)) (fval x * fval y)).
  rewrite mul_spec.
  apply (SFmul_rounds 40 40 40 2048); try lia; auto.
Qed.

Lemma fadd_rounds (x y : float) :
  fin x -> fin y -> (- (2048) <= fval x + fval y <= 2048)%Q ->
  rnd (x + y) (fval x + fval y).
Proof.
  intros Hx Hy Hc.
  change (rounds_to 40 (Prim2SF (x + y)) (fval x + fval y)).
  rewrite add_spec.
  apply (SFadd_rounds 40 2048); try lia; auto.
Qed.

Lemma fsub_rounds (x y : float) :
  fin x -> fin y -> (- (2048) <= fval x - fval y <= 2048)%Q ->
  rnd (x - y) (fval x - fval y).
Proof.
  intros Hx Hy Hc.
  change (rounds_to 40 (Prim2SF (x - y)) (fval x - fval y)).
  rewrite sub_spec.
  apply (SFsub_rounds 40 2048); try lia; auto.
Qed.

Lemma fdiv_rounds (x y : float) (X : Q) :
  fin x -> fin y -> ~ (fval y == 0)%Q -> (X * fval y == fval x)%Q ->
  (- (2048) <= X <= 2048)%Q ->
  rnd (x / y) X.
Proof.
  intros Hx Hy Hy0 HX Hc.
  change (rounds_to 40 (Prim2SF (x / y)) X). rewrite div_spec.
  apply (SFdiv_rounds 40 2048); try lia; auto;
    apply (expo_le_mono 40); auto; lia.
Qed.

Lemma unit_ok (c : Z) :
  0 <= c <= 255 ->
  fin (unit_of c) /\
  ((c # 255) - e40 <= fval (unit_of c) <= (c # 255) + e40)%Q /\
  is_nan (unit_of c) = false /\ get_sign (unit_of c) = false /\
  (unit_of c =? 0)%float = (c =? 0).
Proof.
  intros Hc.
  assert (H : unit_okb c = true).
  { apply (on_all_bytes unit_okb); [vm_compute; reflexivity|exact Hc]. }
  unfold unit_okb in H.
  repeat (apply andb_prop in H; let H' := fresh "H" in destruct H as [H H']).
  split; [apply finb_ok; exact H|].
  split; [split; apply Qle_bool_iff; assumption|].
  split; [apply negb_true_iff; assumption|].
  split; [apply negb_true_iff; assumption|].
  apply eqb_prop. assumption.
Qed.

Lemma unit_order (a b : Z) :
  0 <= a <= 255 -> 0 <= b <= 255 ->
  (unit_of a <? unit_of b)%float = (a <? b) /\
  (unit_of a =? unit_of b)%float = (a =? b).
Proof.
  intros Ha Hb.
  assert (H : unit_orderb a b = true).
  { apply (on_all_byte_pairs unit_orderb); [vm_compute; reflexivity| |];
      assumption. }
  unfold unit_orderb in H. apply andb_prop in H. destruct H as [H1 H2].
  split; apply eqb_prop; assumption.
Qed.

Lemma max_unit (a b : Z) :
  0 <= a <= 255 -> 0 <= b <= 255 ->
  JS.max (unit_of a) (unit_of b) = unit_of (Z.max a b).
Proof.
  intros Ha Hb. unfold JS.max.
  destruct (unit_ok a Ha) as (_ & _ & Hn & Hs & _).
  destruct (unit_ok b Hb) as (_ & _ & Hn' & _ & _).
  rewrite Hn, Hn', Hs. simpl orb. cbv iota.
  destruct (unit_order a b Ha Hb) as [H1 _].
  destruct (unit_order b a Hb Ha) as [H2 _].
  rewrite H1, H2.
  destruct (Z.ltb_spec a b); [rewrite Z.max_r by lia; reflexivity|].
  destruct (Z.ltb_spec b a); rewrite Z.max_l by lia; reflexivity.
Qed.

Lemma min_unit (a b : Z) :
  0 <= a <= 255 -> 0 <= b <= 255 ->
  JS.min (unit_of a) (unit_of b) = unit_of (Z.min a b).
Proof.
  intros Ha Hb. unfold JS.min.
  destruct (unit_ok a Ha) as (_ & _ & Hn & Hs & _).
  destruct (unit_ok b Hb) as (_ & _ & Hn' & _ & _).
  rewrite Hn, Hn', Hs. simpl orb. cbv iota.
  destruct (unit_order a b Ha Hb) as [H1 _].
  destruct (unit_order b a Hb Ha) as [H2 _].
  rewrite H1, H2.
  destruct (Z.ltb_spec a b); [rewrite Z.min_l by lia; reflexivity|].
  destruct (Z.ltb_spec b a); [rewrite Z.min_r by lia; reflexivity|].
  replace (Z.min a b) with b by lia. reflexivity.
Qed.

(** What [RGBtoHSV] computes on bytes that are not all equal. *)
Lemma RGBtoHSV_bytes (r g b : Z) :
  0 <= r <= 255 -> 0 <= g <= 255 -> 0 <= b <= 255 ->
  ~ (r = g /\ g = b) ->
  let M := Z.max (Z.max r g) b in
  let m := Z.min (Z.min r g) b in
  ColorUtils.RGBtoHSV (JS.Z2F r) (JS.Z2F g) (JS.Z2F b) =
  ((hue6 r g b / 6)%float,
   ((unit_of M - unit_of m) / unit_of M)%float, unit_of M).
Proof.
  intros Hr Hg Hb Hne M m. unfold ColorUtils.RGBtoHSV. cbv zeta.
  fold (unit_of r) (unit_of g) (unit_of b).
  unfold JS.max3, JS.min3.
  rewrite !max_unit, !min_unit by lia. fold M m.
  assert (HM : 0 <= M <= 255) by (unfold M; lia).
  assert (Hm : 0 <= m <= 255) by (unfold m; lia).
  assert (HMm : m < M) by (unfold M, m; lia).
  destruct (unit_ok M HM) as (_ & _ & _ & _ & Hz).
  rewrite Hz. replace (M =? 0) with false by (symmetry; apply Z.eqb_neq; lia).
  destruct (unit_order M m HM Hm) as [_ He]. rewrite He.
  replace (M =? m) with false by (symmetry; apply Z.eqb_neq; lia).
  destruct (unit_order M r HM Hr) as [_ Her]. rewrite Her.
  destruct (unit_order M g HM Hg) as [_ Heg]. rewrite Heg.
  destruct (unit_order M b HM Hb) as [_ Heb]. rewrite Heb.
  destruct (unit_order g b Hg Hb) as [Hlt _]. rewrite Hlt.
  unfold hue6. fold M m.
  destruct (M =? r) eqn:E1; [reflexivity|].
  destruct (M =? g) eqn:E2; [reflexivity|].
  replace (M =? b) with true; [reflexivity|].
  symmetry. apply Z.eqb_eq. apply Z.eqb_neq in E1, E2. unfold M in *. lia.
Qed.

(** *** The hue *)

Section Perturbation.
Local Open Scope Q_scope.

(** A quotient of two perturbed numbers, the exact ratio being at most 1
    and the exact denominator at least 1/255. *)
Lemma ratio_perturb (x y X0 Y0 T0 T e : Q) :
  0 <= e -> e <= 1 # 1000000 ->
  X0 - e <= x <= X0 + e -> Y0 - e <= y <= Y0 + e ->
  1 # 255 <= Y0 -> T0 * Y0 == X0 -> - (1) <= T0 <= 1 -> T * y == x ->
  T0 - 512 * e <= T <= T0 + 512 * e.
Proof.
  intros He0 He Hx Hy HY0 HT0 HT01 HT.
  assert (Hy0 : 1 # 256 <= y) by lra.
  assert (Hr : - (2 * e) <= (T - T0) * y <= 2 * e).
  { assert (Heq : (T - T0) * y == (x - X0) - T0 * (y - Y0)).
    { rewrite <- HT, <- HT0. ring. }
    rewrite Heq. nra. }
  nra.
Qed.

Lemma quotient_sign (x y T : Q) : 0 < y -> T * y == x -> 0 <= x -> 0 <= T.
Proof. intros Hy HT Hx. nra. Qed.

Lemma quotient_bound (x y T : Q) :
  0 < y -> T * y == x -> - (2 * y) <= x <= 2 * y -> - (2) <= T <= 2.
Proof. intros Hy HT Hx. nra. Qed.

Lemma ratio_negative (T D N : Q) :
  1 <= D <= 255 -> T * D == N -> N <= - (1) -> T <= - (1 # 255).
Proof. intros HD HT HN. nra. Qed.

Lemma ratio_unit (T D N : Q) :
  1 <= D -> T * D == N -> - D <= N <= D -> - (1) <= T <= 1.
Proof. intros HD HT HN. nra. Qed.

End Perturbation.

Lemma byte_Q (a : Z) : 0 <= a <= 255 -> (0 <= inject_Z a <= 255)%Q.
Proof.
  intros [H1 H2]. split.
  - change 0%Q with (inject_Z 0). rewrite <- Zle_Qle. exact H1.
  - change 255%Q with (inject_Z 255). rewrite <- Zle_Qle. exact H2.
Qed.

Lemma inject_Z_sub (a b : Z) : inject_Z (a - b) = (inject_Z a - inject_Z b)%Q.
Proof.
  unfold Z.sub, Qminus. rewrite inject_Z_plus, inject_Z_opp. reflexivity.
Qed.

Lemma inject_Z_ge1 (a : Z) : 1 <= a -> (1 <= inject_Z a)%Q.
Proof. intros H. change 1%Q with (inject_Z 1). rewrite <- Zle_Qle. exact H. Qed.

Lemma unit_apx (c : Z) :
  0 <= c <= 255 -> apx (unit_of c) (inject_Z c * (1 # 255)) e40.
Proof.
  intros Hc. destruct (unit_ok c Hc) as (Hf & Hb & _).
  split; [exact Hf|].
  assert (Hq : (c # 255 == inject_Z c * (1 # 255))%Q).
  { unfold Qeq, Qmult, inject_Z. simpl. lia. }
  rewrite <- Hq. exact Hb.
Qed.

Lemma literal_6 : fin 6 /\ (fval 6 == 6)%Q.
Proof. split; [apply finb_ok; reflexivity|vm_compute; reflexivity]. Qed.

Lemma literal_255 : fin 255 /\ (fval 255 == 255)%Q.
Proof. split; [apply finb_ok; reflexivity|vm_compute; reflexivity]. Qed.

Lemma literal_1 : fin 1 /\ (fval 1 == 1)%Q.
Proof. split; [apply finb_ok; reflexivity|vm_compute; reflexivity]. Qed.

(** The difference of two scaled bytes. *)
Lemma unit_diff (a b : Z) :
  0 <= a <= 255 -> 0 <= b <= 255 ->
  apx (unit_of a - unit_of b) (inject_Z (a - b) * (1 # 255)) (3 * e40) /\
  (b <= a -> (0 <= fval (unit_of a - unit_of b))%Q).
Proof.
  intros Ha Hb. pose proof e40_small as [He0 He].
  destruct (unit_apx a Ha) as [Fa Ba], (unit_apx b Hb) as [Fb Bb].
  pose proof (byte_Q a Ha) as Qa. pose proof (byte_Q b Hb) as Qb.
  destruct (fsub_rounds (unit_of a) (unit_of b) Fa Fb ltac:(lra))
    as (Fn & Bn & Hpos & _).
  rewrite inject_Z_sub.
  split; [split; [exact Fn|lra]|].
  intros Hle. apply Hpos.
  destruct (Z.eq_dec a b) as [->|Hne]; [lra|].
  assert (H1 : (1 <= inject_Z (a - b))%Q) by (apply inject_Z_ge1; lia).
  rewrite inject_Z_sub in H1. lra.
Qed.

(** The hue as [HSVtoRGB] reads it: [h * 6] for [h = h6 / 6], [h6] being
    the quotient of two byte differences plus the sector offset [k]. *)
Lemma hue_chain (a b M m k : Z) (kf : float) :
  0 <= a <= 255 -> 0 <= b <= 255 -> 0 <= m -> m < M -> M <= 255 ->
  - (M - m) <= a - b <= M - m ->
  fin kf -> (fval kf == inject_Z k)%Q ->
  (k = 0 /\ b <= a) \/ k = 2 \/ k = 4 \/ (k = 6 /\ a < b) ->
  let h := (((unit_of a - unit_of b) / (unit_of M - unit_of m) + kf)
            / 6)%float in
  let H' := (h * 6)%float in
  let H6 := (inject_Z k + inject_Z (a - b) / inject_Z (M - m))%Q in
  (fin h /\ (0 <= fval h)%Q /\ (fval h < 1)%Q) /\
  fin H' /\ (0 <= fval H')%Q /\ (fval H' < 6)%Q /\
  (H6 - 1545 * e40 <= fval H' <= H6 + 1545 * e40)%Q.
Proof.
  intros Ha Hb Hm HmM HM Hab Fk Vk Hk h0 H' H6.
  pose proof e40_small as [He0 He].
  destruct (unit_diff a b Ha Hb) as [[Fn Bn] Pn].
  destruct (unit_diff M m ltac:(lia) ltac:(lia)) as [[Fd Bd] _].
  set (n := (unit_of a - unit_of b)%float) in *.
  set (d := (unit_of M - unit_of m)%float) in *.
  set (N := inject_Z (a - b)) in *. set (D := inject_Z (M - m)) in *.
  assert (HD1 : (1 <= D)%Q) by (apply inject_Z_ge1; lia).
  assert (HD255 : (D <= 255)%Q) by (apply (byte_Q (M - m)); lia).
  assert (HND : (- D <= N <= D)%Q).
  { unfold N, D. rewrite <- inject_Z_opp. split; rewrite <- Zle_Qle; lia. }
  set (T0 := (N / D)%Q).
  assert (HT0 : (T0 * D == N)%Q) by (unfold T0; field; lra).
  assert (HT01 : (- (1) <= T0 <= 1)%Q) by (apply (ratio_unit T0 D N); auto).
  (* the quotient *)
  assert (Hd0 : (0 < fval d)%Q) by lra.
  set (X := (fval n / fval d)%Q).
  assert (HX : (X * fval d == fval n)%Q) by (unfold X; field; lra).
  assert (HX2 : (- (2) <= X <= 2)%Q).
  { apply (quotient_bound (fval n) (fval d)); auto. lra. }
  destruct (fdiv_rounds n d X Fn Fd ltac:(lra) HX ltac:(lra))
    as (Ft & Bt & Pt & _).
  assert (HXT : (T0 - 512 * (3 * e40) <= X <= T0 + 512 * (3 * e40))%Q).
  { apply (ratio_perturb (fval n) (fval d) (N * (1 # 255)) (D * (1 # 255)));
      auto; lra. }
  set (t := (n / d)%float) in *.
  (* the sector offset *)
  assert (HK : (inject_Z k == 0 \/ 2 <= inject_Z k <= 6)%Q).
  { destruct Hk as [[-> _]|[->|[->|[-> _]]]]; [left|right|right|right];
      unfold inject_Z; lra. }
  assert (Ht0 : k = 0 -> (0 <= fval t)%Q).
  { intros Hk0. apply Pt. apply (quotient_sign (fval n) (fval d)); auto.
    apply Pn. lia. }
  assert (Hsum0 : (0 <= fval t + fval kf)%Q).
  { rewrite Vk. destruct Hk as [[Hk0 _]|Hk2].
    - specialize (Ht0 Hk0). subst k. unfold inject_Z. lra.
    - assert (2 <= inject_Z k)%Q; [|lra].
      destruct Hk2 as [->|[->|[-> _]]]; unfold inject_Z; lra. }
  assert (HK6 : (0 <= inject_Z k <= 6)%Q) by (destruct HK; lra).
  destruct (fadd_rounds t kf Ft Fk ltac:(rewrite Vk; lra))
    as (Fh6 & Bh6 & Ph6 & _).
  set (h6 := (t + kf)%float) in *.
  destruct literal_6 as [F6 V6].
  (* division by six and multiplication by six *)
  set (X6 := (fval h6 * (1 # 6))%Q).
  assert (Hh6 : (0 <= fval h6 <= 8)%Q) by (rewrite Vk in Bh6; lra).
  destruct (fdiv_rounds h6 6 X6 Fh6 F6 ltac:(rewrite V6; lra)
              ltac:(unfold X6; rewrite V6; ring) ltac:(unfold X6; lra))
    as (Fh & Bh & Ph & _).
  set (h := (h6 / 6)%float) in *.
  destruct (fmul_rounds h 6 Fh F6 ltac:(rewrite V6; unfold X6 in Bh; lra))
    as (FH & BH & PH & _).
  rewrite V6 in BH, PH. rewrite Vk in Bh6. unfold X6 in Bh, Ph.
  change H' with (h * 6)%float. change H6 with (inject_Z k + T0)%Q.
  change h0 with h.
  assert (Hup : (inject_Z k + T0 <= 6 - (1 # 255))%Q).
  { destruct Hk as [[-> _]|[->|[->|[-> Hlt]]]]; unfold inject_Z; try lra.
    assert (HN1 : (N <= - (1))%Q).
    { unfold N. change (- (1))%Q with (inject_Z (- 1)).
      rewrite <- Zle_Qle. lia. }
    assert (T0 <= - (1 # 255))%Q; [|lra].
    apply (ratio_negative T0 D N); auto. }
  split; [split; [exact Fh|split; [apply Ph; lra|lra]]|].
  split; [exact FH|]. split; [apply PH; lra|].
  split; [lra|]. split; lra.
Qed.

(** *** The weights of the channels *)

Ltac split_weights :=
  repeat match goal with
         | |- context [Qlt_le_dec ?a ?b] => destruct (Qlt_le_dec a b)
         end.

Section Weights.
Local Open Scope Q_scope.

Lemma slow_R : slow weight_R.
Proof. intros a b d H. unfold weight_R. split_weights; lra. Qed.

Lemma slow_G : slow weight_G.
Proof. intros a b d H. unfold weight_G. split_weights; lra. Qed.

Lemma slow_B : slow weight_B.
Proof. intros a b d H. unfold weight_B. split_weights; lra. Qed.

Lemma weight_unit_R (H : Q) : 0 <= H <= 6 -> 0 <= weight_R H <= 1.
Proof. intros HH. unfold weight_R. split_weights; lra. Qed.

Lemma weight_unit_G (H : Q) : 0 <= H <= 6 -> 0 <= weight_G H <= 1.
Proof. intros HH. unfold weight_G. split_weights; lra. Qed.

Lemma weight_unit_B (H : Q) : 0 <= H <= 6 -> 0 <= weight_B H <= 1.
Proof. intros HH. unfold weight_B. split_weights; lra. Qed.

Lemma prod_perturb (x y X Y dx dy : Q) :
  X - dx <= x <= X + dx -> Y - dy <= y <= Y + dy ->
  0 <= X <= 1 -> 0 <= Y <= 1 -> 0 <= dx <= 1 -> 0 <= dy <= 1 ->
  - (4) <= x * y <= 4 /\
  X * Y - (2 * dx + dy) <= x * y <= X * Y + (2 * dx + dy).
Proof.
  intros Hx Hy HX HY Hdx Hdy.
  assert (Heq : x * y == X * Y + (x - X) * y + X * (y - Y)) by ring.
  assert (H1 : - (2 * dx) <= (x - X) * y <= 2 * dx) by nra.
  assert (H2 : - dy <= X * (y - Y) <= dy) by nra.
  assert (H3 : 0 <= X * Y <= 1) by nra.
  rewrite Heq. lra.
Qed.

End Weights.

Lemma apx_ext (z : float) (X Y d : Q) :
  (X == Y)%Q -> apx z X d -> apx z Y d.
Proof. intros H [Hf Hb]. split; [exact Hf|lra]. Qed.

Lemma apx_weaken (z : float) (X d d' : Q) :
  (d <= d')%Q -> apx z X d -> apx z X d'.
Proof. intros H [Hf Hb]. split; [exact Hf|lra]. Qed.

Lemma apx_one_minus (x : float) (X d : Q) :
  apx x X d -> (0 <= X <= 1)%Q -> (0 <= d <= 1)%Q ->
  apx (1 - x) (1 - X) (d + e40).
Proof.
  intros [Fx Bx] HX Hd. destruct literal_1 as [F1 V1].
  destruct (fsub_rounds 1 x F1 Fx ltac:(rewrite V1; lra)) as (Fr & Br & _).
  rewrite V1 in Br. split; [exact Fr|lra].
Qed.

Lemma apx_mul (x y : float) (X Y dx dy : Q) :
  apx x X dx -> apx y Y dy -> (0 <= X <= 1)%Q -> (0 <= Y <= 1)%Q ->
  (0 <= dx <= 1)%Q -> (0 <= dy <= 1)%Q ->
  apx (x * y) (X * Y) (2 * dx + dy + e40).
Proof.
  intros [Fx Bx] [Fy By] HX HY Hdx Hdy.
  destruct (prod_perturb (fval x) (fval y) X Y dx dy Bx By HX HY Hdx Hdy)
    as [Hc Hp].
  destruct (fmul_rounds x y Fx Fy ltac:(lra)) as (Fr & Br & _).
  split; [exact Fr|lra].
Qed.

(** *** Saturation and the shapes of a channel *)

(** The saturation of bytes that are not all equal. *)
Lemma saturation_apx (M m : Z) :
  0 <= m -> m < M -> M <= 255 ->
  let S0 := (inject_Z (M - m) / inject_Z M)%Q in
  apx ((unit_of M - unit_of m) / unit_of M) S0 (1537 * e40) /\
  (0 <= S0 <= 1)%Q /\ (S0 * inject_Z M == inject_Z (M - m))%Q.
Proof.
  intros Hm HmM HM S0. pose proof e40_small as [He0 He].
  destruct (unit_diff M m ltac:(lia) ltac:(lia)) as [[Fd Bd] _].
  destruct (unit_apx M ltac:(lia)) as [Fv Bv].
  set (d := (unit_of M - unit_of m)%float) in *.
  set (v := unit_of M) in *.
  set (D := inject_Z (M - m)) in *. set (Mq := inject_Z M) in *.
  assert (HD1 : (1 <= D)%Q) by (apply inject_Z_ge1; lia).
  assert (HM1 : (1 <= Mq)%Q) by (apply inject_Z_ge1; lia).
  assert (HDM : (D <= Mq)%Q) by (unfold D, Mq; rewrite <- Zle_Qle; lia).
  assert (HM255 : (Mq <= 255)%Q) by (apply (byte_Q M); lia).
  assert (HS0 : (S0 * Mq == D)%Q) by (unfold S0; field; lra).
  assert (HS01 : (- (1) <= S0 <= 1)%Q).
  { apply (ratio_unit S0 Mq D); auto. lra. }
  assert (HS00 : (0 <= S0)%Q).
  { apply (quotient_sign D Mq); auto; lra. }
  assert (Hv0 : (0 < fval v)%Q) by lra.
  set (X := (fval d / fval v)%Q).
  assert (HX : (X * fval v == fval d)%Q) by (unfold X; field; lra).
  assert (HX2 : (- (2) <= X <= 2)%Q).
  { apply (quotient_bound (fval d) (fval v)); auto. lra. }
  destruct (fdiv_rounds d v X Fd Fv ltac:(lra) HX ltac:(lra))
    as (Fs & Bs & _).
  assert (HXS : (S0 - 512 * (3 * e40) <= X <= S0 + 512 * (3 * e40))%Q).
  { apply (ratio_perturb (fval d) (fval v) (D * (1 # 255)) (Mq * (1 # 255)));
      auto; lra. }
  split; [split; [exact Fs|lra]|]. split; [lra|exact HS0].
Qed.

(** The four shapes a channel of [HSVtoRGB] takes. *)
Section Channels.
Variables (v s f : float) (V0 S0 F' : Q).
Hypothesis Av : apx v V0 e40.
Hypothesis As : apx s S0 (1537 * e40).
Hypothesis Af : apx f F' e40.
Hypothesis HV : (0 <= V0 <= 1)%Q.
Hypothesis HS : (0 <= S0 <= 1)%Q.
Hypothesis HF : (0 <= F' <= 1)%Q.

Lemma shape_v : apx v (shape V0 S0 1) (1600 * e40).
Proof.
  pose proof e40_small as [He0 He]. unfold shape.
  apply (apx_weaken _ _ e40); [lra|].
  apply (apx_ext _ V0); [ring|exact Av].
Qed.

Lemma shape_p : apx (v * (1 - s)) (shape V0 S0 0) (1600 * e40).
Proof.
  pose proof e40_small as [He0 He]. unfold shape.
  apply (apx_weaken _ _ (2 * e40 + (1537 * e40 + e40) + e40)); [lra|].
  apply (apx_ext _ (V0 * (1 - S0))); [ring|].
  apply apx_mul; auto; try lra.
  apply apx_one_minus; auto; lra.
Qed.

Lemma shape_q : apx (v * (1 - f * s)) (shape V0 S0 (1 - F')) (1600 * e40).
Proof.
  pose proof e40_small as [He0 He]. unfold shape.
  assert (HFS : (0 <= F' * S0 <= 1)%Q) by nra.
  apply (apx_weaken _ _
           (2 * e40 + ((2 * e40 + 1537 * e40 + e40) + e40) + e40)); [lra|].
  apply (apx_ext _ (V0 * (1 - F' * S0))); [ring|].
  apply apx_mul; auto; try lra.
  apply apx_one_minus; auto; try lra.
  apply apx_mul; auto; lra.
Qed.

Lemma shape_t : apx (v * (1 - (1 - f) * s)) (shape V0 S0 F') (1600 * e40).
Proof.
  pose proof e40_small as [He0 He]. unfold shape.
  assert (HFS : (0 <= (1 - F') * S0 <= 1)%Q) by nra.
  apply (apx_weaken _ _
           (2 * e40 + ((2 * (e40 + e40) + 1537 * e40 + e40) + e40) + e40));
    [lra|].
  apply (apx_ext _ (V0 * (1 - (1 - F') * S0))); [ring|].
  apply apx_mul; auto; try lra.
  apply apx_one_minus; auto; try lra.
  apply apx_mul; auto; try lra.
  apply apx_one_minus; auto; lra.
Qed.

End Channels.

(** *** From hue, saturation and value back to bytes *)

Lemma weight_gap (D w w0 d : Q) :
  (0 <= D <= 255)%Q -> (w0 - d <= w <= w0 + d)%Q -> (0 <= d)%Q ->
  (- (255 * d) <= D * (w - w0) <= 255 * d)%Q.
Proof. intros HD Hw Hd. nra. Qed.

(** A channel of the right shape, scaled back by 255, lands on its
    byte.  [Dq] is the value times the saturation, in bytes. *)
Lemma channel_back (form : float) (V0 S0 Mq Dq Hq H6 : Q) (W : Q -> Q)
    (c : Z) :
  slow W -> (H6 - 1545 * e40 <= Hq <= H6 + 1545 * e40)%Q ->
  apx form (shape V0 S0 (W Hq)) (1600 * e40) ->
  (V0 * 255 == Mq)%Q -> (V0 * S0 * 255 == Dq)%Q ->
  (0 <= Dq <= 255)%Q ->
  (inject_Z c == Mq - Dq * (1 - W H6))%Q -> 0 <= c <= 255 ->
  lands (form * 255) c.
Proof.
  intros HW HH [Ff Bf] HV HVS HD Hc Hc255.
  pose proof e40_small as [He0 He].
  pose proof (HW Hq H6 (1545 * e40)%Q HH) as Hw.
  pose proof (byte_Q c Hc255) as Qc.
  pose proof (weight_gap Dq (W Hq) (W H6) (1545 * e40)%Q HD Hw
                ltac:(lra)) as Hgap.
  assert (HY : (shape V0 S0 (W Hq) * 255 ==
                inject_Z c + Dq * (W Hq - W H6))%Q).
  { unfold shape. rewrite Hc.
    setoid_replace (V0 * (1 - S0 * (1 - W Hq)) * 255)%Q
      with (V0 * 255 - V0 * S0 * 255 * (1 - W Hq))%Q by ring.
    rewrite HV, HVS. ring. }
  set (Y := shape V0 S0 (W Hq)) in *.
  destruct literal_255 as [F255 V255].
  destruct (fmul_rounds form 255 Ff F255 ltac:(rewrite V255; lra))
    as (Fr & Br & _).
  rewrite V255 in Br.
  split; [exact Fr|lra].
Qed.

Lemma shape_ext (V0 S0 w w' : Q) (form : float) (d : Q) :
  (w == w')%Q -> apx form (shape V0 S0 w) d -> apx form (shape V0 S0 w') d.
Proof.
  intros Hw. apply apx_ext. unfold shape. rewrite Hw. reflexivity.
Qed.

Ltac weight_eq W := unfold W; split_weights; lra.

Ltac shape_from W Sx :=
  apply (fun H => shape_ext _ _ _ _ _ _ H Sx); weight_eq W.

Ltac channel V S Mq Dq Hf H6 W slowW
             HH Sv Sp Sq St HV255 HVS HD Hid :=
  apply (channel_back _ V S Mq Dq (fval Hf) H6 W);
  [ exact slowW | exact HH
  | first [ shape_from W Sv | shape_from W Sp
          | shape_from W Sq | shape_from W St ]
  | exact HV255 | exact HVS | exact HD | exact Hid | assumption ].

(** [HSVtoRGB] on a hue read back within the tolerance, a saturation [s]
    near [S0] and the value of the largest byte [M]: every channel lands
    on the byte that the exact hue, saturation and value give. *)
Lemma back_conversion (h s : float) (r g b M : Z) (S0 Dq H6 : Q) :
  0 <= r <= 255 -> 0 <= g <= 255 -> 0 <= b <= 255 -> 0 <= M <= 255 ->
  apx s S0 (1537 * e40) -> (0 <= S0 <= 1)%Q ->
  (S0 * inject_Z M == Dq)%Q -> (0 <= Dq <= 255)%Q ->
  fin (h * 6) -> (0 <= fval (h * 6))%Q -> (fval (h * 6) < 6)%Q ->
  (H6 - 1545 * e40 <= fval (h * 6) <= H6 + 1545 * e40)%Q ->
  (inject_Z r == inject_Z M - Dq * (1 - weight_R H6))%Q ->
  (inject_Z g == inject_Z M - Dq * (1 - weight_G H6))%Q ->
  (inject_Z b == inject_Z M - Dq * (1 - weight_B H6))%Q ->
  let '(r', g', b') := ColorUtils.HSVtoRGB h s (unit_of M) in
  lands r' r /\ lands g' g /\ lands b' b.
Proof.
  intros Hr Hg Hb HM As HS01 HS0 HD FH H0 H6' HH Ir Ig Ib.
  pose proof e40_small as [He0 He].
  destruct (unit_apx M HM) as [Fv Bv].
  pose proof (byte_Q M HM) as QM.
  destruct (floor_spec (h * 6)%float FH H0 H6')
    as (k & Hk & Hint & Fi & Vi & Hlo & Hhi).
  unfold ColorUtils.HSVtoRGB. cbv zeta.
  set (Hf := (h * 6)%float) in *. set (i := JS.floor Hf) in *.
  set (v := unit_of M) in *.
  set (Mq := inject_Z M) in *.
  set (V0 := (Mq * (1 # 255))%Q) in *.
  set (F' := (fval Hf - inject_Z k)%Q).
  assert (Af : apx (Hf - i) F' e40).
  { destruct (fsub_rounds Hf i FH Fi ltac:(rewrite Vi; lra)) as (Ff & Bf & _).
    rewrite Vi in Bf. split; [exact Ff|exact Bf]. }
  set (f := (Hf - i)%float) in *.
  assert (HV01 : (0 <= V0 <= 1)%Q) by (unfold V0; lra).
  assert (HF01 : (0 <= F' <= 1)%Q) by (unfold F'; lra).
  pose proof (shape_v v V0 S0 (conj Fv Bv)) as Sv.
  pose proof (shape_p v s V0 S0 (conj Fv Bv) As HV01 HS01) as Sp.
  pose proof (shape_q v s f V0 S0 F' (conj Fv Bv) As Af HV01 HS01 HF01) as Sq.
  pose proof (shape_t v s f V0 S0 F' (conj Fv Bv) As Af HV01 HS01 HF01) as St.
  assert (HV255 : (V0 * 255 == Mq)%Q) by (unfold V0; ring).
  assert (HVS : (V0 * S0 * 255 == Dq)%Q).
  { rewrite <- HS0. unfold V0. ring. }
  rewrite Hint. cbn [option_map]. rewrite (Z.rem_small k 6) by lia.
  clearbody Hf i v f.
  assert (Hcases : k = 0 \/ k = 1 \/ k = 2 \/ k = 3 \/ k = 4 \/ k = 5) by lia.
  destruct Hcases as [->|[->|[->|[->|[->| ->]]]]]; cbv beta iota;
    unfold F' in *; clear F'; unfold inject_Z in Sq, St, Hlo, Hhi;
    (split; [|split]).
  all: first
    [ channel V0 S0 Mq Dq Hf H6 weight_R slow_R HH Sv Sp Sq St HV255 HVS HD Ir
    | channel V0 S0 Mq Dq Hf H6 weight_G slow_G HH Sv Sp Sq St HV255 HVS HD Ig
    | channel V0 S0 Mq Dq Hf H6 weight_B slow_B HH Sv Sp Sq St HV255 HVS HD
              Ib ].
Qed.

(** *** The hue of a byte triple *)

Section Hue.
Local Open Scope Q_scope.

(** The exact hue gives every channel its weight.  [T] is the quotient
    of the two lower channels' difference by the range. *)
Lemma weights_red_low (r g b T : Q) :
  b <= g -> g <= r -> 1 <= r - b -> T * (r - b) == g - b ->
  r == b + (r - b) * weight_R (0 + T) /\
  g == b + (r - b) * weight_G (0 + T) /\
  b == b + (r - b) * weight_B (0 + T).
Proof.
  intros H1 H2 H3 HT.
  assert (HT01 : 0 <= T <= 1) by nra.
  unfold weight_R, weight_G, weight_B. repeat split; split_weights; nra.
Qed.

Lemma weights_red_high (r g b T : Q) :
  g < b -> b <= r -> 1 <= r - g -> T * (r - g) == g - b ->
  r == g + (r - g) * weight_R (6 + T) /\
  g == g + (r - g) * weight_G (6 + T) /\
  b == g + (r - g) * weight_B (6 + T).
Proof.
  intros H1 H2 H3 HT.
  assert (HT01 : - (1) <= T <= 0) by nra.
  unfold weight_R, weight_G, weight_B. repeat split; split_weights; nra.
Qed.

Lemma weights_green (r g b m T : Q) :
  r <= g -> b <= g -> m <= r -> m <= b -> (m == r \/ m == b) ->
  1 <= g - m -> T * (g - m) == b - r ->
  r == m + (g - m) * weight_R (2 + T) /\
  g == m + (g - m) * weight_G (2 + T) /\
  b == m + (g - m) * weight_B (2 + T).
Proof.
  intros H1 H2 H3 H4 Hm H5 HT.
  assert (HT01 : - (1) <= T <= 1) by nra.
  unfold weight_R, weight_G, weight_B.
  destruct Hm as [Hm|Hm]; repeat split; split_weights; nra.
Qed.

Lemma weights_blue (r g b m T : Q) :
  r <= b -> g <= b -> m <= r -> m <= g -> (m == r \/ m == g) ->
  1 <= b - m -> T * (b - m) == r - g ->
  r == m + (b - m) * weight_R (4 + T) /\
  g == m + (b - m) * weight_G (4 + T) /\
  b == m + (b - m) * weight_B (4 + T).
Proof.
  intros H1 H2 H3 H4 Hm H5 HT.
  assert (HT01 : - (1) <= T <= 1) by nra.
  unfold weight_R, weight_G, weight_B.
  destruct Hm as [Hm|Hm]; repeat split; split_weights; nra.
Qed.

End Hue.

Lemma literal_0 : fin 0 /\ (fval 0 == 0)%Q.
Proof. split; [apply finb_ok; reflexivity|vm_compute; reflexivity]. Qed.

Lemma literal_2 : fin 2 /\ (fval 2 == 2)%Q.
Proof. split; [apply finb_ok; reflexivity|vm_compute; reflexivity]. Qed.

Lemma literal_4 : fin 4 /\ (fval 4 == 4)%Q.
Proof. split; [apply finb_ok; reflexivity|vm_compute; reflexivity]. Qed.

Lemma inject_le (a b : Z) : a <= b -> (inject_Z a <= inject_Z b)%Q.
Proof. intros H. rewrite <- Zle_Qle. exact H. Qed.

Lemma inject_lt (a b : Z) : a < b -> (inject_Z a < inject_Z b)%Q.
Proof. intros H. rewrite <- Zlt_Qlt. exact H. Qed.

Ltac close_identities :=
  change (inject_Z 0) with 0%Q; change (inject_Z 2) with 2%Q;
  change (inject_Z 4) with 4%Q; change (inject_Z 6) with 6%Q;
  match goal with
  | I1 : context [weight_R ?x], I2 : context [weight_G ?x],
    I3 : context [weight_B ?x] |- _ =>
      generalize dependent (weight_R x); generalize dependent (weight_G x);
      generalize dependent (weight_B x); intros; repeat split; lra
  end.

(** The hue of a byte triple: in [0,1), read back by [HSVtoRGB] within
    the tolerance of the exact hue [H6], whose weights give the bytes. *)
Lemma hue_facts (r g b : Z) :
  0 <= r <= 255 -> 0 <= g <= 255 -> 0 <= b <= 255 -> ~ (r = g /\ g = b) ->
  let M := Z.max (Z.max r g) b in
  let m := Z.min (Z.min r g) b in
  let h := (hue6 r g b / 6)%float in
  (fin h /\ (0 <= fval h)%Q /\ (fval h < 1)%Q) /\
  exists H6 : Q,
    fin (h * 6) /\ (0 <= fval (h * 6))%Q /\ (fval (h * 6) < 6)%Q /\
    (H6 - 1545 * e40 <= fval (h * 6) <= H6 + 1545 * e40)%Q /\
    (inject_Z r == inject_Z M - inject_Z (M - m) * (1 - weight_R H6))%Q /\
    (inject_Z g == inject_Z M - inject_Z (M - m) * (1 - weight_G H6))%Q /\
    (inject_Z b == inject_Z M - inject_Z (M - m) * (1 - weight_B H6))%Q.
Proof.
  intros Hr Hg Hb Hne M m h.
  assert (HM : M <= 255) by (unfold M; lia).
  assert (Hm : 0 <= m) by (unfold m; lia).
  assert (HmM : m < M) by (unfold M, m; lia).
  assert (HD : (1 <= inject_Z (M - m))%Q) by (apply inject_Z_ge1; lia).
  assert (HDq : forall a c : Z, (inject_Z (a - c) / inject_Z (M - m) *
                  inject_Z (M - m) == inject_Z (a - c))%Q).
  { intros a c. field. lra. }
  unfold h, hue6. fold M m.
  destruct (Z.eqb_spec M r) as [E1|E1]; [destruct (Z.ltb_spec g b) as [E2|E2]|
    destruct (Z.eqb_spec M g) as [E2|E2]].
  - (* red is the largest, green below blue *)
    assert (Em : m = g) by (unfold M, m in *; lia).
    destruct literal_6 as [F6 V6].
    destruct (hue_chain g b M m 6 6 Hg Hb Hm HmM HM ltac:(lia) F6 V6
                ltac:(right; right; right; lia))
      as (Hh & FH & H0 & H6' & HB).
    split; [exact Hh|].
    eexists. split; [exact FH|]. split; [exact H0|]. split; [exact H6'|].
    split; [exact HB|].
    specialize (HDq g b). rewrite !inject_Z_sub in *.
    rewrite Em, E1 in *.
    destruct (weights_red_high (inject_Z r) (inject_Z g) (inject_Z b) _
                (inject_lt _ _ E2) (inject_le b r ltac:(lia)) HD HDq)
      as (I1 & I2 & I3).
    close_identities.
  - (* red is the largest, blue not above green *)
    assert (Em : m = b) by (unfold M, m in *; lia).
    destruct literal_0 as [F0 V0].
    destruct (hue_chain g b M m 0 0 Hg Hb Hm HmM HM ltac:(lia) F0 V0
                ltac:(left; lia))
      as (Hh & FH & H0 & H6' & HB).
    split; [exact Hh|].
    eexists. split; [exact FH|]. split; [exact H0|]. split; [exact H6'|].
    split; [exact HB|].
    specialize (HDq g b). rewrite !inject_Z_sub in *.
    rewrite Em, E1 in *.
    destruct (weights_red_low (inject_Z r) (inject_Z g) (inject_Z b) _
                (inject_le _ _ E2) (inject_le g r ltac:(lia)) HD HDq)
      as (I1 & I2 & I3).
    close_identities.
  - (* green is the largest *)
    destruct literal_2 as [F2 V2].
    destruct (hue_chain b r M m 2 2 Hb Hr Hm HmM HM
                ltac:(unfold M, m in *; lia) F2 V2
                ltac:(right; left; lia))
      as (Hh & FH & H0 & H6' & HB).
    split; [exact Hh|].
    eexists. split; [exact FH|]. split; [exact H0|]. split; [exact H6'|].
    split; [exact HB|].
    specialize (HDq b r). rewrite !inject_Z_sub in *.
    rewrite E2 in *.
    assert (Hc : (inject_Z m == inject_Z r \/ inject_Z m == inject_Z b)%Q).
    { assert (Hc : m = r \/ m = b) by (unfold M, m in *; lia).
      destruct Hc as [-> | ->]; [left|right]; reflexivity. }
    destruct (weights_green (inject_Z r) (inject_Z g) (inject_Z b)
                (inject_Z m) _
                (inject_le r g ltac:(lia)) (inject_le b g ltac:(lia))
                (inject_le m r ltac:(unfold m; lia))
                (inject_le m b ltac:(unfold m; lia)) Hc HD HDq)
      as (I1 & I2 & I3).
    close_identities.
  - (* blue is the largest *)
    assert (Eb : M = b) by (unfold M in *; lia).
    destruct literal_4 as [F4 V4].
    destruct (hue_chain r g M m 4 4 Hr Hg Hm HmM HM
                ltac:(unfold M, m in *; lia) F4 V4
                ltac:(right; right; left; lia))
      as (Hh & FH & H0 & H6' & HB).
    split; [exact Hh|].
    eexists. split; [exact FH|]. split; [exact H0|]. split; [exact H6'|].
    split; [exact HB|].
    specialize (HDq r g). rewrite !inject_Z_sub in *.
    rewrite Eb in *.
    assert (Hc : (inject_Z m == inject_Z r \/ inject_Z m == inject_Z g)%Q).
    { assert (Hc : m = r \/ m = g) by (unfold M, m in *; lia).
      destruct Hc as [-> | ->]; [left|right]; reflexivity. }
    destruct (weights_blue (inject_Z r) (inject_Z g) (inject_Z b)
                (inject_Z m) _
                (inject_le r b ltac:(lia)) (inject_le g b ltac:(lia))
                (inject_le m r ltac:(unfold m; lia))
                (inject_le m g ltac:(unfold m; lia)) Hc HD HDq)
      as (I1 & I2 & I3).
    close_identities.
Qed.

(** *** Where the channels land *)

Lemma landsb_ok (x : float) (c : Z) : landsb x c = true -> lands x c.
Proof.
  unfold landsb, lands. intros H.
  apply andb_prop in H. destruct H as [H H3].
  apply andb_prop in H. destruct H as [H1 H2].
  split; [apply finb_ok; exact H1|].
  split; apply Qle_bool_iff; assumption.
Qed.

Lemma sat_ok (M m : Z) :
  0 <= m -> m < M -> M <= 255 ->
  (0 <=? sat_of M m)%float = true /\ (sat_of M m <=? 1)%float = true /\
  JS.max 0 (JS.min 1 (sat_of M m * 1)) = sat_of M m /\
  JS.max 0 (JS.min 1 (sat_of M m * 0)) = 0%float.
Proof.
  intros Hm HmM HM.
  assert (H : sat_okb M m = true).
  { apply (on_all_byte_pairs sat_okb); [vm_compute; reflexivity| |];
      unfold channel_ok; lia. }
  unfold sat_okb in H. apply orb_prop in H. destruct H as [H|H].
  { apply Z.leb_le in H. lia. }
  repeat (apply andb_prop in H; let H' := fresh "H" in destruct H as [H H']).
  repeat split; auto using same_eq.
Qed.

(** A number of the grid with a value in [0,1), compared as a number. *)
Lemma unit_interval_compare (h : float) :
  fin h -> (0 <= fval h)%Q -> (fval h < 1)%Q ->
  (0 <=? h)%float = true /\ (h <? 1)%float = true.
Proof.
  unfold fin, fval. rewrite leb_spec, ltb_spec.
  pose proof (Prim2SF_valid h) as Hv.
  set (one := Prim2SF 1). vm_compute in one. subst one.
  change (Prim2SF 0) with (S754_zero false).
  destruct (Prim2SF h) as [s|s| |s m e]; simpl expo_le;
    intros Hf H0 H1; try contradiction.
  - split; reflexivity.
  - destruct s.
    { exfalso. pose proof (mag_pos true m e). unfold val in H0. lra. }
    split; [reflexivity|].
    unfold val, mag in H1.
    apply (Qmake_upper_lt _ 1) in H1; [|lia]. rewrite Z.mul_1_l in H1.
    pose proof (canonical_mantissa_small m e Hv) as Hsmall.
    assert (Hd : Zpos (digits2_pos m) + e <= 0).
    { pose proof (digits2_pos_bounds m) as [Hd _].
      assert (Hlt : 2 ^ (Zpos (digits2_pos m) - 1) < 2 ^ (- e)) by lia.
      apply Z.pow_lt_mono_r_iff in Hlt; lia. }
    assert (He : e <= - 53).
    { revert Hv. unfold SpecFloat.valid_binary, bounded, canonical_mantissa,
        fexp, SpecFloat.emin, prec, emax.
      intros Hv. apply andb_true_iff in Hv. destruct Hv as [Hv _].
      apply Z.eqb_eq in Hv. lia. }
    unfold SFltb, SFcompare.
    destruct (Z.compare_spec e (-52)) as [E|E|E]; first [reflexivity|lia].
Qed.

(** Bytes that are not all equal: the channels land on the bytes. *)
Lemma chromatic_lands (clampS : float -> float) (r g b : Z) :
  (clampS = (fun s => s) \/
   clampS = (fun s => JS.max 0 (JS.min 1 (s * 1)))%float) ->
  0 <= r <= 255 -> 0 <= g <= 255 -> 0 <= b <= 255 -> ~ (r = g /\ g = b) ->
  let '(h, s, v) := ColorUtils.RGBtoHSV (JS.Z2F r) (JS.Z2F g) (JS.Z2F b) in
  let '(r', g', b') := ColorUtils.HSVtoRGB h (clampS s) v in
  lands r' r /\ lands g' g /\ lands b' b.
Proof.
  intros Hclamp Hr Hg Hb Hne.
  rewrite RGBtoHSV_bytes by assumption.
  destruct (hue_facts r g b Hr Hg Hb Hne)
    as (_ & H6 & FH & H0 & H6' & HB & Ir & Ig & Ib).
  set (M := Z.max (Z.max r g) b) in *. set (m := Z.min (Z.min r g) b) in *.
  assert (Hm : 0 <= m) by (unfold m; lia).
  assert (HmM : m < M) by (unfold M, m; lia).
  assert (HM : M <= 255) by (unfold M; lia).
  destruct (saturation_apx M m Hm HmM HM) as (As & HS01 & HS0).
  fold (sat_of M m) in *.
  destruct (sat_ok M m Hm HmM HM) as (_ & _ & Hkept & _).
  assert (Hs : clampS (sat_of M m) = sat_of M m).
  { destruct Hclamp as [-> | ->]; [reflexivity|exact Hkept]. }
  rewrite Hs.
  apply (back_conversion (hue6 r g b / 6) (sat_of M m) r g b M
           (inject_Z (M - m) / inject_Z M)%Q (inject_Z (M - m)) H6);
    auto; try lia.
  apply (byte_Q (M - m)). lia.
Qed.

Lemma gray_back (clampS : float -> float) (c : Z) :
  gray_backb clampS c = true ->
  let '(h, s, v) :=
    ColorUtils.RGBtoHSV (JS.Z2F c) (JS.Z2F c) (JS.Z2F c) in
  let '(r', g', b') := ColorUtils.HSVtoRGB h (clampS s) v in
  lands r' c /\ lands g' c /\ lands b' c.
Proof.
  unfold gray_backb. destruct (ColorUtils.RGBtoHSV _ _ _) as [[h s] v].
  destruct (ColorUtils.HSVtoRGB _ _ _) as [[r' g'] b']. intros H.
  apply andb_prop in H. destruct H as [H H3].
  apply andb_prop in H. destruct H as [H1 H2].
  auto using landsb_ok.
Qed.

(** Where the channels land after both conversions, the saturation going
    through [clampS] in between: [clampS] is the identity, or what
    [hueSaturation] does to the saturation for the factor 1. *)
Lemma conversion_lands (clampS : float -> float) (r g b : Z) :
  (clampS = (fun s => s) \/
   clampS = (fun s => JS.max 0 (JS.min 1 (s * 1)))%float) ->
  0 <= r <= 255 -> 0 <= g <= 255 -> 0 <= b <= 255 ->
  let '(h, s, v) := ColorUtils.RGBtoHSV (JS.Z2F r) (JS.Z2F g) (JS.Z2F b) in
  let '(r', g', b') := ColorUtils.HSVtoRGB h (clampS s) v in
  lands r' r /\ lands g' g /\ lands b' b.
Proof.
  intros Hclamp Hr Hg Hb.
  destruct (Z.eq_dec r g) as [Erg|Erg]; [destruct (Z.eq_dec g b) as [Egb|Egb]|].
  - (* a gray triple *)
    subst g b. destruct Hclamp as [-> | ->]; apply gray_back;
      apply (on_all_bytes (gray_backb _));
      solve [vm_compute; reflexivity | exact Hr].
  - apply (fun H => chromatic_lands clampS r g b H Hr Hg Hb); [|lia]. exact Hclamp.
  - apply (fun H => chromatic_lands clampS r g b H Hr Hg Hb); [|lia]. exact Hclamp.
Qed.

(** *** The round trip on bytes *)

(** X1.  Every byte triple, gray ones included, survives the round trip
    exactly: [RGBtoHSV], then [HSVtoRGB], then [Math.round] on each
    channel give back the integers the triple was made of. *)
Theorem rgb_hsv_round_trip_exact (r g b : Z) :
  channel_ok r -> channel_ok g -> channel_ok b ->
  round_trip r g b = (Some r, Some g, Some b).
Proof.
  intros Hr Hg Hb. unfold round_trip.
  pose proof (conversion_lands (fun s => s) r g b (or_introl eq_refl)
                Hr Hg Hb) as H.
  destruct (ColorUtils.RGBtoHSV _ _ _) as [[h s] v]. cbv beta in H.
  destruct (ColorUtils.HSVtoRGB h s v) as [[r' g'] b'].
  destruct H as (H1 & H2 & H3). unfold rounded.
  rewrite (round_spec r' r), (round_spec g' g), (round_spec b' b) by assumption.
  reflexivity.
Qed.

Lemma rgb_hsv_round_trip_exact_witness :
  round_trip 10 200 37 = (Some 10, Some 200, Some 37).
Proof.
  apply (rgb_hsv_round_trip_exact 10 200 37); unfold channel_ok; lia.
Defined.

(** X2.  [clampRGB] applied to the result of [HSVtoRGB] after [RGBtoHSV]
    returns the byte triple itself, as numbers. *)
Theorem clampRGB_round_trip (r g b : Z) :
  channel_ok r -> channel_ok g -> channel_ok b ->
  let '(h, s, v) := ColorUtils.RGBtoHSV (JS.Z2F r) (JS.Z2F g) (JS.Z2F b) in
  let '(r', g', b') := ColorUtils.HSVtoRGB h s v in
  ColorUtils.clampRGB r' g' b' = (JS.Z2F r, JS.Z2F g, JS.Z2F b).
Proof.
  intros Hr Hg Hb.
  pose proof (conversion_lands (fun s => s) r g b (or_introl eq_refl)
                Hr Hg Hb) as H.
  destruct (ColorUtils.RGBtoHSV _ _ _) as [[h s] v]. cbv beta in H.
  destruct (ColorUtils.HSVtoRGB h s v) as [[r' g'] b'].
  destruct H as (H1 & H2 & H3). unfold ColorUtils.clampRGB.
  rewrite (clamp_round_lands r' r), (clamp_round_lands g' g),
    (clamp_round_lands b' b) by assumption.
  reflexivity.
Qed.

Lemma clampRGB_round_trip_witness :
  let '(h, s, v) :=
    ColorUtils.RGBtoHSV (JS.Z2F 10) (JS.Z2F 200) (JS.Z2F 37) in
  let '(r', g', b') := ColorUtils.HSVtoRGB h s v in
  ColorUtils.clampRGB r' g' b' = (JS.Z2F 10, JS.Z2F 200, JS.Z2F 37).
Proof.
  apply (clampRGB_round_trip 10 200 37); unfold channel_ok; lia.
Defined.

(** X3.  On bytes [RGBtoHSV] returns a hue in [0,1) and a saturation
    and a value in [0,1], as its documentation says. *)
Theorem RGBtoHSV_unit_ranges (r g b : Z) :
  channel_ok r -> channel_ok g -> channel_ok b ->
  let '(h, s, v) := ColorUtils.RGBtoHSV (JS.Z2F r) (JS.Z2F g) (JS.Z2F b) in
  ((0 <=? h) = true /\ (h <? 1) = true /\
   (0 <=? s) = true /\ (s <=? 1) = true /\
   (0 <=? v) = true /\ (v <=? 1) = true)%float.
Proof.
  unfold channel_ok. intros Hr Hg Hb.
  assert (Hgray : forall c, 0 <= c <= 255 ->
            let '(h, s, v) :=
              ColorUtils.RGBtoHSV (JS.Z2F c) (JS.Z2F c) (JS.Z2F c) in
            ((0 <=? h) = true /\ (h <? 1) = true /\
             (0 <=? s) = true /\ (s <=? 1) = true /\
             (0 <=? v) = true /\ (v <=? 1) = true)%float).
  { intros c Hc. unfold channel_ok in Hc.
    assert (H : gray_rangeb c = true).
    { apply (on_all_bytes gray_rangeb); [vm_compute; reflexivity|exact Hc]. }
    unfold gray_rangeb in H.
    destruct (ColorUtils.RGBtoHSV _ _ _) as [[h s] v].
    repeat (apply andb_prop in H; let H' := fresh "H" in destruct H as [H H']).
    repeat split; assumption. }
  assert (Hchrom : ~ (r = g /\ g = b) ->
            let '(h, s, v) :=
              ColorUtils.RGBtoHSV (JS.Z2F r) (JS.Z2F g) (JS.Z2F b) in
            ((0 <=? h) = true /\ (h <? 1) = true /\
             (0 <=? s) = true /\ (s <=? 1) = true /\
             (0 <=? v) = true /\ (v <=? 1) = true)%float).
  { intros Hne. rewrite RGBtoHSV_bytes by assumption.
    destruct (hue_facts r g b Hr Hg Hb Hne) as ((Fh & H0 & H1) & _).
    set (M := Z.max (Z.max r g) b) in *. set (m := Z.min (Z.min r g) b) in *.
    destruct (unit_interval_compare _ Fh H0 H1) as [Hh0 Hh1].
    destruct (sat_ok M m ltac:(unfold m; lia) ltac:(unfold M, m; lia)
                ltac:(unfold M; lia)) as (Hs0 & Hs1 & _).
    assert (Hv : unit_rangeb M = true).
    { apply (on_all_bytes unit_rangeb); [vm_compute; reflexivity|].
      unfold channel_ok, M. lia. }
    unfold unit_rangeb in Hv. apply andb_prop in Hv. destruct Hv as [Hv0 Hv1].
    repeat split; assumption. }
  destruct (Z.eq_dec r g) as [Erg|Erg]; [destruct (Z.eq_dec g b) as [Egb|Egb]|].
  - subst g b. apply Hgray. exact Hr.
  - apply Hchrom. lia.
  - apply Hchrom. lia.
Qed.

Lemma RGBtoHSV_unit_ranges_witness :
  let '(h, s, v) :=
    ColorUtils.RGBtoHSV (JS.Z2F 10) (JS.Z2F 200) (JS.Z2F 37) in
  ((0 <=? h) = true /\ (h <? 1) = true /\
   (0 <=? s) = true /\ (s <=? 1) = true /\
   (0 <=? v) = true /\ (v <=? 1) = true)%float.
Proof.
  apply (RGBtoHSV_unit_ranges 10 200 37); unfold channel_ok; lia.
Defined.

(** *** hueSaturation at the factors 1 and 0 *)

Lemma hueSaturation_px_one (p : Pixel) :
  pixel_ok p -> Filters.hueSaturation_px 1 p = p.
Proof.
  intros (HR & HG & HB & _). unfold Filters.hueSaturation_px.
  pose proof (conversion_lands
                (fun s => JS.max 0 (JS.min 1 (s * 1)))%float
                (R p) (G p) (B p) (or_intror eq_refl) HR HG HB) as H.
  destruct (ColorUtils.RGBtoHSV _ _ _) as [[h s] v]. cbv beta in H.
  destruct (ColorUtils.HSVtoRGB h _ v) as [[r' g'] b'].
  destruct H as (H1 & H2 & H3).
  rewrite (store_lands r' (R p)), (store_lands g' (G p)),
    (store_lands b' (B p)) by assumption.
  destruct p; reflexivity.
Qed.

(** Bytes that are not all equal, the saturation scaled by 0: every
    channel lands on the largest byte. *)
Lemma chromatic_lands_zero (r g b : Z) :
  0 <= r <= 255 -> 0 <= g <= 255 -> 0 <= b <= 255 -> ~ (r = g /\ g = b) ->
  let M := Z.max (Z.max r g) b in
  let '(h, s, v) := ColorUtils.RGBtoHSV (JS.Z2F r) (JS.Z2F g) (JS.Z2F b) in
  let '(r', g', b') :=
    ColorUtils.HSVtoRGB h (JS.max 0 (JS.min 1 (s * 0)))%float v in
  lands r' M /\ lands g' M /\ lands b' M.
Proof.
  intros Hr Hg Hb Hne M.
  rewrite RGBtoHSV_bytes by assumption.
  destruct (hue_facts r g b Hr Hg Hb Hne)
    as (_ & H6 & FH & H0 & H6' & HB & _).
  fold M in FH, H0, H6', HB |- *.
  set (m := Z.min (Z.min r g) b) in *.
  assert (Hm : 0 <= m) by (unfold m; lia).
  assert (HmM : m < M) by (unfold M, m; lia).
  assert (HM : M <= 255) by (unfold M; lia).
  fold (sat_of M m).
  destruct (sat_ok M m Hm HmM HM) as (_ & _ & _ & Hnull). rewrite Hnull.
  destruct literal_0 as [F0 V0]. pose proof e40_small as [He0 He].
  apply (back_conversion (hue6 r g b / 6) 0 M M M M 0%Q 0%Q H6);
    auto; try lia; try lra; try ring.
  split; [exact F0|]. rewrite V0. lra.
Qed.

Lemma hueSaturation_px_zero (p : Pixel) :
  pixel_ok p -> Filters.hueSaturation_px 0 p = value_gray_px p.
Proof.
  intros (HR & HG & HB & _). unfold channel_ok in HR, HG, HB.
  unfold Filters.hueSaturation_px, value_gray_px.
  set (M := Z.max (Z.max (R p) (G p)) (B p)).
  assert (HM : 0 <= M <= 255) by (unfold channel_ok, M in *; lia).
  assert (H : let '(h, s, v) :=
                ColorUtils.RGBtoHSV (JS.Z2F (R p)) (JS.Z2F (G p)) (JS.Z2F (B p)) in
              let '(r', g', b') :=
                ColorUtils.HSVtoRGB h (JS.max 0 (JS.min 1 (s * 0)))%float v in
              lands r' M /\ lands g' M /\ lands b' M).
  { destruct (Z.eq_dec (R p) (G p)) as [Erg|Erg];
      [destruct (Z.eq_dec (G p) (B p)) as [Egb|Egb]|].
    - assert (EM : M = R p) by (unfold M; lia).
      rewrite EM, <- Egb, <- Erg.
      apply (gray_back (fun s => JS.max 0 (JS.min 1 (s * 0)))%float).
      apply (on_all_bytes (gray_backb _)); [vm_compute; reflexivity|exact HR].
    - apply chromatic_lands_zero; auto. lia.
    - apply chromatic_lands_zero; auto. lia. }
  destruct (ColorUtils.RGBtoHSV _ _ _) as [[h s] v].
  destruct (ColorUtils.HSVtoRGB h _ v) as [[r' g'] b'].
  destruct H as (H1 & H2 & H3).
  rewrite (store_lands r' M), (store_lands g' M), (store_lands b' M)
    by assumption.
  reflexivity.
Qed.

(** X4.  [hueSaturation] with the factor 1 returns the buffer it was
    given, every channel of every pixel unchanged. *)
Theorem hueSaturation_one_is_identity (pixels : ImageData) :
  wf_image pixels -> Filters.hueSaturation pixels 1 = pixels.
Proof.
  intros Hwf. unfold Filters.hueSaturation.
  apply each_pixel_fixes; [exact Hwf|]. apply hueSaturation_px_one.
Qed.

Lemma hueSaturation_one_is_identity_witness :
  Filters.hueSaturation sample_image 1 = sample_image.
Proof.
  apply (hueSaturation_one_is_identity sample_image).
  apply wf_imageb_ok. reflexivity.
Defined.

(** X5.  [hueSaturation] with the factor 0 turns every pixel into the
    gray of its largest colour byte and keeps its alpha. *)
Theorem hueSaturation_zero_is_value_gray (pixels : ImageData) :
  wf_image pixels ->
  Filters.hueSaturation pixels 0 = Filters.each_pixel value_gray_px pixels.
Proof.
  intros [_ Hok]. unfold Filters.hueSaturation, Filters.each_pixel.
  f_equal. apply map_ext_in. intros p Hp.
  apply hueSaturation_px_zero. rewrite Forall_forall in Hok. auto.
Qed.

Lemma hueSaturation_zero_is_value_gray_witness :
  Filters.hueSaturation sample_image 0 =
  Filters.each_pixel value_gray_px sample_image.
Proof.
  apply (hueSaturation_zero_is_value_gray sample_image).
  apply wf_imageb_ok. reflexivity.
Defined.

End RoundTrip.

(* ================================================================== *)
(** ** The operators at the ends of their parameters, the catalogue and
    the entry points *)

Section FilterProperties.
Local Open Scope Z_scope.

(** *** Pixels and ranges *)

Lemma on_zrange (P : Z -> bool) (lo : Z) (n : nat) (k : Z) :
  forallb P (zrange lo n) = true -> lo <= k < lo + Z.of_nat n -> P k = true.
Proof.
  intros H Hk. rewrite forallb_forall in H. apply H.
  unfold zrange. apply in_map_iff. exists (Z.to_nat (k - lo)).
  split; [lia|]. apply in_seq. lia.
Qed.

Lemma map_agree (f g : Pixel -> Pixel) (d : list Pixel) :
  Forall pixel_ok d -> (forall p, pixel_ok p -> f p = g p) ->
  map f d = map g d.
Proof.
  intros Hd Hfg. apply map_ext_in. intros p Hp.
  rewrite Forall_forall in Hd. auto.
Qed.

Lemma each_pixel_agree (f g : Pixel -> Pixel) (pixels : ImageData) :
  wf_image pixels -> (forall p, pixel_ok p -> f p = g p) ->
  Filters.each_pixel f pixels = Filters.each_pixel g pixels.
Proof.
  intros [_ Hok] Hfg. unfold Filters.each_pixel.
  rewrite (map_agree f g) by assumption. reflexivity.
Qed.

Lemma each_pixel_wf (f : Pixel -> Pixel) (pixels : ImageData) :
  wf_image pixels -> (forall p, pixel_ok p -> pixel_ok (f p)) ->
  wf_image (Filters.each_pixel f pixels).
Proof.
  intros [Hlen Hok] Hf. unfold Filters.each_pixel, wf_image. simpl. split.
  - rewrite length_map. exact Hlen.
  - apply Forall_forall. intros q Hq. apply in_map_iff in Hq.
    destruct Hq as [p [<- Hp]]. rewrite Forall_forall in Hok. auto.
Qed.

(** *** invert *)

Lemma invert_channel (c : Z) :
  channel_ok c -> JS.ToUint8Clamp (255 - JS.Z2F c) = 255 - c.
Proof.
  intros Hc. apply Z.eqb_eq.
  apply (on_all_bytes
           (fun c => JS.ToUint8Clamp (255 - JS.Z2F c) =? 255 - c));
    [vm_compute; reflexivity | assumption].
Qed.

Lemma invert_px_negative (p : Pixel) :
  pixel_ok p -> Filters.invert_px p = negative_px p.
Proof.
  intros (HR & HG & HB & _). unfold Filters.invert_px, negative_px.
  rewrite !invert_channel by assumption. reflexivity.
Qed.

Lemma negative_px_ok (p : Pixel) : pixel_ok p -> pixel_ok (negative_px p).
Proof.
  destruct p as [r g b a]. unfold pixel_ok, channel_ok, negative_px.
  cbn [R G B A]. lia.
Qed.

Lemma negative_px_twice (p : Pixel) : negative_px (negative_px p) = p.
Proof.
  destruct p as [r g b a]. unfold negative_px. cbn [R G B A]. f_equal; lia.
Qed.

(** X6.  [invert] replaces every colour byte [c] of a well-formed image
    by [255 - c] and leaves alpha alone; it is an involution: inverting
    twice gives back the image, byte for byte. *)
Theorem invert_involution (pixels : ImageData) :
  wf_image pixels ->
  Filters.invert pixels = Filters.each_pixel negative_px pixels /\
  Filters.invert (Filters.invert pixels) = pixels.
Proof.
  intros Hwf.
  assert (H1 : Filters.invert pixels = Filters.each_pixel negative_px pixels).
  { unfold Filters.invert. apply each_pixel_agree; auto.
    apply invert_px_negative. }
  split; [exact H1|]. rewrite H1.
  assert (Hwf' : wf_image (Filters.each_pixel negative_px pixels)).
  { apply each_pixel_wf; auto. apply negative_px_ok. }
  unfold Filters.invert.
  rewrite (each_pixel_agree Filters.invert_px negative_px) by
    (auto; apply invert_px_negative).
  unfold Filters.each_pixel, with_data. simpl. rewrite map_map.
  destruct Hwf as [_ Hok]. rewrite map_fixes; auto.
  - destruct pixels; reflexivity.
  - intros p _. apply negative_px_twice.
Qed.

Lemma invert_involution_witness :
  Filters.invert sample_image = Filters.each_pixel negative_px sample_image /\
  Filters.invert (Filters.invert sample_image) = sample_image.
Proof.
  apply (invert_involution sample_image). apply wf_imageb_ok. reflexivity.
Defined.

(** *** grayscale *)

Lemma grayscale_gray_byte (c : Z) :
  channel_ok c ->
  JS.ToUint8Clamp (0.2126 * JS.Z2F c + 0.7152 * JS.Z2F c + 0.0722 * JS.Z2F c)
  = c.
Proof.
  intros Hc. apply Z.eqb_eq.
  apply (on_all_bytes
           (fun c => JS.ToUint8Clamp
                       (0.2126 * JS.Z2F c + 0.7152 * JS.Z2F c +
                        0.0722 * JS.Z2F c) =? c));
    [vm_compute; reflexivity | assumption].
Qed.

Lemma grayscale_px_twice (p : Pixel) :
  Filters.grayscale_px (Filters.grayscale_px p) = Filters.grayscale_px p.
Proof.
  unfold Filters.grayscale_px at 2. cbv zeta.
  set (y := JS.ToUint8Clamp _).
  assert (Hy : channel_ok y) by apply store_range.
  unfold Filters.grayscale_px. cbn [R G B A].
  rewrite grayscale_gray_byte by exact Hy. reflexivity.
Qed.

(** X7.  After [grayscale] the three colour channels of every pixel are
    equal, and [grayscale] is idempotent: on a gray pixel the weighted
    sum [0.2126 c + 0.7152 c + 0.0722 c] is stored back as [c] for every
    byte [c], so a second pass changes nothing.  This holds for every
    image, whatever its bytes were before the first pass. *)
Theorem grayscale_idempotent (pixels : ImageData) :
  Forall is_gray (data (Filters.grayscale pixels)) /\
  Filters.grayscale (Filters.grayscale pixels) = Filters.grayscale pixels.
Proof.
  split.
  - unfold Filters.grayscale, Filters.each_pixel. simpl.
    apply Forall_forall. intros q Hq. apply in_map_iff in Hq.
    destruct Hq as [p [<- _]]. split; reflexivity.
  - unfold Filters.grayscale, Filters.each_pixel, with_data. simpl.
    rewrite map_map. f_equal. apply map_ext. apply grayscale_px_twice.
Qed.

(** *** Arithmetic on NaN *)

Lemma mul_nan_r (x : float) : (x * nan = nan)%float.
Proof.
  apply Prim2SF_inj. rewrite mul_spec. change (Prim2SF nan) with S754_nan.
  destruct (Prim2SF x); reflexivity.
Qed.

Lemma mul_nan_l (x : float) : (nan * x = nan)%float.
Proof. rewrite float_mul_comm. apply mul_nan_r. Qed.

Lemma add_nan_r (x : float) : (x + nan = nan)%float.
Proof.
  apply Prim2SF_inj. rewrite add_spec. change (Prim2SF nan) with S754_nan.
  destruct (Prim2SF x); reflexivity.
Qed.

Lemma add_nan_l (x : float) : (nan + x = nan)%float.
Proof.
  apply Prim2SF_inj. rewrite add_spec. change (Prim2SF nan) with S754_nan.
  destruct (Prim2SF x); reflexivity.
Qed.

Lemma sub_nan_r (x : float) : (x - nan = nan)%float.
Proof.
  apply Prim2SF_inj. rewrite sub_spec. change (Prim2SF nan) with S754_nan.
  destruct (Prim2SF x); reflexivity.
Qed.

(** What a channel becomes once its new value is NaN: the clamp hands the
    NaN on and the store turns it into 0. *)
Lemma clamped_nan_stored :
  JS.ToUint8Clamp (JS.max 0 (JS.min 255 nan)) = 0 /\ JS.ToUint8Clamp nan = 0.
Proof. split; reflexivity. Qed.

Lemma each_pixel_ext (f g : Pixel -> Pixel) (pixels : ImageData) :
  (forall p, f p = g p) ->
  Filters.each_pixel f pixels = Filters.each_pixel g pixels.
Proof.
  intros H. unfold Filters.each_pixel. f_equal. apply map_ext. exact H.
Qed.

Lemma brightness_nan (pixels : ImageData) :
  Filters.brightness pixels nan = Filters.each_pixel black_px pixels.
Proof.
  unfold Filters.brightness.
  change (JS.round (255 * JS.max (-1) (JS.min 1 nan))) with nan.
  apply each_pixel_ext. intros p. unfold Filters.brightness_px, black_px.
  rewrite !add_nan_r. reflexivity.
Qed.

Lemma contrast_nan (pixels : ImageData) :
  Filters.contrast pixels nan = Filters.each_pixel black_px pixels.
Proof.
  unfold Filters.contrast.
  change (Filters.contrast_factor nan) with nan.
  apply each_pixel_ext. intros p. unfold Filters.contrast_px, black_px.
  rewrite !mul_nan_l. reflexivity.
Qed.

Lemma saturation_nan (pixels : ImageData) :
  Filters.saturation pixels nan = Filters.each_pixel black_px pixels.
Proof.
  unfold Filters.saturation.
  change (JS.max (-1) nan) with nan.
  apply each_pixel_ext. intros p. unfold Filters.saturation_px, black_px.
  cbv zeta. rewrite !mul_nan_r, !add_nan_l. reflexivity.
Qed.

Lemma sepia_nan (pixels : ImageData) :
  Filters.sepia pixels nan = Filters.each_pixel black_px pixels.
Proof.
  unfold Filters.sepia.
  apply each_pixel_ext. intros p. unfold Filters.sepia_px, black_px.
  cbv zeta. rewrite !mul_nan_r. reflexivity.
Qed.

Lemma colorFilter_nan (pixels : ImageData) (r g b : float) :
  Filters.colorFilter pixels (r, g, b, nan) =
  Filters.each_pixel black_px pixels.
Proof.
  unfold Filters.colorFilter.
  apply each_pixel_ext. intros p. unfold Filters.colorFilter_px, black_px.
  rewrite !mul_nan_r, !sub_nan_r. reflexivity.
Qed.

Lemma rgbAdjust_nan (pixels : ImageData) :
  Filters.rgbAdjust pixels (nan, nan, nan) =
  Filters.each_pixel black_px pixels.
Proof.
  unfold Filters.rgbAdjust.
  apply each_pixel_ext. intros p. unfold Filters.rgbAdjust_px, black_px.
  rewrite !mul_nan_r. reflexivity.
Qed.

Lemma mapi_from_map {X Y : Type} (f : nat -> X -> Y) (g : X -> Y)
    (l : list X) (k : nat) :
  (forall i x, f i x = g x) -> mapi_from k f l = map g l.
Proof.
  intros H. revert k. induction l as [|x l IH]; intros k; simpl; auto.
  rewrite H, IH. reflexivity.
Qed.

Lemma noise_nan (random : nat -> float) (pixels : ImageData) :
  Filters.noise random pixels nan = Filters.each_pixel black_px pixels.
Proof.
  unfold Filters.noise, Filters.each_pixel. f_equal.
  apply mapi_from_map. intros i p. unfold Filters.noise_px, black_px.
  rewrite mul_nan_r, !add_nan_r. reflexivity.
Qed.

(** X8.  A NaN adjustment is not rejected and not ignored: it blackens
    the image.  With NaN for [adj], each of [brightness], [contrast],
    [saturation] and [sepia] sets the red, green and blue of every pixel
    to 0 and keeps alpha, on every image: [Math.max] and [Math.min] hand
    a NaN on, and the store into the array turns it into 0. *)
Theorem nan_adjustment_blackens (pixels : ImageData) :
  Filters.brightness pixels nan = Filters.each_pixel black_px pixels /\
  Filters.contrast pixels nan = Filters.each_pixel black_px pixels /\
  Filters.saturation pixels nan = Filters.each_pixel black_px pixels /\
  Filters.sepia pixels nan = Filters.each_pixel black_px pixels.
Proof.
  split; [apply brightness_nan|].
  split; [apply contrast_nan|].
  split; [apply saturation_nan|apply sepia_nan].
Qed.

(** X9.  So do the operators that take an amount: [colorFilter] with NaN
    for the blend amount (whatever the overlay colour), [rgbAdjust] with
    NaN multipliers and [noise] with NaN for the amount (whatever
    [Math.random] returns) set the red, green and blue of every pixel to
    0 and keep alpha. *)
Theorem nan_amount_blackens (pixels : ImageData) :
  (forall r g b : float,
     Filters.colorFilter pixels (r, g, b, nan) =
     Filters.each_pixel black_px pixels) /\
  Filters.rgbAdjust pixels (nan, nan, nan) =
    Filters.each_pixel black_px pixels /\
  (forall random : nat -> float,
     Filters.noise random pixels nan = Filters.each_pixel black_px pixels).
Proof.
  split; [intros r g b; apply colorFilter_nan|].
  split; [apply rgbAdjust_nan|].
  intros random. apply noise_nan.
Qed.

(** *** brightness as an integer shift *)

Section Shift.

Lemma not_nan (x : float) : is_nan x = false -> Prim2SF x <> S754_nan.
Proof.
  unfold is_nan. rewrite eqb_spec. intros H E. rewrite E in H. discriminate.
Qed.

(** A number that [1] is not below and that [-1] is below, or that is not
    below [-1], is in [-1,1]. *)
Lemma clamped_finite_within (s : bool) (m : positive) (e : Z) :
  valid_binary (S754_finite s m e) = true ->
  forall one : positive, Zpos one = 2 ^ 52 ->
  SFltb (S754_finite false one (-52)) (S754_finite s m e) = false ->
  (SFltb (S754_finite true one (-52)) (S754_finite s m e) = true \/
   SFltb (S754_finite s m e) (S754_finite true one (-52)) = false) ->
  within 1 (S754_finite s m e).
Proof.
  intros Hv one Hone. unfold SFltb, SFcompare, within. intros Hhi Hlo.
  assert (Hv' : valid_binary (S754_finite false m e) = true) by exact Hv.
  pose proof (canonical_mantissa_small m e Hv') as Hsmall.
  rewrite Z.mul_1_l.
  destruct s.
  - clear Hhi. destruct Hlo as [Hlo|Hlo].
    + destruct (Z.compare_spec (-52) e) as [He|He|He]; try discriminate.
      * subst e. split; [lia|].
        destruct (PosDef.Pos.compare_cont Eq one m) eqn:Hc; try discriminate.
        change (- -52) with 52. rewrite <- Hone.
        apply compare_cont_not_Lt. rewrite Hc. discriminate.
      * split; [lia|]. apply Hsmall. lia.
    + destruct (Z.compare_spec e (-52)) as [He|He|He]; try discriminate.
      * subst e. split; [lia|].
        destruct (PosDef.Pos.compare_cont Eq m one) eqn:Hc; try discriminate;
          change (- -52) with 52; rewrite <- Hone;
          apply compare_cont_not_Gt; rewrite Hc; discriminate.
      * split; [lia|]. apply Hsmall. lia.
  - clear Hlo.
    destruct (Z.compare_spec (-52) e) as [He|He|He]; try discriminate.
    + subst e. split; [lia|].
      destruct (PosDef.Pos.compare_cont Eq one m) eqn:Hc; try discriminate;
        change (- -52) with 52; rewrite <- Hone;
        apply compare_cont_not_Lt; rewrite Hc; discriminate.
    + split; [lia|]. apply Hsmall. lia.
Qed.

Lemma clamped_within (x : float) :
  Prim2SF x <> S754_nan -> (1 <? x)%float = false ->
  ((-1 <? x)%float = true \/ (x <? -1)%float = false) -> fwithin 1 x.
Proof.
  rewrite !ltb_spec. unfold fwithin.
  pose proof (Prim2SF_valid x) as Hv.
  set (one := Prim2SF 1). vm_compute in one. subst one.
  set (mone := Prim2SF (-1)). vm_compute in mone. subst mone.
  destruct (Prim2SF x) as [s|s| |s m e].
  - intros _ _ _. exact I.
  - intros _ Hhi Hlo. destruct s; [|cbv in Hhi; discriminate].
    destruct Hlo as [Hlo|Hlo]; cbv in Hlo; discriminate.
  - intros H. congruence.
  - intros _. apply clamped_finite_within; auto.
Qed.

(** The clamp of [brightness] puts every number but NaN into [-1,1]. *)
Lemma clamp_unit_within (adj : float) :
  is_nan adj = false -> fwithin 1 (clamp_unit adj).
Proof.
  intros Hn. pose proof (not_nan adj Hn) as Hx.
  unfold clamp_unit, JS.min.
  change (is_nan 1) with false. rewrite Hn. cbn [orb].
  change (get_sign 1) with false. cbv iota.
  destruct (1 <? adj)%float eqn:H1.
  { apply withinb_ok. reflexivity. }
  assert (Hmin : (if (adj <? 1)%float then adj else adj) = adj)
    by (destruct (adj <? 1)%float; reflexivity).
  rewrite Hmin. unfold JS.max.
  change (is_nan (-1)) with false. rewrite Hn. cbn [orb].
  change (get_sign (-1)) with true. cbv iota.
  destruct (-1 <? adj)%float eqn:H2.
  { apply clamped_within; auto. }
  destruct (adj <? -1)%float eqn:H3.
  { apply withinb_ok. reflexivity. }
  apply clamped_within; auto.
Qed.

(** [Math.round] of a number of magnitude at most 255. *)
Lemma round_within (x : float) :
  fwithin 255 x ->
  JS.round x = neg_zero \/
  exists k, - 255 <= k <= 255 /\ JS.round x = JS.Z2F k.
Proof.
  unfold fwithin, JS.round. intros Hw.
  pose proof (Prim2SF_valid x) as Hv.
  destruct (Prim2SF x) as [s|s| |s m e] eqn:E; unfold within in Hw;
    try contradiction.
  - destruct (zero_float x s E) as [-> | ->]; [right|left; reflexivity].
    exists 0. split; [lia|reflexivity].
  - destruct Hw as [He Hm].
    assert (He0 : e < 0).
    { destruct (Z.eq_dec e 0) as [->|Hne]; [exfalso|lia].
      revert Hv. unfold SpecFloat.valid_binary, bounded, canonical_mantissa,
        fexp, SpecFloat.emin, prec, emax.
      intros Hv. apply andb_true_iff in Hv. destruct Hv as [Hv _].
      apply Z.eqb_eq in Hv. change IntDef.Z.max with Z.max in Hv.
      pose proof (digits2_pos_bounds m) as [Hd _].
      assert (Hd53 : Zpos (digits2_pos m) = 53) by lia.
      rewrite Hd53 in Hd. change (2 ^ (- 0)) with 1 in Hm.
      change (2 ^ (53 - 1)) with 4503599627370496 in Hd. lia. }
    assert (He' : (0 <=? e) = false) by (apply Z.leb_gt; lia).
    rewrite He'. set (den := 2 ^ (- e)) in *.
    assert (Hden : 0 < den) by (apply Z.pow_pos_nonneg; lia).
    destruct s.
    + set (n := (2 * Zpos m - den + 2 * den - 1) / (2 * den)).
      assert (Hn0 : 0 <= n) by (apply Z.div_pos; lia).
      assert (Hn : n < 256) by (apply Z.div_lt_upper_bound; lia).
      destruct (Z.eqb_spec n 0) as [_|_]; [left; reflexivity|right].
      exists (- n). split; [lia|reflexivity].
    + right. set (n := (2 * Zpos m + den) / (2 * den)).
      assert (Hn0 : 0 <= n) by (apply Z.div_pos; lia).
      assert (Hn : n < 256) by (apply Z.div_lt_upper_bound; lia).
      exists n. split; [lia|reflexivity].
Qed.

Lemma store_byte (c : Z) : channel_ok c -> JS.ToUint8Clamp (JS.Z2F c) = c.
Proof.
  intros Hc. apply Z.eqb_eq.
  apply (on_all_bytes (fun c => JS.ToUint8Clamp (JS.Z2F c) =? c));
    [vm_compute; reflexivity | assumption].
Qed.

Lemma shift_channel (c k : Z) :
  channel_ok c -> - 255 <= k <= 255 ->
  JS.ToUint8Clamp (JS.max 0 (JS.min 255 (JS.Z2F c + JS.Z2F k))) =
  clampZ (c + k).
Proof.
  intros Hc Hk.
  assert (H1 : (JS.Z2F c + JS.Z2F k = JS.Z2F (c + k))%float).
  { apply same_eq.
    assert (H : forallb (shift_sumb k) bytes = true).
    { apply (on_zrange (fun k => forallb (shift_sumb k) bytes) (- 255) 511);
        [vm_compute; reflexivity|lia]. }
    rewrite forallb_forall in H. apply H. apply bytes_complete. exact Hc. }
  assert (H2 : JS.max 0 (JS.min 255 (JS.Z2F (c + k))) =
               JS.Z2F (clampZ (c + k))).
  { apply same_eq. unfold channel_ok in Hc.
    apply (on_zrange shift_clampb (- 255) 766); [vm_compute; reflexivity|lia]. }
  rewrite H1, H2. apply store_byte. unfold channel_ok, clampZ. lia.
Qed.

Lemma shift_channel_neg_zero (c : Z) :
  channel_ok c ->
  JS.ToUint8Clamp (JS.max 0 (JS.min 255 (JS.Z2F c + neg_zero))) = c.
Proof.
  intros Hc. apply Z.eqb_eq.
  apply (on_all_bytes
           (fun c => JS.ToUint8Clamp
                       (JS.max 0 (JS.min 255 (JS.Z2F c + neg_zero))) =? c));
    [vm_compute; reflexivity | assumption].
Qed.

Lemma offset_int (k : Z) :
  - 255 <= k <= 255 -> JS.toInteger (JS.Z2F k) = Some k.
Proof.
  intros Hk.
  assert (H : offset_intb k = true).
  { apply (on_zrange offset_intb (- 255) 511); [vm_compute; reflexivity|lia]. }
  unfold offset_intb in H.
  destruct (JS.toInteger (JS.Z2F k)) as [n|]; [|discriminate].
  apply Z.eqb_eq in H. congruence.
Qed.

(** X10.  [brightness] is an integer shift with saturation.  For every
    [adj] that is not NaN (the infinities included), the offset
    [Math.round(255 * Math.max(-1, Math.min(1, adj)))] is an integer [k]
    with [-255 <= k <= 255], and on every well-formed image the result
    is the image with [k] added to each colour byte and the sum
    saturated to [0, 255]: no rounding happens at the store, and alpha
    is kept. *)
Theorem brightness_is_shift (adj : float) :
  is_nan adj = false ->
  exists k : Z,
    - 255 <= k <= 255 /\
    JS.toInteger (JS.round (255 * clamp_unit adj)) = Some k /\
    forall pixels : ImageData,
      wf_image pixels ->
      Filters.brightness pixels adj = Filters.each_pixel (shift_px k) pixels.
Proof.
  intros Hn.
  assert (Hw : fwithin 255 (255 * clamp_unit adj)).
  { apply (mul_within 255 1); try lia.
    - apply withinb_ok. reflexivity.
    - apply clamp_unit_within. exact Hn. }
  unfold Filters.brightness. fold (clamp_unit adj).
  destruct (round_within _ Hw) as [Hr|(k & Hk & Hr)]; rewrite Hr.
  - exists 0. split; [lia|]. split; [reflexivity|].
    intros pixels Hwf. apply each_pixel_agree; auto.
    intros p (HR & HG & HB & _). unfold Filters.brightness_px, shift_px.
    rewrite !shift_channel_neg_zero by assumption.
    unfold channel_ok, clampZ in *. f_equal; lia.
  - exists k. split; [exact Hk|]. split; [apply offset_int; exact Hk|].
    intros pixels Hwf. apply each_pixel_agree; auto.
    intros p (HR & HG & HB & _). unfold Filters.brightness_px, shift_px.
    rewrite !shift_channel by assumption. reflexivity.
Qed.

Lemma brightness_is_shift_witness :
  exists k : Z,
    - 255 <= k <= 255 /\
    JS.toInteger (JS.round (255 * clamp_unit 0.1)) = Some k /\
    forall pixels : ImageData,
      wf_image pixels ->
      Filters.brightness pixels 0.1 = Filters.each_pixel (shift_px k) pixels.
Proof.
  apply (brightness_is_shift 0.1). reflexivity.
Defined.

End Shift.

(** *** contrast and saturation at the lower end *)

Lemma contrast_channel_flat (c : Z) :
  channel_ok c ->
  JS.ToUint8Clamp
    (JS.max 0 (JS.min 255 (Filters.contrast_factor (-1) *
                           (JS.Z2F c - 128) + 128))) = 128.
Proof.
  intros Hc. apply Z.eqb_eq.
  apply (on_all_bytes
           (fun c => JS.ToUint8Clamp
                       (JS.max 0 (JS.min 255 (Filters.contrast_factor (-1) *
                                              (JS.Z2F c - 128) + 128)))
                     =? 128));
    [vm_compute; reflexivity | assumption].
Qed.

Lemma contrast_flat (pixels : ImageData) :
  wf_image pixels ->
  Filters.contrast pixels (-1) =
  Filters.each_pixel (paint_px 128 128 128) pixels.
Proof.
  intros Hwf. unfold Filters.contrast. apply each_pixel_agree; auto.
  intros p (HR & HG & HB & _). unfold Filters.contrast_px, paint_px.
  rewrite !contrast_channel_flat by assumption. reflexivity.
Qed.

Lemma saturation_gray (pixels : ImageData) (adj : float) :
  wf_image pixels -> JS.max (-1) adj = (-1)%float ->
  Forall is_gray (data (Filters.saturation pixels adj)).
Proof.
  intros [_ Hok] Hadj. unfold Filters.saturation. rewrite Hadj.
  unfold Filters.each_pixel. simpl.
  apply Forall_forall. intros q Hq. apply in_map_iff in Hq.
  destruct Hq as [p [<- Hp]]. rewrite Forall_forall in Hok.
  destruct (Hok p Hp) as (HR & HG & HB & _).
  unfold Filters.saturation_px, is_gray. cbv zeta. cbn [R G B].
  change (1 + -1)%float with 0%float.
  rewrite !byte_times_zero by assumption. split; reflexivity.
Qed.

(** X11.  The lower ends of [contrast] and [saturation].  With
    [adj = -1] the factor of [contrast] is 0 and every colour channel of
    every pixel becomes 128: the image is a flat mid gray.  With any
    [adj] that [Math.max(-1, adj)] takes to [-1] (that is, [adj <= -1])
    [saturation] writes the same byte into the three colour channels of
    each pixel and keeps alpha: the image comes out gray. *)
Theorem contrast_and_saturation_lower_end (pixels : ImageData)
    (adj : float) :
  wf_image pixels -> JS.max (-1) adj = (-1)%float ->
  Filters.contrast pixels (-1) =
    Filters.each_pixel (paint_px 128 128 128) pixels /\
  Forall is_gray (data (Filters.saturation pixels adj)) /\
  map A (data (Filters.saturation pixels adj)) = map A (data pixels).
Proof.
  intros Hwf Hadj. split; [apply contrast_flat; exact Hwf|].
  split; [apply saturation_gray; assumption|].
  unfold Filters.saturation. apply each_pixel_alpha. intros p. reflexivity.
Qed.

Lemma contrast_and_saturation_lower_end_witness :
  Filters.contrast sample_image (-1) =
    Filters.each_pixel (paint_px 128 128 128) sample_image /\
  Forall is_gray (data (Filters.saturation sample_image (-3))) /\
  map A (data (Filters.saturation sample_image (-3))) =
    map A (data sample_image).
Proof.
  apply (contrast_and_saturation_lower_end sample_image (-3)).
  - apply wf_imageb_ok. reflexivity.
  - reflexivity.
Defined.

(** *** colorFilter at the blend amount 1 *)

Lemma overlay_channel (c k : Z) :
  channel_ok c -> channel_ok k ->
  JS.ToUint8Clamp (JS.Z2F c - (JS.Z2F c - JS.Z2F k) * 1) = k.
Proof.
  intros Hc Hk. unfold channel_ok in Hc, Hk.
  assert (Hdiff : forall a n : Z, 0 <= a <= 255 -> - 255 <= n <= 255 ->
            (JS.Z2F a - JS.Z2F n = JS.Z2F (a - n))%float).
  { intros a n Ha Hn. apply same_eq.
    assert (H : forallb (overlay_diffb n) bytes = true).
    { apply (on_zrange (fun k => forallb (overlay_diffb k) bytes) (- 255) 511);
        [vm_compute; reflexivity|lia]. }
    rewrite forallb_forall in H. apply H. apply bytes_complete. exact Ha. }
  rewrite (Hdiff c k) by lia.
  assert (H1 : (JS.Z2F (c - k) * 1 = JS.Z2F (c - k))%float).
  { apply same_eq.
    apply (on_zrange overlay_fullb (- 255) 511); [vm_compute; reflexivity|lia]. }
  rewrite H1, (Hdiff c (c - k)) by lia.
  replace (c - (c - k)) with k by lia. apply store_byte. exact Hk.
Qed.

(** X12.  [colorFilter] with the blend amount 1 paints the image: when
    the overlay colour is a triple of bytes, every pixel of a
    well-formed image gets exactly that colour, whatever it was, and
    keeps its alpha. *)
Theorem colorFilter_full_blend (pixels : ImageData) (r g b : Z) :
  wf_image pixels -> channel_ok r -> channel_ok g -> channel_ok b ->
  Filters.colorFilter pixels (JS.Z2F r, JS.Z2F g, JS.Z2F b, 1%float) =
  Filters.each_pixel (paint_px r g b) pixels.
Proof.
  intros Hwf Hr Hg Hb. unfold Filters.colorFilter.
  apply each_pixel_agree; auto.
  intros p (HR & HG & HB & _). unfold Filters.colorFilter_px, paint_px.
  rewrite !overlay_channel by assumption. reflexivity.
Qed.

Lemma colorFilter_full_blend_witness :
  Filters.colorFilter sample_image
    (JS.Z2F 255, JS.Z2F 165, JS.Z2F 40, 1%float) =
  Filters.each_pixel (paint_px 255 165 40) sample_image.
Proof.
  apply (colorFilter_full_blend sample_image 255 165 40);
    [apply wf_imageb_ok; reflexivity| | |]; unfold channel_ok; lia.
Defined.

(** *** rgbAdjust with the multipliers 1 and 0 *)

Lemma rgbAdjust_channel_one (c : Z) :
  channel_ok c ->
  JS.ToUint8Clamp (JS.max 0 (JS.min 255 (JS.Z2F c * 1))) = c.
Proof.
  intros Hc. apply Z.eqb_eq.
  apply (on_all_bytes
           (fun c => JS.ToUint8Clamp (JS.max 0 (JS.min 255 (JS.Z2F c * 1)))
                     =? c));
    [vm_compute; reflexivity | assumption].
Qed.

(** X13.  [rgbAdjust] with the multipliers [1, 1, 1] returns a
    well-formed image as it is, and with [0, 0, 0] it sets the three
    colour channels of every pixel to 0 and keeps alpha. *)
Theorem rgbAdjust_one_and_zero (pixels : ImageData) :
  wf_image pixels ->
  Filters.rgbAdjust pixels (1, 1, 1)%float = pixels /\
  Filters.rgbAdjust pixels (0, 0, 0)%float =
    Filters.each_pixel black_px pixels.
Proof.
  intros Hwf. unfold Filters.rgbAdjust. split.
  - apply each_pixel_fixes; auto.
    intros p (HR & HG & HB & _). unfold Filters.rgbAdjust_px.
    rewrite !rgbAdjust_channel_one by assumption. destruct p; reflexivity.
  - apply each_pixel_agree; auto.
    intros p (HR & HG & HB & _). unfold Filters.rgbAdjust_px, black_px.
    rewrite !byte_times_zero by assumption. reflexivity.
Qed.

Lemma rgbAdjust_one_and_zero_witness :
  Filters.rgbAdjust sample_image (1, 1, 1)%float = sample_image /\
  Filters.rgbAdjust sample_image (0, 0, 0)%float =
    Filters.each_pixel black_px sample_image.
Proof.
  apply (rgbAdjust_one_and_zero sample_image). apply wf_imageb_ok. reflexivity.
Defined.

(** *** noise with the amount 0 *)

(** A value of [Math.random], in [0,1), has magnitude at most 1. *)
Lemma random_finite_within (m : positive) (e : Z) :
  valid_binary (S754_finite false m e) = true ->
  forall one : positive, Zpos one = 2 ^ 52 ->
  SFltb (S754_finite false m e) (S754_finite false one (-52)) = true ->
  within 1 (S754_finite false m e).
Proof.
  intros Hv one Hone. unfold SFltb, SFcompare, within. intros Hhi.
  pose proof (canonical_mantissa_small m e Hv) as Hsmall.
  rewrite Z.mul_1_l.
  destruct (Z.compare_spec e (-52)) as [He|He|He]; try discriminate.
  - subst e. split; [lia|].
    destruct (PosDef.Pos.compare_cont Eq m one) eqn:Hc; try discriminate.
    change (- -52) with 52. rewrite <- Hone.
    apply compare_cont_not_Gt. rewrite Hc. discriminate.
  - split; [lia|]. apply Hsmall. lia.
Qed.

Lemma random_within (r : float) :
  (0 <=? r)%float = true -> (r <? 1)%float = true -> fwithin 1 r.
Proof.
  rewrite leb_spec, ltb_spec. unfold fwithin.
  pose proof (Prim2SF_valid r) as Hv.
  set (one := Prim2SF 1). vm_compute in one. subst one.
  change (Prim2SF 0) with (S754_zero false).
  destruct (Prim2SF r) as [s|s| |s m e].
  - intros _ _. exact I.
  - intros Hlo Hhi. destruct s; [cbv in Hlo|cbv in Hhi]; discriminate.
  - intros Hlo _. cbv in Hlo. discriminate.
  - intros Hlo. destruct s; [cbv in Hlo; discriminate|].
    apply random_finite_within; auto.
Qed.

Lemma noise_px_zero (r : float) (p : Pixel) :
  fwithin 1 r -> pixel_ok p -> Filters.noise_px ((r - 0.5) * 0) p = p.
Proof.
  intros Hr (HR & HG & HB & _).
  assert (Hd : fwithin (1 + 1) (r - 0.5)).
  { apply sub_within; try lia; auto. apply withinb_ok. reflexivity. }
  unfold Filters.noise_px.
  destruct (times_zero_cases _ _ Hd) as [-> | ->].
  - rewrite !brightness_channel_zero by assumption. destruct p; reflexivity.
  - rewrite !shift_channel_neg_zero by assumption. destruct p; reflexivity.
Qed.

Lemma mapi_from_fixes (f : nat -> Pixel -> Pixel) (d : list Pixel) (k : nat) :
  Forall pixel_ok d -> (forall i p, pixel_ok p -> f i p = p) ->
  mapi_from k f d = d.
Proof.
  intros Hd Hf. revert k.
  induction Hd as [|p d Hp Hd IH]; intros k; simpl; auto.
  rewrite Hf, IH; auto.
Qed.

(** X14.  [noise] with the amount 0 returns a well-formed image as it
    is, whatever values in [0, 1) [Math.random] returns: the noise
    [(random - 0.5) * 0] is a zero of either sign, and adding it to a
    byte gives the byte back. *)
Theorem noise_zero_is_identity (random : nat -> float)
    (pixels : ImageData) :
  (forall k, (0 <=? random k)%float = true /\ (random k <? 1)%float = true) ->
  wf_image pixels ->
  Filters.noise random pixels 0 = pixels.
Proof.
  intros Hrandom [_ Hok]. unfold Filters.noise.
  rewrite mapi_from_fixes; auto using with_data_same.
  intros i p Hp. apply noise_px_zero; auto.
  destruct (Hrandom i). apply random_within; assumption.
Qed.

Lemma noise_zero_is_identity_witness :
  Filters.noise (fun _ => 0.25%float) sample_image 0 = sample_image.
Proof.
  apply (noise_zero_is_identity (fun _ => 0.25%float) sample_image).
  - intros k. split; reflexivity.
  - apply wf_imageb_ok. reflexivity.
Defined.

(** *** convolute with the kernels at the edge *)

Section Kernels.

(** The output of [convolute] when every output pixel is a function of
    the input pixel at the same place. *)
Lemma convolute_pointwise (pixels : ImageData) (weights : list float)
    (f : Pixel -> Pixel) :
  wf_image pixels ->
  (forall x y p,
     (x < width pixels)%nat -> (y < height pixels)%nat ->
     nth_error (data pixels) (y * width pixels + x) = Some p ->
     conv_pixel (data pixels) (width pixels) (height pixels) weights
                (JS.round_sqrt (length weights))
                (JS.round_sqrt (length weights) / 2) x y = f p) ->
  Filters.convolute pixels weights = Filters.each_pixel f pixels.
Proof.
  intros Hwf Hf.
  assert (Hdata : data (Filters.convolute pixels weights) =
                  map f (data pixels)).
  { apply nth_error_ext. intros i. rewrite nth_error_map.
    destruct Hwf as [Hlen Hok].
    destruct (Nat.lt_ge_cases i (length (data pixels))) as [Hi|Hi].
    - assert (Hw : (0 < width pixels)%nat) by nia.
      set (x := (i mod width pixels)%nat). set (y := (i / width pixels)%nat).
      assert (Hx : (x < width pixels)%nat) by (apply Nat.mod_upper_bound; lia).
      assert (Hi' : (i = y * width pixels + x)%nat).
      { unfold x, y. rewrite (Nat.div_mod i (width pixels)) at 1 by lia.
        lia. }
      assert (Hy : (y < height pixels)%nat) by nia.
      rewrite Hi'. rewrite convolute_nth by (auto; split; auto).
      destruct (nth_error (data pixels) (y * width pixels + x)) as [p|] eqn:E.
      + simpl. f_equal. apply Hf; auto.
      + apply nth_error_None in E. lia.
    - assert (H1 : nth_error (data pixels) i = None)
        by (apply nth_error_None; exact Hi).
      rewrite H1. apply nth_error_None. rewrite convolute_length. exact Hi. }
  unfold Filters.each_pixel. rewrite <- Hdata.
  unfold Filters.convolute, with_data. reflexivity.
Qed.

Lemma zero_term (a c : Z) (z : float) :
  channel_ok a -> channel_ok c -> is_zero_float z ->
  (JS.Z2F a + JS.Z2F c * z = JS.Z2F a)%float.
Proof.
  intros Ha Hc Hz.
  assert (H : zero_termb a c = true).
  { apply (on_all_byte_pairs zero_termb); [vm_compute; reflexivity| |];
      assumption. }
  unfold zero_termb in H. apply andb_prop in H. destruct H as [H1 H2].
  destruct Hz as [-> | ->]; apply same_eq; assumption.
Qed.

Section Cells.
Variables (pixels : ImageData) (weights : list float) (x y : nat).
Hypothesis Hwf : wf_image pixels.
Hypothesis Hx : (x < width pixels)%nat.
Hypothesis Hy : (y < height pixels)%nat.

(** A cell of weight zero leaves sums that are bytes alone. *)
Lemma cell_zero (cy cx : nat) (a b c : Z) :
  zero_weight weights (cy * 3 + cx) ->
  channel_ok a -> channel_ok b -> channel_ok c ->
  Filters.conv_cell (data pixels) (width pixels) (height pixels) weights
    3 1 x y cy (JS.Z2F a, JS.Z2F b, JS.Z2F c) cx =
  (JS.Z2F a, JS.Z2F b, JS.Z2F c).
Proof.
  intros Hz Ha Hb Hc. unfold Filters.conv_cell.
  set (scy := Z.of_nat y + Z.of_nat cy - Z.of_nat 1).
  set (scx := Z.of_nat x + Z.of_nat cx - Z.of_nat 1).
  destruct ((0 <=? scy) && (scy <? Z.of_nat (height pixels)) &&
            (0 <=? scx) && (scx <? Z.of_nat (width pixels))) eqn:Hin;
    [|reflexivity].
  repeat (apply andb_prop in Hin;
          let H := fresh "Hb" in destruct Hin as [Hin H]).
  apply Z.leb_le in Hin, Hb1. apply Z.ltb_lt in Hb0, Hb2.
  destruct Hwf as [Hlen Hok].
  set (off := Z.to_nat (scy * Z.of_nat (width pixels) + scx)).
  assert (Hoff : (off < length (data pixels))%nat).
  { rewrite Hlen. unfold off. nia. }
  unfold Filters.chan.
  destruct (nth_error (data pixels) off) as [q|] eqn:E;
    [|apply nth_error_None in E; lia].
  assert (Hq : pixel_ok q).
  { rewrite Forall_forall in Hok. apply Hok. eapply nth_error_In. exact E. }
  destruct Hq as (HR & HG & HB & _).
  unfold zero_weight in Hz.
  rewrite !zero_term by assumption. reflexivity.
Qed.

(** The centre cell, of weight 1, adds the pixel itself to sums that are
    still zero. *)
Lemma cell_centre (p : Pixel) :
  Filters.weight weights 4 = 1%float ->
  nth_error (data pixels) (y * width pixels + x) = Some p -> pixel_ok p ->
  Filters.conv_cell (data pixels) (width pixels) (height pixels) weights
    3 1 x y 1 (JS.Z2F 0, JS.Z2F 0, JS.Z2F 0) 1 =
  (JS.Z2F (R p), JS.Z2F (G p), JS.Z2F (B p)).
Proof.
  intros Hw Hp (HR & HG & HB & _). unfold Filters.conv_cell.
  replace (Z.of_nat y + Z.of_nat 1 - Z.of_nat 1) with (Z.of_nat y) by lia.
  replace (Z.of_nat x + Z.of_nat 1 - Z.of_nat 1) with (Z.of_nat x) by lia.
  assert (Hin : (0 <=? Z.of_nat y) && (Z.of_nat y <? Z.of_nat (height pixels))
                && (0 <=? Z.of_nat x) && (Z.of_nat x <? Z.of_nat (width pixels))
                = true).
  { repeat (apply andb_true_intro; split);
      first [apply Z.leb_le; lia | apply Z.ltb_lt; lia]. }
  rewrite Hin.
  replace (Z.to_nat (Z.of_nat y * Z.of_nat (width pixels) + Z.of_nat x))
    with (y * width pixels + x)%nat by lia.
  unfold Filters.chan. rewrite Hp.
  change (1 * 3 + 1)%nat with 4%nat. rewrite Hw.
  assert (Hone : forall c, channel_ok c ->
            (JS.Z2F 0 + JS.Z2F c * 1 = JS.Z2F c)%float).
  { intros c Hc. apply same_eq.
    apply (on_all_bytes (fun c => same (JS.Z2F 0 + JS.Z2F c * 1) (JS.Z2F c)));
      [vm_compute; reflexivity|exact Hc]. }
  rewrite !Hone by assumption. reflexivity.
Qed.

Lemma identity_kernel_sum (p : Pixel) :
  identity_kernel weights ->
  nth_error (data pixels) (y * width pixels + x) = Some p -> pixel_ok p ->
  Filters.conv_sum (data pixels) (width pixels) (height pixels) weights
    3 1 x y = (JS.Z2F (R p), JS.Z2F (G p), JS.Z2F (B p)).
Proof.
  intros (_ & Hc & Hz) Hp Hok. unfold Filters.conv_sum.
  cbn [seq fold_left].
  change (0, 0, 0)%float with (JS.Z2F 0, JS.Z2F 0, JS.Z2F 0).
  assert (H0 : channel_ok 0) by (unfold channel_ok; lia).
  destruct Hok as (HR & HG & HB & HA).
  rewrite !(cell_zero 0) by (auto; apply Hz; simpl; lia).
  rewrite (cell_zero 1 0) by (auto; apply Hz; simpl; lia).
  rewrite (cell_centre p) by (unfold pixel_ok; auto).
  rewrite (cell_zero 1 2) by (auto; apply Hz; simpl; lia).
  rewrite !(cell_zero 2) by (auto; apply Hz; simpl; lia).
  reflexivity.
Qed.

End Cells.

Lemma clamped_byte (c : Z) :
  channel_ok c ->
  JS.ToUint8Clamp (JS.max 0 (JS.min 255 (JS.Z2F c))) = c.
Proof.
  intros Hc. apply Z.eqb_eq.
  apply (on_all_bytes
           (fun c => JS.ToUint8Clamp (JS.max 0 (JS.min 255 (JS.Z2F c)))
                     =? c));
    [vm_compute; reflexivity | assumption].
Qed.

Lemma identity_kernel_fixes (pixels : ImageData) (weights : list float) :
  wf_image pixels -> identity_kernel weights ->
  Filters.convolute pixels weights = pixels.
Proof.
  intros Hwf Hk.
  rewrite (convolute_pointwise pixels weights (fun p => p) Hwf).
  - unfold Filters.each_pixel. rewrite map_id. apply with_data_same.
  - intros x y p Hx Hy Hp.
    assert (Hok : pixel_ok p).
    { destruct Hwf as [_ Hok]. rewrite Forall_forall in Hok.
      apply Hok. eapply nth_error_In. exact Hp. }
    destruct Hk as (Hlen & Hk). rewrite Hlen.
    change (JS.round_sqrt 9) with 3%nat. change (3 / 2)%nat with 1%nat.
    unfold conv_pixel.
    rewrite (identity_kernel_sum pixels weights x y Hwf Hx Hy p)
      by (unfold identity_kernel; auto).
    destruct Hok as (HR & HG & HB & HA).
    rewrite !clamped_byte by assumption.
    rewrite (nth_error_nth _ _ _ Hp). destruct p; reflexivity.
Qed.

Lemma empty_kernel_blackens (pixels : ImageData) :
  wf_image pixels ->
  Filters.convolute pixels [] = Filters.each_pixel black_px pixels.
Proof.
  intros Hwf. apply convolute_pointwise; auto.
  intros x y p Hx Hy Hp. unfold conv_pixel, black_px.
  rewrite (nth_error_nth _ _ _ Hp). reflexivity.
Qed.

(** X15.  The edge kernels of [convolute].  A 3 x 3 kernel that is 1 at
    its centre and a zero of either sign elsewhere returns a well-formed
    image as it is, at the borders too; [sharpen] with the amount 0
    builds such a kernel (its [-1 * 0] entries are negative zeros) and
    so changes nothing.  An empty kernel has side 0: no term is summed
    and every pixel comes out black with its alpha kept. *)
Theorem convolute_edge_kernels (pixels : ImageData) (weights : list float) :
  wf_image pixels -> identity_kernel weights ->
  Filters.convolute pixels weights = pixels /\
  Filters.sharpen pixels 0 = pixels /\
  Filters.convolute pixels [] = Filters.each_pixel black_px pixels.
Proof.
  intros Hwf Hk. split; [|split].
  - apply identity_kernel_fixes; assumption.
  - unfold Filters.sharpen. apply identity_kernel_fixes; auto.
    split; [reflexivity|]. split; [reflexivity|].
    intros k Hlt Hne. unfold zero_weight, Filters.weight.
    do 9 (destruct k as [|k]; [try (left; reflexivity);
                               try (right; reflexivity); try lia|]). lia.
  - apply empty_kernel_blackens. exact Hwf.
Qed.

Lemma convolute_edge_kernels_witness :
  Filters.convolute sample_image [0; 0; 0; 0; 1; 0; 0; 0; 0]%float =
    sample_image /\
  Filters.sharpen sample_image 0 = sample_image /\
  Filters.convolute sample_image [] =
    Filters.each_pixel black_px sample_image.
Proof.
  apply (convolute_edge_kernels sample_image
           [0; 0; 0; 0; 1; 0; 0; 0; 0]%float).
  - apply wf_imageb_ok. reflexivity.
  - split; [reflexivity|]. split; [reflexivity|].
    intros k Hlt Hne. unfold zero_weight, Filters.weight.
    do 9 (destruct k as [|k]; [try (left; reflexivity); try lia|]). lia.
Defined.

End Kernels.

(** *** The catalogue and the entry point *)

Section Catalogue.
Import InstaFilters.

(** *** Looking a preset up by its id *)

Lemma find_distinct (l : list FilterPreset) (p : FilterPreset) :
  distinctb (map id l) = true -> In p l ->
  find (fun f => String.eqb (id f) (id p)) l = Some p.
Proof.
  induction l as [|a l IH]; intros Hd Hin; [contradiction|].
  simpl in Hd. apply andb_prop in Hd. destruct Hd as [Ha Hd].
  simpl. destruct Hin as [->|Hin].
  - rewrite String.eqb_refl. reflexivity.
  - destruct (String.eqb_spec (id a) (id p)) as [E|_]; [|auto].
    exfalso. apply negb_true_iff in Ha.
    assert (Hex : existsb (String.eqb (id a)) (map id l) = true).
    { apply existsb_exists. exists (id p). split.
      - apply in_map. exact Hin.
      - apply String.eqb_eq. exact E. }
    congruence.
Qed.

Lemma ids_distinct : distinctb (map id filterPresets) = true.
Proof. vm_compute. reflexivity. Qed.

Lemma lookup_own_id (p : FilterPreset) :
  In p filterPresets -> getFilterById (id p) = Some p.
Proof. intros Hin. apply find_distinct; [apply ids_distinct|exact Hin]. Qed.

Lemma lookup_sound (i : string) (p : FilterPreset) :
  getFilterById i = Some p -> In p filterPresets /\ id p = i.
Proof.
  unfold getFilterById. intros H. apply find_some in H.
  destruct H as [Hin E]. apply String.eqb_eq in E. auto.
Qed.

Lemma lookup_none (i : string) :
  getFilterById i = None <-> ~ In i (map id filterPresets).
Proof.
  unfold getFilterById. split.
  - intros H Hin. apply in_map_iff in Hin. destruct Hin as [p [E Hin]].
    pose proof (find_none _ _ H p Hin) as Hp. cbv beta in Hp.
    rewrite E, String.eqb_refl in Hp. discriminate.
  - intros Hn.
    destruct (find (fun f => String.eqb (id f) i) filterPresets) as [p|] eqn:E;
      [|reflexivity].
    exfalso. apply Hn. apply find_some in E. destruct E as [Hin E].
    apply String.eqb_eq in E. subst i. apply in_map. exact Hin.
Qed.

(** X16.  The lookup of a preset by its id is a round trip: the ids of the
    catalogue are pairwise different, so [getFilterById] of the id of a
    preset of the catalogue finds that very preset, not another one
    listed before it.  Whatever [getFilterById] finds is a preset of the
    catalogue with the id asked for, and it finds nothing exactly when
    no preset has that id. *)
Theorem getFilterById_round_trip :
  (forall p, In p filterPresets -> getFilterById (id p) = Some p) /\
  (forall i p, getFilterById i = Some p -> In p filterPresets /\ id p = i) /\
  (forall i, getFilterById i = None <-> ~ In i (map id filterPresets)).
Proof.
  split; [exact lookup_own_id|]. split; [exact lookup_sound|exact lookup_none].
Qed.

(** *** The categories *)

Lemma category_eqb_eq (a b : Category) : category_eqb a b = true <-> a = b.
Proof. destruct a, b; simpl; split; intros H; try discriminate; auto. Qed.

Lemma in_categories (c : Category) : In c categories.
Proof. destruct c; simpl; tauto. Qed.

(** X17.  [getFiltersByCategory] splits the catalogue: a preset is in the
    list of a category exactly when it is in the catalogue with that
    category, so every preset is in the list of one category and of no
    other.  The lists of the eight categories hold 5, 9, 3, 12, 6, 9, 2
    and 0 presets, 46 in all, which is the whole catalogue: the category
    [artistic] is declared but has no preset. *)
Theorem getFiltersByCategory_partition :
  (forall c p, In p (getFiltersByCategory c) <->
               In p filterPresets /\ category p = c) /\
  (forall p, In p filterPresets ->
     exists c, In c categories /\ In p (getFiltersByCategory c) /\
               forall c', In p (getFiltersByCategory c') -> c' = c) /\
  map (fun c => length (getFiltersByCategory c)) categories =
    [5; 9; 3; 12; 6; 9; 2; 0]%nat /\
  length (flat_map getFiltersByCategory categories) = length filterPresets /\
  getFiltersByCategory artistic = [].
Proof.
  assert (Hin : forall c p, In p (getFiltersByCategory c) <->
                            In p filterPresets /\ category p = c).
  { intros c p. unfold getFiltersByCategory. rewrite filter_In.
    rewrite category_eqb_eq. tauto. }
  split; [exact Hin|]. split.
  - intros p Hp. exists (category p). split; [apply in_categories|].
    split; [apply Hin; auto|].
    intros c' Hc'. apply Hin in Hc'. destruct Hc' as [_ E]. auto.
  - split; [reflexivity|]. split; reflexivity.
Qed.

(** *** The legacy entry point *)

Lemma imageStyles_presets : imageStyles = filterPresets.
Proof. reflexivity. Qed.

Lemma normal_preset (p : FilterPreset) :
  In p filterPresets -> id p = "normal"%string -> apply p = normal.
Proof.
  intros Hin E. pose proof (lookup_own_id p Hin) as H. rewrite E in H.
  change (getFilterById "normal") with
    (Some (mkPreset "normal" "Normal" soft normal)) in H.
  injection H as <-. reflexivity.
Qed.

End Catalogue.

Section EntryPoint.
Import InstaFilters ImageProcessing.

(** X18.  The legacy entry point applies the style it is given: for every
    style of [imageStyles], once the browser loads the image, hands out
    a context and creates the blob, [applyStyleToImage] resolves with
    the style's own [apply] run on the image, and so does
    [applyFilterToImage] with the style's id and the strength 1.  The
    style is found again through its id; for the id "normal" the filter
    step is skipped, which is what the style's [apply] does. *)
Theorem applyStyleToImage_applies_style (browser : Browser)
    (image : ImageData) (style : FilterPreset) :
  In style imageStyles ->
  image_loads browser = true -> context_available browser = true ->
  blob_created browser = true ->
  applyStyleToImage browser image style = Resolved (apply style image) /\
  applyFilterToImage browser image (id style) 1 =
    Resolved (apply style image).
Proof.
  intros Hin Hload Hctx Hblob. rewrite imageStyles_presets in Hin.
  unfold applyStyleToImage, applyFilterToImage, applyFilter.
  rewrite Hload, Hctx, Hblob. cbn [negb].
  rewrite (lookup_own_id style Hin).
  change (1 <? 1)%float with false. cbv iota.
  destruct (String.eqb_spec (id style) "normal") as [E|_].
  - rewrite (normal_preset style Hin E). split; reflexivity.
  - split; reflexivity.
Qed.

Lemma applyStyleToImage_applies_style_witness :
  applyStyleToImage working_browser sample_image
    (mkPreset "inkwell" "Inkwell" bw inkwell) =
    Resolved (inkwell sample_image) /\
  applyFilterToImage working_browser sample_image "inkwell" 1 =
    Resolved (inkwell sample_image).
Proof.
  apply (applyStyleToImage_applies_style working_browser sample_image
           (mkPreset "inkwell" "Inkwell" bw inkwell));
    [|reflexivity|reflexivity|reflexivity].
  do 17 right. left. reflexivity.
Defined.

(** *** The frame of the entry point *)

Lemma blend_data_length (originalData d : list Pixel) (strength : float) :
  length (blend_data originalData d strength) = length d.
Proof.
  revert originalData. induction d as [|p d IH]; intros o; simpl; auto.
Qed.

Lemma blend_data_alpha (originalData d : list Pixel) (strength : float) :
  map A (blend_data originalData d strength) = map A d.
Proof.
  revert originalData.
  induction d as [|p d IH]; intros o; simpl; [reflexivity|].
  rewrite IH. reflexivity.
Qed.

Lemma blend_data_rgb_ok (originalData d : list Pixel) (strength : float) :
  Forall rgb_ok (blend_data originalData d strength).
Proof.
  revert originalData.
  induction d as [|p d IH]; intros o; simpl; constructor; auto.
  unfold blend_px. apply stored_rgb_ok.
Qed.

Lemma blend_keeps_frame (originalData : list Pixel) (imageData : ImageData)
    (strength : float) :
  wf_image imageData ->
  wf_image (blend originalData imageData strength) /\
  width (blend originalData imageData strength) = width imageData /\
  height (blend originalData imageData strength) = height imageData /\
  map A (data (blend originalData imageData strength)) =
    map A (data imageData).
Proof.
  intros [Hlen Hok]. unfold blend, with_data, wf_image. cbn [data width height].
  rewrite blend_data_length, blend_data_alpha.
  repeat split; auto.
  eapply same_alpha_pixel_ok; eauto using blend_data_rgb_ok, blend_data_alpha.
Qed.

Lemma applyFilter_keeps_frame (filterId : string) (strength : float) :
  keeps_frame (fun image => applyFilter image filterId strength).
Proof.
  intros image Hwf. unfold applyFilter.
  destruct (String.eqb filterId "normal"); [auto|].
  destruct (getFilterById filterId) as [filter|] eqn:Hfind; [|auto].
  destruct (found_keeps_frame _ _ Hfind image Hwf) as (Hwf' & Hw & Hh & HA).
  destruct (strength <? 1)%float; [|auto].
  destruct (blend_keeps_frame (data image) (apply filter image) strength Hwf')
    as (Hwf2 & Hw2 & Hh2 & HA2).
  repeat split; try apply Hwf2; congruence.
Qed.

(** X19.  Whatever the filter id and the strength are (unknown ids,
    strengths below 0 or above 1 and NaN included), an image that
    [applyFilterToImage] resolves with has the width and the height of
    the input, as many pixels, every channel a byte and the alpha of
    every pixel unchanged. *)
Theorem applyFilterToImage_keeps_frame (browser : Browser)
    (image result : ImageData) (filterId : string) (strength : float) :
  wf_image image ->
  applyFilterToImage browser image filterId strength = Resolved result ->
  wf_image result /\
  width result = width image /\ height result = height image /\
  map A (data result) = map A (data image).
Proof.
  intros Hwf. unfold applyFilterToImage.
  destruct (negb (image_loads browser)); [discriminate|].
  destruct (negb (context_available browser)); [discriminate|].
  destruct (blob_created browser); [|discriminate].
  intros H. injection H as <-.
  apply (applyFilter_keeps_frame filterId strength image Hwf).
Qed.

Lemma applyFilterToImage_keeps_frame_witness :
  wf_image (applyFilter sample_image "clarendon" 0.5) /\
  width (applyFilter sample_image "clarendon" 0.5) = width sample_image /\
  height (applyFilter sample_image "clarendon" 0.5) = height sample_image /\
  map A (data (applyFilter sample_image "clarendon" 0.5)) =
    map A (data sample_image).
Proof.
  apply (applyFilterToImage_keeps_frame working_browser sample_image
           (applyFilter sample_image "clarendon" 0.5) "clarendon" 0.5).
  - apply wf_imageb_ok. reflexivity.
  - reflexivity.
Defined.

End EntryPoint.

Section EffectsEntryPoint.
Import ImageProcessing ImageEffects.




Lemma step_keeps_frame (field : option float) (op : float -> Engine.Operator)
    (g : ImageData -> ImageData) :
  keeps_frame g ->
  keeps_frame
    (fun image => step field (fun pixels a => Engine.run (op a) pixels)
                       (g image)).
Proof.
  intros Hg. destruct field as [amount|]; [|exact Hg]. simpl.
  destruct (effect_applies amount); [|exact Hg].
  apply (keeps_frame_then g (op amount) Hg).
Qed.

(** X20.  Whatever effects are asked for and whatever [Math.random]
    returns, an image that [applyEffects] resolves with has the width
    and the height of the input, as many pixels, every channel a byte
    and the alpha of every pixel unchanged. *)
Theorem applyEffects_keeps_frame (browser : Browser) (random : nat -> float)
    (image result : ImageData) (effects : Effects) :
  wf_image image ->
  applyEffects browser random image effects = Resolved result ->
  wf_image result /\
  width result = width image /\ height result = height image /\
  map A (data result) = map A (data image).
Proof.
  intros Hwf. unfold applyEffects.
  destruct (negb (image_loads browser)); [discriminate|].
  destruct (negb (context_available browser)); [discriminate|].
  destruct (blob_created browser); [|discriminate].
  intros H. injection H as <-. cbv zeta.
  pose proof (step_keeps_frame (sharpen effects) Engine.Sharpen
                (fun image => image) keeps_frame_id) as H1.
  pose proof (step_keeps_frame (noise effects) (Engine.Noise random) _ H1)
    as H2.
  pose proof (step_keeps_frame (vignette effects) Engine.Vignette _ H2) as H3.
  exact (H3 image Hwf).
Qed.

Lemma applyEffects_keeps_frame_witness :
  wf_image
    (Filters.vignette
       (Filters.noise (fun _ => 0.25%float)
          (Filters.sharpen sample_image 0.5) 20) 0.5) /\
  width
    (Filters.vignette
       (Filters.noise (fun _ => 0.25%float)
          (Filters.sharpen sample_image 0.5) 20) 0.5) = width sample_image /\
  height
    (Filters.vignette
       (Filters.noise (fun _ => 0.25%float)
          (Filters.sharpen sample_image 0.5) 20) 0.5) = height sample_image /\
  map A
    (data
       (Filters.vignette
          (Filters.noise (fun _ => 0.25%float)
             (Filters.sharpen sample_image 0.5) 20) 0.5)) =
    map A (data sample_image).
Proof.
  apply (applyEffects_keeps_frame working_browser (fun _ => 0.25%float)
           sample_image _
           (mkEffects (Some 0.5%float) (Some 20%float) (Some 0.5%float))).
  - apply wf_imageb_ok. reflexivity.
  - reflexivity.
Defined.



End EffectsEntryPoint.

(** *** The loops of vignette *)

Section VignetteLoops.
Local Open Scope nat_scope.
Variables (g : nat -> nat -> Pixel -> Pixel) (w : nat).

(** After the first [n] turns of the [x] loop in row [y]. *)
Lemma vignette_row (y n : nat) (d : list Pixel) :
  let d' := fold_left (fun d x => upd (y * w + x) (g x y) d) (seq 0 n) d in
  length d' = length d /\
  forall j, nth_error d' j =
            if (y * w <=? j) && (j <? y * w + n)
            then option_map (g (j - y * w) y) (nth_error d j)
            else nth_error d j.
Proof.
  cbv zeta. induction n as [|n [IHlen IHnth]].
  - simpl. split; auto. intros j.
    destruct (Nat.leb_spec (y * w) j), (Nat.ltb_spec j (y * w + 0));
      simpl; auto; lia.
  - rewrite seq_S, fold_left_app; simpl. split.
    + rewrite length_upd. exact IHlen.
    + intros j. rewrite nth_error_upd, IHnth.
      destruct (Nat.eqb_spec j (y * w + n)) as [->|Hne].
      * replace (y * w + n - y * w) with n by lia.
        destruct (Nat.leb_spec (y * w) (y * w + n)),
                 (Nat.ltb_spec (y * w + n) (y * w + n)),
                 (Nat.ltb_spec (y * w + n) (y * w + S n));
          simpl; auto; lia.
      * destruct (Nat.leb_spec (y * w) j), (Nat.ltb_spec j (y * w + n)),
                 (Nat.ltb_spec j (y * w + S n)); simpl; auto; lia.
Qed.

(** After the first [m] turns of the [y] loop. *)
Lemma vignette_rows (m : nat) (d : list Pixel) :
  let d' :=
    fold_left
      (fun d y => fold_left (fun d x => upd (y * w + x) (g x y) d) (seq 0 w) d)
      (seq 0 m) d in
  length d' = length d /\
  forall j, nth_error d' j =
            if j <? m * w
            then option_map (g (j mod w) (j / w)) (nth_error d j)
            else nth_error d j.
Proof.
  cbv zeta. induction m as [|m [IHlen IHnth]].
  - simpl. split; auto.
  - rewrite seq_S, fold_left_app; simpl.
    destruct (vignette_row m w
                (fold_left
                   (fun d y =>
                      fold_left (fun d x => upd (y * w + x) (g x y) d)
                                (seq 0 w) d)
                   (seq 0 m) d)) as [Rlen Rnth].
    split; [congruence|].
    intros j. rewrite Rnth, IHnth.
    destruct (Nat.leb_spec (m * w) j), (Nat.ltb_spec j (m * w + w)),
             (Nat.ltb_spec j (m * w)), (Nat.ltb_spec j (w + m * w));
      simpl; auto; try lia.
    assert (Hw : w <> 0) by lia.
    assert (Hq : m = j / w).
    { apply (Nat.div_unique j w m (j - m * w)); lia. }
    assert (Hr : j - m * w = j mod w).
    { apply (Nat.mod_unique j w m (j - m * w)); lia. }
    rewrite <- Hq, <- Hr. reflexivity.
Qed.

End VignetteLoops.

(** The output of [vignette] when every pixel becomes a function of
    itself. *)
Lemma vignette_pointwise (pixels : ImageData) (amount : float)
    (f : Pixel -> Pixel) :
  wf_image pixels ->
  (forall x y p,
     (x < width pixels)%nat -> (y < height pixels)%nat -> pixel_ok p ->
     Filters.vignette_px
       (Filters.vignette_factor (width pixels) (height pixels) amount x y) p
     = f p) ->
  Filters.vignette pixels amount = Filters.each_pixel f pixels.
Proof.
  intros [Hlen Hok] Hf. unfold Filters.vignette, Filters.each_pixel.
  f_equal. apply nth_error_ext. intros j.
  destruct (vignette_rows
              (fun x y =>
                 Filters.vignette_px
                   (Filters.vignette_factor (width pixels) (height pixels)
                      amount x y))
              (width pixels) (height pixels) (data pixels)) as [_ Hnth].
  rewrite Hnth, nth_error_map.
  destruct (Nat.ltb_spec j (height pixels * width pixels)) as [Hj|Hj].
  - destruct (nth_error (data pixels) j) as [p|] eqn:E; [|reflexivity].
    simpl. f_equal. apply Hf.
    + apply Nat.mod_upper_bound. nia.
    + apply Nat.Div0.div_lt_upper_bound. nia.
    + rewrite Forall_forall in Hok. apply Hok. eapply nth_error_In. exact E.
  - assert (H : nth_error (data pixels) j = None)
      by (apply nth_error_None; nia).
    rewrite H. reflexivity.
Qed.

(** *** sharpen and vignette with NaN for the amount *)

Lemma vignette_nan (pixels : ImageData) :
  wf_image pixels ->
  Filters.vignette pixels nan = Filters.each_pixel black_px pixels.
Proof.
  intros Hwf. apply vignette_pointwise; auto.
  intros x y p _ _ _. unfold Filters.vignette_factor. cbv zeta.
  rewrite mul_nan_r, sub_nan_r. unfold Filters.vignette_px, black_px.
  rewrite !mul_nan_r. reflexivity.
Qed.

Section NanKernel.
Variables (pixels : ImageData) (weights : list float) (x y : nat).
Hypothesis Hwf : wf_image pixels.
Hypothesis Hx : (x < width pixels)%nat.
Hypothesis Hy : (y < height pixels)%nat.

(** Sums that are NaN stay NaN. *)
Lemma cell_after_nan (cy cx : nat) :
  Filters.conv_cell (data pixels) (width pixels) (height pixels) weights
    3 1 x y cy (nan, nan, nan) cx = (nan, nan, nan).
Proof.
  unfold Filters.conv_cell.
  destruct (_ && _ && _ && _); [|reflexivity].
  rewrite !add_nan_l. reflexivity.
Qed.

(** The centre cell is always inside the image: with a NaN weight it
    turns the sums into NaN. *)
Lemma cell_centre_nan (acc : float * float * float) :
  Filters.weight weights 4 = nan ->
  Filters.conv_cell (data pixels) (width pixels) (height pixels) weights
    3 1 x y 1 acc 1 = (nan, nan, nan).
Proof.
  intros Hw. unfold Filters.conv_cell. destruct acc as [[r g] b].
  replace (Z.of_nat y + Z.of_nat 1 - Z.of_nat 1) with (Z.of_nat y) by lia.
  replace (Z.of_nat x + Z.of_nat 1 - Z.of_nat 1) with (Z.of_nat x) by lia.
  assert (Hin : (0 <=? Z.of_nat y) && (Z.of_nat y <? Z.of_nat (height pixels))
                && (0 <=? Z.of_nat x) && (Z.of_nat x <? Z.of_nat (width pixels))
                = true).
  { repeat (apply andb_true_intro; split);
      first [apply Z.leb_le; lia | apply Z.ltb_lt; lia]. }
  rewrite Hin. change (1 * 3 + 1)%nat with 4%nat. rewrite Hw.
  rewrite !mul_nan_r, !add_nan_r. reflexivity.
Qed.

Lemma nan_kernel_sum :
  Filters.weight weights 4 = nan ->
  Filters.conv_sum (data pixels) (width pixels) (height pixels) weights
    3 1 x y = (nan, nan, nan).
Proof.
  intros Hw. unfold Filters.conv_sum. cbn [seq fold_left].
  rewrite (cell_centre_nan _ Hw). rewrite !cell_after_nan. reflexivity.
Qed.

End NanKernel.

Lemma sharpen_nan (pixels : ImageData) :
  wf_image pixels ->
  Filters.sharpen pixels nan = Filters.each_pixel black_px pixels.
Proof.
  intros Hwf. unfold Filters.sharpen. apply convolute_pointwise; auto.
  intros x y p Hx Hy Hp. cbn [length].
  change (JS.round_sqrt 9) with 3%nat. change (3 / 2)%nat with 1%nat.
  unfold conv_pixel.
  rewrite (nan_kernel_sum pixels _ x y Hx Hy)
    by (unfold Filters.weight; cbn [nth]; apply add_nan_r || apply mul_nan_r).
  rewrite (nth_error_nth _ _ _ Hp). reflexivity.
Qed.

(** X22.  [sharpen] and [vignette] with NaN for the amount blacken a
    well-formed image too: the centre weight of the kernel of [sharpen]
    and the factor of [vignette] are NaN at every pixel, so the red,
    green and blue of every pixel are stored as 0; alpha is kept. *)
Theorem nan_effect_blackens (pixels : ImageData) :
  wf_image pixels ->
  Filters.sharpen pixels nan = Filters.each_pixel black_px pixels /\
  Filters.vignette pixels nan = Filters.each_pixel black_px pixels.
Proof.
  intros Hwf. split; [apply sharpen_nan|apply vignette_nan]; exact Hwf.
Qed.

Lemma nan_effect_blackens_witness :
  Filters.sharpen sample_image nan =
    Filters.each_pixel black_px sample_image /\
  Filters.vignette sample_image nan =
    Filters.each_pixel black_px sample_image.
Proof.
  apply (nan_effect_blackens sample_image). apply wf_imageb_ok. reflexivity.
Defined.

(** *** The black and white presets *)

Lemma each_pixel_twice (f g : Pixel -> Pixel) (pixels : ImageData) :
  Filters.each_pixel f (Filters.each_pixel g pixels) =
  Filters.each_pixel (fun p => f (g p)) pixels.
Proof.
  unfold Filters.each_pixel, with_data. simpl. rewrite map_map. reflexivity.
Qed.

Lemma moon_pixels (pixels : ImageData) :
  InstaFilters.moon pixels =
  Filters.each_pixel (fun p => moon_px (Filters.grayscale_px p)) pixels.
Proof.
  unfold InstaFilters.moon, Filters.brightness, Filters.contrast,
    Filters.grayscale. cbv zeta. rewrite !each_pixel_twice. reflexivity.
Qed.

Lemma willow_pixels (pixels : ImageData) :
  InstaFilters.willow pixels =
  Filters.each_pixel (fun p => willow_px (Filters.grayscale_px p)) pixels.
Proof.
  unfold InstaFilters.willow, Filters.brightness, Filters.colorFilter,
    Filters.grayscale. cbv zeta. rewrite !each_pixel_twice. reflexivity.
Qed.

Lemma moon_px_gray (p : Pixel) : is_gray p -> is_gray (moon_px p).
Proof.
  intros [H1 H2]. unfold is_gray, moon_px, Filters.brightness_px,
    Filters.contrast_px. cbn [R G B A]. rewrite H1, H2. split; reflexivity.
Qed.

Lemma grayscale_px_gray (p : Pixel) : is_gray (Filters.grayscale_px p).
Proof. split; reflexivity. Qed.

Lemma willow_tone (c a : Z) :
  channel_ok c ->
  let q := willow_px (mkPixel c c c a) in
  G q <= R q <= B q /\ (is_gray q <-> 235 <= c).
Proof.
  intros Hc q.
  assert (H : willow_toneb c = true)
    by (apply (on_all_bytes willow_toneb); [vm_compute; reflexivity|exact Hc]).
  unfold willow_toneb in H.
  change (willow_px (mkPixel c c c 0)) with
    (mkPixel (R q) (G q) (B q) 0) in H. cbn [R G B] in H.
  apply andb_prop in H. destruct H as [H H3].
  apply andb_prop in H. destruct H as [H1 H2].
  apply Z.leb_le in H1, H2. apply Bool.eqb_prop in H3.
  split; [lia|]. unfold is_gray. split.
  - intros [E1 E2]. apply Z.leb_le. rewrite <- H3. apply Z.eqb_eq. lia.
  - intros Hge. apply Z.leb_le in Hge. rewrite <- H3 in Hge.
    apply Z.eqb_eq in Hge. lia.
Qed.

(** X23.  The three presets of the category [bw].  [inkwell] and [moon]
    give a gray image, whatever the image: red, green and blue of every
    pixel are equal.  [willow] does not: each pixel comes out with
    green <= red <= blue, a purple tone, and is gray only where the
    luma byte that [grayscale] stores for the pixel is 235 or more,
    where the three channels saturate at 255. *)
Theorem bw_presets_tone (pixels : ImageData) :
  Forall is_gray (data (InstaFilters.inkwell pixels)) /\
  Forall is_gray (data (InstaFilters.moon pixels)) /\
  Forall2
    (fun p q =>
       G q <= R q <= B q /\
       (is_gray q <-> 235 <= R (Filters.grayscale_px p)))
    (data pixels) (data (InstaFilters.willow pixels)).
Proof.
  split; [|split].
  - unfold InstaFilters.inkwell, Filters.grayscale, Filters.each_pixel.
    cbn [data with_data]. apply Forall_forall. intros q Hq.
    apply in_map_iff in Hq. destruct Hq as [p [<- _]].
    apply grayscale_px_gray.
  - rewrite moon_pixels. unfold Filters.each_pixel. cbn [data with_data].
    apply Forall_forall. intros q Hq.
    apply in_map_iff in Hq. destruct Hq as [p [<- _]].
    apply moon_px_gray, grayscale_px_gray.
  - rewrite willow_pixels. unfold Filters.each_pixel. cbn [data with_data].
    induction (data pixels) as [|p d IH]; simpl; constructor; [|exact IH].
    unfold Filters.grayscale_px at 1 2. cbv zeta.
    apply willow_tone. apply store_range.
Qed.

End FilterProperties.

(* ================================================================== *)
(** ** How far and in which direction the operators move a channel *)

Section Bounds.
Local Open Scope Q_scope.
Local Open Scope Z_scope.

(** *** Square roots *)

(** The integer square root taken by [SFsqrt]: its exponent is on the
    grid and its mantissa is the root of the shifted mantissa. *)
Lemma sqrt_core (m : positive) (e g c : Z) :
  0 <= g <= 1000 -> e <= 0 -> 1 <= c -> c * 2 ^ g + 1 < 2 ^ 52 ->
  Zpos m <= c * c * 2 ^ (- e) ->
  exists q e' l,
    SFsqrt_core_binary prec emax (Zpos m) e = (q, e', l) /\
    e' <= - g /\ 2 * e' <= e /\ 0 <= q /\ q <= c * 2 ^ (- e') /\
    q * q <= Zpos m * 2 ^ (e - 2 * e') < (q + 1) * (q + 1).
Proof.
  intros Hg He Hc Hov Hm. unfold SFsqrt_core_binary.
  set (d := Zdigits2 (Zpos m)).
  set (e' := Z.min (fexp prec emax (Z.div2 (d + e + 1))) (Z.div2 e)).
  assert (Hg52 : g < 52).
  { assert (H : 2 ^ g < 2 ^ 52).
    { assert (0 < 2 ^ g) by (apply Z.pow_pos_nonneg; lia). nia. }
    apply Z.pow_lt_mono_r_iff in H; lia. }
  assert (Hc52 : c < 2 ^ (52 - g)).
  { assert (H : c * 2 ^ g < 2 ^ (52 - g) * 2 ^ g).
    { rewrite <- Z.pow_add_r by lia. replace (52 - g + g) with 52 by lia.
      lia. }
    assert (0 < 2 ^ g) by (apply Z.pow_pos_nonneg; lia). nia. }
  assert (Hd : d + e <= 2 * (52 - g)).
  { unfold d, Zdigits2.
    pose proof (digits2_pos_bounds m) as [Hlo _].
    set (k := Zpos (digits2_pos m)) in *.
    assert (Hk : 1 <= k) by (unfold k; lia).
    assert (Hp : 0 < 2 ^ (- e)) by (apply Z.pow_pos_nonneg; lia).
    assert (H1 : 2 ^ (k - 1) < 2 ^ (52 - g) * 2 ^ (52 - g) * 2 ^ (- e)).
    { assert (c * c < 2 ^ (52 - g) * 2 ^ (52 - g)) by nia. nia. }
    rewrite <- !Z.pow_add_r in H1 by lia.
    apply Z.pow_lt_mono_r_iff in H1; lia. }
  assert (He' : e' <= - g).
  { unfold e'.
    assert (H : fexp prec emax (Z.div2 (d + e + 1)) <= - g - 1).
    { apply fexp_grid; [exact Hg|]. rewrite Z.div2_div.
      assert ((d + e + 1) / 2 < 53 - g); [|lia].
      apply Z.div_lt_upper_bound; lia. }
    lia. }
  assert (He2 : 2 * e' <= e).
  { unfold e'. rewrite (Z.div2_div e).
    pose proof (Z.mul_div_le e 2 ltac:(lia)). lia. }
  set (s := e - 2 * e').
  assert (Hs : 0 <= s) by (unfold s; lia).
  set (m' := match s with
             | Z0 => Zpos m
             | Zpos _ => Z.shiftl (Zpos m) s
             | Zneg _ => Z0
             end).
  assert (Hm' : m' = Zpos m * 2 ^ s).
  { unfold m'. destruct s as [|p|p] eqn:Es.
    - rewrite Z.pow_0_r. lia.
    - apply Z.shiftl_mul_pow2. lia.
    - lia. }
  assert (Hps : 0 < 2 ^ s) by (apply Z.pow_pos_nonneg; lia).
  assert (Hm0 : 0 <= m') by (rewrite Hm'; nia).
  pose proof (Z.sqrtrem_spec m' Hm0) as Hsq.
  change (Z.mul (Zpos 2) e') with (2 * e').
  change (Z.sub e (2 * e')) with s.
  fold m'. destruct (Z.sqrtrem m') as [q r].
  destruct Hsq as [Hsq Hr].
  exists q, e'. eexists. split; [reflexivity|].
  assert (Hq : 0 <= q) by lia.
  split; [exact He'|]. split; [exact He2|]. split; [exact Hq|].
  fold s. rewrite <- Hm'. split; [|nia].
  (* the bound on the root *)
  assert (Hpe : 0 < 2 ^ (- e')) by (apply Z.pow_pos_nonneg; lia).
  assert (Hsplit : 2 ^ (- e) * 2 ^ s = 2 ^ (- e') * 2 ^ (- e')).
  { rewrite <- !Z.pow_add_r by lia. f_equal. unfold s. lia. }
  assert (Hsq2 : q * q <= (c * 2 ^ (- e')) * (c * 2 ^ (- e'))).
  { assert (m' <= c * c * 2 ^ (- e) * 2 ^ s) by (rewrite Hm'; nia).
    nia. }
  nia.
Qed.

(** The square root of a number on the grid: it is on the grid, it is not
    negative, and it is within one step of a rational [X] whose square
    is at most the number, and within one step of the next one. *)
Lemma SFsqrt_rounds (g c : Z) (x : spec_float) :
  0 <= g <= 1000 -> 1 <= c -> c * 2 ^ g + 1 < 2 ^ 52 ->
  expo_le 0 x -> (0 <= val x <= inject_Z (c * c))%Q ->
  let r := SF64sqrt x in
  expo_le g r /\ (0 <= val r)%Q /\
  exists X : Q,
    (0 <= X /\ X - eps g <= val r <= X + eps g /\
     X * X <= val x /\ val x <= (X + eps g) * (X + eps g))%Q.
Proof.
  intros Hg Hc Hov Hx Hv. pose proof (eps_pos g) as Hp. cbv zeta.
  unfold SF64sqrt, SFsqrt.
  destruct x as [s|s| |s m e]; simpl in Hx; try contradiction.
  - (* a zero *)
    split; [exact I|]. split; [simpl; lra|].
    exists 0%Q. simpl. repeat split; try lra. nra.
  - destruct s.
    { (* a negative number *)
      exfalso. pose proof (mag_pos true m e) as H. unfold val in Hv. lra. }
    assert (Hm : Zpos m <= c * c * 2 ^ (- e)).
    { apply Qmake_bound; [lia|]. apply Hv. }
    destruct (sqrt_core m e g c Hg ltac:(lia) Hc Hov Hm)
      as (q & e' & l & Hcore & He' & He2 & Hq & Hqc & Hlo & Hhi).
    rewrite Hcore.
    set (X := (q # pow2 (- e'))%Q).
    assert (Hov' : q / 2 ^ (- e' - g) + 1 < 2 ^ 52)
      by (apply (overflow_ok q e' g c); lia).
    destruct (round_aux_val false q e' l g X Hg He' Hq Hov')
      as (Hr1 & Hr2 & Hr3).
    { unfold X. apply Qle_refl. }
    { unfold X, Qle. simpl. nia. }
    set (r := binary_round_aux prec emax false q e' l) in *.
    assert (Hval : val r = mag r).
    { destruct r as [s'|s'| |s' m' e'']; try reflexivity.
      subst s'. reflexivity. }
    pose proof (mag_nonneg r) as Hr0.
    split; [exact Hr1|]. rewrite Hval. split; [exact Hr0|].
    exists X.
    assert (HX0 : (0 <= X)%Q) by (unfold X, Qle; simpl; lia).
    assert (Hpe : 0 < 2 ^ (- e')) by (apply Z.pow_pos_nonneg; lia).
    assert (Hpx : 0 < 2 ^ (- e)) by (apply Z.pow_pos_nonneg; lia).
    assert (Hps : 0 < 2 ^ (e - 2 * e')) by (apply Z.pow_pos_nonneg; lia).
    assert (Hsplit : 2 ^ (- e) * 2 ^ (e - 2 * e') = 2 ^ (- e') * 2 ^ (- e')).
    { rewrite <- !Z.pow_add_r by lia. f_equal. lia. }
    assert (HP2 : Zpos (pow2 (- e') * pow2 (- e')) =
                  2 ^ (- e') * 2 ^ (- e')).
    { rewrite Pos2Z.inj_mul, !pow2_pos by lia. reflexivity. }
    assert (HP1 : Zpos (pow2 (- e)) = 2 ^ (- e)) by (apply pow2_pos; lia).
    split; [exact HX0|]. split; [exact Hr3|]. split.
    + (* the square of X *)
      unfold X, val, mag, Qle, Qmult. cbn [Qnum Qden].
      rewrite HP1, HP2. nia.
    + set (Y := (q + 1 # pow2 (- e'))%Q).
      assert (HY0 : (0 <= Y)%Q) by (unfold Y, Qle; simpl; lia).
      assert (HY : (val (S754_finite false m e) <= Y * Y)%Q).
      { unfold Y, val, mag, Qle, Qmult. cbn [Qnum Qden].
        rewrite HP1, HP2. nia. }
      assert (HYX : (Y <= X + eps g)%Q).
      { unfold Y. rewrite Qmake_succ. fold X.
        assert ((1 # pow2 (- e')) <= eps g)%Q; [|lra].
        unfold eps. apply Qmake_ge; [lia|].
        assert (0 < 2 ^ (- e' - g)) by (apply Z.pow_pos_nonneg; lia). lia. }
      assert ((Y * Y <= (X + eps g) * (X + eps g))%Q) by nra.
      lra.
Qed.

(** *** The grid of step 2^-22 *)

Lemma e22_small : (0 < e22 /\ e22 <= 1 # 4000000)%Q.
Proof.
  split; [apply eps_pos|]. unfold e22, eps, Qle. vm_compute. discriminate.
Qed.

Lemma near_coarse (z : float) (X : Q) : near z X -> coarse z.
Proof. intros H. apply H. Qed.

(** A valid number of magnitude at most [c] has a small exponent. *)
Lemma bounded_expo (s : bool) (m : positive) (e g c : Z) :
  valid_binary (S754_finite s m e) = true ->
  0 <= g <= 52 -> c < 2 ^ (52 - g) -> e <= 0 -> Zpos m <= c * 2 ^ (- e) ->
  e <= - g.
Proof.
  intros Hv Hg Hc He Hm. revert Hv.
  unfold SpecFloat.valid_binary, bounded, canonical_mantissa, fexp,
    SpecFloat.emin, prec, emax.
  intros Hv. apply andb_true_iff in Hv. destruct Hv as [Hv _].
  apply Z.eqb_eq in Hv. change IntDef.Z.max with Z.max in Hv.
  pose proof (digits2_pos_bounds m) as [Hd _].
  set (d := Zpos (digits2_pos m)) in *.
  destruct (Z.max_spec (d + e - 53) (3 - 1024 - 53)) as [[_ E]|[_ E]];
    rewrite E in Hv; [lia|].
  assert (Hd53 : d = 53) by lia. rewrite Hd53 in Hd.
  assert (Hp : 0 < 2 ^ (- e)) by (apply Z.pow_pos_nonneg; lia).
  assert (H : 2 ^ (53 - 1) < 2 ^ (52 - g) * 2 ^ (- e)) by nia.
  rewrite <- Z.pow_add_r in H by lia.
  apply Z.pow_lt_mono_r_iff in H; lia.
Qed.

(** A small integer read as a number: it is on the grid [2^-g] when it
    is below [2^(52-g)], and it is exact. *)
Lemma int_grid (g n : Z) :
  0 <= g <= 52 -> 0 <= n < 2 ^ (52 - g) ->
  expo_le g (Prim2SF (JS.Z2F n)) /\ (fval (JS.Z2F n) == inject_Z n)%Q.
Proof.
  intros Hg Hn. destruct n as [|p|p]; [| |lia].
  { split; [exact I|reflexivity]. }
  assert (H52 : 2 ^ (52 - g) <= 2 ^ 52)
    by (apply Z.pow_le_mono_r; lia).
  unfold fval, JS.Z2F.
  pose proof (Prim2SF_valid (of_uint63 (Uint63.of_Z (Zpos p)))) as Hv.
  rewrite of_uint63_spec in *. rewrite Uint63.of_Z_spec in *.
  rewrite Z.mod_small in * by (unfold Uint63.wB; simpl; lia).
  unfold binary_normalize in *.
  pose proof (binary_round_bounds false p 0 (Zpos p) (Zpos p)
                ltac:(lia) ltac:(lia) ltac:(lia) ltac:(simpl; lia)) as Hb.
  destruct (binary_round prec emax false p 0) as [s|s| |s m e];
    try contradiction.
  - lia.
  - destruct Hb as (-> & He & Hlo & Hhi).
    assert (Hm : Zpos m = Zpos p * 2 ^ (- e)) by lia.
    split.
    + simpl. apply (bounded_expo false m e g (Zpos p)); auto; lia.
    + unfold val, mag, Qeq. cbn [Qnum Qden inject_Z].
      rewrite pow2_pos by lia. lia.
Qed.

Lemma int_float (n : Z) :
  0 <= n <= 2 ^ 29 -> coarse (JS.Z2F n) /\ (fval (JS.Z2F n) == inject_Z n)%Q.
Proof. intros Hn. apply int_grid; lia. Qed.

(** The operations on the grid. *)
Lemma gmul (x y : float) :
  coarse x -> coarse y ->
  (- inject_Z (2 ^ 29) <= fval x * fval y <= inject_Z (2 ^ 29))%Q ->
  near (x * y) (fval x * fval y).
Proof.
  intros Hx Hy Hc.
  change (rounds_to 22 (Prim2SF (x * y)) (fval x * fval y)).
  rewrite mul_spec.
  apply (SFmul_rounds 22 22 22 (2 ^ 29)); try lia; auto.
Qed.

(** A factor that is only known to be finite below 2. *)
Lemma gmul_unit (x y : float) :
  coarse x -> expo_le 0 (Prim2SF y) ->
  (- inject_Z (2 ^ 29) <= fval x * fval y <= inject_Z (2 ^ 29))%Q ->
  near (x * y) (fval x * fval y).
Proof.
  intros Hx Hy Hc.
  change (rounds_to 22 (Prim2SF (x * y)) (fval x * fval y)).
  rewrite mul_spec.
  apply (SFmul_rounds 22 22 0 (2 ^ 29)); try lia; auto.
Qed.

Lemma gadd (x y : float) :
  coarse x -> coarse y ->
  (- inject_Z (2 ^ 29) <= fval x + fval y <= inject_Z (2 ^ 29))%Q ->
  near (x + y) (fval x + fval y).
Proof.
  intros Hx Hy Hc.
  change (rounds_to 22 (Prim2SF (x + y)) (fval x + fval y)).
  rewrite add_spec.
  apply (SFadd_rounds 22 (2 ^ 29)); try lia; auto.
Qed.

Lemma gsub (x y : float) :
  coarse x -> coarse y ->
  (- inject_Z (2 ^ 29) <= fval x - fval y <= inject_Z (2 ^ 29))%Q ->
  near (x - y) (fval x - fval y).
Proof.
  intros Hx Hy Hc.
  change (rounds_to 22 (Prim2SF (x - y)) (fval x - fval y)).
  rewrite sub_spec.
  apply (SFsub_rounds 22 (2 ^ 29)); try lia; auto.
Qed.

Lemma gdiv (x y : float) (X : Q) :
  coarse x -> coarse y -> ~ (fval y == 0)%Q -> (X * fval y == fval x)%Q ->
  (- inject_Z (2 ^ 29) <= X <= inject_Z (2 ^ 29))%Q ->
  near (x / y) X.
Proof.
  intros Hx Hy Hy0 HX Hc.
  change (rounds_to 22 (Prim2SF (x / y)) X). rewrite div_spec.
  apply (SFdiv_rounds 22 (2 ^ 29)); try lia; auto;
    apply (expo_le_mono 22); auto; lia.
Qed.

Lemma gsqrt (x : float) :
  coarse x -> (0 <= fval x <= inject_Z (2 ^ 30))%Q ->
  coarse (sqrt x) /\ (0 <= fval (sqrt x))%Q /\
  exists X : Q,
    (0 <= X /\ X - e22 <= fval (sqrt x) <= X + e22 /\
     X * X <= fval x /\ fval x <= (X + e22) * (X + e22))%Q.
Proof.
  intros Hx Hc. unfold coarse, fval. rewrite sqrt_spec.
  apply (SFsqrt_rounds 22 (2 ^ 15)); try lia.
  - apply (expo_le_mono 22); auto; lia.
  - exact Hc.
Qed.

(** *** Squares and roots of rationals *)

Lemma square_le (a B : Q) : (- B <= a <= B -> a * a <= B * B)%Q.
Proof. intros H. nra. Qed.

Lemma square_nonneg (a : Q) : (0 <= a * a)%Q.
Proof. nra. Qed.

Lemma root_le (X S B : Q) :
  (0 <= X -> 0 <= B -> X * X <= S -> S <= B * B -> X <= B)%Q.
Proof. intros HX HB H1 H2. nra. Qed.

Lemma root_ge (Y S b : Q) :
  (0 <= Y -> 0 <= b -> S <= Y * Y -> b * b <= S -> b <= Y)%Q.
Proof. intros HY Hb H1 H2. nra. Qed.

Lemma literal_two : coarse 2 /\ (fval 2 == 2)%Q.
Proof.
  destruct literal_2 as [H1 H2]. split; [|exact H2].
  apply (expo_le_mono 40); [lia|exact H1].
Qed.

Lemma literal_one : coarse 1 /\ (fval 1 == 1)%Q.
Proof.
  destruct literal_1 as [H1 H2]. split; [|exact H2].
  apply (expo_le_mono 40); [lia|exact H1].
Qed.

(** *** The factor of vignette *)

Section Factor.
Local Open Scope Q_scope.

(** Half of a side of the image. *)
Lemma half_side (n : Z) :
  (1 <= n <= 16384)%Z ->
  near (JS.Z2F n / 2) (inject_Z n * (1 # 2)).
Proof.
  intros Hn. destruct (int_float n ltac:(lia)) as [Hc Hv].
  destruct literal_two as [H2 V2].
  pose proof (inject_le 1 n ltac:(lia)) as Hlo.
  pose proof (inject_le n 16384 ltac:(lia)) as Hhi.
  change (inject_Z 1) with 1 in Hlo.
  change (inject_Z 16384) with 16384 in Hhi.
  apply gdiv; auto.
  - rewrite V2. discriminate.
  - rewrite V2, Hv. ring.
  - change (inject_Z (2 ^ 29)) with 536870912. lra.
Qed.

(** The square of half a side, and the square of the distance of a
    column or row from the middle. *)
Lemma half_side_square (n : Z) :
  (1 <= n <= 16384)%Z ->
  let c := (JS.Z2F n / 2)%float in
  coarse (c * c) /\ 1 # 5 <= fval (c * c) <= 67125250.
Proof.
  intros Hn c. destruct (half_side n Hn) as (Hc & Hv & _). fold c in Hc, Hv.
  pose proof e22_small as [He0 He].
  pose proof (inject_le 1 n ltac:(lia)) as Hlo.
  pose proof (inject_le n 16384 ltac:(lia)) as Hhi.
  change (inject_Z 1) with 1 in Hlo.
  change (inject_Z 16384) with 16384 in Hhi.
  assert (Hb : 49 # 100 <= fval c <= 8193) by lra.
  assert (Hsq : (49 # 100) * (49 # 100) <= fval c * fval c <= 8193 * 8193)
    by nra.
  destruct (gmul c c Hc Hc) as (Hc2 & Hv2 & _).
  { change (inject_Z (2 ^ 29)) with 536870912. lra. }
  split; [exact Hc2|]. lra.
Qed.

Lemma offset_square (n k : Z) :
  (1 <= n <= 16384)%Z -> (0 <= k < n)%Z ->
  let d := (JS.Z2F k - JS.Z2F n / 2)%float in
  coarse (d * d) /\ 0 <= fval (d * d) <= 67125250.
Proof.
  intros Hn Hk d. destruct (half_side n Hn) as (Hc & Hv & _).
  destruct (int_float k ltac:(lia)) as [Hkc Hkv].
  pose proof e22_small as [He0 He].
  pose proof (inject_le 1 n ltac:(lia)) as Hlo.
  pose proof (inject_le n 16384 ltac:(lia)) as Hhi.
  pose proof (inject_le 0 k ltac:(lia)) as Hk0.
  pose proof (inject_le (k + 1) n ltac:(lia)) as Hk1.
  rewrite inject_Z_plus in Hk1.
  change (inject_Z 1) with 1 in Hlo, Hk1.
  change (inject_Z 0) with 0 in Hk0.
  change (inject_Z 16384) with 16384 in Hhi.
  destruct (gsub (JS.Z2F k) (JS.Z2F n / 2) Hkc Hc) as (Hd & Hdv & _).
  { change (inject_Z (2 ^ 29)) with 536870912. lra. }
  fold d in Hd, Hdv.
  assert (Hb : - (8193) <= fval d <= 8193) by lra.
  pose proof (square_le (fval d) 8193 Hb) as Hsq.
  pose proof (square_nonneg (fval d)) as Hs0.
  destruct (gmul d d Hd Hd) as (Hd2 & Hv2 & Hpos & _).
  { change (inject_Z (2 ^ 29)) with 536870912. lra. }
  split; [exact Hd2|]. split; [apply Hpos; exact Hs0|]. lra.
Qed.

Variables (w h x y : nat).
Hypothesis Hw : (Z.of_nat w <= 16384)%Z.
Hypothesis Hh : (Z.of_nat h <= 16384)%Z.
Hypothesis Hx : (x < w)%nat.
Hypothesis Hy : (y < h)%nat.

(** The largest distance: the root of a sum that is at least 2/5 - 3e. *)
Lemma maxDist_bounds :
  let cx := (JS.Z2F (Z.of_nat w) / 2)%float in
  let cy := (JS.Z2F (Z.of_nat h) / 2)%float in
  let maxDist := sqrt (cx * cx + cy * cy) in
  coarse maxDist /\ 1 # 2 <= fval maxDist <= 16386.
Proof.
  intros cx cy maxDist.
  destruct (half_side_square (Z.of_nat w) ltac:(lia)) as (Hc1 & Hv1).
  destruct (half_side_square (Z.of_nat h) ltac:(lia)) as (Hc2 & Hv2).
  fold cx in Hc1, Hv1. fold cy in Hc2, Hv2.
  pose proof e22_small as [He0 He].
  destruct (gadd (cx * cx) (cy * cy) Hc1 Hc2) as (Hs & Hsv & _).
  { change (inject_Z (2 ^ 29)) with 536870912. lra. }
  destruct (gsqrt (cx * cx + cy * cy) Hs) as (Hm & Hm0 & X & HX0 & HXv & Hlo & Hhi).
  { change (inject_Z (2 ^ 30)) with 1073741824. lra. }
  fold maxDist in Hm, Hm0, HXv.
  split; [exact Hm|].
  assert (HXle : X <= 16385).
  { apply (root_le X (fval (cx * cx + cy * cy)%float) 16385); lra. }
  assert (HXge : 6 # 10 <= X + e22).
  { apply (root_ge (X + e22) (fval (cx * cx + cy * cy)%float) (6 # 10)); lra. }
  lra.
Qed.

Lemma dist_bounds :
  let dx := (JS.Z2F (Z.of_nat x) - JS.Z2F (Z.of_nat w) / 2)%float in
  let dy := (JS.Z2F (Z.of_nat y) - JS.Z2F (Z.of_nat h) / 2)%float in
  let dist := sqrt (dx * dx + dy * dy) in
  coarse dist /\ 0 <= fval dist <= 16386.
Proof.
  intros dx dy dist.
  destruct (offset_square (Z.of_nat w) (Z.of_nat x) ltac:(lia) ltac:(lia))
    as (Hc1 & Hv1).
  destruct (offset_square (Z.of_nat h) (Z.of_nat y) ltac:(lia) ltac:(lia))
    as (Hc2 & Hv2).
  fold dx in Hc1, Hv1. fold dy in Hc2, Hv2.
  pose proof e22_small as [He0 He].
  destruct (gadd (dx * dx) (dy * dy) Hc1 Hc2) as (Hs & Hsv & Hpos & _).
  { change (inject_Z (2 ^ 29)) with 536870912. lra. }
  assert (Hs0 : 0 <= fval (dx * dx + dy * dy)%float) by (apply Hpos; lra).
  destruct (gsqrt (dx * dx + dy * dy) Hs) as (Hd & Hd0 & X & HX0 & HXv & Hlo & Hhi).
  { change (inject_Z (2 ^ 30)) with 1073741824. lra. }
  fold dist in Hd, Hd0, HXv.
  split; [exact Hd|]. split; [exact Hd0|].
  assert (HXle : X <= 16385).
  { apply (root_le X (fval (dx * dx + dy * dy)%float) 16385); lra. }
  lra.
Qed.

(** The distance as a share of the largest one: a finite number that is
    not negative. *)
Lemma ratio_bounds :
  let cx := (JS.Z2F (Z.of_nat w) / 2)%float in
  let cy := (JS.Z2F (Z.of_nat h) / 2)%float in
  let maxDist := sqrt (cx * cx + cy * cy) in
  let dx := (JS.Z2F (Z.of_nat x) - cx)%float in
  let dy := (JS.Z2F (Z.of_nat y) - cy)%float in
  let dist := sqrt (dx * dx + dy * dy) in
  coarse (dist / maxDist) /\ 0 <= fval (dist / maxDist) <= 32773.
Proof.
  intros cx cy maxDist dx dy dist.
  destruct maxDist_bounds as (Hm & Hmv). fold cx cy maxDist in Hm, Hmv.
  destruct dist_bounds as (Hd & Hdv). fold cx cy dx dy dist in Hd, Hdv.
  pose proof e22_small as [He0 He].
  set (T := fval dist / fval maxDist).
  assert (HT : T * fval maxDist == fval dist).
  { unfold T. field. lra. }
  assert (HT0 : 0 <= T).
  { apply (quotient_sign (fval dist) (fval maxDist)); lra. }
  assert (HT1 : T <= 32772).
  { assert (T * fval maxDist <= 16386) by lra. nra. }
  destruct (gdiv dist maxDist T Hd Hm) as (Hq & Hqv & Hpos & _).
  - lra.
  - exact HT.
  - change (inject_Z (2 ^ 29)) with 536870912. lra.
  - split; [exact Hq|]. split; [apply Hpos; exact HT0|]. lra.
Qed.

End Factor.

(** *** vignette: the amount, the factor and the channels *)

(** An amount between 0 and 1. *)
Lemma amount_unit (amount : float) :
  (0 <=? amount)%float = true -> (amount <=? 1)%float = true ->
  expo_le 0 (Prim2SF amount) /\ (0 <= fval amount <= 1)%Q.
Proof.
  rewrite !leb_spec. unfold fval.
  pose proof (Prim2SF_valid amount) as Hv.
  set (one := Prim2SF 1). vm_compute in one. subst one.
  change (Prim2SF 0) with (S754_zero false).
  destruct (Prim2SF amount) as [s|s| |s m e].
  - intros _ _. split; [exact I|]. simpl. lra.
  - intros Hlo Hhi. destruct s; [cbv in Hlo|cbv in Hhi]; discriminate.
  - intros Hlo _. cbv in Hlo. discriminate.
  - intros Hlo Hhi. destruct s; [cbv in Hlo; discriminate|].
    destruct (unit_finite_within false m e Hv 4503599627370496
                ltac:(reflexivity) ltac:(reflexivity) Hhi) as [He Hm].
    split; [exact He|]. pose proof (mag_pos false m e) as Hp.
    unfold val. split; [lra|].
    unfold mag, Qle. cbn [Qnum Qden]. rewrite pow2_pos by lia. lia.
Qed.

Lemma coarse_not_nan (z : float) : coarse z -> is_nan z = false.
Proof.
  unfold coarse, is_nan. rewrite eqb_spec.
  destruct (Prim2SF z) as [s|s| |s m e]; simpl; try contradiction.
  - intros _. destruct s; reflexivity.
  - intros _. unfold SFeqb, SFcompare.
    destruct s; rewrite Z.compare_refl, ?Pos.compare_cont_refl;
      reflexivity.
Qed.

Lemma coarse_times_zero (z : float) :
  coarse z -> is_zero_float (z * 0)%float.
Proof.
  unfold coarse. intros H.
  assert (Hs : exists s, Prim2SF (z * 0) = S754_zero s).
  { rewrite mul_spec. change (Prim2SF 0) with (S754_zero false).
    destruct (Prim2SF z) as [s|s| |s m e]; simpl in H; try contradiction;
      eexists; reflexivity. }
  destruct Hs as [s Hs]. exact (zero_float _ _ Hs).
Qed.

(** The store of a number that is at most a quarter above the byte [c]
    gives at most [c]. *)
Lemma store_le (z : float) (c : Z) :
  coarse z -> 0 <= c -> (fval z <= inject_Z c + (1 # 4))%Q ->
  0 <= JS.ToUint8Clamp z <= c.
Proof.
  intros Hz Hc Hv. split; [apply store_range|].
  unfold JS.ToUint8Clamp. unfold coarse in Hz. unfold fval in Hv.
  destruct (Prim2SF z) as [s|s| |s m e]; simpl in Hz; try contradiction;
    [exact Hc|].
  destruct s; [exact Hc|].
  assert (Hq : JS.round_half_even m e <= c); [|lia].
  unfold JS.round_half_even.
  assert (He : (0 <=? e) = false) by (apply Z.leb_gt; lia).
  rewrite He. cbv zeta.
  set (den := 2 ^ (- e)).
  assert (Hden : 0 < den) by (apply Z.pow_pos_nonneg; lia).
  assert (Hm : 4 * Zpos m <= (4 * c + 1) * den).
  { unfold val, mag, Qle, Qplus in Hv. cbn [Qnum Qden inject_Z] in Hv.
    rewrite pow2_pos in Hv by lia. fold den in Hv. lia. }
  pose proof (Z.div_mod (Zpos m) den ltac:(lia)) as Hdm.
  pose proof (Z.mod_pos_bound (Zpos m) den Hden) as Hr.
  set (q := Zpos m / den) in *. set (r := Zpos m mod den) in *.
  assert (Hqc : q <= c) by nia.
  destruct (Z.compare_spec (2 * r) den) as [E|E|E]; [|lia|].
  - destruct (Z.even q); [lia|]. nia.
  - nia.
Qed.

(** A channel scaled by a factor that is at most 1, clamped below and
    stored: it is not raised. *)
Lemma vignette_channel (f : float) (c : Z) :
  coarse f -> (- (32776) <= fval f <= 1 + e22)%Q -> channel_ok c ->
  0 <= JS.ToUint8Clamp (JS.max 0 (JS.Z2F c * f)) <= c.
Proof.
  intros Hf Hfv Hc. unfold channel_ok in Hc.
  destruct (int_float c ltac:(lia)) as [Hcc Hcv].
  pose proof e22_small as [He0 He].
  pose proof (byte_Q c Hc) as Hb.
  assert (Hprod : (- (8357880) <= fval (JS.Z2F c) * fval f
                   <= inject_Z c + (1 # 8))%Q).
  { rewrite Hcv. split; nra. }
  destruct (gmul (JS.Z2F c) f Hcc Hf) as (Hch & Hchv & _).
  { change (inject_Z (2 ^ 29)) with 536870912%Q. lra. }
  set (ch := (JS.Z2F c * f)%float) in *.
  assert (Hn : is_nan ch = false) by (apply coarse_not_nan; exact Hch).
  unfold JS.max. change (is_nan 0) with false. rewrite Hn. cbn [orb].
  change (get_sign 0) with false. cbv iota.
  destruct (0 <? ch)%float.
  - apply store_le; auto; [lia|lra].
  - destruct (ch <? 0)%float; change (JS.ToUint8Clamp 0) with 0; lia.
Qed.

Lemma vignette_px_darker (f : float) (p : Pixel) :
  coarse f -> (- (32776) <= fval f <= 1 + e22)%Q -> pixel_ok p ->
  darker p (Filters.vignette_px f p).
Proof.
  intros Hf Hfv (HR & HG & HB & _). unfold darker, Filters.vignette_px.
  cbn [R G B A]. split; [reflexivity|].
  auto using vignette_channel.
Qed.

Lemma vignette_px_one (p : Pixel) :
  pixel_ok p -> Filters.vignette_px 1 p = p.
Proof.
  intros (HR & HG & HB & _). unfold Filters.vignette_px.
  assert (H : forall c, channel_ok c ->
                JS.ToUint8Clamp (JS.max 0 (JS.Z2F c * 1)) = c).
  { intros c Hc. apply Z.eqb_eq.
    apply (on_all_bytes vignette_keepb); [vm_compute; reflexivity|exact Hc]. }
  rewrite !H by assumption. destruct p; reflexivity.
Qed.

Section FactorOfAmount.
Variables (w h x y : nat).
Hypothesis Hw : Z.of_nat w <= 16384.
Hypothesis Hh : Z.of_nat h <= 16384.
Hypothesis Hx : (x < w)%nat.
Hypothesis Hy : (y < h)%nat.

(** With an amount between 0 and 1 the factor is at most 1. *)
Lemma factor_bounds (amount : float) :
  (0 <=? amount)%float = true -> (amount <=? 1)%float = true ->
  coarse (Filters.vignette_factor w h amount x y) /\
  (- (32776) <= fval (Filters.vignette_factor w h amount x y) <= 1 + e22)%Q.
Proof.
  intros Hlo Hhi. destruct (amount_unit amount Hlo Hhi) as [Ha Hav].
  unfold Filters.vignette_factor. cbv zeta.
  destruct (ratio_bounds w h x y Hw Hh Hx Hy) as (Hq & Hqv).
  cbv zeta in Hq, Hqv.
  set (ratio := (sqrt _ / sqrt _)%float) in *.
  pose proof e22_small as [He0 He].
  assert (Hprod : (0 <= fval ratio * fval amount <= 32773)%Q) by nra.
  destruct (gmul_unit ratio amount Hq Ha) as (Hp & Hpv & Hpos & _).
  { change (inject_Z (2 ^ 29)) with 536870912%Q. lra. }
  assert (Hp0 : (0 <= fval (ratio * amount)%float)%Q) by (apply Hpos; lra).
  destruct literal_one as [H1 V1].
  destruct (gsub 1 (ratio * amount) H1 Hp) as (Hf & Hfv & _).
  { change (inject_Z (2 ^ 29)) with 536870912%Q. lra. }
  split; [exact Hf|]. lra.
Qed.

(** With the amount 0 the factor is 1. *)
Lemma factor_zero : Filters.vignette_factor w h 0 x y = 1%float.
Proof.
  unfold Filters.vignette_factor. cbv zeta.
  destruct (ratio_bounds w h x y Hw Hh Hx Hy) as (Hq & _).
  cbv zeta in Hq. set (ratio := (sqrt _ / sqrt _)%float) in *.
  destruct (coarse_times_zero ratio Hq) as [-> | ->]; reflexivity.
Qed.

End FactorOfAmount.

(** *** vignette on an image *)

Lemma Forall2_nth_error {X Y : Type} (P : X -> Y -> Prop)
    (l : list X) (l' : list Y) :
  length l' = length l ->
  (forall j a b, nth_error l j = Some a -> nth_error l' j = Some b -> P a b) ->
  Forall2 P l l'.
Proof.
  revert l'. induction l as [|a l IH]; intros [|b l'] Hlen H;
    simpl in Hlen; try discriminate; constructor.
  - apply (H 0%nat); reflexivity.
  - apply IH; [lia|]. intros j a' b' Ha Hb. apply (H (S j)); assumption.
Qed.

Lemma vignette_darkens (pixels : ImageData) (amount : float) :
  wf_image pixels ->
  Z.of_nat (width pixels) <= 16384 -> Z.of_nat (height pixels) <= 16384 ->
  (0 <=? amount)%float = true -> (amount <=? 1)%float = true ->
  Forall2 darker (data pixels) (data (Filters.vignette pixels amount)).
Proof.
  intros [Hlen Hok] Hw Hh Hlo Hhi. unfold Filters.vignette. cbn [data with_data].
  destruct (vignette_rows
              (fun x y =>
                 Filters.vignette_px
                   (Filters.vignette_factor (width pixels) (height pixels)
                      amount x y))
              (width pixels) (height pixels) (data pixels)) as [Hl Hnth].
  apply Forall2_nth_error; [exact Hl|].
  intros j p q Hp Hq. rewrite Hnth, Hp in Hq.
  assert (Hj : (j < height pixels * width pixels)%nat).
  { assert (j < length (data pixels))%nat
      by (apply nth_error_Some; congruence). nia. }
  apply Nat.ltb_lt in Hj. rewrite Hj in Hq. apply Nat.ltb_lt in Hj.
  simpl in Hq. injection Hq as <-.
  assert (Hx : (j mod width pixels < width pixels)%nat)
    by (apply Nat.mod_upper_bound; nia).
  assert (Hy : (j / width pixels < height pixels)%nat)
    by (apply Nat.Div0.div_lt_upper_bound; nia).
  destruct (factor_bounds (width pixels) (height pixels) _ _ Hw Hh Hx Hy
              amount Hlo Hhi) as [Hf Hfv].
  apply vignette_px_darker; auto.
  rewrite Forall_forall in Hok. apply Hok. eapply nth_error_In. exact Hp.
Qed.

Lemma vignette_zero (pixels : ImageData) :
  wf_image pixels ->
  Z.of_nat (width pixels) <= 16384 -> Z.of_nat (height pixels) <= 16384 ->
  Filters.vignette pixels 0 = pixels.
Proof.
  intros Hwf Hw Hh.
  rewrite (vignette_pointwise pixels 0 (fun p => p) Hwf).
  - unfold Filters.each_pixel. rewrite map_id. apply with_data_same.
  - intros x y p Hx Hy Hp.
    rewrite (factor_zero _ _ x y Hw Hh Hx Hy). apply vignette_px_one. exact Hp.
Qed.

(** X24.  [vignette] on a well-formed image of at most 16384 by 16384
    pixels.  With the amount 0 it returns the image as it is.  With an
    amount between 0 and 1 it never brightens: every colour byte of the
    result is at most the byte it replaces, and alpha is kept.  The
    distance of every pixel from the middle, the largest distance and
    their quotient are finite numbers that are not negative, so the
    factor [1 - (dist / maxDist) * amount] is at most 1. *)
Theorem vignette_never_brightens (pixels : ImageData) (amount : float) :
  wf_image pixels ->
  Z.of_nat (width pixels) <= 16384 -> Z.of_nat (height pixels) <= 16384 ->
  (0 <=? amount)%float = true -> (amount <=? 1)%float = true ->
  Filters.vignette pixels 0 = pixels /\
  Forall2 darker (data pixels) (data (Filters.vignette pixels amount)).
Proof.
  intros Hwf Hw Hh Hlo Hhi. split.
  - apply vignette_zero; assumption.
  - apply vignette_darkens; assumption.
Qed.

Lemma vignette_never_brightens_witness :
  Filters.vignette sample_image 0 = sample_image /\
  Forall2 darker (data sample_image)
    (data (Filters.vignette sample_image 0.5)).
Proof.
  apply (vignette_never_brightens sample_image 0.5).
  - apply wf_imageb_ok. reflexivity.
  - simpl. lia.
  - simpl. lia.
  - reflexivity.
  - reflexivity.
Defined.

(** *** The blend of the entry point between its ends *)

(** A strength between 0 and 1 is on the grid. *)
Lemma unit_fin (s : float) :
  (0 <=? s)%float = true -> (s <=? 1)%float = true ->
  fin s /\ (0 <= fval s <= 1)%Q.
Proof.
  intros Hlo Hhi. destruct (amount_unit s Hlo Hhi) as [He Hv].
  split; [|exact Hv]. unfold fin. unfold fval in Hv.
  pose proof (Prim2SF_valid s) as Hval.
  destruct (Prim2SF s) as [sg|sg| |sg m e]; simpl in He; try contradiction;
    [exact I|].
  simpl. apply (bounded_expo sg m e 40 1 Hval); try lia.
  pose proof (mag_pos sg m e) as Hp.
  assert (Hm : (mag (S754_finite sg m e) <= 1)%Q).
  { unfold val in Hv. destruct sg; lra. }
  unfold mag, Qle in Hm. cbn [Qnum Qden] in Hm.
  rewrite pow2_pos in Hm by lia. lia.
Qed.

(** The store of a number that is at most a quarter below the byte [c]
    gives at least [c]. *)
Lemma store_ge (z : float) (c : Z) :
  coarse z -> c <= 255 -> (inject_Z c - (1 # 4) <= fval z)%Q ->
  c <= JS.ToUint8Clamp z.
Proof.
  intros Hz Hc Hv. pose proof (store_range z) as [H0 _].
  destruct (Z_le_gt_dec c 0) as [Hc0|Hc0]; [lia|].
  pose proof (inject_le 1 c ltac:(lia)) as Hc1.
  change (inject_Z 1) with 1%Q in Hc1.
  unfold JS.ToUint8Clamp in *. unfold coarse in Hz. unfold fval in Hv.
  destruct (Prim2SF z) as [s|s| |s m e]; simpl in Hz; try contradiction.
  { simpl in Hv. lra. }
  destruct s.
  { pose proof (mag_pos true m e). unfold val in Hv. lra. }
  assert (Hq : c <= JS.round_half_even m e); [|lia].
  unfold JS.round_half_even.
  assert (He : (0 <=? e) = false) by (apply Z.leb_gt; lia).
  rewrite He. cbv zeta.
  set (den := 2 ^ (- e)).
  assert (Hden : 0 < den) by (apply Z.pow_pos_nonneg; lia).
  assert (Hm : (4 * c - 1) * den <= 4 * Zpos m).
  { unfold val, mag, Qle, Qminus, Qplus, Qopp in Hv.
    cbn [Qnum Qden inject_Z] in Hv.
    rewrite pow2_pos in Hv by lia. fold den in Hv. lia. }
  pose proof (Z.div_mod (Zpos m) den ltac:(lia)) as Hdm.
  pose proof (Z.mod_pos_bound (Zpos m) den Hden) as Hr.
  set (q := Zpos m / den) in *. set (r := Zpos m mod den) in *.
  assert (Hqc : c - 1 <= q) by nia.
  destruct (Z.compare_spec (2 * r) den) as [E|E|E]; [| |lia].
  - destruct (Z.even q); nia.
  - nia.
Qed.

(** A convex combination lies between its ends. *)
Lemma convex_between (o f s : Q) :
  (0 <= s <= 1 -> o <= f ->
   o <= o * (1 - s) + f * s <= f)%Q.
Proof. intros Hs H. split; nra. Qed.

Lemma convex_between_rev (o f s : Q) :
  (0 <= s <= 1 -> f <= o ->
   f <= o * (1 - s) + f * s <= o)%Q.
Proof. intros Hs H. split; nra. Qed.

(** One channel of the blend. *)
Lemma blend_channel_between (s : float) (o f : Z) :
  (0 <=? s)%float = true -> (s <=? 1)%float = true ->
  channel_ok o -> channel_ok f ->
  Z.min o f <=
    JS.ToUint8Clamp (JS.Z2F o * (1 - s) + JS.Z2F f * s) <= Z.max o f.
Proof.
  intros Hlo Hhi Ho Hf. unfold channel_ok in Ho, Hf.
  destruct (unit_fin s Hlo Hhi) as [Hs Hsv].
  destruct (small_int_float o Ho) as (Hof & Hov & _).
  destruct (small_int_float f Hf) as (Hff & Hfv & _).
  destruct literal_1 as [H1 V1].
  pose proof e40_small as [He0 He].
  pose proof (byte_Q o Ho) as Hob. pose proof (byte_Q f Hf) as Hfb.
  destruct (fsub_rounds 1 s H1 Hs) as (Ht & Htv & Htp & _); [lra|].
  assert (Ht0 : (0 <= fval (1 - s)%float)%Q) by (apply Htp; lra).
  set (t := (1 - s)%float) in *.
  destruct (fmul_rounds (JS.Z2F o) t Hof Ht) as (Ha & Hav & _);
    [rewrite Hov; split; nra|].
  destruct (fmul_rounds (JS.Z2F f) s Hff Hs) as (Hb & Hbv & _);
    [rewrite Hfv; split; nra|].
  set (a := (JS.Z2F o * t)%float) in *. set (b := (JS.Z2F f * s)%float) in *.
  assert (Hab : (- (1) <= fval a <= 256 /\ - (1) <= fval b <= 256)%Q).
  { rewrite Hov in Hav. rewrite Hfv in Hbv. split; split; nra. }
  destruct (fadd_rounds a b Ha Hb) as (Hz & Hzv & _); [lra|].
  set (z := (a + b)%float) in *.
  assert (Hnear : (inject_Z o * (1 - fval s) + inject_Z f * fval s
                   - (1 # 8) <= fval z <=
                   inject_Z o * (1 - fval s) + inject_Z f * fval s
                   + (1 # 8))%Q).
  { rewrite Hov in Hav. rewrite Hfv in Hbv. split; nra. }
  assert (Hzc : coarse z) by (apply (expo_le_mono 40); [lia|exact Hz]).
  destruct (Z_le_gt_dec o f) as [Hof'|Hof'].
  - pose proof (convex_between (inject_Z o) (inject_Z f) (fval s) Hsv
                  (inject_le o f Hof')) as Hcv.
    rewrite Z.min_l, Z.max_r by lia. split.
    + apply store_ge; [exact Hzc|lia|lra].
    + apply store_le; [exact Hzc|lia|lra].
  - pose proof (convex_between_rev (inject_Z o) (inject_Z f) (fval s) Hsv
                  (inject_le f o ltac:(lia))) as Hcv.
    rewrite Z.min_r, Z.max_l by lia. split.
    + apply store_ge; [exact Hzc|lia|lra].
    + apply store_le; [exact Hzc|lia|lra].
Qed.

Lemma blend_px_between (s : float) (o f : Pixel) :
  (0 <=? s)%float = true -> (s <=? 1)%float = true ->
  pixel_ok o -> pixel_ok f ->
  between_px o f (ImageProcessing.blend_px s (Some o) f).
Proof.
  intros Hlo Hhi (HRo & HGo & HBo & _) (HRf & HGf & HBf & _).
  unfold between_px, ImageProcessing.blend_px, ImageProcessing.original_chan.
  cbn [R G B A]. split; [reflexivity|].
  auto using blend_channel_between.
Qed.

Lemma blend_data_nth (originalData d : list Pixel) (s : float) (j : nat) :
  nth_error (ImageProcessing.blend_data originalData d s) j =
  option_map (ImageProcessing.blend_px s (nth_error originalData j))
             (nth_error d j).
Proof.
  revert originalData j.
  induction d as [|p d IH]; intros od j; simpl.
  - destruct j; reflexivity.
  - destruct j as [|j]; simpl.
    + destruct od; reflexivity.
    + rewrite IH. destruct od; simpl; [|reflexivity].
      destruct (nth_error d j); simpl; [|reflexivity].
      destruct j; reflexivity.
Qed.

Lemma between_px_same (o f : Pixel) : between_px o f f.
Proof. unfold between_px. lia. Qed.

Lemma between_px_unchanged (o : Pixel) : between_px o o o.
Proof. unfold between_px. lia. Qed.

(** X25.  A partial strength never overshoots.  For every filter id and
    every strength between 0 and 1, each pixel of the image that the
    filter step of [applyFilterToImage] returns has its red, green and
    blue between the byte of the original image and the byte of the
    fully filtered image (the result at strength 1) at the same place,
    and has the alpha of both. *)
Theorem partial_strength_between (image : ImageData) (filterId : string)
    (strength : float) (j : nat) (o f : Pixel) :
  wf_image image ->
  (0 <=? strength)%float = true -> (strength <=? 1)%float = true ->
  nth_error (data image) j = Some o ->
  nth_error (data (ImageProcessing.applyFilter image filterId 1)) j = Some f ->
  exists r,
    nth_error (data (ImageProcessing.applyFilter image filterId strength)) j
    = Some r /\
    between_px o f r /\ A r = A o.
Proof.
  intros Hwf Hlo Hhi Ho Hf. revert Hf.
  unfold ImageProcessing.applyFilter.
  destruct (String.eqb filterId "normal").
  { intros Hf. exists o. rewrite Ho in Hf. injection Hf as <-.
    auto using between_px_unchanged. }
  destruct (InstaFilters.getFilterById filterId) as [filter|] eqn:Hfind.
  2:{ intros Hf. exists o. rewrite Ho in Hf. injection Hf as <-.
      auto using between_px_unchanged. }
  change (1 <? 1)%float with false. cbv iota. intros Hf.
  destruct (found_keeps_frame _ _ Hfind image Hwf)
    as ((Hlen' & Hok') & Hw & Hh & HA).
  assert (HAf : A f = A o).
  { assert (H : nth_error (map A (data (InstaFilters.apply filter image))) j
                = nth_error (map A (data image)) j) by (rewrite HA; reflexivity).
    rewrite !nth_error_map, Hf, Ho in H. simpl in H. congruence. }
  destruct (strength <? 1)%float.
  - cbv zeta. unfold ImageProcessing.blend. cbn [data with_data].
    rewrite blend_data_nth, Hf, Ho. simpl. eexists. split; [reflexivity|].
    destruct Hwf as [_ Hok]. rewrite Forall_forall in Hok, Hok'.
    assert (Hpo : pixel_ok o) by (apply Hok; eapply nth_error_In; exact Ho).
    assert (Hpf : pixel_ok f) by (apply Hok'; eapply nth_error_In; exact Hf).
    split; [apply blend_px_between; assumption|exact HAf].
  - exists f. split; [exact Hf|]. split; [apply between_px_same|exact HAf].
Qed.

Lemma partial_strength_between_witness :
  exists r,
    nth_error
      (data (ImageProcessing.applyFilter sample_image "clarendon" 0.5)) 1
    = Some r /\
    between_px (mkPixel 200 100 50 128) (mkPixel 255 122 51 128) r /\
    A r = 128.
Proof.
  apply (partial_strength_between sample_image "clarendon" 0.5 1
           (mkPixel 200 100 50 128) (mkPixel 255 122 51 128)).
  - apply wf_imageb_ok. reflexivity.
  - reflexivity.
  - reflexivity.
  - reflexivity.
  - vm_compute. reflexivity.
Defined.

(** *** The order of binary64 numbers and of their values *)

(** What validity says of a mantissa: at most 53 bits, and 53 of them
    unless the exponent is the least one. *)
Lemma valid_mantissa (s : bool) (m : positive) (e : Z) :
  valid_binary (S754_finite s m e) = true ->
  Zpos m < 2 ^ 53 /\ - 1074 <= e /\ (- 1074 < e -> 2 ^ 52 <= Zpos m).
Proof.
  unfold SpecFloat.valid_binary, bounded, canonical_mantissa, fexp,
    SpecFloat.emin, prec, emax.
  intros Hv. apply andb_true_iff in Hv. destruct Hv as [Hv _].
  apply Z.eqb_eq in Hv. change IntDef.Z.max with Z.max in Hv.
  pose proof (digits2_pos_bounds m) as [Hlo Hhi].
  set (d := Zpos (digits2_pos m)) in *.
  assert (Hd : 1 <= d) by (unfold d; lia).
  assert (Hd53 : d <= 53) by lia.
  split; [|split].
  - assert (2 ^ d <= 2 ^ 53) by (apply Z.pow_le_mono_r; lia). lia.
  - lia.
  - intros He. assert (Hd' : d = 53) by lia. rewrite Hd' in Hlo.
    exact Hlo.
Qed.

(** The comparison of two magnitudes is the comparison of their
    values. *)
Lemma mag_compare (m1 m2 : positive) (e1 e2 : Z) :
  valid_binary (S754_finite false m1 e1) = true ->
  valid_binary (S754_finite false m2 e2) = true ->
  e1 <= 0 -> e2 <= 0 ->
  match Z.compare e1 e2 with
  | Lt => Lt
  | Gt => Gt
  | Eq => Pos.compare_cont Eq m1 m2
  end = (Zpos m1 * 2 ^ (- e2) ?= Zpos m2 * 2 ^ (- e1)).
Proof.
  intros Hv1 Hv2 He1 He2.
  destruct (valid_mantissa _ _ _ Hv1) as (Hm1 & Hmin1 & Hn1).
  destruct (valid_mantissa _ _ _ Hv2) as (Hm2 & Hmin2 & Hn2).
  assert (Hp1 : 0 < 2 ^ (- e1)) by (apply Z.pow_pos_nonneg; lia).
  assert (Hp2 : 0 < 2 ^ (- e2)) by (apply Z.pow_pos_nonneg; lia).
  destruct (Z.compare_spec e1 e2) as [E|E|E]; symmetry.
  - subst e2. change (Pos.compare_cont Eq m1 m2) with (Zpos m1 ?= Zpos m2).
    symmetry. apply Zmult_compare_compat_r. lia.
  - apply Z.compare_lt_iff.
    assert (Hs : 2 ^ (- e1) = 2 ^ (- e2) * 2 ^ (e2 - e1)).
    { rewrite <- Z.pow_add_r by lia. f_equal. lia. }
    assert (H2 : 2 ^ 1 <= 2 ^ (e2 - e1)) by (apply Z.pow_le_mono_r; lia).
    specialize (Hn2 ltac:(lia)). rewrite Hs. nia.
  - apply Z.compare_gt_iff.
    assert (Hs : 2 ^ (- e2) = 2 ^ (- e1) * 2 ^ (e1 - e2)).
    { rewrite <- Z.pow_add_r by lia. f_equal. lia. }
    assert (H2 : 2 ^ 1 <= 2 ^ (e1 - e2)) by (apply Z.pow_le_mono_r; lia).
    specialize (Hn1 ltac:(lia)). rewrite Hs. nia.
Qed.

(** The comparison of two finite numbers is the comparison of their
    values. *)
Lemma compare_val (x y : spec_float) :
  valid_binary x = true -> valid_binary y = true ->
  expo_le 0 x -> expo_le 0 y ->
  SFcompare x y = Some (val x ?= val y)%Q.
Proof.
  intros Hvx Hvy Hx Hy.
  destruct x as [sx|sx| |sx mx ex], y as [sy|sy| |sy my ey];
    simpl in Hx, Hy; try contradiction.
  - reflexivity.
  - destruct sy; reflexivity.
  - destruct sx; reflexivity.
  - assert (Hvx' : valid_binary (S754_finite false mx ex) = true) by exact Hvx.
    assert (Hvy' : valid_binary (S754_finite false my ey) = true) by exact Hvy.
    pose proof (mag_compare mx my ex ey Hvx' Hvy' ltac:(lia) ltac:(lia)) as H.
    pose proof (mag_compare my mx ey ex Hvy' Hvx' ltac:(lia) ltac:(lia)) as H'.
    assert (Hpx : 0 < 2 ^ (- ex)) by (apply Z.pow_pos_nonneg; lia).
    assert (Hpy : 0 < 2 ^ (- ey)) by (apply Z.pow_pos_nonneg; lia).
    unfold SFcompare, Qcompare.
    destruct sx, sy; unfold val, mag, Qopp; cbn [Qnum Qden];
      rewrite !pow2_pos by lia; f_equal.
    + (* both negative *)
      replace (- Zpos mx * 2 ^ (- ey)) with (- (Zpos mx * 2 ^ (- ey))) by lia.
      replace (- Zpos my * 2 ^ (- ex)) with (- (Zpos my * 2 ^ (- ex))) by lia.
      rewrite Z.compare_opp, <- H'.
      rewrite (Z.compare_antisym ey ex).
      destruct (ey ?= ex); simpl; try reflexivity.
      rewrite Pos.compare_cont_antisym. reflexivity.
    + symmetry. apply Z.compare_lt_iff. nia.
    + symmetry. apply Z.compare_gt_iff. nia.
    + exact H.
Qed.

Lemma ltb_val (x y : float) :
  expo_le 0 (Prim2SF x) -> expo_le 0 (Prim2SF y) ->
  (x <? y)%float = true <-> (fval x < fval y)%Q.
Proof.
  intros Hx Hy. rewrite ltb_spec. unfold SFltb, fval.
  rewrite (compare_val _ _ (Prim2SF_valid x) (Prim2SF_valid y) Hx Hy).
  rewrite Qlt_alt. destruct (val (Prim2SF x) ?= val (Prim2SF y))%Q;
    split; intros H; congruence.
Qed.

Lemma leb_val (x y : float) :
  expo_le 0 (Prim2SF x) -> expo_le 0 (Prim2SF y) ->
  (x <=? y)%float = true <-> (fval x <= fval y)%Q.
Proof.
  intros Hx Hy. rewrite leb_spec. unfold SFleb, fval.
  rewrite (compare_val _ _ (Prim2SF_valid x) (Prim2SF_valid y) Hx Hy).
  rewrite Qle_alt. destruct (val (Prim2SF x) ?= val (Prim2SF y))%Q;
    split; intros H; congruence.
Qed.

(** A number between 0 and a number on a grid is on that grid. *)
Lemma below_on_grid (g : Z) (x y : float) :
  (0 <=? x)%float = true -> (x <=? y)%float = true ->
  expo_le g (Prim2SF y) -> expo_le g (Prim2SF x).
Proof.
  rewrite !leb_spec. change (Prim2SF 0) with (S754_zero false).
  unfold SFleb, SFcompare.
  destruct (Prim2SF x) as [sx|sx| |sx mx ex],
           (Prim2SF y) as [sy|sy| |sy my ey];
    intros H0 Hxy Hy; simpl in Hy |- *; try exact I; try contradiction;
    try discriminate.
  all: try (destruct sx; discriminate).
  destruct sx, sy; try discriminate.
  destruct (Z.compare_spec ex ey); try discriminate; lia.
Qed.

(** *** noise: how far a channel moves *)

Lemma literal_half : fin 0.5 /\ (fval 0.5 == 1 # 2)%Q.
Proof. split; [apply finb_ok; reflexivity|reflexivity]. Qed.

Lemma literal_byte_top : fin 255 /\ (fval 255 == 255)%Q.
Proof. exact literal_255. Qed.

(** A value of [Math.random]. *)
Lemma random_fin (r : float) :
  (0 <=? r)%float = true -> (r <? 1)%float = true ->
  fin r /\ (0 <= fval r <= 1)%Q.
Proof.
  intros Hlo Hhi. apply unit_fin; [exact Hlo|].
  rewrite ltb_spec in Hhi. rewrite leb_spec. unfold SFltb in Hhi.
  unfold SFleb. destruct (SFcompare (Prim2SF r) (Prim2SF 1)) as [[| |]|];
    try discriminate; reflexivity.
Qed.

(** An amount between 0 and the integer [n]. *)
Lemma amount_fin (amount : float) (n : Z) :
  0 <= n <= 1000 ->
  (0 <=? amount)%float = true -> (amount <=? JS.Z2F n)%float = true ->
  fin amount /\ (0 <= fval amount <= inject_Z n)%Q.
Proof.
  intros Hn Hlo Hhi.
  destruct (int_grid 40 n ltac:(lia) ltac:(simpl; lia)) as [Hg Hv].
  assert (Ha : fin amount) by (apply (below_on_grid 40 amount _ Hlo Hhi Hg)).
  split; [exact Ha|].
  assert (Ha0 : expo_le 0 (Prim2SF amount))
    by (apply (expo_le_mono 40); [lia|exact Ha]).
  assert (Hg0 : expo_le 0 (Prim2SF (JS.Z2F n)))
    by (apply (expo_le_mono 40); [lia|exact Hg]).
  apply (leb_val 0 amount I Ha0) in Hlo.
  apply (leb_val amount _ Ha0 Hg0) in Hhi.
  change (fval 0) with 0%Q in Hlo. rewrite Hv in Hhi. split; assumption.
Qed.

(** Half of [n], rounded up. *)
Lemma half_up (n : Z) :
  0 <= n -> (inject_Z n <= 2 * inject_Z ((n + 1) / 2))%Q.
Proof.
  intros Hn. pose proof (Z.div_mod (n + 1) 2 ltac:(lia)) as H.
  pose proof (Z.mod_pos_bound (n + 1) 2 ltac:(lia)) as Hr.
  pose proof (inject_le n (2 * ((n + 1) / 2)) ltac:(lia)) as Hq.
  rewrite inject_Z_mult in Hq. exact Hq.
Qed.

(** From an inequality of rationals back to integers. *)
Lemma below_eighth (a b : Z) :
  (inject_Z a <= inject_Z b + (1 # 8))%Q -> a <= b.
Proof.
  intros H. destruct (Z_le_gt_dec a b) as [Hle|Hgt]; [exact Hle|exfalso].
  pose proof (inject_le (b + 1) a ltac:(lia)) as Hq.
  rewrite inject_Z_plus in Hq. change (inject_Z 1) with 1%Q in Hq. lra.
Qed.

Lemma noise_channel_close (r amount : float) (n c : Z) :
  0 <= n <= 1000 ->
  (0 <=? r)%float = true -> (r <? 1)%float = true ->
  (0 <=? amount)%float = true -> (amount <=? JS.Z2F n)%float = true ->
  channel_ok c ->
  Z.abs (JS.ToUint8Clamp
           (JS.max 0 (JS.min 255 (JS.Z2F c + (r - 0.5) * amount))) - c)
  <= (n + 1) / 2.
Proof.
  intros Hn Hr0 Hr1 Ha0 Ha1 Hc. unfold channel_ok in Hc.
  destruct (random_fin r Hr0 Hr1) as [Hr Hrv].
  destruct (amount_fin amount n Hn Ha0 Ha1) as [Ha Hav].
  destruct (small_int_float c Hc) as (Hcf & Hcv & _).
  destruct literal_half as [Hh Vh].
  pose proof e40_small as [He0 He].
  pose proof (byte_Q c Hc) as Hcb.
  pose proof (inject_le n 1000 ltac:(lia)) as Hn1.
  change (inject_Z 1000) with 1000%Q in Hn1.
  pose proof (half_up n ltac:(lia)) as HK.
  set (K := (n + 1) / 2) in *.
  assert (HK0 : 0 <= K) by (apply Z.div_pos; lia).
  destruct (fsub_rounds r 0.5 Hr Hh) as (Hu & Huv & _); [lra|].
  set (u := (r - 0.5)%float) in *.
  assert (Hub : (- (1 # 2) - e40 <= fval u <= (1 # 2) + e40)%Q) by lra.
  assert (Hprod : (- (inject_Z n * (1 # 2)) - (1 # 32)
                   <= fval u * fval amount
                   <= inject_Z n * (1 # 2) + (1 # 32))%Q) by (split; nra).
  destruct (fmul_rounds u amount Hu Ha) as (Hv & Hvv & _); [lra|].
  set (nv := (u * amount)%float) in *.
  destruct (fadd_rounds (JS.Z2F c) nv Hcf Hv) as (Hs & Hsv & _); [lra|].
  set (sum := (JS.Z2F c + nv)%float) in *.
  assert (Hsum : (inject_Z c - inject_Z K - (1 # 8) <= fval sum
                  <= inject_Z c + inject_Z K + (1 # 8))%Q) by lra.
  assert (Hsc : coarse sum) by (apply (expo_le_mono 40); [lia|exact Hs]).
  assert (Hs0 : expo_le 0 (Prim2SF sum))
    by (apply (expo_le_mono 40); [lia|exact Hs]).
  assert (Hnan : is_nan sum = false) by (apply coarse_not_nan; exact Hsc).
  destruct literal_byte_top as [Ht Vt].
  assert (Ht0 : expo_le 0 (Prim2SF 255))
    by (apply (expo_le_mono 40); [lia|exact Ht]).
  unfold JS.min. change (is_nan 255) with false. rewrite Hnan. cbn [orb].
  change (get_sign 255) with false. cbv iota.
  destruct (255 <? sum)%float eqn:E1.
  - (* clamped at 255 *)
    apply (ltb_val 255 sum Ht0 Hs0) in E1. rewrite Vt in E1.
    change (JS.ToUint8Clamp (JS.max 0 255)) with 255.
    assert (255 <= c + K).
    { apply below_eighth. rewrite inject_Z_plus.
      change (inject_Z 255) with 255%Q. lra. }
    lia.
  - assert (Hy : (if (sum <? 255)%float then sum else sum) = sum)
      by (destruct (sum <? 255)%float; reflexivity).
    rewrite Hy. unfold JS.max. change (is_nan 0) with false.
    rewrite Hnan. cbn [orb]. change (get_sign 0) with false. cbv iota.
    destruct (0 <? sum)%float eqn:E2.
    + (* inside the range *)
      assert (Hup : 0 <= JS.ToUint8Clamp sum <= c + K).
      { apply store_le; [exact Hsc|lia|]. rewrite inject_Z_plus. lra. }
      assert (Hdn : c - K <= JS.ToUint8Clamp sum).
      { apply store_ge; [exact Hsc|lia|].
        unfold Z.sub. rewrite inject_Z_plus, inject_Z_opp. lra. }
      lia.
    + (* clamped at 0 *)
      assert (Hz : (if (sum <? 0)%float then 0 else 0)%float = 0%float)
        by (destruct (sum <? 0)%float; reflexivity).
      rewrite Hz. change (JS.ToUint8Clamp 0) with 0.
      assert (Hle : (fval sum <= 0)%Q).
      { destruct (Qlt_le_dec 0 (fval sum)) as [Hlt|Hle]; [|exact Hle].
        apply (ltb_val 0 sum I Hs0) in Hlt. congruence. }
      assert (c <= K).
      { apply below_eighth. lra. }
      lia.
Qed.

Lemma noise_px_close (r amount : float) (n : Z) (p : Pixel) :
  0 <= n <= 1000 ->
  (0 <=? r)%float = true -> (r <? 1)%float = true ->
  (0 <=? amount)%float = true -> (amount <=? JS.Z2F n)%float = true ->
  pixel_ok p ->
  close_px ((n + 1) / 2) p (Filters.noise_px ((r - 0.5) * amount) p).
Proof.
  intros Hn Hr0 Hr1 Ha0 Ha1 (HR & HG & HB & _).
  unfold close_px, Filters.noise_px. cbn [R G B A].
  split; [reflexivity|]. auto using noise_channel_close.
Qed.

Lemma Forall2_mapi_from {X Y : Type} (P : X -> Y -> Prop)
    (f : nat -> X -> Y) (l : list X) (k : nat) :
  (forall i x, In x l -> P x (f i x)) -> Forall2 P l (mapi_from k f l).
Proof.
  revert k. induction l as [|x l IH]; intros k H; simpl; constructor.
  - apply H. left. reflexivity.
  - apply IH. intros i y Hy. apply H. right. exact Hy.
Qed.

(** X26.  [noise] moves no channel by more than half the amount.  When
    [Math.random] returns values in [0, 1) and the amount is between 0
    and an integer [n] of at most 1000, every colour byte of the result
    differs from the byte it replaces by at most [n / 2] rounded up (10
    for the default amount 20), and alpha is kept. *)
Theorem noise_is_bounded (random : nat -> float) (pixels : ImageData)
    (amount : float) (n : Z) :
  (forall k, (0 <=? random k)%float = true /\
             (random k <? 1)%float = true) ->
  wf_image pixels -> 0 <= n <= 1000 ->
  (0 <=? amount)%float = true -> (amount <=? JS.Z2F n)%float = true ->
  Forall2 (close_px ((n + 1) / 2)) (data pixels)
          (data (Filters.noise random pixels amount)).
Proof.
  intros Hrandom [_ Hok] Hn Ha0 Ha1. unfold Filters.noise.
  cbn [data with_data]. apply Forall2_mapi_from.
  intros i p Hp. destruct (Hrandom i) as [Hr0 Hr1].
  apply noise_px_close; auto.
  rewrite Forall_forall in Hok. apply Hok. exact Hp.
Qed.

Lemma noise_is_bounded_witness :
  Forall2 (close_px 10) (data sample_image)
          (data (Filters.noise (fun _ => 0.25%float) sample_image 20)).
Proof.
  apply (noise_is_bounded (fun _ => 0.25%float) sample_image 20 20).
  - intros k. split; reflexivity.
  - apply wf_imageb_ok. reflexivity.
  - lia.
  - reflexivity.
  - reflexivity.
Defined.

(** *** Clamping and storing a number known up to an eighth *)

(** What [Math.max(0, Math.min(255, z))] is for a finite [z]. *)
Lemma clamp_cases (z : float) :
  coarse z ->
  let w := JS.max 0 (JS.min 255 z) in
  (w = 255%float /\ (255 < fval z)%Q) \/
  (w = 0%float /\ (fval z <= 0)%Q) \/
  (w = z /\ (0 < fval z <= 255)%Q).
Proof.
  intros Hz w. subst w.
  assert (Hz0 : expo_le 0 (Prim2SF z))
    by (apply (expo_le_mono 22); [lia|exact Hz]).
  assert (Hnan : is_nan z = false) by (apply coarse_not_nan; exact Hz).
  destruct literal_255 as [Ht Vt].
  assert (Ht0 : expo_le 0 (Prim2SF 255))
    by (apply (expo_le_mono 40); [lia|exact Ht]).
  unfold JS.min. change (is_nan 255) with false. rewrite Hnan. cbn [orb].
  change (get_sign 255) with false. cbv iota.
  destruct (255 <? z)%float eqn:E1.
  - left. apply (ltb_val 255 z Ht0 Hz0) in E1. rewrite Vt in E1.
    split; [reflexivity|exact E1].
  - assert (Hy : (if (z <? 255)%float then z else z) = z)
      by (destruct (z <? 255)%float; reflexivity).
    rewrite Hy. unfold JS.max. change (is_nan 0) with false.
    rewrite Hnan. cbn [orb]. change (get_sign 0) with false. cbv iota.
    assert (Hle255 : (fval z <= 255)%Q).
    { destruct (Qlt_le_dec 255 (fval z)) as [Hlt|Hle]; [|exact Hle].
      rewrite <- Vt in Hlt. apply (ltb_val 255 z Ht0 Hz0) in Hlt.
      congruence. }
    destruct (0 <? z)%float eqn:E2.
    + right. right. apply (ltb_val 0 z I Hz0) in E2.
      change (fval 0) with 0%Q in E2. split; [reflexivity|lra].
    + right. left.
      assert (Hw : (if (z <? 0)%float then 0 else 0)%float = 0%float)
        by (destruct (z <? 0)%float; reflexivity).
      rewrite Hw. split; [reflexivity|].
      destruct (Qlt_le_dec 0 (fval z)) as [Hlt|Hle]; [|exact Hle].
      apply (ltb_val 0 z I Hz0) in Hlt. congruence.
Qed.

Lemma clamp_store_lower (z : float) (lo : Z) :
  coarse z -> lo <= 255 -> (inject_Z lo - (1 # 8) <= fval z)%Q ->
  lo <= JS.ToUint8Clamp (JS.max 0 (JS.min 255 z)) <= 255.
Proof.
  intros Hz Hlo Hv. split; [|apply store_range].
  destruct (clamp_cases z Hz) as [[-> _]|[[-> Hle]|[-> _]]].
  - change (JS.ToUint8Clamp 255) with 255. exact Hlo.
  - change (JS.ToUint8Clamp 0) with 0. apply below_eighth.
    change (inject_Z 0) with 0%Q. lra.
  - apply store_ge; [exact Hz|exact Hlo|lra].
Qed.

Lemma clamp_store_upper (z : float) (hi : Z) :
  coarse z -> 0 <= hi -> (fval z <= inject_Z hi + (1 # 8))%Q ->
  0 <= JS.ToUint8Clamp (JS.max 0 (JS.min 255 z)) <= hi.
Proof.
  intros Hz Hhi Hv. split; [apply store_range|].
  destruct (clamp_cases z Hz) as [[-> Hgt]|[[-> _]|[-> _]]].
  - change (JS.ToUint8Clamp 255) with 255. apply below_eighth.
    change (inject_Z 255) with 255%Q. lra.
  - change (JS.ToUint8Clamp 0) with 0. exact Hhi.
  - apply store_le; [exact Hz|exact Hhi|lra].
Qed.

Lemma clamp_store_bounds (z : float) (lo hi : Z) :
  coarse z -> lo <= 255 -> 0 <= hi ->
  (inject_Z lo - (1 # 8) <= fval z <= inject_Z hi + (1 # 8))%Q ->
  lo <= JS.ToUint8Clamp (JS.max 0 (JS.min 255 z)) <= hi.
Proof.
  intros Hz Hlo Hhi [Hv1 Hv2].
  pose proof (clamp_store_lower z lo Hz Hlo Hv1).
  pose proof (clamp_store_upper z hi Hz Hhi Hv2). lia.
Qed.

Lemma fin_coarse (z : float) : fin z -> coarse z.
Proof. apply (expo_le_mono 40). lia. Qed.

(** *** colorFilter: towards the overlay colour *)

Lemma overlay_channel_between (adj : float) (c k : Z) :
  (0 <=? adj)%float = true -> (adj <=? 1)%float = true ->
  channel_ok c -> channel_ok k ->
  Z.min c k <=
    JS.ToUint8Clamp (JS.Z2F c - (JS.Z2F c - JS.Z2F k) * adj) <= Z.max c k.
Proof.
  intros Hlo Hhi Hc Hk. unfold channel_ok in Hc, Hk.
  destruct (unit_fin adj Hlo Hhi) as [Ha Hav].
  destruct (small_int_float c Hc) as (Hcf & Hcv & _).
  destruct (small_int_float k Hk) as (Hkf & Hkv & _).
  pose proof e40_small as [He0 He].
  pose proof (byte_Q c Hc) as Hcb. pose proof (byte_Q k Hk) as Hkb.
  destruct (fsub_rounds (JS.Z2F c) (JS.Z2F k) Hcf Hkf) as (Hd & Hdv & _);
    [lra|].
  set (d := (JS.Z2F c - JS.Z2F k)%float) in *.
  assert (Hdb : (- (256) <= fval d <= 256)%Q) by lra.
  destruct (fmul_rounds d adj Hd Ha) as (Hp & Hpv & _); [split; nra|].
  set (pr := (d * adj)%float) in *.
  assert (Hpb : (- (257) <= fval pr <= 257)%Q) by (split; nra).
  destruct (fsub_rounds (JS.Z2F c) pr Hcf Hp) as (Hz & Hzv & _); [lra|].
  set (z := (JS.Z2F c - pr)%float) in *.
  assert (Hnear : (inject_Z c * (1 - fval adj) + inject_Z k * fval adj
                   - (1 # 8) <= fval z <=
                   inject_Z c * (1 - fval adj) + inject_Z k * fval adj
                   + (1 # 8))%Q).
  { rewrite Hcv in Hdv, Hzv. rewrite Hkv in Hdv. split; nra. }
  pose proof (fin_coarse z Hz) as Hzc.
  destruct (Z_le_gt_dec c k) as [Hck|Hck].
  - pose proof (convex_between (inject_Z c) (inject_Z k) (fval adj) Hav
                  (inject_le c k Hck)) as Hcv'.
    rewrite Z.min_l, Z.max_r by lia. split.
    + apply store_ge; [exact Hzc|lia|lra].
    + apply store_le; [exact Hzc|lia|lra].
  - pose proof (convex_between_rev (inject_Z c) (inject_Z k) (fval adj) Hav
                  (inject_le k c ltac:(lia))) as Hcv'.
    rewrite Z.min_r, Z.max_l by lia. split.
    + apply store_ge; [exact Hzc|lia|lra].
    + apply store_le; [exact Hzc|lia|lra].
Qed.

(** X27.  [colorFilter] with a blend amount between 0 and 1 moves every
    colour channel towards the overlay colour and never past it: when
    the overlay colour is a triple of bytes, each byte of the result
    lies between the byte it replaces and the byte of the overlay
    colour; alpha is kept. *)
Theorem colorFilter_towards_colour (pixels : ImageData) (r g b : Z)
    (adj : float) :
  wf_image pixels -> channel_ok r -> channel_ok g -> channel_ok b ->
  (0 <=? adj)%float = true -> (adj <=? 1)%float = true ->
  Forall2 (fun p q => between_px p (paint_px r g b p) q)
    (data pixels)
    (data (Filters.colorFilter pixels
             (JS.Z2F r, JS.Z2F g, JS.Z2F b, adj))).
Proof.
  intros [_ Hok] Hr Hg Hb Hlo Hhi. unfold Filters.colorFilter.
  unfold Filters.each_pixel. cbn [data with_data].
  induction Hok as [|p d Hp Hd IH]; simpl; constructor; [|exact IH].
  destruct Hp as (HR & HG & HB & _).
  unfold between_px, paint_px, Filters.colorFilter_px. cbn [R G B A].
  split; [reflexivity|]. auto using overlay_channel_between.
Qed.

Lemma colorFilter_towards_colour_witness :
  Forall2 (fun p q => between_px p (paint_px 255 165 40 p) q)
    (data sample_image)
    (data (Filters.colorFilter sample_image
             (JS.Z2F 255, JS.Z2F 165, JS.Z2F 40, 0.3%float))).
Proof.
  apply (colorFilter_towards_colour sample_image 255 165 40 0.3);
    try (unfold channel_ok; lia); try reflexivity.
  apply wf_imageb_ok. reflexivity.
Defined.

(** *** rgbAdjust: the direction of a multiplier *)

Lemma multiplier_down (m : float) (c : Z) :
  (0 <=? m)%float = true -> (m <=? 1)%float = true -> channel_ok c ->
  0 <= JS.ToUint8Clamp (JS.max 0 (JS.min 255 (JS.Z2F c * m))) <= c.
Proof.
  intros Hlo Hhi Hc. unfold channel_ok in Hc.
  destruct (unit_fin m Hlo Hhi) as [Hm Hmv].
  destruct (small_int_float c Hc) as (Hcf & Hcv & _).
  pose proof e40_small as [He0 He]. pose proof (byte_Q c Hc) as Hcb.
  destruct (fmul_rounds (JS.Z2F c) m Hcf Hm) as (Hz & Hzv & _);
    [rewrite Hcv; split; nra|].
  apply clamp_store_bounds; [apply fin_coarse; exact Hz|lia|lia|].
  rewrite Hcv in Hzv. change (inject_Z 0) with 0%Q. split; nra.
Qed.

Lemma multiplier_up (m : float) (n c : Z) :
  1 <= n <= 1000 ->
  (1 <=? m)%float = true -> (m <=? JS.Z2F n)%float = true -> channel_ok c ->
  c <= JS.ToUint8Clamp (JS.max 0 (JS.min 255 (JS.Z2F c * m))) <= 255.
Proof.
  intros Hn Hlo Hhi Hc. unfold channel_ok in Hc.
  assert (H0 : (0 <=? m)%float = true).
  { rewrite leb_spec in *. change (Prim2SF 0) with (S754_zero false).
    revert Hlo. set (one := Prim2SF 1). vm_compute in one. subst one.
    unfold SFleb, SFcompare.
    destruct (Prim2SF m) as [s|s| |s mm e]; try (destruct s);
      intros H; try discriminate H; reflexivity. }
  destruct (amount_fin m n ltac:(lia) H0 Hhi) as [Hm Hmv].
  destruct literal_1 as [H1 V1].
  assert (Hm1 : (1 <= fval m)%Q).
  { rewrite <- V1. apply leb_val; auto; apply (expo_le_mono 40); auto; lia. }
  destruct (small_int_float c Hc) as (Hcf & Hcv & _).
  pose proof e40_small as [He0 He]. pose proof (byte_Q c Hc) as Hcb.
  pose proof (inject_le n 1000 ltac:(lia)) as Hn1.
  change (inject_Z 1000) with 1000%Q in Hn1.
  assert (Hprod : (inject_Z c <= fval (JS.Z2F c) * fval m <= 255000)%Q).
  { rewrite Hcv. split; nra. }
  assert (Hz : near (JS.Z2F c * m) (fval (JS.Z2F c) * fval m)).
  { apply gmul; [apply fin_coarse; exact Hcf|apply fin_coarse; exact Hm|].
    change (inject_Z (2 ^ 29)) with 536870912%Q. lra. }
  destruct Hz as (Hzc & Hzv & _). pose proof e22_small as [He20 He2].
  apply clamp_store_lower; [exact Hzc|lia|lra].
Qed.

(** X28.  The direction of [rgbAdjust], channel by channel.  A
    multiplier between 0 and 1 never raises its channel and a multiplier
    between 1 and 1000 never lowers it: every colour byte of the result
    is at most, respectively at least, the byte it replaces, whatever
    the other two multipliers are; alpha is kept. *)
Theorem rgbAdjust_direction (pixels : ImageData) (mr mg mb : float) :
  wf_image pixels ->
  Forall2
    (fun p q =>
       A q = A p /\ scaled mr (R p) (R q) /\ scaled mg (G p) (G q) /\
       scaled mb (B p) (B q))
    (data pixels) (data (Filters.rgbAdjust pixels (mr, mg, mb))).
Proof.
  intros [_ Hok].
  unfold Filters.rgbAdjust, Filters.each_pixel. cbn [data with_data].
  induction Hok as [|p d Hp Hd IH]; simpl; constructor; [|exact IH].
  destruct Hp as (HR & HG & HB & _).
  unfold Filters.rgbAdjust_px. cbn [R G B A].
  split; [reflexivity|].
  assert (H : forall m c, channel_ok c ->
            scaled m c
              (JS.ToUint8Clamp (JS.max 0 (JS.min 255 (JS.Z2F c * m))))).
  { intros m c Hc. split.
    - intros H0 H1. apply multiplier_down; assumption.
    - intros H1 Hn. apply (multiplier_up m 1000); auto. lia. }
  auto.
Qed.

Lemma rgbAdjust_direction_witness :
  Forall2
    (fun p q =>
       A q = A p /\ scaled 0.9 (R p) (R q) /\ scaled 1 (G p) (G q) /\
       scaled 1.5 (B p) (B q))
    (data sample_image)
    (data (Filters.rgbAdjust sample_image (0.9, 1, 1.5)%float)).
Proof.
  apply (rgbAdjust_direction sample_image 0.9 1 1.5).
  apply wf_imageb_ok. reflexivity.
Defined.

(** *** contrast: away from the middle or towards it *)

Lemma literal_259 : coarse 259 /\ (fval 259 == 259)%Q.
Proof. exact (int_float 259 ltac:(lia)). Qed.

Lemma literal_128 : coarse 128 /\ (fval 128 == 128)%Q.
Proof. exact (int_float 128 ltac:(lia)). Qed.

Lemma literal_255c : coarse 255 /\ (fval 255 == 255)%Q.
Proof. exact (int_float 255 ltac:(lia)). Qed.

(** An adjustment between -1 and 1. *)
Lemma signed_unit (adj : float) :
  (-1 <=? adj)%float = true -> (adj <=? 1)%float = true ->
  coarse adj /\ (- (1) <= fval adj <= 1)%Q.
Proof.
  intros Hlo Hhi. pose proof (unit_within adj Hlo Hhi) as Hw.
  unfold fwithin in Hw. unfold coarse, fval.
  pose proof (Prim2SF_valid adj) as Hv.
  destruct (Prim2SF adj) as [s|s| |s m e]; unfold within in Hw;
    try contradiction.
  - split; [exact I|]. simpl. lra.
  - destruct Hw as [He Hm]. split.
    + simpl. apply (bounded_expo s m e 22 1 Hv); lia.
    + pose proof (mag_pos s m e) as Hp.
      assert (Hmag : (mag (S754_finite s m e) <= 1)%Q).
      { unfold mag, Qle. cbn [Qnum Qden]. rewrite pow2_pos by lia. lia. }
      unfold val. destruct s; lra.
Qed.

Section ContrastFactor.
Local Open Scope Q_scope.

(** Products of a factor and a distance from the middle. *)
Lemma stretch_up (f d D e : Q) :
  1 - 2 * e <= f <= 131 -> D - e <= d <= D + e -> 0 <= D <= 127 ->
  0 <= e <= 1 # 4000000 -> D - (1 # 32) <= f * d.
Proof.
  intros Hf Hd HD He. destruct (Qlt_le_dec d 0) as [Hneg|Hpos]; nra.
Qed.

Lemma stretch_down (f d D e : Q) :
  1 - 2 * e <= f <= 131 -> D - e <= d <= D + e -> - (128) <= D <= 0 ->
  0 <= e <= 1 # 4000000 -> f * d <= D + (1 # 32).
Proof.
  intros Hf Hd HD He. destruct (Qlt_le_dec d 0) as [Hneg|Hpos]; nra.
Qed.

Lemma squeeze_up (f d D e : Q) :
  - (2 * e) <= f <= 1 + 2 * e -> D - e <= d <= D + e -> 0 <= D <= 127 ->
  0 <= e <= 1 # 4000000 -> - (1 # 32) <= f * d <= D + (1 # 32).
Proof.
  intros Hf Hd HD He.
  destruct (Qlt_le_dec d 0) as [Hneg|Hpos];
    destruct (Qlt_le_dec f 0) as [Hfn|Hfp]; split; nra.
Qed.

Lemma squeeze_down (f d D e : Q) :
  - (2 * e) <= f <= 1 + 2 * e -> D - e <= d <= D + e ->
  - (128) <= D <= 0 ->
  0 <= e <= 1 # 4000000 -> D - (1 # 32) <= f * d <= 1 # 32.
Proof.
  intros Hf Hd HD He.
  destruct (Qlt_le_dec d 0) as [Hneg|Hpos];
    destruct (Qlt_le_dec f 0) as [Hfn|Hfp]; split; nra.
Qed.

(** The factor of [contrast]: at least 1 for an adjustment that is not
    negative, between 0 and 1 for one that is not positive. *)
Lemma contrast_factor_bounds (adj : float) :
  coarse adj -> - (1) <= fval adj <= 1 ->
  coarse (Filters.contrast_factor adj) /\
  - (2 * e22) <= fval (Filters.contrast_factor adj) <= 131 /\
  (0 <= fval adj -> 1 - 2 * e22 <= fval (Filters.contrast_factor adj)) /\
  (fval adj <= 0 -> fval (Filters.contrast_factor adj) <= 1 + 2 * e22).
Proof.
  intros Ha Hav. unfold Filters.contrast_factor. cbv zeta.
  destruct literal_255c as [H255 V255]. destruct literal_259 as [H259 V259].
  pose proof e22_small as [He0 He].
  destruct (gmul adj 255 Ha H255) as (Hv & Hvv & _).
  { change (inject_Z (2 ^ 29)) with 536870912. rewrite V255. lra. }
  set (av := (adj * 255)%float) in *. rewrite V255 in Hvv.
  destruct (gadd av 255 Hv H255) as (Hs1 & Hs1v & _).
  { change (inject_Z (2 ^ 29)) with 536870912. rewrite V255. lra. }
  set (s1 := (av + 255)%float) in *. rewrite V255 in Hs1v.
  destruct (gmul 259 s1 H259 Hs1) as (Hn & Hnv & _).
  { change (inject_Z (2 ^ 29)) with 536870912. rewrite V259. lra. }
  set (num := (259 * s1)%float) in *. rewrite V259 in Hnv.
  destruct (gsub 259 av H259 Hv) as (Hs2 & Hs2v & _).
  { change (inject_Z (2 ^ 29)) with 536870912. rewrite V259. lra. }
  set (s2 := (259 - av)%float) in *. rewrite V259 in Hs2v.
  destruct (gmul 255 s2 H255 Hs2) as (Hd & Hdv & _).
  { change (inject_Z (2 ^ 29)) with 536870912. rewrite V255. lra. }
  set (den := (255 * s2)%float) in *. rewrite V255 in Hdv.
  assert (Hnum : 259 * (255 * fval adj + 255) - (1 # 4000) <= fval num
                 <= 259 * (255 * fval adj + 255) + (1 # 4000)) by lra.
  assert (Hden : 255 * (259 - 255 * fval adj) - (1 # 4000) <= fval den
                 <= 255 * (259 - 255 * fval adj) + (1 # 4000)) by lra.
  assert (Hden0 : 1019 <= fval den <= 131071) by lra.
  set (T := fval num / fval den).
  assert (HT : T * fval den == fval num) by (unfold T; field; lra).
  assert (HTb : - (1 # 1000000) <= T <= 130).
  { split; nra. }
  destruct (gdiv num den T Hn Hd) as (Hf & Hfv & _).
  - lra.
  - exact HT.
  - change (inject_Z (2 ^ 29)) with 536870912. lra.
  - split; [exact Hf|]. split; [|split].
    + split; [|lra].
      assert (- e22 <= T); [|lra].
      assert (- (519 * e22) <= fval num) by lra. nra.
    + intros H0. assert (1 - e22 <= T); [|lra].
      assert (66045 - 519 * e22 <= fval num) by lra.
      assert (fval den <= 66045 + 511 * e22) by lra. nra.
    + intros H0. assert (T <= 1 + e22); [|lra].
      assert (fval num <= 66045 + 519 * e22) by lra.
      assert (66045 - 511 * e22 <= fval den) by lra. nra.
Qed.

End ContrastFactor.

(** The channel [factor * (c - 128) + 128] before it is clamped. *)
Lemma contrast_channel_value (f : float) (c : Z) :
  coarse f -> (- (2 * e22) <= fval f <= 131)%Q -> channel_ok c ->
  let z := (f * (JS.Z2F c - 128) + 128)%float in
  coarse z /\
  exists d : Q,
    (inject_Z c - 128 - e22 <= d <= inject_Z c - 128 + e22 /\
     fval f * d + 128 - 2 * e22 <= fval z <= fval f * d + 128 + 2 * e22)%Q.
Proof.
  intros Hf Hfv Hc z. unfold channel_ok in Hc.
  destruct (int_float c ltac:(lia)) as [Hcc Hcv].
  destruct literal_128 as [H128 V128].
  pose proof e22_small as [He0 He]. pose proof (byte_Q c Hc) as Hcb.
  destruct (gsub (JS.Z2F c) 128 Hcc H128) as (Hd & Hdv & _).
  { change (inject_Z (2 ^ 29)) with 536870912%Q. rewrite V128. lra. }
  set (dc := (JS.Z2F c - 128)%float) in *. rewrite Hcv, V128 in Hdv.
  assert (Hprod : (- (20000) <= fval f * fval dc <= 20000)%Q) by (split; nra).
  destruct (gmul f dc Hf Hd) as (Hp & Hpv & _).
  { change (inject_Z (2 ^ 29)) with 536870912%Q. lra. }
  set (pr := (f * dc)%float) in *.
  destruct (gadd pr 128 Hp H128) as (Hz & Hzv & _).
  { change (inject_Z (2 ^ 29)) with 536870912%Q. rewrite V128. lra. }
  fold z in Hz, Hzv. rewrite V128 in Hzv.
  split; [exact Hz|]. exists (fval dc). split; lra.
Qed.

Lemma contrast_channel_away (f : float) (c : Z) :
  coarse f -> (1 - 2 * e22 <= fval f <= 131)%Q -> channel_ok c ->
  away_from 128 c
    (JS.ToUint8Clamp
       (JS.max 0 (JS.min 255 (f * (JS.Z2F c - 128) + 128)))).
Proof.
  intros Hf Hfv Hc. pose proof e22_small as [He0 He].
  destruct (contrast_channel_value f c Hf ltac:(lra) Hc)
    as (Hz & d & Hd & Hzv).
  unfold channel_ok in Hc. pose proof (byte_Q c Hc) as Hcb.
  split; intros Hmid.
  - pose proof (inject_le 128 c Hmid) as Hq.
    change (inject_Z 128) with 128%Q in Hq.
    pose proof (stretch_up (fval f) d (inject_Z c - 128) e22 Hfv Hd
                  ltac:(lra) ltac:(lra)) as Hs.
    apply clamp_store_lower; [exact Hz|lia|lra].
  - pose proof (inject_le c 128 Hmid) as Hq.
    change (inject_Z 128) with 128%Q in Hq.
    pose proof (stretch_down (fval f) d (inject_Z c - 128) e22 Hfv Hd
                  ltac:(lra) ltac:(lra)) as Hs.
    apply clamp_store_upper; [exact Hz|lia|lra].
Qed.

Lemma contrast_channel_towards (f : float) (c : Z) :
  coarse f -> (- (2 * e22) <= fval f <= 1 + 2 * e22)%Q -> channel_ok c ->
  towards 128 c
    (JS.ToUint8Clamp
       (JS.max 0 (JS.min 255 (f * (JS.Z2F c - 128) + 128)))).
Proof.
  intros Hf Hfv Hc. pose proof e22_small as [He0 He].
  destruct (contrast_channel_value f c Hf ltac:(lra) Hc)
    as (Hz & d & Hd & Hzv).
  unfold channel_ok in Hc. pose proof (byte_Q c Hc) as Hcb.
  split; intros Hmid.
  - pose proof (inject_le 128 c Hmid) as Hq.
    change (inject_Z 128) with 128%Q in Hq.
    pose proof (squeeze_up (fval f) d (inject_Z c - 128) e22 Hfv Hd
                  ltac:(lra) ltac:(lra)) as Hs.
    apply clamp_store_bounds; [exact Hz|lia|lia|].
    change (inject_Z 128) with 128%Q. lra.
  - pose proof (inject_le c 128 Hmid) as Hq.
    change (inject_Z 128) with 128%Q in Hq.
    pose proof (squeeze_down (fval f) d (inject_Z c - 128) e22 Hfv Hd
                  ltac:(lra) ltac:(lra)) as Hs.
    apply clamp_store_bounds; [exact Hz|lia|lia|].
    change (inject_Z 128) with 128%Q. lra.
Qed.

(** X29.  The direction of [contrast].  With an adjustment between 0 and
    1 every colour byte moves away from the middle value 128 or stays:
    a byte of 128 or more is not lowered and a byte of 128 or less is
    not raised.  With an adjustment between -1 and 0 every colour byte
    moves towards 128 and never past it.  Alpha is kept. *)
Theorem contrast_direction (pixels : ImageData) (adj : float) :
  wf_image pixels ->
  (-1 <=? adj)%float = true -> (adj <=? 1)%float = true ->
  ((0 <=? adj)%float = true ->
   Forall2
     (fun p q =>
        A q = A p /\ away_from 128 (R p) (R q) /\
        away_from 128 (G p) (G q) /\ away_from 128 (B p) (B q))
     (data pixels) (data (Filters.contrast pixels adj))) /\
  ((adj <=? 0)%float = true ->
   Forall2
     (fun p q =>
        A q = A p /\ towards 128 (R p) (R q) /\
        towards 128 (G p) (G q) /\ towards 128 (B p) (B q))
     (data pixels) (data (Filters.contrast pixels adj))).
Proof.
  intros [_ Hok] Hlo Hhi.
  destruct (signed_unit adj Hlo Hhi) as [Ha Hav].
  destruct (contrast_factor_bounds adj Ha Hav) as (Hf & Hfv & Hup & Hdn).
  assert (Ha0 : expo_le 0 (Prim2SF adj))
    by (apply (expo_le_mono 22); [lia|exact Ha]).
  unfold Filters.contrast, Filters.each_pixel. cbn [data with_data].
  cbv zeta. split; intros Hsign.
  - apply (leb_val 0 adj I Ha0) in Hsign. change (fval 0) with 0%Q in Hsign.
    specialize (Hup Hsign).
    induction Hok as [|p d Hp Hd IH]; simpl; constructor; [|exact IH].
    destruct Hp as (HR & HG & HB & _).
    unfold Filters.contrast_px. cbn [R G B A]. split; [reflexivity|].
    split; [|split]; apply contrast_channel_away; auto; lra.
  - apply (leb_val adj 0 Ha0 I) in Hsign. change (fval 0) with 0%Q in Hsign.
    specialize (Hdn Hsign).
    induction Hok as [|p d Hp Hd IH]; simpl; constructor; [|exact IH].
    destruct Hp as (HR & HG & HB & _).
    unfold Filters.contrast_px. cbn [R G B A]. split; [reflexivity|].
    split; [|split]; apply contrast_channel_towards; auto; lra.
Qed.

Lemma contrast_direction_witness :
  ((0 <=? 0.15)%float = true ->
   Forall2
     (fun p q =>
        A q = A p /\ away_from 128 (R p) (R q) /\
        away_from 128 (G p) (G q) /\ away_from 128 (B p) (B q))
     (data sample_image) (data (Filters.contrast sample_image 0.15))) /\
  ((0.15 <=? 0)%float = true ->
   Forall2
     (fun p q =>
        A q = A p /\ towards 128 (R p) (R q) /\
        towards 128 (G p) (G q) /\ towards 128 (B p) (B q))
     (data sample_image) (data (Filters.contrast sample_image 0.15))).
Proof.
  apply (contrast_direction sample_image 0.15).
  - apply wf_imageb_ok. reflexivity.
  - reflexivity.
  - reflexivity.
Defined.

(** *** saturation: away from the luma or towards it *)

Section Saturation.
Local Open Scope Q_scope.

Lemma luma_weights :
  (coarse 0.2989 /\ (2989 # 10000) - (1 # 1000000000) <= fval 0.2989
                    <= (2989 # 10000) + (1 # 1000000000)) /\
  (coarse 0.5870 /\ (5870 # 10000) - (1 # 1000000000) <= fval 0.5870
                    <= (5870 # 10000) + (1 # 1000000000)) /\
  (coarse 0.1140 /\ (1140 # 10000) - (1 # 1000000000) <= fval 0.1140
                    <= (1140 # 10000) + (1 # 1000000000)).
Proof.
  repeat split;
    try (apply fin_coarse, finb_ok; reflexivity);
    unfold Qle; vm_compute; discriminate.
Qed.

(** The luma as [saturation] computes it. *)
Lemma gray_value (r g b : Z) :
  channel_ok r -> channel_ok g -> channel_ok b ->
  let gray := (0.2989 * JS.Z2F r + 0.5870 * JS.Z2F g + 0.1140 * JS.Z2F b)%float
  in
  coarse gray /\
  inject_Z (2989 * r + 5870 * g + 1140 * b) * (1 # 10000) - (1 # 100000)
  <= fval gray <=
  inject_Z (2989 * r + 5870 * g + 1140 * b) * (1 # 10000) + (1 # 100000).
Proof.
  intros Hr Hg Hb gray. unfold channel_ok in Hr, Hg, Hb.
  destruct luma_weights as ((H1 & V1) & (H2 & V2) & (H3 & V3)).
  destruct (int_float r ltac:(lia)) as [Hrc Hrv].
  destruct (int_float g ltac:(lia)) as [Hgc Hgv].
  destruct (int_float b ltac:(lia)) as [Hbc Hbv].
  pose proof e22_small as [He0 He].
  pose proof (byte_Q r Hr) as Hrb. pose proof (byte_Q g Hg) as Hgb.
  pose proof (byte_Q b Hb) as Hbb.
  destruct (gmul 0.2989 (JS.Z2F r) H1 Hrc) as (Ht1 & Ht1v & _).
  { change (inject_Z (2 ^ 29)) with 536870912. rewrite Hrv. split; nra. }
  destruct (gmul 0.5870 (JS.Z2F g) H2 Hgc) as (Ht2 & Ht2v & _).
  { change (inject_Z (2 ^ 29)) with 536870912. rewrite Hgv. split; nra. }
  destruct (gmul 0.1140 (JS.Z2F b) H3 Hbc) as (Ht3 & Ht3v & _).
  { change (inject_Z (2 ^ 29)) with 536870912. rewrite Hbv. split; nra. }
  rewrite Hrv in Ht1v. rewrite Hgv in Ht2v. rewrite Hbv in Ht3v.
  set (t1 := (0.2989 * JS.Z2F r)%float) in *.
  set (t2 := (0.5870 * JS.Z2F g)%float) in *.
  set (t3 := (0.1140 * JS.Z2F b)%float) in *.
  assert (Hb1 : (2989 # 10000) * inject_Z r - (1 # 1000000) <= fval t1
                <= (2989 # 10000) * inject_Z r + (1 # 1000000))
    by (split; nra).
  assert (Hb2 : (5870 # 10000) * inject_Z g - (1 # 1000000) <= fval t2
                <= (5870 # 10000) * inject_Z g + (1 # 1000000))
    by (split; nra).
  assert (Hb3 : (1140 # 10000) * inject_Z b - (1 # 1000000) <= fval t3
                <= (1140 # 10000) * inject_Z b + (1 # 1000000))
    by (split; nra).
  destruct (gadd t1 t2 Ht1 Ht2) as (Hs & Hsv & _).
  { change (inject_Z (2 ^ 29)) with 536870912. lra. }
  set (s := (t1 + t2)%float) in *.
  destruct (gadd s t3 Hs Ht3) as (Hy & Hyv & _).
  { change (inject_Z (2 ^ 29)) with 536870912. lra. }
  fold gray in Hy, Hyv. split; [exact Hy|].
  rewrite !inject_Z_plus, !inject_Z_mult.
  change (inject_Z 2989) with 2989. change (inject_Z 5870) with 5870.
  change (inject_Z 1140) with 1140.
  assert (E1 : (2989 # 10000) * inject_Z r == 2989 * inject_Z r * (1 # 10000))
    by (unfold Qeq; simpl; lia).
  assert (E2 : (5870 # 10000) * inject_Z g == 5870 * inject_Z g * (1 # 10000))
    by (unfold Qeq; simpl; lia).
  assert (E3 : (1140 # 10000) * inject_Z b == 1140 * inject_Z b * (1 # 10000))
    by (unfold Qeq; simpl; lia).
  lra.
Qed.

(** One channel before it is clamped: [-gray * adj + c * (1 + adj)]. *)
Lemma saturation_channel_value (gray adj : float) (c : Z) (Y : Q) :
  coarse gray -> Y - (1 # 100000) <= fval gray <= Y + (1 # 100000) ->
  0 <= Y <= 255 ->
  coarse adj -> - (1) <= fval adj <= 1000 -> channel_ok c ->
  let z := (- gray * adj + JS.Z2F c * (1 + adj))%float in
  coarse z /\
  inject_Z c + fval adj * (inject_Z c - Y) - (1 # 16) <= fval z
  <= inject_Z c + fval adj * (inject_Z c - Y) + (1 # 16).
Proof.
  intros Hg Hgv HY Ha Hav Hc z. unfold channel_ok in Hc.
  destruct (int_float c ltac:(lia)) as [Hcc Hcv].
  destruct literal_one as [H1 V1].
  pose proof e22_small as [He0 He]. pose proof (byte_Q c Hc) as Hcb.
  assert (Hn : coarse (- gray)%float).
  { unfold coarse. rewrite opp_spec. apply expo_le_opp. exact Hg. }
  assert (Hnv : fval (- gray)%float == - fval gray).
  { unfold fval. rewrite opp_spec. apply val_opp. }
  destruct (gmul (- gray)%float adj Hn Ha) as (Ht1 & Ht1v & _).
  { change (inject_Z (2 ^ 29)) with 536870912. rewrite Hnv. split; nra. }
  rewrite Hnv in Ht1v. set (t1 := (- gray * adj)%float) in *.
  destruct (gadd 1 adj H1 Ha) as (Hs & Hsv & _).
  { change (inject_Z (2 ^ 29)) with 536870912. rewrite V1. lra. }
  rewrite V1 in Hsv. set (s := (1 + adj)%float) in *.
  destruct (gmul (JS.Z2F c) s Hcc Hs) as (Ht2 & Ht2v & _).
  { change (inject_Z (2 ^ 29)) with 536870912. rewrite Hcv. split; nra. }
  rewrite Hcv in Ht2v. set (t2 := (JS.Z2F c * s)%float) in *.
  assert (Hb1 : - (Y * fval adj) - (1 # 64) <= fval t1
                <= - (Y * fval adj) + (1 # 64)) by (split; nra).
  assert (Hb2 : inject_Z c * (1 + fval adj) - (1 # 64) <= fval t2
                <= inject_Z c * (1 + fval adj) + (1 # 64)) by (split; nra).
  destruct (gadd t1 t2 Ht1 Ht2) as (Hz & Hzv & _).
  { change (inject_Z (2 ^ 29)) with 536870912. split; nra. }
  fold z in Hz, Hzv. split; [exact Hz|]. split; nra.
Qed.

(** The luma of a pixel as a rational. *)
Lemma luma_facts (p : Pixel) (c : Z) :
  pixel_ok p ->
  let Y := inject_Z (luma p) * (1 # 10000) in
  0 <= Y <= 255 /\
  inject_Z (luma p / 10000) <= Y <= inject_Z ((luma p + 9999) / 10000) /\
  (luma p / 10000 <= 255)%Z /\ (0 <= (luma p + 9999) / 10000)%Z /\
  ((luma p <= 10000 * c)%Z -> Y <= inject_Z c) /\
  ((10000 * c <= luma p)%Z -> inject_Z c <= Y).
Proof.
  intros (HR & HG & HB & _) Y. unfold channel_ok in *.
  assert (HL : (0 <= luma p <= 9999 * 255)%Z) by (unfold luma; lia).
  pose proof (inject_le 0 (luma p) ltac:(lia)) as H0.
  pose proof (inject_le (luma p) (9999 * 255) ltac:(lia)) as H1.
  change (inject_Z 0) with 0 in H0.
  change (inject_Z (9999 * 255)) with 2549745 in H1.
  pose proof (Z.mul_div_le (luma p) 10000 ltac:(lia)) as Hfl.
  pose proof (Z.div_mod (luma p + 9999) 10000 ltac:(lia)) as Hdm.
  pose proof (Z.mod_pos_bound (luma p + 9999) 10000 ltac:(lia)) as Hr.
  pose proof (inject_le (10000 * (luma p / 10000)) (luma p) Hfl) as Hq1.
  pose proof (inject_le (luma p) (10000 * ((luma p + 9999) / 10000))
                ltac:(lia)) as Hq2.
  rewrite inject_Z_mult in Hq1, Hq2.
  change (inject_Z 10000) with 10000 in Hq1, Hq2.
  unfold Y. split; [lra|]. split; [lra|].
  split; [apply Z.div_le_upper_bound; lia|].
  split; [apply Z.div_pos; lia|]. split; intros Hc.
  - pose proof (inject_le _ _ Hc) as Hq. rewrite inject_Z_mult in Hq.
    change (inject_Z 10000) with 10000 in Hq. lra.
  - pose proof (inject_le _ _ Hc) as Hq. rewrite inject_Z_mult in Hq.
    change (inject_Z 10000) with 10000 in Hq. lra.
Qed.

End Saturation.

Lemma max_m1_keeps (adj : float) :
  coarse adj -> (- (1) <= fval adj)%Q -> JS.max (-1) adj = adj.
Proof.
  intros Ha Hav.
  assert (Ha0 : expo_le 0 (Prim2SF adj))
    by (apply (expo_le_mono 22); [lia|exact Ha]).
  assert (Hm : expo_le 0 (Prim2SF (-1))) by (vm_compute; discriminate).
  assert (Vm : (fval (-1) == - (1))%Q) by (vm_compute; reflexivity).
  unfold JS.max. change (is_nan (-1)) with false.
  rewrite (coarse_not_nan adj Ha). cbn [orb].
  change (get_sign (-1)) with true. cbv iota.
  destruct (-1 <? adj)%float; [reflexivity|].
  destruct (adj <? -1)%float eqn:E; [|reflexivity].
  apply (ltb_val adj (-1) Ha0 Hm) in E. rewrite Vm in E. lra.
Qed.

Lemma saturation_px_away (adj : float) (p : Pixel) :
  coarse adj -> (0 <= fval adj <= 1000)%Q -> pixel_ok p ->
  let q := Filters.saturation_px adj p in
  A q = A p /\ away_luma p (R p) (R q) /\ away_luma p (G p) (G q) /\
  away_luma p (B p) (B q).
Proof.
  intros Ha Hav Hp q. subst q. unfold Filters.saturation_px. cbv zeta.
  cbn [R G B A]. split; [reflexivity|].
  destruct Hp as (HR & HG & HB & HA).
  destruct (gray_value (R p) (G p) (B p) HR HG HB) as [Hg Hgv].
  cbv zeta in Hg, Hgv. fold (luma p) in Hgv.
  set (gray := (0.2989 * JS.Z2F (R p) + 0.5870 * JS.Z2F (G p) +
                0.1140 * JS.Z2F (B p))%float) in *.
  assert (Hc : forall c, channel_ok c ->
            away_luma p c
              (JS.ToUint8Clamp
                 (JS.max 0 (JS.min 255
                    (- gray * adj + JS.Z2F c * (1 + adj)))))).
  { intros c Hc.
    destruct (luma_facts p c ltac:(unfold pixel_ok; auto))
      as (HY & _ & _ & _ & Hle & Hge).
    destruct (saturation_channel_value gray adj c _ Hg Hgv HY Ha
                ltac:(lra) Hc) as [Hz Hzv].
    unfold channel_ok in Hc. split; intros Hdir.
    - specialize (Hle Hdir).
      apply clamp_store_lower; [exact Hz|lia|]. nra.
    - specialize (Hge Hdir).
      apply clamp_store_upper; [exact Hz|lia|]. nra. }
  auto.
Qed.

Lemma saturation_px_towards (adj : float) (p : Pixel) :
  coarse adj -> (- (1) <= fval adj <= 0)%Q -> pixel_ok p ->
  let q := Filters.saturation_px adj p in
  A q = A p /\ towards_luma p (R p) (R q) /\ towards_luma p (G p) (G q) /\
  towards_luma p (B p) (B q).
Proof.
  intros Ha Hav Hp q. subst q. unfold Filters.saturation_px. cbv zeta.
  cbn [R G B A]. split; [reflexivity|].
  destruct Hp as (HR & HG & HB & HA).
  destruct (gray_value (R p) (G p) (B p) HR HG HB) as [Hg Hgv].
  cbv zeta in Hg, Hgv. fold (luma p) in Hgv.
  set (gray := (0.2989 * JS.Z2F (R p) + 0.5870 * JS.Z2F (G p) +
                0.1140 * JS.Z2F (B p))%float) in *.
  assert (Hc : forall c, channel_ok c ->
            towards_luma p c
              (JS.ToUint8Clamp
                 (JS.max 0 (JS.min 255
                    (- gray * adj + JS.Z2F c * (1 + adj)))))).
  { intros c Hc.
    destruct (luma_facts p c ltac:(unfold pixel_ok; auto))
      as (HY & Hfc & Hf255 & Hc0 & Hle & Hge).
    destruct (saturation_channel_value gray adj c _ Hg Hgv HY Ha
                ltac:(lra) Hc) as [Hz Hzv].
    unfold channel_ok in Hc. split; intros Hdir.
    - specialize (Hle Hdir).
      apply clamp_store_bounds; [exact Hz|lia|lia|]. split; nra.
    - specialize (Hge Hdir).
      apply clamp_store_bounds; [exact Hz|lia|lia|]. split; nra. }
  auto.
Qed.

Lemma leb_zero_one (x : float) :
  (x <=? 0)%float = true -> (x <=? 1)%float = true.
Proof.
  rewrite !leb_spec. change (Prim2SF 0) with (S754_zero false).
  set (one := Prim2SF 1). vm_compute in one. subst one.
  unfold SFleb, SFcompare.
  destruct (Prim2SF x) as [s|s| |s m e]; try (destruct s);
    intros H; try discriminate H; reflexivity.
Qed.

(** X30.  The direction of [saturation], measured against the luma
    [0.2989 r + 0.5870 g + 0.1140 b] of each pixel.  With an adjustment
    between 0 and 1000 every colour byte moves away from the luma of its
    pixel or stays: a channel at or above the luma is not lowered, one
    at or below it is not raised.  With an adjustment between -1 and 0
    every colour byte moves towards the luma and not past it: it ends
    between the byte it replaces and the luma rounded to the byte on the
    far side.  Alpha is kept. *)
Theorem saturation_direction (pixels : ImageData) (adj : float) :
  wf_image pixels ->
  ((0 <=? adj)%float = true -> (adj <=? 1000)%float = true ->
   Forall2
     (fun p q =>
        A q = A p /\ away_luma p (R p) (R q) /\
        away_luma p (G p) (G q) /\ away_luma p (B p) (B q))
     (data pixels) (data (Filters.saturation pixels adj))) /\
  ((-1 <=? adj)%float = true -> (adj <=? 0)%float = true ->
   Forall2
     (fun p q =>
        A q = A p /\ towards_luma p (R p) (R q) /\
        towards_luma p (G p) (G q) /\ towards_luma p (B p) (B q))
     (data pixels) (data (Filters.saturation pixels adj))).
Proof.
  intros [_ Hok].
  unfold Filters.saturation, Filters.each_pixel. cbn [data with_data].
  cbv zeta. split; intros Hlo Hhi.
  - destruct (amount_fin adj 1000 ltac:(lia) Hlo Hhi) as [Ha Hav].
    change (inject_Z 1000) with 1000%Q in Hav.
    pose proof (fin_coarse adj Ha) as Hc.
    rewrite (max_m1_keeps adj Hc) by lra.
    induction Hok as [|p d Hp Hd IH]; simpl; constructor; [|exact IH].
    apply saturation_px_away; auto.
  - destruct (signed_unit adj Hlo (leb_zero_one adj Hhi)) as [Hc Hav].
    assert (Ha0 : expo_le 0 (Prim2SF adj))
      by (apply (expo_le_mono 22); [lia|exact Hc]).
    apply (leb_val adj 0 Ha0 I) in Hhi. change (fval 0) with 0%Q in Hhi.
    rewrite (max_m1_keeps adj Hc) by lra.
    induction Hok as [|p d Hp Hd IH]; simpl; constructor; [|exact IH].
    apply saturation_px_towards; auto. lra.
Qed.

Lemma saturation_direction_witness :
  ((0 <=? 0.15)%float = true -> (0.15 <=? 1000)%float = true ->
   Forall2
     (fun p q =>
        A q = A p /\ away_luma p (R p) (R q) /\
        away_luma p (G p) (G q) /\ away_luma p (B p) (B q))
     (data sample_image) (data (Filters.saturation sample_image 0.15))) /\
  ((-1 <=? 0.15)%float = true -> (0.15 <=? 0)%float = true ->
   Forall2
     (fun p q =>
        A q = A p /\ towards_luma p (R p) (R q) /\
        towards_luma p (G p) (G q) /\ towards_luma p (B p) (B q))
     (data sample_image) (data (Filters.saturation sample_image 0.15))).
Proof.
  apply (saturation_direction sample_image 0.15).
  apply wf_imageb_ok. reflexivity.
Defined.

End Bounds.
